(** * Graph partitioning and feature-cache merging of graphlearn-for-pytorch

    A shallow embedding of
    - [graphlearn_torch/python/partition/base.py]
      ([PartitionerBase.__init__], [get_edge_index], [_partition_graph],
      [cat_feature_cache]; the feature accessors and feature partitioning,
      the writers, [partition] and the readers) and
    - [graphlearn_torch/python/distributed/dist_dataset.py]
      ([DistDataset.__init__], [node_feat_pb], [edge_feat_pb]),
    followed by the properties of the partitioning outcome, of the cache
    merge, of the partition-book accessors and of the files of a
    partitioning.

    Python integers are [Z]; one-dimensional int64 tensors are [list Z];
    exceptions are the constructors of [exn], carried by [result]. The
    partitioner builds fresh tensors only, so its tensors are values; the
    cache merger and the dataset hand tensor objects around, so theirs are
    references into a store. *)

From Stdlib Require Import Ascii String QArith Qcanon.
From stdpp Require Import base numbers list list_numbers option strings gmap
  sorting pretty.

Open Scope Z_scope.

(** ** Exceptions and the error monad *)

Inductive exn :=
| AssertionError
| IndexError
| KeyError
| RuntimeError
| ZeroDivisionError
| InvalidReference. (* not a Python exception: a read of a location the
                       store does not hold; a live Python reference never
                       dangles *)

Inductive result (A : Type) :=
| Ok (a : A)
| Raise (e : exn).
Arguments Ok {A} a.
Arguments Raise {A} e.

Global Instance result_ret : MRet result := λ A a, Ok a.
Global Instance result_bind : MBind result := λ A B f m,
  match m with Ok a => f a | Raise e => Raise e end.

Global Instance exn_eq_dec : EqDecision exn.
Proof. solve_decision. Defined.

(** [assert c] *)
Definition py_assert (c : bool) : result unit :=
  if c then Ok tt else Raise AssertionError.

(** [a // b] on Python integers: floor division, as [Z.div]. *)
Definition floordiv (a b : Z) : result Z :=
  if decide (b = 0) then Raise ZeroDivisionError else Ok (a `div` b).

(** [range(n)] *)
Definition range (n : Z) : list Z := seqZ 0 n.

(** A [for] loop whose body may raise: the state is threaded from left to
    right and the first exception ends the loop. *)
Fixpoint for_each {A S : Type} (body : S → A → result S) (s : S) (l : list A)
  : result S :=
  match l with
  | [] => Ok s
  | x :: l' => s' ← body s x; for_each body s' l'
  end.

(** A computation over a mutable state [S] that may raise; the state
    reached when an exception is raised stays observable. *)
Definition ST (S A : Type) : Type := S → result A * S.

Global Instance ST_ret {S} : MRet (ST S) := λ A a s, (Ok a, s).
Global Instance ST_bind {S} : MBind (ST S) := λ A B f m s,
  match m s with
  | (Ok a, s') => f a s'
  | (Raise e, s') => (Raise e, s')
  end.

(** A pure, possibly raising step inside [ST]. *)
Definition lift {S A} (r : result A) : ST S A := λ s, (r, s).

(** [a / b] on Python integers. Python rounds the quotient to a float; the
    model keeps the exact rational. *)
Definition truediv (a b : Z) : result Qc :=
  if decide (b = 0) then Raise ZeroDivisionError
  else Ok (Qc_of_Z a / Qc_of_Z b)%Qc.

(** ** One-dimensional tensors *)

Abbreviation tensor := (list Z).

(** [len(t)] *)
Definition len {A : Type} (t : list A) : Z := Z.of_nat (length t).

(** Position denoted by index [i] in a tensor of [n] elements: PyTorch
    accepts [-n <= i < n] and counts negative indices from the end. *)
Definition resolve (n : nat) (i : Z) : option nat :=
  if decide (0 ≤ i < Z.of_nat n) then Some (Z.to_nat i)
  else if decide (- Z.of_nat n ≤ i < 0) then Some (Z.to_nat (i + Z.of_nat n))
  else None.

(** Reading one element, [t[i]]. *)
Definition index_tensor {A : Type} (t : list A) (i : Z) : option A :=
  resolve (length t) i ≫= λ n, t !! n.

(** [t[idx]] for an int64 index tensor [idx]: a gather, [IndexError] when
    an index is out of range. *)
Definition getitem {A : Type} (t : list A) (idx : tensor) : result (list A) :=
  match mapM (index_tensor t) idx with
  | Some r => Ok r
  | None => Raise IndexError
  end.

(** Bound of a Python slice, clamped into [0, n]. *)
Definition slice_bound (n : nat) (i : Z) : nat :=
  Z.to_nat (Z.min (Z.of_nat n) (if decide (i < 0) then Z.max 0 (i + Z.of_nat n) else i)).

(** [t[a:b]] *)
Definition slice {A : Type} (a b : Z) (t : list A) : list A :=
  let lo := slice_bound (length t) a in
  let hi := slice_bound (length t) b in
  take (hi - lo)%nat (drop lo t).

(** [torch.arange(n, dtype=torch.int64)]; a negative bound is rejected. *)
Definition arange (n : Z) : result tensor :=
  if decide (n < 0) then Raise RuntimeError else Ok (seqZ 0 n).

(** [torch.zeros(n, dtype=torch.int64)]; a negative size is rejected. *)
Definition zeros (n : Z) : result tensor :=
  if decide (n < 0) then Raise RuntimeError else Ok (replicate (Z.to_nat n) 0).

(** [t == v], elementwise. *)
Definition eq_scalar (t : tensor) (v : Z) : list bool :=
  (λ x, bool_decide (x = v)) <$> t.

(** Elements of [t] at the positions where [mask] holds. *)
Fixpoint select_mask {A : Type} (t : list A) (mask : list bool) : list A :=
  match t, mask with
  | x :: t', b :: mask' =>
      if b then x :: select_mask t' mask' else select_mask t' mask'
  | _, _ => []
  end.

(** [torch.masked_select(t, mask)]; shapes that differ are broadcast when
    one of them has a single element and rejected otherwise. *)
Definition masked_select {A : Type} (t : list A) (mask : list bool)
  : result (list A) :=
  if decide (length t = length mask) then Ok (select_mask t mask)
  else match t, mask with
       | _, [b] => Ok (if b then t else [])
       | [x], _ => Ok (select_mask (replicate (length mask) x) mask)
       | _, _ => Raise RuntimeError
       end.

(** [torch.cat(ts)] along dimension 0; an empty list of tensors is
    rejected. *)
Definition torch_cat {A : Type} (ts : list (list A)) : result (list A) :=
  match ts with
  | [] => Raise RuntimeError
  | _ => Ok (concat ts)
  end.

(** [t[idx] = v] for a scalar [v]: every indexed position receives [v]. *)
Definition setitem_scalar (t : tensor) (idx : tensor) (v : Z) : result tensor :=
  match mapM (resolve (length t)) idx with
  | Some ps => Ok (foldl (λ acc p, <[p:=v]> acc) t ps)
  | None => Raise IndexError
  end.

(** [t[idx] = vals] for a tensor of values: position [idx[j]] receives
    [vals[j]], in index order; a single value is broadcast and any other
    shape mismatch is rejected. *)
Definition setitem (t : tensor) (idx : tensor) (vals : tensor) : result tensor :=
  if decide (length idx = length vals) then
    match mapM (resolve (length t)) idx with
    | Some ps => Ok (foldl (λ acc pv, <[pv.1:=pv.2]> acc) t (zip ps vals))
    | None => Raise IndexError
    end
  else match vals with
       | [v] => setitem_scalar t idx v
       | _ => Raise RuntimeError
       end.

(** [torch.max(t).item()]; the maximum of an empty tensor is rejected. *)
Definition torch_max (t : tensor) : result Z :=
  match t with
  | [] => Raise RuntimeError
  | x :: t' => Ok (foldl Z.max x t')
  end.

(** ** graphlearn_torch.typing *)

Abbreviation NodeType := string.
Abbreviation EdgeType := (string * string * string)%type.

(** [GraphPartitionData(edge_index=(rows, cols), eids=eids)] *)
Record GraphPartitionData := {
  edge_index : tensor * tensor;
  eids : tensor;
}.

(** A node partition book argument: one [PartitionBook] tensor, or a
    dictionary of them keyed by node type. *)
Inductive NodePartition :=
| Book (pb : tensor)
| BookDict (pbs : gmap NodeType tensor).

(** A tensor object: its address in the store. *)
Abbreviation loc := positive.

(** [FeaturePartitionData(feats, ids, cache_feats, cache_ids)]; the cache
    fields may be [None]. *)
Record FeaturePartitionData := {
  feats : loc;
  ids : loc;
  cache_feats : option loc;
  cache_ids : option loc;
}.

(** ** graphlearn_torch.utils *)

(** The directories that exist. *)
Abbreviation filesystem := (gset string).

(** Modelled from the spec: [ensure_dir] of [graphlearn_torch.utils], which
    is not under src/; the spec names it an opaque directory-creation
    primitive. Afterwards the directory exists. *)
Definition ensure_dir (dir_path : string) : ST filesystem unit :=
  λ fs, (Ok tt, {[dir_path]} ∪ fs).

(** ** PartitionerBase *)

(** [str.lower] on the ASCII letters. *)
Definition lower_ascii (c : ascii) : ascii :=
  let n := nat_of_ascii c in
  if decide (65 ≤ n ≤ 90)%nat then ascii_of_nat (n + 32) else c.

Fixpoint lower (s : string) : string :=
  match s with
  | EmptyString => EmptyString
  | String c s' => String (lower_ascii c) (lower s')
  end.

Module PartitionerBase.

Section PartitionerBase.

(** A feature tensor; the partitioner never looks inside one. *)
Context {Feat : Type}.

(** [num_nodes]: an integer, or a dictionary keyed by node type. *)
Inductive NumNodes :=
| Count (n : Z)
| CountDict (ns : gmap NodeType Z).

(** [edge_index] after [convert_to_tensor]: a pair of row and column
    tensors, or a dictionary of such pairs keyed by edge type. *)
Inductive EdgeIndex :=
| Edges (rows_cols : tensor * tensor)
| EdgesDict (d : gmap EdgeType (tensor * tensor)).

(** [node_feat] and [edge_feat] after [convert_to_tensor]. *)
Inductive Features (K : Type) `{Countable K} :=
| FeatTensor (f : Feat)
| FeatDict (d : gmap K Feat).

(** The graph held by a partitioner. [__init__] sets [data_cls] to
    ['hetero'] exactly when [edge_index] is a dictionary keyed by edge type,
    so the tag is read off the variant. *)
Inductive GraphData :=
| Homo (edge_index : tensor * tensor)
| Hetero (edge_index : gmap EdgeType (tensor * tensor)).

(** The fields of [self] that the methods below read. *)
Record t := {
  output_dir : string;
  num_parts : Z;
  num_nodes : NumNodes;
  graph : GraphData;
  node_feat : option (Features NodeType);
  edge_feat : option (Features EdgeType);
  edge_assign_strategy : string;
  chunk_size : Z;
}.

(** [self.data_cls] *)
Definition data_cls (self : t) : string :=
  match graph self with
  | Homo _ => "homo"
  | Hetero _ => "hetero"
  end.

(** [isinstance(f, dict) or f is None] *)
Definition is_dict_or_None {K} `{Countable K} (f : option (Features K)) : bool :=
  match f with
  | None | Some (FeatDict _ _) => true
  | Some (FeatTensor _ _) => false
  end.

(** [PartitionerBase.__init__]. [convert_to_tensor] is not under src/; the
    arguments are taken as it returns them. *)
Definition __init__
    (output_dir : string) (num_parts : Z) (num_nodes : NumNodes)
    (edge_index : EdgeIndex)
    (node_feat : option (Features NodeType))
    (edge_feat : option (Features EdgeType))
    (edge_assign_strategy : string) (chunk_size : Z)
  : ST filesystem t :=
  _ ← ensure_dir output_dir;
  _ ← lift (py_assert (bool_decide (num_parts > 1)));
  g ← lift
    match num_nodes with
    | CountDict _ =>
        match edge_index with
        | EdgesDict d =>
            _ ← py_assert (is_dict_or_None node_feat);
            _ ← py_assert (is_dict_or_None edge_feat);
            Ok (Hetero d)
        | Edges _ => Raise AssertionError
        end
    | Count _ =>
        match edge_index with
        | Edges rc => Ok (Homo rc)
        | EdgesDict _ => Raise KeyError (* [self.edge_index[0]] *)
        end
    end;
  let edge_assign_strategy := lower edge_assign_strategy in
  _ ← lift (py_assert (bool_decide
         (edge_assign_strategy ∈ ["by_src"; "by_dst"])));
  mret {| output_dir := output_dir; num_parts := num_parts;
          num_nodes := num_nodes; graph := g;
          node_feat := node_feat; edge_feat := edge_feat;
          edge_assign_strategy := edge_assign_strategy;
          chunk_size := chunk_size |}.

(** [PartitionerBase.get_edge_index] *)
Definition get_edge_index (self : t) (etype : option EdgeType)
  : result (tensor * tensor) :=
  match graph self with
  | Hetero d =>
      _ ← py_assert (bool_decide (is_Some etype));
      match etype ≫= λ ty, d !! ty with
      | Some e => Ok e
      | None => Raise KeyError
      end
  | Homo e => Ok e
  end.

(** [target_node_pb[chunk_target_indices]] *)
Definition lookup_book (target_node_pb : NodePartition) (idx : tensor)
  : result tensor :=
  match target_node_pb with
  | Book pb => getitem pb idx
  | BookDict _ => Raise KeyError
  end.

(** Lines 241-254 of [_partition_graph]: the node partition book and the
    endpoint array that decide the shard of an edge. *)
Definition select_target (self : t) (node_pb : NodePartition)
    (etype : option EdgeType) (rows cols : tensor)
  : result (NodePartition * tensor) :=
  if decide ("hetero" = data_cls self) then
    _ ← py_assert (bool_decide (is_Some etype));
    match node_pb, etype with
    | BookDict pbs, Some (src_ntype, _, dst_ntype) =>
        if decide ("by_src" = edge_assign_strategy self) then
          match pbs !! src_ntype with
          | Some pb => Ok (Book pb, rows)
          | None => Raise KeyError
          end
        else
          match pbs !! dst_ntype with
          | Some pb => Ok (Book pb, cols)
          | None => Raise KeyError
          end
    | _, _ => Raise AssertionError
    end
  else
    Ok (node_pb,
        if decide ("by_src" = edge_assign_strategy self) then rows else cols).

(** [res[pidx].append(g)] *)
Definition append_at (res : list (list GraphPartitionData)) (pidx : Z)
    (g : GraphPartitionData) : result (list (list GraphPartitionData)) :=
  match index_tensor res pidx with
  | Some l => Ok (<[Z.to_nat pidx := l ++ [g]]> res)
  | None => Raise IndexError
  end.

(** The body of the chunk loop, lines 260-276. The loop state is
    [(chunk_start_pos, res)]. *)
Definition chunk_body (self : t) (rows cols eids : tensor)
    (edge_num : Z) (target_node_pb : NodePartition) (target_indices : tensor)
    (st : Z * list (list GraphPartitionData)) (_ : Z)
  : result (Z * list (list GraphPartitionData)) :=
  let '(chunk_start_pos, res) := st in
  let chunk_end_pos := Z.min edge_num (chunk_start_pos + chunk_size self) in
  let current_chunk_size := chunk_end_pos - chunk_start_pos in
  chunk_idx ← arange current_chunk_size;
  let chunk_rows := slice chunk_start_pos chunk_end_pos rows in
  let chunk_cols := slice chunk_start_pos chunk_end_pos cols in
  let chunk_eids := slice chunk_start_pos chunk_end_pos eids in
  let chunk_target_indices :=
    slice chunk_start_pos chunk_end_pos target_indices in
  chunk_partition_idx ← lookup_book target_node_pb chunk_target_indices;
  res ← for_each (λ res pidx,
      let mask := eq_scalar chunk_partition_idx pidx in
      idx ← masked_select chunk_idx mask;
      r ← getitem chunk_rows idx;
      c ← getitem chunk_cols idx;
      e ← getitem chunk_eids idx;
      append_at res pidx {| edge_index := (r, c); eids := e |})
    res (range (num_parts self));
  Ok (chunk_start_pos + current_chunk_size, res).

(** The body of the final loop, lines 281-288. The loop state is
    [(partition_book, partition_results)]. *)
Definition collect_body (res : list (list GraphPartitionData))
    (st : tensor * list GraphPartitionData) (pidx : Z)
  : result (tensor * list GraphPartitionData) :=
  let '(partition_book, partition_results) := st in
  match index_tensor res pidx with
  | None => Raise IndexError
  | Some rs =>
      p_rows ← torch_cat ((λ r, (edge_index r).1) <$> rs);
      p_cols ← torch_cat ((λ r, (edge_index r).2) <$> rs);
      p_eids ← torch_cat (eids <$> rs);
      partition_book ← setitem_scalar partition_book p_eids pidx;
      Ok (partition_book,
          partition_results ++ [{| edge_index := (p_rows, p_cols);
                                   eids := p_eids |}])
  end.

(** [PartitionerBase._partition_graph] *)
Definition _partition_graph (self : t) (node_pb : NodePartition)
    (etype : option EdgeType)
  : result (list GraphPartitionData * tensor) :=
  edge_index ← get_edge_index self etype;
  let '(rows, cols) := edge_index in
  let edge_num := len rows in
  eids ← arange edge_num;
  '(target_node_pb, target_indices) ←
    select_target self node_pb etype rows cols;
  chunk_num ← floordiv (edge_num + chunk_size self - 1) (chunk_size self);
  let chunk_start_pos := 0 in
  let res := replicate (Z.to_nat (num_parts self)) [] in
  '(_, res) ← for_each
    (chunk_body self rows cols eids edge_num target_node_pb target_indices)
    (chunk_start_pos, res) (range chunk_num);
  partition_book ← zeros edge_num;
  '(partition_book, partition_results) ←
    for_each (collect_body res) (partition_book, []) (range (num_parts self));
  Ok (partition_results, partition_book).

End PartitionerBase.

Arguments t : clear implicits.
Arguments Features Feat K {_ _}.
Arguments FeatTensor {Feat K _ _} f.
Arguments FeatDict {Feat K _ _} d.
Arguments chunk_body : simpl never.

End PartitionerBase.

(** ** The tensor store and [cat_feature_cache] *)

Section FeatureCache.

(** A row of a two-dimensional feature tensor. All rows have one width:
    [torch.cat] of feature tensors whose widths differ raises, and the
    row type leaves that out. *)
Context {Row : Type}.

(** Modelled from the spec: [id2idx] of [graphlearn_torch.utils], which is
    not under src/; it builds a new id-to-index tensor from a tensor of
    ids. *)
Context (id2idx : tensor → result tensor).

(** The tensor objects that exist, by address: int64 tensors (ids, index
    maps, partition books) and feature tensors. *)
Record store := {
  int_tensors : gmap loc tensor;
  feat_tensors : gmap loc (list Row);
}.

Definition read_int (l : loc) : ST store tensor := λ h,
  (match int_tensors h !! l with
   | Some v => Ok v
   | None => Raise InvalidReference
   end, h).

Definition read_feat (l : loc) : ST store (list Row) := λ h,
  (match feat_tensors h !! l with
   | Some v => Ok v
   | None => Raise InvalidReference
   end, h).

(** A new int64 tensor object. *)
Definition new_int (v : tensor) : ST store loc := λ h,
  let l := fresh (dom (int_tensors h)) in
  (Ok l, {| int_tensors := <[l:=v]> (int_tensors h);
            feat_tensors := feat_tensors h |}).

(** A new feature tensor object. *)
Definition new_feat (v : list Row) : ST store loc := λ h,
  let l := fresh (dom (feat_tensors h)) in
  (Ok l, {| int_tensors := int_tensors h;
            feat_tensors := <[l:=v]> (feat_tensors h) |}).

(** Overwriting the contents of an int64 tensor object in place. *)
Definition write_int (l : loc) (v : tensor) : ST store unit := λ h,
  (Ok tt, {| int_tensors := <[l:=v]> (int_tensors h);
             feat_tensors := feat_tensors h |}).

(** [t.size(0)] *)
Definition size0 (l : loc) : ST store Z := v ← read_int l; mret (len v).

(** [t[idx] = vals], in place. *)
Definition setitem_at (l idx : loc) (vals : tensor) : ST store unit :=
  v ← read_int l;
  i ← read_int idx;
  v' ← lift (setitem v i vals);
  write_int l v'.

(** [t[idx] = x] for a scalar [x], in place. *)
Definition setitem_scalar_at (l idx : loc) (x : Z) : ST store unit :=
  v ← read_int l;
  i ← read_int idx;
  v' ← lift (setitem_scalar v i x);
  write_int l v'.

(** [cat_feature_cache], lines 606-647. *)
Definition cat_feature_cache (partition_idx : Z)
    (feat_pdata : FeaturePartitionData) (feat_pb : loc)
  : ST store (Qc * loc * loc * loc) :=
  let feats := feats feat_pdata in
  let ids := ids feat_pdata in
  match cache_feats feat_pdata, cache_ids feat_pdata with
  | Some cache_feats, Some cache_ids =>
      n_cache ← size0 cache_ids;
      n_ids ← size0 ids;
      cache_ratio ← lift (truediv n_cache (n_cache + n_ids));
      (* cat features *)
      cf ← read_feat cache_feats;
      f ← read_feat feats;
      new_feats ← new_feat (cf ++ f);
      (* compute id2idx *)
      cv ← read_int cache_ids;
      m_cache ← lift (torch_max cv);
      iv ← read_int ids;
      m_ids ← lift (torch_max iv);
      let max_id := Z.max m_cache m_ids in
      z ← lift (zeros (max_id + 1));
      nid2idx ← new_int z;
      a ← lift (arange n_ids);
      _ ← setitem_at nid2idx ids ((λ x, x + n_cache) <$> a);
      a ← lift (arange n_cache);
      _ ← setitem_at nid2idx cache_ids a;
      (* modify partition book *)
      pb ← read_int feat_pb;
      new_feat_pb ← new_int pb;
      _ ← setitem_scalar_at new_feat_pb cache_ids partition_idx;
      mret (cache_ratio, new_feats, nid2idx, new_feat_pb)
  | _, _ =>
      iv ← read_int ids;
      m ← lift (id2idx iv);
      nid2idx ← new_int m;
      mret (0%Qc, feats, nid2idx, feat_pb)
  end.

End FeatureCache.

Arguments store : clear implicits.

(** ** DistDataset *)

Module DistDataset.

Section DistDataset.

(** The graph, feature and label objects a dataset holds; the accessors
    below never look inside them. *)
Context {Graph Feature Labels : Type}.

(** A partition book argument: one [PartitionBook] object, or a dictionary
    of them keyed by type. *)
Inductive Books (K : Type) `{Countable K} :=
| OneBook (pb : loc)
| BookPerType (pbs : gmap K loc).

Record t := {
  num_partitions : Z;
  partition_idx : Z;
  graph : option Graph;
  node_features : option Feature;
  edge_features : option Feature;
  node_labels : option Labels;
  node_pb : option (Books NodeType);
  edge_pb : option (Books EdgeType);
  _node_feat_pb : option (Books NodeType);
  _edge_feat_pb : option (Books EdgeType);
}.

(** [DistDataset.__init__]. Modelled from the spec: [Dataset.__init__] of
    [graphlearn_torch.data], which is not under src/, keeps the graph,
    the features and the labels it is handed. *)
Definition __init__ (num_partitions partition_idx : Z)
    (graph_partition : option Graph)
    (node_feature_partition edge_feature_partition : option Feature)
    (whole_node_labels : option Labels)
    (node_pb : option (Books NodeType)) (edge_pb : option (Books EdgeType))
    (node_feat_pb : option (Books NodeType))
    (edge_feat_pb : option (Books EdgeType))
  : result t :=
  let self := {|
    num_partitions := num_partitions;
    partition_idx := partition_idx;
    graph := graph_partition;
    node_features := node_feature_partition;
    edge_features := edge_feature_partition;
    node_labels := whole_node_labels;
    node_pb := node_pb;
    edge_pb := edge_pb;
    _node_feat_pb := node_feat_pb;
    _edge_feat_pb := edge_feat_pb |} in
  _ ← (if bool_decide (is_Some (graph self))
       then py_assert (bool_decide (is_Some (node_pb)))
       else Ok tt);
  _ ← (if bool_decide (is_Some (node_features self))
       then py_assert (bool_decide (is_Some node_pb)
                       || bool_decide (is_Some node_feat_pb))
       else Ok tt);
  _ ← (if bool_decide (is_Some (edge_features self))
       then py_assert (bool_decide (is_Some edge_pb)
                       || bool_decide (is_Some edge_feat_pb))
       else Ok tt);
  Ok self.

(** The [node_feat_pb] property. *)
Definition node_feat_pb (self : t) : option (Books NodeType) :=
  match _node_feat_pb self with
  | None => node_pb self
  | Some pb => Some pb
  end.

(** The [edge_feat_pb] property. *)
Definition edge_feat_pb (self : t) : option (Books EdgeType) :=
  match _edge_feat_pb self with
  | None => edge_pb self
  | Some pb => Some pb
  end.

End DistDataset.

Arguments t : clear implicits.
Arguments Books K {_ _}.
Arguments OneBook {K _ _} pb.
Arguments BookPerType {K _ _} pbs.

End DistDataset.

(** ** Vocabulary of the statements *)

(** The partitioner [self] with another chunk size. *)
Definition with_chunk_size {Feat} (c : Z) (self : PartitionerBase.t Feat)
  : PartitionerBase.t Feat :=
  {| PartitionerBase.output_dir := PartitionerBase.output_dir self;
     PartitionerBase.num_parts := PartitionerBase.num_parts self;
     PartitionerBase.num_nodes := PartitionerBase.num_nodes self;
     PartitionerBase.graph := PartitionerBase.graph self;
     PartitionerBase.node_feat := PartitionerBase.node_feat self;
     PartitionerBase.edge_feat := PartitionerBase.edge_feat self;
     PartitionerBase.edge_assign_strategy :=
       PartitionerBase.edge_assign_strategy self;
     PartitionerBase.chunk_size := c |}.

(** The edge list that [_partition_graph] reads is a pair of parallel
    arrays: as many sources as destinations. *)
Definition edge_list_well_formed {Feat} (self : PartitionerBase.t Feat)
    (etype : option EdgeType) : Prop :=
  match PartitionerBase.get_edge_index self etype with
  | Ok (rows, cols) => length rows = length cols
  | Raise _ => True
  end.

(** The shard that the book [pb] gives to the designated endpoint of the
    edge with id [e], where [tgt] lists the designated endpoints. *)
Definition designated_shard (pb tgt : tensor) (e : Z) : option Z :=
  index_tensor tgt e ≫= index_tensor pb.

(** The scenario of the spec: six nodes on a directed cycle, two shards,
    nodes 0-2 in shard 0 and nodes 3-5 in shard 1. *)
Definition cycle6 (strategy : string) (c : Z) : PartitionerBase.t unit :=
  {| PartitionerBase.output_dir := "out";
     PartitionerBase.num_parts := 2;
     PartitionerBase.num_nodes := PartitionerBase.Count 6;
     PartitionerBase.graph :=
       PartitionerBase.Homo ([0; 1; 2; 3; 4; 5], [1; 2; 3; 4; 5; 0]);
     PartitionerBase.node_feat := None;
     PartitionerBase.edge_feat := None;
     PartitionerBase.edge_assign_strategy := strategy;
     PartitionerBase.chunk_size := c |}.

Definition cycle6_book : tensor := [0; 0; 0; 1; 1; 1].

(** A graph with two node types: edges from the three nodes of type ["a"]
    to the two nodes of type ["b"]. *)
Definition two_types (strategy : string) (c : Z) : PartitionerBase.t unit :=
  {| PartitionerBase.output_dir := "out";
     PartitionerBase.num_parts := 2;
     PartitionerBase.num_nodes :=
       PartitionerBase.CountDict {[ "a" := 3; "b" := 2 ]};
     PartitionerBase.graph :=
       PartitionerBase.Hetero
         {[ ("a", "to", "b") := ([0; 1; 2; 2], [0; 1; 1; 0]) ]};
     PartitionerBase.node_feat := None;
     PartitionerBase.edge_feat := None;
     PartitionerBase.edge_assign_strategy := strategy;
     PartitionerBase.chunk_size := c |}.

Definition two_types_books : NodePartition :=
  BookDict {[ "a" := [0; 0; 1]; "b" := [1; 0] ]}.

(** The values that the cache branch of [cat_feature_cache] computes from
    the contents of its arguments: cache rows [cf], owned rows [f], cache
    ids [cv], owned ids [iv] and partition book [pb]. *)
Definition merge_values {Row} (partition_idx : Z) (cf f : list Row)
    (cv iv pb : tensor) : result (Qc * list Row * tensor * tensor) :=
  cache_ratio ← truediv (len cv) (len cv + len iv);
  m_cache ← torch_max cv;
  m_ids ← torch_max iv;
  z ← zeros (Z.max m_cache m_ids + 1);
  a ← arange (len iv);
  z1 ← setitem z iv ((λ x, x + len cv) <$> a);
  a' ← arange (len cv);
  nid2idx ← setitem z1 cv a';
  new_feat_pb ← setitem_scalar pb cv partition_idx;
  Ok (cache_ratio, cf ++ f, nid2idx, new_feat_pb).

(** A feature partition and a partition book laid out in a store: the
    objects exist and hold these contents. *)
Record holds {Row} (h : store Row) (feat_pdata : FeaturePartitionData)
    (feat_pb : loc) (cf f : list Row) (cv iv pb : tensor) : Prop := {
  holds_feats : feat_tensors h !! feats feat_pdata = Some f;
  holds_ids : int_tensors h !! ids feat_pdata = Some iv;
  holds_cache_feats :
    ∃ l, cache_feats feat_pdata = Some l ∧ feat_tensors h !! l = Some cf;
  holds_cache_ids :
    ∃ l, cache_ids feat_pdata = Some l ∧ int_tensors h !! l = Some cv;
  holds_pb : int_tensors h !! feat_pb = Some pb;
}.

(** Every object of [h] is in [h'] with the contents it had. *)
Definition unchanged {Row} (h h' : store Row) : Prop :=
  (∀ l v, int_tensors h !! l = Some v → int_tensors h' !! l = Some v) ∧
  (∀ l v, feat_tensors h !! l = Some v → feat_tensors h' !! l = Some v).

(** The id-to-index map that the merge computes from non-negative ids. *)
Definition index_map (cv iv : tensor) (max_id : Z) : tensor :=
  foldl (λ acc pv, <[pv.1:=pv.2]> acc)
    (foldl (λ acc pv, <[pv.1:=pv.2]> acc)
       (replicate (Z.to_nat (max_id + 1)) 0)
       (zip (Z.to_nat <$> iv) ((λ x, x + len cv) <$> seqZ 0 (len iv))))
    (zip (Z.to_nat <$> cv) (seqZ 0 (len cv))).

(** The scenario of the spec: shard 0 owns the rows of ids 10 and 11 and
    caches the row of id 5, which shard 1 owns. Object 1 of each kind
    holds the owned ids and rows, object 2 the cached ones, and object 3
    is the node partition book. *)
Definition scenario_store : store (list Z) :=
  {| int_tensors :=
       {[ 1%positive := [10; 11]; 2%positive := [5];
          3%positive := [1; 1; 1; 1; 1; 1; 1; 1; 1; 1; 0; 0] ]};
     feat_tensors :=
       {[ 1%positive := [[10; 10; 10; 10]; [11; 11; 11; 11]];
          2%positive := [[5; 5; 5; 5]] ]} |}.

Definition scenario_partition : FeaturePartitionData :=
  {| feats := 1%positive; ids := 1%positive;
     cache_feats := Some 2%positive; cache_ids := Some 2%positive |}.

Definition scenario_partition_no_cache : FeaturePartitionData :=
  {| feats := 1%positive; ids := 1%positive;
     cache_feats := None; cache_ids := None |}.

(** An [id2idx] to run the scenario with: position [i] of the result holds
    the index of id [i] among the ids, and zero for other ids. *)
Definition scenario_id2idx (iv : tensor) : result tensor :=
  m ← torch_max iv;
  z ← zeros (m + 1);
  a ← arange (len iv);
  setitem z iv a.

(** ** The partitioning outcome, stated without chunks *)

(** The concatenations that the final loop takes of a shard's list. *)
Definition cat_rows (rs : list GraphPartitionData) : tensor :=
  concat ((λ r, (edge_index r).1) <$> rs).
Definition cat_cols (rs : list GraphPartitionData) : tensor :=
  concat ((λ r, (edge_index r).2) <$> rs).
Definition cat_eids (rs : list GraphPartitionData) : tensor :=
  concat (eids <$> rs).

(** Where the chunk that starts at [s] ends. *)
Definition chunk_end (n : nat) (chunk_size : Z) (s : nat) : nat :=
  (n `min` (s + Z.to_nat chunk_size))%nat.

(** What the chunk [s, e) adds to the list of shard [k], given the shards
    [sh] of the designated endpoints of the chunk. *)
Definition piece (rows cols ids : tensor) (s e : nat) (sh : tensor) (k : Z)
  : GraphPartitionData :=
  let mask := eq_scalar sh k in
  {| edge_index := (select_mask (take (e - s) (drop s rows)) mask,
                    select_mask (take (e - s) (drop s cols)) mask);
     eids := select_mask (take (e - s) (drop s ids)) mask |}.

(** Shard [k]'s data: the edges, in input order, whose designated endpoint
    the book sends to [k]; [sh] lists the shard of every edge. *)
Definition shard_data (rows cols sh : tensor) (k : Z) : GraphPartitionData :=
  let mask := eq_scalar sh k in
  {| edge_index := (select_mask rows mask, select_mask cols mask);
     eids := select_mask (seqZ 0 (len rows)) mask |}.

(** The entry the edge partition book holds for an edge whose designated
    endpoint lies in shard [s]: no round of the final loop writes an entry
    for a shard outside [0, num_parts), which keeps its initial zero. *)
Definition book_entry (num_parts s : Z) : Z :=
  if decide (0 ≤ s < num_parts) then s else 0.

(** What [_partition_graph] returns for a positive chunk size, whatever
    that size is. *)
Definition partition_outcome (num_parts : Z) (rows cols : tensor)
    (target_node_pb : NodePartition) (target_indices : tensor)
  : result (list GraphPartitionData * tensor) :=
  if decide (rows = []) then
    if decide (num_parts ≤ 0) then Ok ([], []) else Raise RuntimeError
  else
    sh ← PartitionerBase.lookup_book target_node_pb target_indices;
    Ok (shard_data rows cols sh <$> range num_parts,
        book_entry num_parts <$> sh).

(** * Feature partitions and the files of a partitioning

    The rest of [partition/base.py]: the feature accessors
    ([get_node_feat], [get_edge_feat]), the feature partitioning
    ([_partition_node_feat], [_partition_edge_feat]), the writers
    ([save_meta], [save_node_pb], [save_edge_pb], [save_graph_partition],
    [save_feature_partition]), [partition], and the readers
    ([_load_graph_partition_data], [_load_feature_partition_data],
    [load_partition]). The partitioner hands its tensors to the writers by
    value, and the readers return the values stored. *)

(** ** Feature partitions by value *)

Module Val.

(** [FeaturePartitionData(feats, ids, cache_feats, cache_ids)] holding
    the tensors themselves: the rows and the ids, and the cached rows and
    ids, each of which may be [None]. *)
Record FeaturePartitionData (Row : Type) := {
  feats : list Row;
  ids : tensor;
  cache_feats : option (list Row);
  cache_ids : option tensor;
}.
Arguments feats {Row} _.
Arguments ids {Row} _.
Arguments cache_feats {Row} _.
Arguments cache_ids {Row} _.

End Val.

(** ** Paths *)

(** The characters of a path. *)
Abbreviation chars := list_ascii_of_string.

(** [s.startswith('/')] *)
Definition starts_with_sep (s : string) : bool :=
  match s with
  | String c _ => bool_decide (c = "/"%char)
  | EmptyString => false
  end.

(** [s.endswith('/')] *)
Definition ends_with_sep (s : string) : bool :=
  match reverse (chars s) with
  | c :: _ => bool_decide (c = "/"%char)
  | [] => false
  end.

(** [os.path.join(a, b)] of [posixpath]: an absolute [b] replaces [a];
    otherwise [b] is appended, after a separator unless [a] is empty or
    ends with one. [os.path.join(a, b, c)] is
    [path_join (path_join a b) c]. *)
Definition path_join (a b : string) : string :=
  if starts_with_sep b then b
  else if bool_decide (a = "") || ends_with_sep a then a +:+ b
  else a +:+ "/" +:+ b.

(** A reversed path without its last component: what is left from the
    last separator on. *)
Fixpoint strip_name (r : list ascii) : list ascii :=
  match r with
  | [] => []
  | c :: r' => if decide (c = "/"%char) then r else strip_name r'
  end.

(** A reversed path without the separators it starts with. *)
Fixpoint strip_seps (r : list ascii) : list ascii :=
  match r with
  | [] => []
  | c :: r' => if decide (c = "/"%char) then strip_seps r' else r
  end.

(** [os.path.dirname(p)] of [posixpath]: the path up to its last
    separator, without trailing separators unless it consists of
    separators only. *)
Definition dirname (p : string) : string :=
  let head := strip_name (reverse (chars p)) in
  let stripped := strip_seps head in
  string_of_list_ascii
    (reverse (match stripped with [] => head | _ => stripped end)).

(** The path [q] lies below the directory path [p]. Paths are compared as
    they are spelled. *)
Definition below (p q : string) : Prop :=
  chars (path_join p "") `prefix_of` chars q.

Global Instance below_dec p q : Decision (below p q).
Proof. unfold below. apply _. Defined.

(** A name without a separator in it. *)
Definition no_sep (s : string) : Prop := "/"%char ∉ chars s.

(** A [str] of a Python integer, as an f-string formats it. *)
Definition str_of_int (n : Z) : string := pretty n.

Arguments path_join : simpl never.
Arguments dirname : simpl never.
Arguments str_of_int : simpl never.

(** ** The disk *)

(** The dictionary that [save_meta] pickles. *)
Record Meta := {
  meta_num_parts : Z;
  meta_data_cls : string;
  meta_node_types : option (list NodeType);
  meta_edge_types : option (list EdgeType);
}.

(** Exceptions of code that reads and writes files: the exceptions above,
    [OSError] (here [FileNotFoundError] and its siblings) and
    [TypeError]. *)
Inductive io_exn :=
| Exn (e : exn)
| OSError
| TypeError
| BadFile. (* not always a Python exception: the file holds an object of
              another kind than the signature of the reader names, which
              Python would hand on as it is *)

Inductive io_result (A : Type) :=
| Done (a : A)
| Failed (e : io_exn).
Arguments Done {A} a.
Arguments Failed {A} e.

Global Instance io_exn_eq_dec : EqDecision io_exn.
Proof. solve_decision. Defined.

Module Partition.

Section Partition.

(** A row of a two-dimensional feature tensor. *)
Context {Row : Type}.

(** The object that a file holds: an int64 tensor, a feature tensor,
    [None], or the pickled meta dictionary. *)
Inductive file :=
| IntFile (t : tensor)
| FeatFile (f : list Row)
| NoneFile
| MetaFile (m : Meta).

(** The directories that were created and the files that were written. A
    directory that was created stands for its parents, too (see
    [path_exists] and [is_dir]). On a real disk a path holds a directory
    or a regular file, never both; where a disk of the model has a file
    at a path at which a directory lies, the path counts as a directory
    for the writers (see [is_file]). *)
Record disk := {
  dirs : filesystem;
  files : gmap string file;
}.

(** A computation that reads and writes the disk and may raise; as with
    [ST], the disk reached when an exception is raised stays observable. *)
Definition IO (A : Type) : Type := disk → io_result A * disk.

Global Instance IO_ret : MRet IO := λ A a d, (Done a, d).
Global Instance IO_bind : MBind IO := λ A B f m d,
  match m d with
  | (Done a, d') => f a d'
  | (Failed e, d') => (Failed e, d')
  end.

(** A step that does not touch the disk. *)
Definition io_lift {A} (r : result A) : IO A := λ d,
  (match r with Ok a => Done a | Raise e => Failed (Exn e) end, d).

Definition io_raise {A} (e : io_exn) : IO A := λ d, (Failed e, d).

(** A [for] loop over the disk. *)
Fixpoint io_for_each {A S : Type} (body : S → A → IO S) (s : S) (l : list A)
  : IO S :=
  match l with
  | [] => mret s
  | x :: l' => s' ← body s x; io_for_each body s' l'
  end.

(** [for x in xs] over an attribute that may be [None]. *)
Definition iterable {A} (xs : option (list A)) : IO (list A) :=
  match xs with
  | Some l => mret l
  | None => io_raise TypeError
  end.

(** The paths at which something was created. *)
Definition entries (d : disk) : gset string := dirs d ∪ dom (files d).

(** The root directory, spelled with separators only. *)
Definition is_root (p : string) : bool :=
  negb (bool_decide (p = "")) &&
  forallb (λ c, bool_decide (c = "/"%char)) (chars p).

(** A directory lies at [p]: [p] is the root directory, a directory was
    created at [p], or something was created below [p]. *)
Definition is_dir (d : disk) (p : string) : bool :=
  is_root p ||
  bool_decide (p ∈ dirs d) ||
  bool_decide (set_Exists (λ q, below p q) (entries d)).

(** A regular file lies at [f]: a file was written there, and no directory
    lies there. *)
Definition is_file (d : disk) (f : string) : bool :=
  bool_decide (f ∈ dom (files d)) && negb (is_dir d f).

(** A regular file lies on the way to [p]: at a path that [p] lies
    below. *)
Definition under_file (d : disk) (p : string) : bool :=
  bool_decide (set_Exists (λ f, is_file d f = true ∧ below f p)
                 (dom (files d))).

(** No directory can lie at [p]: a regular file lies there or on the way
    to it. *)
Definition blocked (d : disk) (p : string) : bool :=
  is_file d p || under_file d p.

(** [ensure_dir] on the directories of the disk: afterwards the directory
    exists. Where a regular file lies at the path or on the way to it no
    directory can exist there and the call raises [OSError]
    ([os.makedirs] raises [FileExistsError] and [NotADirectoryError]).
    Should [ensure_dir] return without a directory when a regular file
    lies at the path itself, the writers below raise all the same, at
    their first write ([NotADirectoryError]), with the disk as it was. *)
Definition io_ensure_dir (dir_path : string) : IO unit := λ d,
  if blocked d dir_path then (Failed OSError, d)
  else
    let '(r, fs) := ensure_dir dir_path (dirs d) in
    (match r with Ok a => Done a | Raise e => Failed (Exn e) end,
     {| dirs := fs; files := files d |}).

(** [os.path.exists(p)]: something was created at [p] or below [p]. The
    empty path does not exist. *)
Definition path_exists (d : disk) (p : string) : bool :=
  bool_decide (p ≠ "") &&
  bool_decide (set_Exists (λ q, q = p ∨ below p q) (entries d)).

Definition os_path_exists (p : string) : IO bool := λ d,
  (Done (path_exists d p), d).

(** The directory part of [path] is a directory; a path without a
    directory part is relative to the working directory. *)
Definition parent_is_dir (d : disk) (path : string) : bool :=
  bool_decide (dirname path = "") || is_dir d (dirname path).

(** Whether [open(path, 'wb')] returns: the path names a file (it is not
    empty and does not end with a separator), no directory lies at it
    ([IsADirectoryError] otherwise), no regular file lies on the way to
    it ([NotADirectoryError]), and its directory part is a directory
    ([FileNotFoundError]). Permissions, links and the limits of a file
    system are left out. *)
Definition can_write (d : disk) (path : string) : bool :=
  negb (bool_decide (path = "")) && negb (ends_with_sep path) &&
  negb (is_dir d path) && negb (under_file d path) && parent_is_dir d path.

(** Writing an object to [path], as [torch.save(obj, path)] and
    [pickle.dump(obj, open(path, 'wb'))] do: the object is stored at the
    path, replacing the file that was there; [OSError] when the file
    cannot be opened for writing. The serialization format is left
    out. *)
Definition write_file (obj : file) (path : string) : IO unit := λ d,
  if can_write d path
  then (Done tt, {| dirs := dirs d; files := <[path:=obj]> (files d) |})
  else (Failed OSError, d).

(** Whether a writer that creates directory [subdir] and then writes
    files under [names] into it returns: no regular file lies at [subdir]
    or on the way to it, and no directory lies at the path of one of the
    files. *)
Definition can_save (d : disk) (subdir : string) (names : list string)
  : bool :=
  negb (blocked d subdir) &&
  forallb (λ name, negb (is_dir d (path_join subdir name))) names.

(** Reading the object at [path], as [torch.load(path)] and
    [pickle.load(open(path, 'rb'))] do: [OSError] when no file was written
    there. The [map_location] of [torch.load] is left out. *)
Definition read_file (path : string) : IO file := λ d,
  (match files d !! path with
   | Some obj => Done obj
   | None => Failed OSError
   end, d).

(** The loaded object as the tensor that the field it goes to holds. *)
Definition as_int (obj : file) : IO tensor :=
  match obj with IntFile t => mret t | _ => io_raise BadFile end.

Definition as_feat (obj : file) : IO (list Row) :=
  match obj with FeatFile f => mret f | _ => io_raise BadFile end.

Definition as_optional_int (obj : file) : IO (option tensor) :=
  match obj with
  | IntFile t => mret (Some t)
  | NoneFile => mret None
  | _ => io_raise BadFile
  end.

Definition as_optional_feat (obj : file) : IO (option (list Row)) :=
  match obj with
  | FeatFile f => mret (Some f)
  | NoneFile => mret None
  | _ => io_raise BadFile
  end.

Definition as_meta (obj : file) : IO Meta :=
  match obj with MetaFile m => mret m | _ => io_raise BadFile end.

(** An optional tensor as the object that [torch.save] stores. *)
Definition optional_int_file (t : option tensor) : file :=
  match t with Some t => IntFile t | None => NoneFile end.

(** Modelled from the spec: [as_str] of [graphlearn_torch.typing], which
    is not under src/; it names a node type or an edge type by a string. *)
Context (as_str : NodeType + EdgeType → string).

(** ** Writers *)

(** [save_meta], lines 32-48. *)
Definition save_meta (output_dir : string) (num_parts : Z) (data_cls : string)
    (node_types : option (list NodeType))
    (edge_types : option (list EdgeType)) : IO unit :=
  let meta := {| meta_num_parts := num_parts; meta_data_cls := data_cls;
                 meta_node_types := node_types;
                 meta_edge_types := edge_types |} in
  write_file (MetaFile meta) (path_join output_dir "META").

(** [save_node_pb], lines 51-64. *)
Definition save_node_pb (output_dir : string) (node_pb : tensor)
    (ntype : option NodeType) : IO unit :=
  fpath ←
    match ntype with
    | Some ntype =>
        let subdir := path_join output_dir "node_pb" in
        _ ← io_ensure_dir subdir;
        mret (path_join subdir (as_str (inl ntype) +:+ ".pt"))
    | None => mret (path_join output_dir "node_pb.pt")
    end;
  write_file (IntFile node_pb) fpath.

(** [save_edge_pb], lines 67-80. *)
Definition save_edge_pb (output_dir : string) (edge_pb : tensor)
    (etype : option EdgeType) : IO unit :=
  fpath ←
    match etype with
    | Some etype =>
        let subdir := path_join output_dir "edge_pb" in
        _ ← io_ensure_dir subdir;
        mret (path_join subdir (as_str (inr etype) +:+ ".pt"))
    | None => mret (path_join output_dir "edge_pb.pt")
    end;
  write_file (IntFile edge_pb) fpath.

(** [save_graph_partition], lines 83-97. *)
Definition save_graph_partition (output_dir : string) (partition_idx : Z)
    (graph_partition : GraphPartitionData) (etype : option EdgeType)
  : IO unit :=
  let subdir :=
    path_join (path_join output_dir ("part" +:+ str_of_int partition_idx))
      "graph" in
  let subdir :=
    match etype with
    | Some etype => path_join subdir (as_str (inr etype))
    | None => subdir
    end in
  _ ← io_ensure_dir subdir;
  _ ← write_file (IntFile (edge_index graph_partition).1)
        (path_join subdir "rows.pt");
  _ ← write_file (IntFile (edge_index graph_partition).2)
        (path_join subdir "cols.pt");
  write_file (IntFile (eids graph_partition)) (path_join subdir "eids.pt").

(** [save_feature_partition], lines 100-117. *)
Definition save_feature_partition (output_dir : string) (partition_idx : Z)
    (feature_partition : Val.FeaturePartitionData Row) (group : string)
    (graph_type : option (NodeType + EdgeType)) : IO unit :=
  let subdir :=
    path_join (path_join output_dir ("part" +:+ str_of_int partition_idx))
      group in
  let subdir :=
    match graph_type with
    | Some graph_type => path_join subdir (as_str graph_type)
    | None => subdir
    end in
  _ ← io_ensure_dir subdir;
  _ ← write_file (FeatFile (Val.feats feature_partition))
        (path_join subdir "feats.pt");
  _ ← write_file (IntFile (Val.ids feature_partition))
        (path_join subdir "ids.pt");
  match Val.cache_feats feature_partition with
  | Some cache_feats =>
      _ ← write_file (FeatFile cache_feats) (path_join subdir "cache_feats.pt");
      write_file (optional_int_file (Val.cache_ids feature_partition))
        (path_join subdir "cache_ids.pt")
  | None => mret tt
  end.

(** ** Feature accessors and feature partitioning *)

Abbreviation Partitioner := (PartitionerBase.t (list Row)).

(** [PartitionerBase.get_node_feat]: [None], the feature tensor of the
    node type, or whatever [self.node_feat] holds on a homogeneous
    graph. Indexing a tensor by a node type raises [IndexError]. *)
Definition get_node_feat (self : Partitioner) (ntype : option NodeType)
  : result (option (PartitionerBase.Features (list Row) NodeType)) :=
  match PartitionerBase.node_feat self with
  | None => Ok None
  | Some node_feat =>
      if decide ("hetero" = PartitionerBase.data_cls self) then
        _ ← py_assert (bool_decide (is_Some ntype));
        match node_feat with
        | PartitionerBase.FeatDict d =>
            match ntype ≫= λ ty, d !! ty with
            | Some f => Ok (Some (PartitionerBase.FeatTensor f))
            | None => Raise KeyError
            end
        | PartitionerBase.FeatTensor _ => Raise IndexError
        end
      else Ok (Some node_feat)
  end.

(** [PartitionerBase.get_edge_feat] *)
Definition get_edge_feat (self : Partitioner) (etype : option EdgeType)
  : result (option (PartitionerBase.Features (list Row) EdgeType)) :=
  match PartitionerBase.edge_feat self with
  | None => Ok None
  | Some edge_feat =>
      if decide ("hetero" = PartitionerBase.data_cls self) then
        _ ← py_assert (bool_decide (is_Some etype));
        match edge_feat with
        | PartitionerBase.FeatDict d =>
            match etype ≫= λ ty, d !! ty with
            | Some f => Ok (Some (PartitionerBase.FeatTensor f))
            | None => Raise KeyError
            end
        | PartitionerBase.FeatTensor _ => Raise IndexError
        end
      else Ok (Some edge_feat)
  end.

(** [feat[idx]] for what a feature accessor returned: a gather of rows
    from a tensor; a dictionary has no tensor among its keys. *)
Definition gather {K} `{Countable K}
    (feat : PartitionerBase.Features (list Row) K) (idx : tensor)
  : result (list Row) :=
  match feat with
  | PartitionerBase.FeatTensor f => getitem f idx
  | PartitionerBase.FeatDict _ => Raise KeyError
  end.

(** [l[pidx]] on a Python list. *)
Definition list_getitem {A} (l : list A) (pidx : Z) : result A :=
  match index_tensor l pidx with
  | Some x => Ok x
  | None => Raise IndexError
  end.

(** The abstract methods [_partition_node] and [_cache_node], which a
    subclass defines: the node ids of every partition with the node
    partition book, and the node ids to cache on every partition. *)
Context (_partition_node :
  Partitioner → option NodeType → result (list tensor * tensor)).
Context (_cache_node :
  Partitioner → option NodeType → result (list (option tensor))).

(** [PartitionerBase._partition_node_feat], lines 292-315. *)
Definition _partition_node_feat (self : Partitioner)
    (node_ids_list : list tensor) (ntype : option NodeType)
  : result (list (option (Val.FeaturePartitionData Row))) :=
  node_feat ← get_node_feat self ntype;
  match node_feat with
  | None => Ok ((λ _, None) <$> range (PartitionerBase.num_parts self))
  | Some node_feat =>
      cache_node_ids_list ← _cache_node self ntype;
      for_each (λ res pidx,
          n_ids ← list_getitem node_ids_list pidx;
          cache_n_ids ← list_getitem cache_node_ids_list pidx;
          feats ← gather node_feat n_ids;
          cache_feats ←
            match cache_n_ids with
            | Some cache_n_ids =>
                cache_feats ← gather node_feat cache_n_ids;
                Ok (Some cache_feats)
            | None => Ok None
            end;
          Ok (res ++ [Some {| Val.feats := feats; Val.ids := n_ids;
                              Val.cache_feats := cache_feats;
                              Val.cache_ids := cache_n_ids |}]))
        [] (range (PartitionerBase.num_parts self))
  end.

(** [PartitionerBase._partition_edge_feat], lines 317-335. *)
Definition _partition_edge_feat (self : Partitioner)
    (graph_list : list GraphPartitionData) (etype : option EdgeType)
  : result (list (option (Val.FeaturePartitionData Row))) :=
  edge_feat ← get_edge_feat self etype;
  match edge_feat with
  | None => Ok ((λ _, None) <$> range (PartitionerBase.num_parts self))
  | Some edge_feat =>
      for_each (λ res pidx,
          g ← list_getitem graph_list pidx;
          let eids := eids g in
          feats ← gather edge_feat eids;
          Ok (res ++ [Some {| Val.feats := feats; Val.ids := eids;
                              Val.cache_feats := None;
                              Val.cache_ids := None |}]))
        [] (range (PartitionerBase.num_parts self))
  end.

(** ** [partition] *)

(** [save_feature_partition] of [feat_list[pidx]] unless it is [None]. *)
Definition save_feature_unless_None (output_dir : string)
    (feat_list : list (option (Val.FeaturePartitionData Row)))
    (group : string) (graph_type : option (NodeType + EdgeType)) (pidx : Z)
  : IO unit :=
  p ← io_lift (list_getitem feat_list pidx);
  match p with
  | Some p => save_feature_partition output_dir pidx p group graph_type
  | None => mret tt
  end.

(** [PartitionerBase.partition], lines 414-456. [self.node_types] and
    [self.edge_types] are arguments: [__init__] sets them to the keys of
    [num_nodes] and [edge_index] in insertion order, which a [gmap] does
    not keep, and to [None] on a homogeneous graph. *)
Definition partition (self : Partitioner)
    (node_types : option (list NodeType))
    (edge_types : option (list EdgeType)) : IO unit :=
  let output_dir := PartitionerBase.output_dir self in
  let num_parts := PartitionerBase.num_parts self in
  _ ←
    (if decide ("hetero" = PartitionerBase.data_cls self) then
       ntypes ← iterable node_types;
       node_pb_dict ← io_for_each (λ (node_pb_dict : gmap NodeType tensor) ntype,
           '(node_ids_list, node_pb) ←
             io_lift (_partition_node self (Some ntype));
           node_feat_list ←
             io_lift (_partition_node_feat self node_ids_list (Some ntype));
           _ ← io_for_each (λ _ pidx,
                 save_feature_unless_None output_dir node_feat_list
                   "node_feat" (Some (inl ntype)) pidx)
               tt (range num_parts);
           _ ← save_node_pb output_dir node_pb (Some ntype);
           mret (<[ntype:=node_pb]> node_pb_dict))
         ∅ ntypes;
       etypes ← iterable edge_types;
       io_for_each (λ _ etype,
           '(graph_list, edge_pb) ←
             io_lift (PartitionerBase._partition_graph self
                        (BookDict node_pb_dict) (Some etype));
           edge_feat_list ←
             io_lift (_partition_edge_feat self graph_list (Some etype));
           _ ← io_for_each (λ _ pidx,
                 g ← io_lift (list_getitem graph_list pidx);
                 _ ← save_graph_partition output_dir pidx g (Some etype);
                 save_feature_unless_None output_dir edge_feat_list
                   "edge_feat" (Some (inr etype)) pidx)
               tt (range num_parts);
           save_edge_pb output_dir edge_pb (Some etype))
         tt etypes
     else
       '(node_ids_list, node_pb) ← io_lift (_partition_node self None);
       node_feat_list ←
         io_lift (_partition_node_feat self node_ids_list None);
       _ ← io_for_each (λ _ pidx,
             save_feature_unless_None output_dir node_feat_list
               "node_feat" None pidx)
           tt (range num_parts);
       _ ← save_node_pb output_dir node_pb None;
       '(graph_list, edge_pb) ←
         io_lift (PartitionerBase._partition_graph self (Book node_pb) None);
       edge_feat_list ← io_lift (_partition_edge_feat self graph_list None);
       _ ← io_for_each (λ _ pidx,
             g ← io_lift (list_getitem graph_list pidx);
             _ ← save_graph_partition output_dir pidx g None;
             save_feature_unless_None output_dir edge_feat_list
               "edge_feat" None pidx)
           tt (range num_parts);
       save_edge_pb output_dir edge_pb None);
  (* save meta. *)
  save_meta output_dir num_parts (PartitionerBase.data_cls self)
    node_types edge_types.

(** ** Readers *)

(** [_load_graph_partition_data], lines 459-474. *)
Definition _load_graph_partition_data (graph_data_dir : string)
  : IO (option GraphPartitionData) :=
  e ← os_path_exists graph_data_dir;
  if negb e then mret None
  else
    rows ← read_file (path_join graph_data_dir "rows.pt") ≫= as_int;
    cols ← read_file (path_join graph_data_dir "cols.pt") ≫= as_int;
    eids ← read_file (path_join graph_data_dir "eids.pt") ≫= as_int;
    mret (Some {| edge_index := (rows, cols); eids := eids |}).

(** [_load_feature_partition_data], lines 477-499. *)
Definition _load_feature_partition_data (feature_data_dir : string)
  : IO (option (Val.FeaturePartitionData Row)) :=
  e ← os_path_exists feature_data_dir;
  if negb e then mret None
  else
    feats ← read_file (path_join feature_data_dir "feats.pt") ≫= as_feat;
    ids ← read_file (path_join feature_data_dir "ids.pt") ≫= as_int;
    let cache_feats_path := path_join feature_data_dir "cache_feats.pt" in
    let cache_ids_path := path_join feature_data_dir "cache_ids.pt" in
    e1 ← os_path_exists cache_feats_path;
    e2 ← os_path_exists cache_ids_path;
    '(cache_feats, cache_ids) ←
      (if e1 && e2 then
         cache_feats ← read_file cache_feats_path ≫= as_optional_feat;
         cache_ids ← read_file cache_ids_path ≫= as_optional_int;
         mret (cache_feats, cache_ids)
       else mret (None, None));
    mret (Some {| Val.feats := feats; Val.ids := ids;
                  Val.cache_feats := cache_feats;
                  Val.cache_ids := cache_ids |}).

(** What [load_partition] returns: the number of partitions, the index
    of the partition, its graph data, its node and edge features, and the
    node and edge partition books; one of each on a homogeneous graph and
    dictionaries by type on a heterogeneous one. *)
Inductive Loaded :=
| LoadedHomo (num_partitions partition_idx : Z)
    (graph : option GraphPartitionData)
    (node_feat edge_feat : option (Val.FeaturePartitionData Row))
    (node_pb edge_pb : tensor)
| LoadedHetero (num_partitions partition_idx : Z)
    (graph_dict : gmap EdgeType (option GraphPartitionData))
    (node_feat_dict : option (gmap NodeType (Val.FeaturePartitionData Row)))
    (edge_feat_dict : option (gmap EdgeType (Val.FeaturePartitionData Row)))
    (node_pb_dict : gmap NodeType tensor)
    (edge_pb_dict : gmap EdgeType tensor).

(** [d if len(d) != 0 else None] *)
Definition None_if_empty {K V} `{Countable K} (d : gmap K V)
  : option (gmap K V) :=
  if decide (size d = 0%nat) then None else Some d.

(** [load_partition], lines 502-603. *)
Definition load_partition (root_dir : string) (partition_idx : Z)
  : IO Loaded :=
  meta ← read_file (path_join root_dir "META") ≫= as_meta;
  let num_partitions := meta_num_parts meta in
  _ ← io_lift (py_assert (bool_decide (partition_idx >= 0)));
  _ ← io_lift (py_assert (bool_decide (partition_idx < num_partitions)));
  let partition_dir :=
    path_join root_dir ("part" +:+ str_of_int partition_idx) in
  e ← os_path_exists partition_dir;
  _ ← io_lift (py_assert e);
  let graph_dir := path_join partition_dir "graph" in
  let node_feat_dir := path_join partition_dir "node_feat" in
  let edge_feat_dir := path_join partition_dir "edge_feat" in
  if decide (meta_data_cls meta = "homo") then
    (* homogenous *)
    graph ← _load_graph_partition_data graph_dir;
    node_feat ← _load_feature_partition_data node_feat_dir;
    edge_feat ← _load_feature_partition_data edge_feat_dir;
    node_pb ← read_file (path_join root_dir "node_pb.pt") ≫= as_int;
    edge_pb ← read_file (path_join root_dir "edge_pb.pt") ≫= as_int;
    mret (LoadedHomo num_partitions partition_idx
            graph node_feat edge_feat node_pb edge_pb)
  else
    (* heterogenous *)
    etypes ← iterable (meta_edge_types meta);
    graph_dict ← io_for_each (λ (graph_dict : gmap EdgeType _) etype,
        g ← _load_graph_partition_data
              (path_join graph_dir (as_str (inr etype)));
        mret (<[etype:=g]> graph_dict))
      ∅ etypes;
    ntypes ← iterable (meta_node_types meta);
    node_feat_dict ← io_for_each (λ (node_feat_dict : gmap NodeType _) ntype,
        node_feat ← _load_feature_partition_data
                      (path_join node_feat_dir (as_str (inl ntype)));
        mret (match node_feat with
              | Some node_feat => <[ntype:=node_feat]> node_feat_dict
              | None => node_feat_dict
              end))
      ∅ ntypes;
    let node_feat_dict := None_if_empty node_feat_dict in
    edge_feat_dict ← io_for_each (λ (edge_feat_dict : gmap EdgeType _) etype,
        edge_feat ← _load_feature_partition_data
                      (path_join edge_feat_dir (as_str (inr etype)));
        mret (match edge_feat with
              | Some edge_feat => <[etype:=edge_feat]> edge_feat_dict
              | None => edge_feat_dict
              end))
      ∅ etypes;
    let edge_feat_dict := None_if_empty edge_feat_dict in
    let node_pb_dir := path_join root_dir "node_pb" in
    node_pb_dict ← io_for_each (λ (node_pb_dict : gmap NodeType tensor) ntype,
        pb ← read_file (path_join node_pb_dir (as_str (inl ntype) +:+ ".pt"))
               ≫= as_int;
        mret (<[ntype:=pb]> node_pb_dict))
      ∅ ntypes;
    let edge_pb_dir := path_join root_dir "edge_pb" in
    edge_pb_dict ← io_for_each (λ (edge_pb_dict : gmap EdgeType tensor) etype,
        pb ← read_file (path_join edge_pb_dir (as_str (inr etype) +:+ ".pt"))
               ≫= as_int;
        mret (<[etype:=pb]> edge_pb_dict))
      ∅ etypes;
    mret (LoadedHetero num_partitions partition_idx
            graph_dict node_feat_dict edge_feat_dict
            node_pb_dict edge_pb_dict).

End Partition.

Arguments file : clear implicits.
Arguments disk : clear implicits.
Arguments path_exists : simpl never.
Arguments parent_is_dir : simpl never.
Arguments is_root : simpl never.
Arguments is_dir : simpl never.
Arguments is_file : simpl never.
Arguments under_file : simpl never.
Arguments blocked : simpl never.
Arguments can_write : simpl never.
Arguments entries : simpl never.
Arguments IO : clear implicits.
Arguments Loaded : clear implicits.

End Partition.

(** ** Vocabulary of the statements about files *)

Section FileVocabulary.

Context {Row : Type}.
Context (as_str : NodeType + EdgeType → string).

(** The directory of partition [k] below the output directory, and the
    directory of a group of its files ("graph", "node_feat", "edge_feat"),
    which on a heterogeneous graph has one subdirectory per type. *)
Definition part_dir (output_dir : string) (k : Z) : string :=
  path_join output_dir ("part" +:+ str_of_int k).

Definition group_dir (output_dir : string) (k : Z) (group : string)
    (graph_type : option (NodeType + EdgeType)) : string :=
  let subdir := path_join (part_dir output_dir k) group in
  match graph_type with
  | Some graph_type => path_join subdir (as_str graph_type)
  | None => subdir
  end.

Definition graph_dir (output_dir : string) (k : Z) (etype : option EdgeType)
  : string :=
  group_dir output_dir k "graph" (inr <$> etype).

(** The files that hold a graph partition in directory [dir]. *)
Definition graph_files (dir : string) (g : GraphPartitionData)
  : gmap string (Partition.file Row) :=
  <[path_join dir "eids.pt" := Partition.IntFile (eids g)]>
    (<[path_join dir "cols.pt" := Partition.IntFile (edge_index g).2]>
       (<[path_join dir "rows.pt" := Partition.IntFile (edge_index g).1]> ∅)).

(** The files that hold a feature partition in directory [dir]: the cache
    files are there when the partition has cache rows. *)
Definition feature_files (dir : string) (p : Val.FeaturePartitionData Row)
  : gmap string (Partition.file Row) :=
  let owned :=
    <[path_join dir "ids.pt" := Partition.IntFile (Val.ids p)]>
      (<[path_join dir "feats.pt" := Partition.FeatFile (Val.feats p)]> ∅) in
  match Val.cache_feats p with
  | Some cache_feats =>
      <[path_join dir "cache_ids.pt" :=
          Partition.optional_int_file (Val.cache_ids p)]>
        (<[path_join dir "cache_feats.pt" := Partition.FeatFile cache_feats]>
           owned)
  | None => owned
  end.

(** The names of the files of a feature partition in its directory. *)
Definition feature_file_names (p : Val.FeaturePartitionData Row)
  : list string :=
  ["feats.pt"; "ids.pt"]
  ++ match Val.cache_feats p with
     | Some _ => ["cache_feats.pt"; "cache_ids.pt"]
     | None => []
     end.

(** The path that a list of names spells below the output directory. *)
Fixpoint rel_path (names : list string) : string :=
  match names with
  | [] => ""
  | [name] => name
  | name :: names => name +:+ "/" +:+ rel_path names
  end.

Definition out_path (output_dir : string) (names : list string) : string :=
  path_join output_dir "" +:+ rel_path names.

(** A name of a directory or of a file: not empty, no separator. *)
Definition is_name (c : string) : Prop := no_sep c ∧ c ≠ "".

(** The name of the directory of partition [k]. *)
Definition part_name (k : Z) : string := "part" +:+ str_of_int k.

(** The names of the directory and of the files that hold the graph of
    partition [k] of a homogeneous graph, and those that hold a feature
    partition of group [group]. *)
Definition graph_names (k : Z) : list (list string) :=
  [ [part_name k; "graph"];
    [part_name k; "graph"; "rows.pt"];
    [part_name k; "graph"; "cols.pt"];
    [part_name k; "graph"; "eids.pt"] ].

Definition feature_names (group : string) (k : Z)
    (p : Val.FeaturePartitionData Row) : list (list string) :=
  [ [part_name k; group];
    [part_name k; group; "feats.pt"];
    [part_name k; group; "ids.pt"] ]
  ++ match Val.cache_feats p with
     | Some _ => [ [part_name k; group; "cache_feats.pt"];
                   [part_name k; group; "cache_ids.pt"] ]
     | None => []
     end.

(** The names of what [partition] creates below the output directory for
    a homogeneous graph: the meta data, the two partition books, and for
    each partition its graph and the feature partitions that are not
    [None]. *)
Definition homo_names (num_parts : Z)
    (node_feat_list edge_feat_list :
       list (option (Val.FeaturePartitionData Row)))
    (names : list string) : Prop :=
  names ∈ [ ["META"]; ["node_pb.pt"]; ["edge_pb.pt"] ] ∨
  ∃ k, 0 ≤ k < num_parts ∧
    (names ∈ graph_names k ∨
     (∃ p, node_feat_list !! Z.to_nat k = Some (Some p) ∧
           names ∈ feature_names "node_feat" k p) ∨
     (∃ p, edge_feat_list !! Z.to_nat k = Some (Some p) ∧
           names ∈ feature_names "edge_feat" k p)).

(** The directories and the files that a loop over the partitions
    creates, when its step for partition [k] creates [D k] and writes
    [W k]: a later step overwrites what an earlier one wrote. *)
Definition created_dirs (D : Z → gset string) (l : list Z) : gset string :=
  foldl (λ acc k, D k ∪ acc) ∅ l.

Definition created_files (W : Z → gmap string (Partition.file Row))
    (l : list Z) : gmap string (Partition.file Row) :=
  foldl (λ acc k, W k ∪ acc) ∅ l.

(** The directory and the files of entry [k] of a list of feature
    partitions of a homogeneous graph; none for an entry that is [None]. *)
Definition feature_list_dirs (output_dir group : string)
    (feat_list : list (option (Val.FeaturePartitionData Row))) (k : Z)
  : gset string :=
  match feat_list !! Z.to_nat k with
  | Some (Some _) => {[group_dir output_dir k group None]}
  | _ => ∅
  end.

Definition feature_list_files (output_dir group : string)
    (feat_list : list (option (Val.FeaturePartitionData Row))) (k : Z)
  : gmap string (Partition.file Row) :=
  match feat_list !! Z.to_nat k with
  | Some (Some p) => feature_files (group_dir output_dir k group None) p
  | _ => ∅
  end.

(** The files of entry [k] of a list of graph partitions of a homogeneous
    graph. *)
Definition graph_list_files (output_dir : string)
    (graph_list : list GraphPartitionData) (k : Z)
  : gmap string (Partition.file Row) :=
  match graph_list !! Z.to_nat k with
  | Some g => graph_files (graph_dir output_dir k None) g
  | None => ∅
  end.

(** The disk after [partition] of a homogeneous graph into [num_parts]
    partitions: node features, graphs and edge features of the
    partitions, the two partition books and the meta data, on top of what
    disk [d] held. *)
Definition homo_partitioned (output_dir : string) (num_parts : Z)
    (node_feat_list : list (option (Val.FeaturePartitionData Row)))
    (node_pb : tensor) (graph_list : list GraphPartitionData)
    (edge_feat_list : list (option (Val.FeaturePartitionData Row)))
    (edge_pb : tensor) (d : Partition.disk Row) : Partition.disk Row :=
  let node_dirs :=
    created_dirs (feature_list_dirs output_dir "node_feat" node_feat_list)
      (range num_parts) in
  let node_files :=
    created_files (feature_list_files output_dir "node_feat" node_feat_list)
      (range num_parts) in
  let edge_dirs :=
    created_dirs (λ k,
        feature_list_dirs output_dir "edge_feat" edge_feat_list k
        ∪ {[graph_dir output_dir k None]})
      (range num_parts) in
  let edge_files :=
    created_files (λ k,
        feature_list_files output_dir "edge_feat" edge_feat_list k
        ∪ graph_list_files output_dir graph_list k)
      (range num_parts) in
  let meta := {| meta_num_parts := num_parts; meta_data_cls := "homo";
                 meta_node_types := None; meta_edge_types := None |} in
  {| Partition.dirs := edge_dirs ∪ (node_dirs ∪ Partition.dirs d);
     Partition.files :=
       <[path_join output_dir "META" := Partition.MetaFile meta]>
         (<[path_join output_dir "edge_pb.pt" := Partition.IntFile edge_pb]>
            (edge_files
             ∪ <[path_join output_dir "node_pb.pt" :=
                   Partition.IntFile node_pb]>
                 (node_files ∪ Partition.files d))) |}.

(** Nothing was created below the output directory yet. *)
Definition nothing_below (d : Partition.disk Row) (output_dir : string)
  : Prop :=
  ∀ q rest, q ∈ Partition.entries d →
    q = path_join output_dir "" +:+ rest → rest = "".

(** The names of what the writers create below the output directory of a
    homogeneous graph: the directory of a group of a partition; the meta
    data, the two partition books, and a file of a group of a
    partition. *)
Definition dir_names (cs : list string) : Prop :=
  ∃ k grp, is_name grp ∧ cs = [part_name k; grp].

Definition file_names (cs : list string) : Prop :=
  cs ∈ [ ["META"]; ["node_pb.pt"]; ["edge_pb.pt"] ] ∨
  ∃ k grp name, is_name grp ∧ is_name name ∧ cs = [part_name k; grp; name].

(** The output directory is on the disk, and the directories and the
    files below it are named as those that the writers create. *)
Definition laid_out (d : Partition.disk Row) (output_dir : string) : Prop :=
  output_dir ∈ Partition.dirs d ∧
  (∀ q rest, q ∈ Partition.dirs d →
     q = path_join output_dir "" +:+ rest →
     rest = "" ∨ ∃ cs, dir_names cs ∧ rest = rel_path cs) ∧
  (∀ q rest, q ∈ dom (Partition.files d) →
     q = path_join output_dir "" +:+ rest →
     rest = "" ∨ ∃ cs, file_names cs ∧ rest = rel_path cs).

(** A computation that leaves the disk as it found it. *)
Definition read_only {A} (m : Partition.IO Row A) : Prop :=
  ∀ d, (m d).2 = d.

End FileVocabulary.

(** * Properties *)

(** ** Loops, indices and slices *)

Lemma for_each_cons {A S} (body : S → A → result S) s x l :
  for_each body s (x :: l) = s' ← body s x; for_each body s' l.
Proof. done. Qed.

Lemma for_each_app {A S} (body : S → A → result S) s l1 l2 :
  for_each body s (l1 ++ l2) = s' ← for_each body s l1; for_each body s' l2.
Proof.
  revert s. induction l1 as [|x l1 IH]; intros s; simpl; [done|].
  destruct (body s x) as [s'|e]; simpl; [apply IH | done].
Qed.

Lemma resolve_nat n i : (i < n)%nat → resolve n (Z.of_nat i) = Some i.
Proof.
  intros Hi. unfold resolve.
  rewrite decide_True by lia. by rewrite Nat2Z.id.
Qed.

Lemma resolve_lt n i p : resolve n i = Some p → (p < n)%nat.
Proof.
  unfold resolve. repeat case_decide; intros; simplify_eq; lia.
Qed.

Lemma resolve_nonneg n i p : 0 ≤ i → resolve n i = Some p → p = Z.to_nat i.
Proof.
  unfold resolve. repeat case_decide; intros; simplify_eq; lia.
Qed.

Lemma index_tensor_nat {A} (t : list A) i : index_tensor t (Z.of_nat i) = t !! i.
Proof.
  unfold index_tensor, resolve.
  destruct (decide (i < length t)%nat) as [Hi|Hi].
  - rewrite decide_True by lia. simpl. by rewrite Nat2Z.id.
  - rewrite decide_False by lia. rewrite decide_False by lia. simpl.
    symmetry. apply lookup_ge_None. lia.
Qed.

Lemma index_tensor_Some_elem {A} (t : list A) i x :
  index_tensor t i = Some x → x ∈ t.
Proof.
  unfold index_tensor. destruct (resolve _ _) as [p|]; simpl; [|done].
  apply list_elem_of_lookup_2.
Qed.

Lemma slice_in_range {A} (t : list A) a b :
  0 ≤ a → a ≤ b → b ≤ len t →
  slice a b t = take (Z.to_nat (b - a)) (drop (Z.to_nat a) t).
Proof.
  intros Ha Hab Hb. unfold slice, slice_bound, len in *.
  rewrite !decide_False by lia. f_equal.
  - lia.
  - f_equal. lia.
Qed.

Lemma mapM_app {A B} (f : A → option B) l1 l2 :
  mapM f (l1 ++ l2) = k1 ← mapM f l1; k2 ← mapM f l2; Some (k1 ++ k2).
Proof.
  induction l1 as [|x l1 IH]; simpl.
  - by destruct (mapM f l2).
  - destruct (f x); simpl; [|done]. rewrite IH.
    destruct (mapM f l1); simpl; [|done]. by destruct (mapM f l2).
Qed.

(** ** Masks *)

Lemma select_mask_app {A} (t1 t2 : list A) m1 m2 :
  length t1 = length m1 →
  select_mask (t1 ++ t2) (m1 ++ m2) = select_mask t1 m1 ++ select_mask t2 m2.
Proof.
  revert m1. induction t1 as [|x t1 IH]; intros [|b m1] Hl; simplify_eq/=; [done|].
  destruct b; simpl; by rewrite IH.
Qed.

Lemma select_mask_Forall2 {A B} (R : A → B → Prop) l1 l2 mask :
  Forall2 R l1 l2 → Forall2 R (select_mask l1 mask) (select_mask l2 mask).
Proof.
  intros H. revert mask. induction H as [|x y l1 l2 Hxy H IH]; intros [|b mask]; simpl;
    try constructor.
  destruct b; [constructor|]; auto.
Qed.

Lemma select_mask_length_le {A} (t : list A) mask :
  (length (select_mask t mask) ≤ length t)%nat.
Proof.
  revert mask. induction t as [|x t IH]; intros [|[] mask]; simpl; try lia;
    specialize (IH mask); lia.
Qed.

Lemma select_mask_fmap {A B} (f : A → B) t mask :
  select_mask (f <$> t) mask = f <$> select_mask t mask.
Proof.
  revert mask. induction t as [|x t IH]; intros [|[] mask]; simpl; try done;
    by rewrite IH.
Qed.

Lemma elem_of_select_mask {A} (t : list A) mask x :
  x ∈ select_mask t mask ↔ ∃ i, t !! i = Some x ∧ mask !! i = Some true.
Proof.
  revert mask. induction t as [|y t IH]; intros [|b mask]; simpl.
  - split; [by intros ?%elem_of_nil | by intros (i & ? & ?)].
  - split; [by intros ?%elem_of_nil | by intros (i & ? & ?)].
  - split; [by intros ?%elem_of_nil | by intros (i & ? & ?)].
  - destruct b.
    + rewrite elem_of_cons, IH. split.
      * intros [->|(i & ? & ?)]; [by exists 0%nat | by exists (S i)].
      * intros ([|i] & ? & ?); simplify_eq/=; eauto.
    + rewrite IH. split.
      * intros (i & ? & ?). by exists (S i).
      * intros ([|i] & ? & ?); simplify_eq/=; eauto.
Qed.

Lemma getitem_select_mask {A} (t : list A) mask :
  getitem t (select_mask (seqZ 0 (len t)) mask) = Ok (select_mask t mask).
Proof.
  unfold getitem.
  assert (mapM (index_tensor t) (select_mask (seqZ 0 (len t)) mask)
          = Some (select_mask t mask)) as ->; [|done].
  apply mapM_Some, select_mask_Forall2.
  apply Forall2_same_length_lookup. split.
  - rewrite length_seqZ. unfold len. lia.
  - intros i x y [-> _]%lookup_seqZ Hy. by rewrite Z.add_0_l, index_tensor_nat.
Qed.

Lemma select_mask_nil_r {A} (t : list A) : select_mask t [] = [].
Proof. by destruct t. Qed.

Lemma for_each_ext {A S} (f g : S → A → result S) s l :
  (∀ s x, x ∈ l → f s x = g s x) → for_each f s l = for_each g s l.
Proof.
  revert s. induction l as [|x l IH]; intros s Hfg; simpl; [done|].
  rewrite Hfg by left. destruct (g s x); simpl; [|done].
  apply IH. intros. apply Hfg. by right.
Qed.

(** ** The inner loop over shards *)

Import PartitionerBase.

Lemma append_loop (G : Z → GraphPartitionData) res (j : nat) :
  (j ≤ length res)%nat →
  for_each (λ res pidx, append_at res pidx (G pidx)) res (seqZ 0 (Z.of_nat j))
  = Ok (imap (λ k l, if decide (k < j)%nat then l ++ [G (Z.of_nat k)] else l) res).
Proof.
  induction j as [|j IH]; intros Hj.
  - simpl. f_equal. apply list_eq. intros i.
    rewrite list_lookup_imap. by destruct (res !! i).
  - rewrite seqZ_S, for_each_app, IH by lia. simpl.
    unfold append_at. rewrite Z.add_0_l, index_tensor_nat, list_lookup_imap.
    destruct (lookup_lt_is_Some_2 res j) as [l Hl]; [lia|].
    rewrite Hl. simpl. rewrite decide_False by lia. simpl.
    f_equal. rewrite Nat2Z.id. apply list_eq. intros i.
    destruct (decide (i = j)) as [->|Hij].
    + rewrite list_lookup_insert_eq by (rewrite length_imap; lia).
      rewrite list_lookup_imap, Hl. simpl. by rewrite decide_True by lia.
    + rewrite list_lookup_insert_ne by done. rewrite !list_lookup_imap.
      destruct (res !! i); simpl; [|done].
      repeat case_decide; try done; lia.
Qed.

Lemma append_loop_full (G : Z → GraphPartitionData) res np :
  length res = Z.to_nat np →
  for_each (λ res pidx, append_at res pidx (G pidx)) res (range np)
  = Ok (imap (λ k l, l ++ [G (Z.of_nat k)]) res).
Proof.
  intros Hl. unfold range. destruct (decide (np ≤ 0)) as [Hnp|Hnp].
  - rewrite seqZ_nil by done. simpl. destruct res; [done|simpl in *; lia].
  - replace np with (Z.of_nat (length res)) by lia.
    rewrite append_loop by done. f_equal. apply imap_ext.
    intros i l Hi%lookup_lt_Some. by rewrite decide_True.
Qed.

(** ** The chunk loop *)

Section ChunkLoop.

Context {Feat : Type} (self : PartitionerBase.t Feat).
Context (rows cols ids tgt pb : tensor).
Hypothesis chunk_size_pos : 0 < chunk_size self.
Hypothesis length_cols : length cols = length rows.
Hypothesis length_ids : length ids = length rows.
Hypothesis length_tgt : length tgt = length rows.

Local Abbreviation cend := (chunk_end (length rows) (chunk_size self)).
Local Abbreviation pc := (piece rows cols ids).

Lemma chunk_body_Book s res x :
  (s ≤ length rows)%nat →
  length res = Z.to_nat (num_parts self) →
  chunk_body self rows cols ids (len rows) (Book pb) tgt (Z.of_nat s, res) x
  = match mapM (index_tensor pb) (take (cend s - s) (drop s tgt)) with
    | Some sh =>
        Ok (Z.of_nat (cend s),
            imap (λ k l, l ++ [pc s (cend s) sh (Z.of_nat k)]) res)
    | None => Raise IndexError
    end.
Proof.
  intros Hs Hres. unfold chunk_body.
  set (e := Z.min (len rows) (Z.of_nat s + chunk_size self)).
  assert (e = Z.of_nat (cend s)) as He by (unfold e, chunk_end, len; lia).
  assert (Z.to_nat (e - Z.of_nat s) = (cend s - s)%nat) as Hsz by lia.
  assert (Z.of_nat s ≤ e) by (unfold e, len; lia).
  assert (e ≤ len rows) by (unfold e; lia).
  unfold arange. rewrite decide_False by lia. simpl.
  rewrite !slice_in_range by (unfold len in *; lia).
  rewrite Hsz, Nat2Z.id.
  destruct (mapM _ (take _ (drop s tgt))) as [sh|] eqn:Hsh; simpl;
    [|by unfold lookup_book, getitem; rewrite Hsh].
  replace (getitem pb (take (cend s - s) (drop s tgt))) with (Ok sh)
    by (by unfold getitem; rewrite Hsh).
  simpl.
  assert (length sh = (cend s - s)%nat) as Hlsh.
  { apply length_mapM in Hsh. rewrite <-Hsh, length_take, length_drop.
    rewrite length_tgt. unfold chunk_end. lia. }
  assert (∀ t : tensor, length t = length rows →
            len (take (cend s - s) (drop s t)) = e - Z.of_nat s) as Hlen.
  { intros t Ht. unfold len. rewrite length_take, length_drop, Ht.
    unfold chunk_end in *. lia. }
  erewrite for_each_ext.
  - rewrite append_loop_full by done. simpl.
    by replace (Z.of_nat s + (e - Z.of_nat s)) with (Z.of_nat (cend s)) by lia.
  - intros res' pidx _. simpl.
    unfold masked_select. rewrite decide_True; last first.
    { rewrite length_seqZ. unfold eq_scalar. rewrite length_fmap. lia. }
    simpl.
    rewrite <-(Hlen rows eq_refl) at 1. rewrite getitem_select_mask. simpl.
    rewrite <-(Hlen cols length_cols) at 1. rewrite getitem_select_mask. simpl.
    rewrite <-(Hlen ids length_ids). rewrite getitem_select_mask. simpl.
    done.
Qed.

Lemma chunk_body_BookDict pbs s res x :
  (s ≤ length rows)%nat →
  chunk_body self rows cols ids (len rows) (BookDict pbs) tgt (Z.of_nat s, res) x
  = Raise KeyError.
Proof.
  intros Hs. unfold chunk_body, arange, len.
  by rewrite decide_False by lia.
Qed.

(** Running the chunk loop from position [s] for enough rounds to reach
    the end of the edge list: either a designated endpoint after [s] is
    not covered by the book and the loop raises, or every shard's list
    grows by chunks whose concatenation is the selection, in input order,
    of the edges after [s] that the book sends to the shard. *)
Lemma chunk_loop l : ∀ s res,
  (s ≤ length rows)%nat →
  (length rows ≤ s + length l * Z.to_nat (chunk_size self))%nat →
  length res = Z.to_nat (num_parts self) →
  match mapM (index_tensor pb) (drop s tgt) with
  | Some sh =>
      ∃ pos res',
        for_each (chunk_body self rows cols ids (len rows) (Book pb) tgt)
          (Z.of_nat s, res) l = Ok (pos, res') ∧
        length res' = length res ∧
        ∀ k rs, res !! k = Some rs →
          ∃ ex, res' !! k = Some (rs ++ ex) ∧ (l ≠ [] → ex ≠ []) ∧
            cat_rows ex = select_mask (drop s rows) (eq_scalar sh (Z.of_nat k)) ∧
            cat_cols ex = select_mask (drop s cols) (eq_scalar sh (Z.of_nat k)) ∧
            cat_eids ex = select_mask (drop s ids) (eq_scalar sh (Z.of_nat k))
  | None =>
      for_each (chunk_body self rows cols ids (len rows) (Book pb) tgt)
        (Z.of_nat s, res) l = Raise IndexError
  end.
Proof.
  induction l as [|x l IH]; intros s res Hs Hl Hres.
  - simpl in Hl. rewrite drop_ge by lia. simpl.
    exists (Z.of_nat s), res. split_and!; [done..|].
    intros k rs Hk. exists []. rewrite app_nil_r, !drop_ge by lia.
    by rewrite !select_mask_nil_r.
  - pose proof (chunk_body_Book s res x Hs Hres) as Hstep.
    set (e := cend s) in *.
    assert (s ≤ e ≤ length rows)%nat as He by (unfold e, chunk_end; lia).
    assert (length rows ≤ e + length l * Z.to_nat (chunk_size self))%nat as Hl'.
    { unfold e, chunk_end. simpl in Hl. lia. }
    assert (∀ t : tensor, drop s t = take (e - s) (drop s t) ++ drop e t) as Hsplit.
    { intros t. rewrite <-(take_drop (e - s) (drop s t)) at 1.
      rewrite drop_drop. do 2 f_equal. lia. }
    rewrite (Hsplit tgt), mapM_app.
    destruct (mapM _ (take _ _)) as [shc|] eqn:Hshc; simpl;
      [|by rewrite Hstep].
    specialize (IH e (imap (λ k l, l ++ [pc s e shc (Z.of_nat k)]) res)).
    rewrite length_imap in IH. specialize (IH ltac:(lia) Hl' Hres).
    destruct (mapM _ (drop e tgt)) as [shr|] eqn:Hshr; simpl;
      [|by rewrite Hstep].
    destruct IH as (pos & res' & IH & Hlen & Hex).
    rewrite Hstep. simpl. rewrite IH.
    exists pos, res'. split_and!; [done..|].
    intros k rs Hk.
    destruct (Hex k (rs ++ [pc s e shc (Z.of_nat k)])) as (ex & Hk' & _ & Hr & Hc & Hi).
    { by rewrite list_lookup_imap, Hk. }
    exists (pc s e shc (Z.of_nat k) :: ex). split_and!.
    + by rewrite Hk', <-app_assoc.
    + done.
    + change (cat_rows (?g :: ex)) with ((edge_index g).1 ++ cat_rows ex).
      rewrite Hr, (Hsplit rows). unfold eq_scalar. simpl.
      rewrite fmap_app, select_mask_app; [done|].
      apply length_mapM in Hshc. by rewrite length_fmap, <-Hshc,
        !length_take, !length_drop, length_tgt.
    + change (cat_cols (?g :: ex)) with ((edge_index g).2 ++ cat_cols ex).
      rewrite Hc, (Hsplit cols). unfold eq_scalar. simpl.
      rewrite fmap_app, select_mask_app; [done|].
      apply length_mapM in Hshc. by rewrite length_fmap, <-Hshc,
        !length_take, !length_drop, length_tgt, length_cols.
    + change (cat_eids (?g :: ex)) with (eids g ++ cat_eids ex).
      rewrite Hi, (Hsplit ids). unfold eq_scalar. simpl.
      rewrite fmap_app, select_mask_app; [done|].
      apply length_mapM in Hshc. by rewrite length_fmap, <-Hshc,
        !length_take, !length_drop, length_tgt, length_ids.
Qed.

End ChunkLoop.

(** ** Scatter writes *)

Lemma foldl_insert_length {A} (v : A) (t : list A) ps :
  length (foldl (λ acc p, <[p:=v]> acc) t ps) = length t.
Proof.
  revert t. induction ps as [|p ps IH]; intros t; simpl; [done|].
  by rewrite IH, length_insert.
Qed.

Lemma foldl_insert_lookup_in {A} (v : A) (t : list A) ps i :
  i ∈ ps → (i < length t)%nat →
  foldl (λ acc p, <[p:=v]> acc) t ps !! i = Some v.
Proof.
  revert t. induction ps as [|p ps IH]; intros t Hin Hi; [by apply elem_of_nil in Hin|].
  simpl. destruct (decide (i ∈ ps)) as [Hps|Hps].
  - apply IH; [done|]. by rewrite length_insert.
  - apply elem_of_cons in Hin as [->|?]; [|done].
    clear IH. revert t Hi. induction ps as [|q ps IH]; intros t Hi; simpl.
    + by apply list_lookup_insert_eq.
    + apply not_elem_of_cons in Hps as [Hq Hps].
      rewrite list_insert_insert_ne by done. apply IH; [done|].
      by rewrite length_insert.
Qed.

Lemma foldl_insert_lookup_notin {A} (v : A) (t : list A) ps i :
  i ∉ ps → foldl (λ acc p, <[p:=v]> acc) t ps !! i = t !! i.
Proof.
  revert t. induction ps as [|p ps IH]; intros t Hin; simpl; [done|].
  apply not_elem_of_cons in Hin as [Hp Hps].
  rewrite IH by done. by apply list_lookup_insert_ne.
Qed.

Lemma mapM_resolve_range n (l : tensor) :
  Forall (λ x, 0 ≤ x < Z.of_nat n) l → mapM (resolve n) l = Some (Z.to_nat <$> l).
Proof.
  intros H. apply mapM_Some, Forall2_fmap_r, Forall_Forall2_diag.
  eapply Forall_impl; [done|]. intros x Hx. simpl.
  unfold resolve. by rewrite decide_True.
Qed.

Lemma elem_of_select_mask_seqZ n mask x :
  x ∈ select_mask (seqZ 0 n) mask ↔
  0 ≤ x < n ∧ mask !! Z.to_nat x = Some true.
Proof.
  rewrite elem_of_select_mask. split.
  - intros (i & [-> Hi]%lookup_seqZ & Hm). rewrite Z.add_0_l, Nat2Z.id.
    split; [lia|done].
  - intros [Hx Hm]. exists (Z.to_nat x). split; [|done].
    apply lookup_seqZ. lia.
Qed.

(** ** The final loop *)

Lemma torch_cat_fmap {A B} (f : A → list B) (l : list A) :
  l ≠ [] → torch_cat (f <$> l) = Ok (concat (f <$> l)).
Proof. by destruct l. Qed.

Lemma collect_loop (rows cols sh : tensor) res (j : nat) :
  length sh = length rows →
  (∀ k, (k < j)%nat → ∃ ex, res !! k = Some ex ∧ ex ≠ [] ∧
     cat_rows ex = select_mask rows (eq_scalar sh (Z.of_nat k)) ∧
     cat_cols ex = select_mask cols (eq_scalar sh (Z.of_nat k)) ∧
     cat_eids ex = select_mask (seqZ 0 (len rows)) (eq_scalar sh (Z.of_nat k))) →
  for_each (collect_body res) (replicate (length rows) 0, [])
    (seqZ 0 (Z.of_nat j))
  = Ok (book_entry (Z.of_nat j) <$> sh,
        shard_data rows cols sh <$> seqZ 0 (Z.of_nat j)).
Proof.
  intros Hsh. induction j as [|j IH]; intros Hres.
  - simpl. do 2 f_equal. apply list_eq. intros i.
    rewrite list_lookup_fmap. destruct (sh !! i) as [s|] eqn:Hs; simpl.
    + unfold book_entry. rewrite decide_False by lia.
      apply lookup_replicate_2. apply lookup_lt_Some in Hs. lia.
    + apply lookup_replicate_None. apply lookup_ge_None in Hs. lia.
  - rewrite seqZ_S, for_each_app, IH by (intros; apply Hres; lia).
    rewrite Z.add_0_l. cbn [mbind result_bind for_each]. unfold collect_body.
    rewrite index_tensor_nat.
    destruct (Hres j) as (ex & -> & Hex & Hr & Hc & Hi); [lia|].
    unfold cat_rows, cat_cols, cat_eids in *.
    rewrite !torch_cat_fmap by done. cbn [mbind result_bind].
    rewrite Hr, Hc, Hi. unfold setitem_scalar.
    rewrite length_fmap, Hsh, mapM_resolve_range; last first.
    { apply Forall_forall. intros x [Hx _]%elem_of_select_mask_seqZ.
      unfold len in Hx. lia. }
    simpl. rewrite fmap_app. simpl. do 2 f_equal. apply list_eq. intros i.
    rewrite list_lookup_fmap.
    destruct (decide (sh !! i = Some (Z.of_nat j))) as [Hj|Hj].
    + rewrite Hj. simpl. unfold book_entry at 2. rewrite decide_True by lia.
      apply foldl_insert_lookup_in.
      * apply list_elem_of_fmap. exists (Z.of_nat i).
        split; [by rewrite Nat2Z.id|]. apply elem_of_select_mask_seqZ.
        apply lookup_lt_Some in Hj as Hi'. unfold len. split; [lia|].
        unfold eq_scalar. rewrite Nat2Z.id, list_lookup_fmap, Hj. simpl.
        by rewrite bool_decide_eq_true_2.
      * rewrite length_fmap. by apply lookup_lt_Some in Hj.
    + rewrite foldl_insert_lookup_notin.
      * rewrite list_lookup_fmap. destruct (sh !! i) as [s|]; simpl; [|done].
        f_equal. unfold book_entry. assert (s ≠ Z.of_nat j) by congruence.
        repeat case_decide; try done; lia.
      * intros (x & -> & [Hx Hm]%elem_of_select_mask_seqZ)%list_elem_of_fmap.
        unfold eq_scalar in Hm. rewrite list_lookup_fmap in Hm.
        destruct (sh !! Z.to_nat x) as [s|]; simplify_eq/=.
        apply bool_decide_eq_true_1 in Hm. by subst.
Qed.

(** ** [_partition_graph] computes the chunk-free outcome *)

Lemma select_target_indices {Feat} (self : PartitionerBase.t Feat)
    node_pb etype rows cols tpb tgt :
  select_target self node_pb etype rows cols = Ok (tpb, tgt) →
  tgt = if decide ("by_src" = edge_assign_strategy self) then rows else cols.
Proof.
  unfold select_target. intros H.
  repeat (case_decide || case_match || simplify_eq/=); try done;
    destruct (bool_decide _); simplify_eq/=; done.
Qed.

Lemma range_to_nat n : range n = seqZ 0 (Z.of_nat (Z.to_nat n)).
Proof. unfold range, seqZ. by rewrite Nat2Z.id. Qed.

Lemma book_entry_to_nat n s : book_entry n s = book_entry (Z.of_nat (Z.to_nat n)) s.
Proof. unfold book_entry. repeat case_decide; try done; lia. Qed.

Lemma chunk_num_rounds (n c : Z) :
  0 ≤ n → 0 < c →
  (Z.to_nat n ≤ Z.to_nat ((n + c - 1) `div` c) * Z.to_nat c)%nat ∧
  (0 < n → 0 < (n + c - 1) `div` c) ∧
  (n = 0 → (n + c - 1) `div` c = 0).
Proof.
  intros Hn Hc. split_and!.
  - pose proof (Z.div_mod (n + c - 1) c ltac:(lia)) as Hdm.
    pose proof (Z.mod_pos_bound (n + c - 1) c Hc) as Hb.
    assert (0 ≤ (n + c - 1) `div` c) by (apply Z.div_pos; lia).
    nia.
  - intros Hn'. apply Z.div_str_pos. lia.
  - intros ->. apply Z.div_small. lia.
Qed.

Lemma partition_graph_outcome {Feat} (self : PartitionerBase.t Feat)
    node_pb etype rows cols tpb tgt :
  0 < chunk_size self →
  get_edge_index self etype = Ok (rows, cols) →
  length cols = length rows →
  select_target self node_pb etype rows cols = Ok (tpb, tgt) →
  _partition_graph self node_pb etype
  = partition_outcome (num_parts self) rows cols tpb tgt.
Proof.
  intros Hc Hget Hcols Hsel.
  assert (length tgt = length rows) as Htgt.
  { rewrite (select_target_indices _ _ _ _ _ _ _ Hsel). by case_decide. }
  unfold _partition_graph, partition_outcome.
  rewrite Hget. cbn [mbind result_bind].
  unfold arange, floordiv, zeros, len.
  rewrite !decide_False by lia. cbn [mbind result_bind]. rewrite Hsel.
  cbn [mbind result_bind].
  destruct (chunk_num_rounds (Z.of_nat (length rows)) (chunk_size self))
    as (Hrounds & Hpos & Hzero); [lia..|].
  set (q := (Z.of_nat (length rows) + chunk_size self - 1) `div` chunk_size self) in *.
  destruct (decide (rows = [])) as [->|Hrows].
  - simpl in *. unfold range at 1. rewrite Hzero by done. simpl.
    case_decide as Hnp.
    + unfold range. by rewrite seqZ_nil.
    + unfold range. rewrite seqZ_cons by lia. simpl.
      unfold index_tensor, resolve. rewrite length_replicate.
      rewrite decide_True by lia. simpl.
      rewrite lookup_replicate_2 by lia. done.
  - assert (0 < length rows)%nat as Hlen by (destruct rows; simpl; [done|lia]).
    assert (range q ≠ []) as Hne.
    { unfold range. rewrite seqZ_cons by lia. done. }
    destruct tpb as [pb|pbs].
    + pose proof (chunk_loop self rows cols (seqZ 0 (Z.of_nat (length rows)))
        tgt pb Hc Hcols ltac:(rewrite length_seqZ; lia) Htgt (range q) 0%nat
        (replicate (Z.to_nat (num_parts self)) [])) as Hloop.
      specialize (Hloop ltac:(lia)).
      unfold range in Hloop at 1. rewrite length_seqZ in Hloop.
      specialize (Hloop ltac:(lia) ltac:(by rewrite length_replicate)).
      rewrite drop_0 in Hloop. unfold len in Hloop.
      change (Z.of_nat 0) with 0 in Hloop. simpl lookup_book.
      unfold getitem.
      destruct (mapM (index_tensor pb) tgt) as [sh|] eqn:Hsh.
      * destruct Hloop as (pos & res' & -> & _ & Hex).
        cbn [mbind result_bind].
        rewrite (range_to_nat (num_parts self)).
        replace (Z.to_nat (Z.of_nat (length rows))) with (length rows) by lia.
        rewrite (collect_loop rows cols sh).
        -- cbn [mbind result_bind]. do 2 f_equal.
           apply list_fmap_ext. intros _ s _. symmetry. apply book_entry_to_nat.
        -- apply length_mapM in Hsh. lia.
        -- intros k Hk.
           destruct (Hex k []) as (ex & Hex1 & Hex2 & Hr & Hc' & Hi).
           { by apply lookup_replicate_2. }
           exists ex. rewrite !drop_0 in *. split_and!; auto.
      * by rewrite Hloop.
    + destruct (range q) as [|x l]; [done|]. rewrite for_each_cons.
      pose proof (chunk_body_BookDict self rows cols
        (seqZ 0 (Z.of_nat (length rows))) tgt Hc Hcols
        ltac:(rewrite length_seqZ; lia) Htgt pbs 0%nat
        (replicate (Z.to_nat (num_parts self)) []) x ltac:(lia)) as Hd.
      unfold len in Hd. change (Z.of_nat 0) with 0 in Hd. by rewrite Hd.
Qed.

(** ** What a returned outcome looks like *)

Lemma partition_graph_nonpos_chunk {Feat} (self : PartitionerBase.t Feat)
    node_pb etype rows cols results book :
  chunk_size self ≤ 0 →
  get_edge_index self etype = Ok (rows, cols) →
  _partition_graph self node_pb etype = Ok (results, book) →
  num_parts self ≤ 0 ∧ results = [] ∧ book = replicate (length rows) 0.
Proof.
  intros Hc Hget. unfold _partition_graph. rewrite Hget.
  cbn [mbind result_bind]. unfold arange, floordiv, zeros, len.
  rewrite !(decide_False (P:=(Z.of_nat (length rows) < 0))) by lia.
  cbn [mbind result_bind].
  destruct (select_target _ _ _ _ _) as [[tpb tgt]|];
    cbn [mbind result_bind]; [|done].
  destruct (decide (chunk_size self = 0)); cbn [mbind result_bind]; [done|].
  set (q := _ `div` _). unfold range.
  destruct (decide (q ≤ 0)) as [Hq|Hq].
  - rewrite (seqZ_nil 0 q) by done. cbn [for_each mbind result_bind].
    rewrite Nat2Z.id.
    destruct (decide (num_parts self ≤ 0)) as [Hnp|Hnp].
    + rewrite (seqZ_nil 0 (num_parts self)) by done.
      cbn [for_each mbind result_bind]. by intros [= <- <-].
    + rewrite (seqZ_cons 0 (num_parts self)) by lia.
      rewrite for_each_cons. unfold collect_body.
      unfold index_tensor, resolve. rewrite length_replicate.
      rewrite decide_True by lia. simpl.
      rewrite lookup_replicate_2 by lia. done.
  - rewrite (seqZ_cons 0 q) by lia. rewrite for_each_cons.
    unfold chunk_body, arange.
    rewrite decide_True by lia. done.
Qed.

Lemma partition_graph_Ok_inv {Feat} (self : PartitionerBase.t Feat)
    node_pb etype rows cols tpb tgt results book :
  get_edge_index self etype = Ok (rows, cols) →
  length rows = length cols →
  select_target self node_pb etype rows cols = Ok (tpb, tgt) →
  _partition_graph self node_pb etype = Ok (results, book) →
  (num_parts self ≤ 0 ∧ results = [] ∧ book = replicate (length rows) 0)
  ∨ (∃ pb sh, tpb = Book pb ∧ mapM (index_tensor pb) tgt = Some sh ∧
       results = shard_data rows cols sh <$> range (num_parts self) ∧
       book = book_entry (num_parts self) <$> sh).
Proof.
  intros Hget Hlen Hsel Hpg.
  destruct (decide (0 < chunk_size self)) as [Hc|Hc].
  - rewrite (partition_graph_outcome self node_pb etype rows cols tpb tgt)
      in Hpg by done.
    unfold partition_outcome in Hpg. case_decide as Hrows.
    + subst rows. case_decide; [|done]. simplify_eq. by left.
    + destruct tpb as [pb|pbs]; simpl in Hpg; [|done]. unfold getitem in Hpg.
      destruct (mapM _ _) as [sh|] eqn:Hsh; [|done]. simpl in Hpg.
      simplify_eq. right. by exists pb, sh.
  - left. eapply partition_graph_nonpos_chunk; eauto. lia.
Qed.

Lemma partition_graph_returns {Feat} (self : PartitionerBase.t Feat)
    node_pb etype rows cols pb tgt :
  get_edge_index self etype = Ok (rows, cols) →
  length rows = length cols →
  select_target self node_pb etype rows cols = Ok (Book pb, tgt) →
  Forall (λ v, 0 ≤ v < len pb) tgt →
  0 < chunk_size self → rows ≠ [] →
  ∃ r, _partition_graph self node_pb etype = Ok r.
Proof.
  intros Hget Hlen Hsel Hv Hc Hrows.
  rewrite (partition_graph_outcome self node_pb etype rows cols (Book pb) tgt)
    by done.
  unfold partition_outcome. rewrite decide_False by done. simpl.
  unfold getitem.
  destruct (mapM_is_Some_2 (index_tensor pb) tgt) as [sh ->]; [|simpl; eauto].
  eapply Forall_impl; [done|]. intros v Hvv. simpl.
  unfold index_tensor, resolve, len in *. rewrite decide_True by lia. simpl.
  apply lookup_lt_is_Some_2. lia.
Qed.

(** Under a total book the shards of the edges are the book's entries. *)
Lemma total_book_entries (np : Z) (pb tgt sh : tensor) :
  Forall (λ s, 0 ≤ s < np) pb →
  mapM (index_tensor pb) tgt = Some sh →
  Forall (λ s, 0 ≤ s < np) sh ∧ book_entry np <$> sh = sh.
Proof.
  intros Hpb Hsh. assert (Forall (λ s, 0 ≤ s < np) sh) as Hin.
  { apply mapM_Some_1 in Hsh. rewrite Forall_forall in Hpb.
    induction Hsh as [|v s tgt sh Hv _ IH]; constructor; [|done].
    eapply Hpb, index_tensor_Some_elem. done. }
  split; [done|]. rewrite <-(list_fmap_id sh) at 2.
  apply Forall_fmap_ext_1. eapply Forall_impl; [done|].
  intros s Hs. unfold book_entry. by rewrite decide_True.
Qed.

Lemma length_select_mask_eq_scalar {A} (t : list A) (sh : tensor) k :
  length t = length sh →
  length (select_mask t (eq_scalar sh k)) = length (filter (λ s, s = k) sh).
Proof.
  revert t. induction sh as [|s sh IH]; intros [|x t] Hl; simplify_eq/=; [done|].
  rewrite filter_cons. case_bool_decide; case_decide; try done; simpl;
    by rewrite IH.
Qed.

Lemma lookup_shards {A} (f : Z → A) (np : Z) (k : nat) y :
  (f <$> range np) !! k = Some y ↔ y = f (Z.of_nat k) ∧ Z.of_nat k < np.
Proof.
  unfold range. rewrite list_lookup_fmap. split.
  - destruct (seqZ 0 np !! k) as [z|] eqn:Hz; simpl; [|done].
    apply lookup_seqZ in Hz as [-> ?]. intros [= <-]. by rewrite Z.add_0_l.
  - intros [-> Hk]. rewrite lookup_seqZ_lt by done. simpl. by rewrite Z.add_0_l.
Qed.

Lemma elem_of_shard_eids (rows cols sh : tensor) (k : Z) (e : nat) :
  length sh = length rows →
  Z.of_nat e ∈ eids (shard_data rows cols sh k) ↔ sh !! e = Some k.
Proof.
  intros Hl. simpl. rewrite elem_of_select_mask_seqZ, Nat2Z.id.
  unfold eq_scalar, len. rewrite list_lookup_fmap. split.
  - intros [_ Hm]. destruct (sh !! e) as [s|]; simplify_eq/=.
    apply bool_decide_eq_true_1 in Hm. by subst.
  - intros Hs. rewrite Hs. simpl. rewrite bool_decide_eq_true_2 by done.
    apply lookup_lt_Some in Hs. split; [lia|done].
Qed.

(** ** Order *)

Lemma StronglySorted_seqZ (n : nat) : ∀ m, StronglySorted Z.lt (seqZ m (Z.of_nat n)).
Proof.
  induction n as [|n IH]; intros m; [constructor|].
  rewrite seqZ_cons by lia. constructor.
  - replace (Z.pred (Z.of_nat (S n))) with (Z.of_nat n) by lia. apply IH.
  - apply Forall_seqZ. lia.
Qed.

Lemma StronglySorted_select_mask {A} (R : relation A) l mask :
  StronglySorted R l → StronglySorted R (select_mask l mask).
Proof.
  intros H. revert mask. induction H as [|x l Hl IH Hx]; intros [|b mask]; simpl;
    try constructor.
  destruct b; [|done]. constructor; [done|].
  rewrite Forall_forall in *. intros y (i & Hy & _)%elem_of_select_mask.
  eapply Hx, list_elem_of_lookup_2. done.
Qed.

Lemma select_mask_filter {A} (P : A → Prop) `{∀ x, Decision (P x)} l mask :
  Forall2 (λ x (b : bool), P x ↔ b = true) l mask →
  select_mask l mask = filter P l.
Proof.
  induction 1 as [|x b l mask Hxb _ IH]; simpl; [done|].
  rewrite filter_cons. destruct Hxb as [Hxb1 Hxb2].
  destruct b; case_decide as HP; try done.
  - by rewrite IH.
  - by destruct HP; apply Hxb2.
  - by specialize (Hxb1 HP).
Qed.

(** * The claims about [_partition_graph] *)

(** C1. The chunk size does not change the outcome: for every partitioner
    whose edge list is a pair of parallel arrays, every node partition
    book, edge type and strategy, and every two positive chunk sizes,
    [_partition_graph] returns the same per-shard data (rows, cols and
    eids, in the same order) and the same edge partition book, or raises
    the same exception. *)
Theorem chunk_size_irrelevant {Feat} (self : PartitionerBase.t Feat)
    (node_pb : NodePartition) (etype : option EdgeType) (c1 c2 : Z) :
  0 < c1 → 0 < c2 →
  edge_list_well_formed self etype →
  PartitionerBase._partition_graph (with_chunk_size c1 self) node_pb etype
  = PartitionerBase._partition_graph (with_chunk_size c2 self) node_pb etype.
Proof.
  intros Hc1 Hc2 Hwf. unfold edge_list_well_formed in Hwf.
  assert (∀ c, get_edge_index (with_chunk_size c self) etype
               = get_edge_index self etype) as Hget by done.
  assert (∀ c rows cols,
            select_target (with_chunk_size c self) node_pb etype rows cols
            = select_target self node_pb etype rows cols) as Hsel by done.
  destruct (get_edge_index self etype) as [[rows cols]|e] eqn:Hg.
  - destruct (select_target self node_pb etype rows cols) as [[tpb tgt]|e]
      eqn:Hs.
    + rewrite (partition_graph_outcome (with_chunk_size c1 self) node_pb etype
                 rows cols tpb tgt), 
              (partition_graph_outcome (with_chunk_size c2 self) node_pb etype
                 rows cols tpb tgt); try done.
      all: by rewrite ?Hget, ?Hsel.
    + unfold _partition_graph. rewrite !Hget. cbn [mbind result_bind].
      unfold arange, len. rewrite !decide_False by lia.
      cbn [mbind result_bind]. by rewrite !Hsel, Hs.
  - unfold _partition_graph. by rewrite !Hget.
Qed.

Lemma chunk_size_irrelevant_witness :
  0 < 4 ∧ 0 < 1 ∧ edge_list_well_formed (cycle6 "by_src" 10) None ∧
  PartitionerBase._partition_graph (cycle6 "by_src" 4) (Book cycle6_book) None
  = PartitionerBase._partition_graph (cycle6 "by_src" 1) (Book cycle6_book) None.
Proof.
  split_and!; [lia | lia | reflexivity |].
  apply (chunk_size_irrelevant (cycle6 "by_src" 10) (Book cycle6_book) None 4 1);
    [lia | lia | reflexivity].
Defined.

Lemma Forall2_index_seqZ {A} (t : list A) :
  Forall2 (λ e x, index_tensor t e = Some x) (seqZ 0 (len t)) t.
Proof.
  apply Forall2_same_length_lookup. split.
  - rewrite length_seqZ. unfold len. lia.
  - intros i x y [-> _]%lookup_seqZ Hy. by rewrite Z.add_0_l, index_tensor_nat.
Qed.

Lemma shard_members (pb t sh : tensor) (k : Z) :
  mapM (index_tensor pb) t = Some sh →
  Forall (λ v, index_tensor pb v = Some k) (select_mask t (eq_scalar sh k)).
Proof.
  intros Hsh%mapM_Some_1. apply Forall_forall.
  intros v (i & Hv & Hm)%elem_of_select_mask.
  unfold eq_scalar in Hm. rewrite list_lookup_fmap in Hm.
  destruct (sh !! i) as [s|] eqn:Hs; simplify_eq/=.
  apply bool_decide_eq_true_1 in Hm. subst s.
  by eapply (Forall2_lookup_lr _ t sh i) in Hsh.
Qed.

Lemma total_book_nonempty {Feat} (self : PartitionerBase.t Feat)
    (rows pb tgt : tensor) :
  length tgt = length rows →
  Forall (λ v, 0 ≤ v < len pb) tgt →
  Forall (λ s, 0 ≤ s < num_parts self) pb →
  num_parts self ≤ 0 → length rows = 0%nat.
Proof.
  intros Hl Hv Hpb Hnp. destruct tgt as [|v tgt]; [done|].
  apply Forall_cons_1 in Hv as [Hv _]. unfold len in Hv.
  destruct (lookup_lt_is_Some_2 pb (Z.to_nat v)) as [s Hs]; [lia|].
  eapply Forall_lookup_1 in Hpb; [|done]. lia.
Qed.

(** The scenario of the spec, run with chunks of four edges: shard 0 gets
    edges 0-2, shard 1 gets edges 3-5, and the edge partition book is
    [0, 0, 0, 1, 1, 1]. *)
Example cycle6_by_src :
  PartitionerBase._partition_graph (cycle6 "by_src" 4) (Book cycle6_book) None
  = Ok ([ {| edge_index := ([0; 1; 2], [1; 2; 3]); eids := [0; 1; 2] |};
          {| edge_index := ([3; 4; 5], [4; 5; 0]); eids := [3; 4; 5] |} ],
        [0; 0; 0; 1; 1; 1]).
Proof. reflexivity. Qed.

(** A heterogeneous graph partitioned by destination: the edges follow
    the book of node type ["b"]. *)
Example two_types_by_dst :
  PartitionerBase._partition_graph (two_types "by_dst" 3) two_types_books
    (Some ("a", "to", "b"))
  = Ok ([ {| edge_index := ([1; 2], [1; 1]); eids := [1; 2] |};
          {| edge_index := ([0; 2], [0; 0]); eids := [0; 3] |} ],
        [1; 0; 0; 1]).
Proof. vm_compute. reflexivity. Qed.

(** An empty edge list is not partitioned: with a positive chunk size the
    chunk loop does not run, every shard's list stays empty, and
    [torch.cat] rejects the empty list in the first round of the final
    loop. *)
Lemma partition_graph_empty_edge_list {Feat} (self : PartitionerBase.t Feat)
    (node_pb : NodePartition) (etype : option EdgeType)
    (tpb : NodePartition) (tgt : tensor) :
  PartitionerBase.get_edge_index self etype = Ok ([], []) →
  PartitionerBase.select_target self node_pb etype [] [] = Ok (tpb, tgt) →
  0 < PartitionerBase.chunk_size self →
  0 < PartitionerBase.num_parts self →
  PartitionerBase._partition_graph self node_pb etype = Raise RuntimeError.
Proof.
  intros Hget Hsel Hc Hnp.
  rewrite (partition_graph_outcome self node_pb etype [] [] tpb tgt) by done.
  unfold partition_outcome. rewrite decide_True by done.
  by rewrite decide_False by lia.
Qed.

(** C2. Edge totality: for every edge list (parallel arrays [rows], [cols])
    and every total node partition book [pb] (every designated endpoint is
    a node id of the book and every entry of the book is a shard in
    [0, num_parts)), [_partition_graph] returns when the chunk size is
    positive and the edge list is not empty, and whenever it returns, it
    returns [num_parts] shards and the edge partition book has length
    [num_edges]; every edge id [e] has an entry [k] in [0, num_parts),
    the shard that [pb] gives to the designated endpoint of [e], and is
    stored in shard [k]'s eids and in no other shard's; and for every
    shard [k] in [0, num_parts) the number of entries equal to [k] is the
    length of shard [k]'s stored arrays. *)
Theorem edge_book_total {Feat} (self : PartitionerBase.t Feat)
    (node_pb : NodePartition) (etype : option EdgeType)
    (rows cols pb tgt : tensor) :
  PartitionerBase.get_edge_index self etype = Ok (rows, cols) →
  length rows = length cols →
  PartitionerBase.select_target self node_pb etype rows cols
    = Ok (Book pb, tgt) →
  Forall (λ v, 0 ≤ v < len pb) tgt →
  Forall (λ s, 0 ≤ s < PartitionerBase.num_parts self) pb →
  (0 < PartitionerBase.chunk_size self → rows ≠ [] →
   ∃ r, PartitionerBase._partition_graph self node_pb etype = Ok r) ∧
  ∀ results book,
    PartitionerBase._partition_graph self node_pb etype = Ok (results, book) →
    length results = Z.to_nat (PartitionerBase.num_parts self) ∧
    length book = length rows ∧
    (∀ e : nat, (e < length rows)%nat →
       ∃ (k : nat) g,
         book !! e = Some (Z.of_nat k) ∧
         Z.of_nat k < PartitionerBase.num_parts self ∧
         designated_shard pb tgt (Z.of_nat e) = Some (Z.of_nat k) ∧
         results !! k = Some g ∧ Z.of_nat e ∈ eids g ∧
         ∀ (k' : nat) g',
           results !! k' = Some g' → Z.of_nat e ∈ eids g' → k' = k) ∧
    (∀ k : nat, Z.of_nat k < PartitionerBase.num_parts self →
       ∃ g, results !! k = Some g ∧
         length (filter (λ s, s = Z.of_nat k) book) = length (eids g) ∧
         length (edge_index g).1 = length (eids g) ∧
         length (edge_index g).2 = length (eids g)).
Proof.
  intros Hget Hlen Hsel Hvalid Htotal.
  assert (length tgt = length rows) as Htgt.
  { rewrite (select_target_indices _ _ _ _ _ _ _ Hsel). by case_decide. }
  split; [intros; by eapply partition_graph_returns|].
  intros results book Hpg.
  destruct (partition_graph_Ok_inv _ _ _ _ _ _ _ _ _ Hget Hlen Hsel Hpg)
    as [(Hnp & -> & ->) | (pb' & sh & [= <-] & Hsh & -> & ->)].
  - pose proof (total_book_nonempty self rows pb tgt Htgt Hvalid Htotal Hnp).
    rewrite length_replicate. split_and!; [simpl; lia|done|intros; lia|].
    intros k Hk. lia.
  - destruct (total_book_entries _ _ _ _ Htotal Hsh) as [Hin ->].
    assert (length sh = length rows) as Hlsh.
    { apply length_mapM in Hsh. lia. }
    split_and!; [|done| |].
    + rewrite length_fmap. unfold range. by rewrite length_seqZ.
    + intros e He.
      destruct (lookup_lt_is_Some_2 sh e) as [s Hs]; [lia|].
      pose proof (Forall_lookup_1 _ _ _ _ Hin Hs) as Hrange.
      simpl in Hrange.
      exists (Z.to_nat s), (shard_data rows cols sh s).
      rewrite Z2Nat.id by lia. split_and!; [done|lia| | | |].
      * pose proof (mapM_Some_1 _ _ _ Hsh) as Hall.
        destruct (Forall2_lookup_r _ _ _ _ _ Hall Hs) as (v & Hv & Hvs).
        unfold designated_shard. rewrite index_tensor_nat, Hv. simpl.
        exact Hvs.
      * apply lookup_shards. rewrite Z2Nat.id by lia. split; [done|lia].
      * by apply elem_of_shard_eids.
      * intros k' g' [-> _]%lookup_shards Hk'%elem_of_shard_eids; [|done].
        simplify_eq. lia.
    + intros k Hk. exists (shard_data rows cols sh (Z.of_nat k)).
      split; [by apply lookup_shards|]. simpl.
      rewrite !length_select_mask_eq_scalar; try done; [lia|].
      rewrite length_seqZ. unfold len. lia.
Qed.

Lemma edge_book_total_witness :
  ∃ results book,
    PartitionerBase._partition_graph (cycle6 "by_src" 4) (Book cycle6_book) None
    = Ok (results, book) ∧ length results = 2%nat ∧ length book = 6%nat.
Proof.
  destruct (edge_book_total (cycle6 "by_src" 4) (Book cycle6_book) None
              [0; 1; 2; 3; 4; 5] [1; 2; 3; 4; 5; 0] cycle6_book
              [0; 1; 2; 3; 4; 5])
    as [Hret Hprop].
  - reflexivity.
  - reflexivity.
  - reflexivity.
  - unfold cycle6_book, len. simpl. repeat constructor; lia.
  - unfold cycle6_book. simpl. repeat constructor; lia.
  - destruct Hret as [[results book] Hr]; [simpl; lia | done |].
    exists results, book. split; [exact Hr|].
    destruct (Hprop results book Hr) as (Hres & Hbook & _).
    split; [exact Hres|exact Hbook].
Defined.

(** C3. Endpoint consistency: under [by_src], every edge stored in shard
    [k]'s data has a source that the node partition book used for
    partitioning sends to [k]; under [by_dst] the same holds for the
    destination. The book used is the one handed in (homogeneous graph) or
    the entry of the handed-in dictionary for the source, respectively
    destination, node type of the edge type (heterogeneous graph). The
    call returns when the chunk size is positive and the edge list is not
    empty. *)
Theorem endpoint_consistency {Feat} (self : PartitionerBase.t Feat)
    (node_pb : NodePartition) (etype : option EdgeType)
    (rows cols pb tgt : tensor) :
  PartitionerBase.get_edge_index self etype = Ok (rows, cols) →
  length rows = length cols →
  PartitionerBase.select_target self node_pb etype rows cols
    = Ok (Book pb, tgt) →
  Forall (λ v, 0 ≤ v < len pb) tgt →
  Forall (λ s, 0 ≤ s < PartitionerBase.num_parts self) pb →
  match PartitionerBase.graph self with
  | PartitionerBase.Homo _ => node_pb = Book pb
  | PartitionerBase.Hetero _ =>
      ∃ pbs src rel dst,
        node_pb = BookDict pbs ∧ etype = Some (src, rel, dst) ∧
        pbs !! (if decide ("by_src" = PartitionerBase.edge_assign_strategy self)
                then src else dst) = Some pb
  end ∧
  (0 < PartitionerBase.chunk_size self → rows ≠ [] →
   ∃ r, PartitionerBase._partition_graph self node_pb etype = Ok r) ∧
  ∀ results book,
    PartitionerBase._partition_graph self node_pb etype = Ok (results, book) →
    ∀ (k : nat) g, results !! k = Some g →
      (PartitionerBase.edge_assign_strategy self = "by_src" →
       Forall (λ v, index_tensor pb v = Some (Z.of_nat k)) (edge_index g).1) ∧
      (PartitionerBase.edge_assign_strategy self = "by_dst" →
       Forall (λ v, index_tensor pb v = Some (Z.of_nat k)) (edge_index g).2).
Proof.
  intros Hget Hlen Hsel Hvalid Htotal.
  pose proof (select_target_indices _ _ _ _ _ _ _ Hsel) as Htgt.
  split_and!.
  - unfold select_target, data_cls in Hsel.
    destruct (graph self); simpl in Hsel.
    + by simplify_eq.
    + destruct etype as [[[src rel] dst]|]; simpl in Hsel; [|done].
      destruct node_pb as [|pbs]; [done|].
      exists pbs, src, rel, dst. split_and!; [done..|].
      case_decide; by destruct (pbs !! _); simplify_eq.
  - intros; by eapply partition_graph_returns.
  - intros results book Hpg k g Hk.
    destruct (partition_graph_Ok_inv _ _ _ _ _ _ _ _ _ Hget Hlen Hsel Hpg)
      as [(Hnp & -> & ->) | (pb' & sh & [= <-] & Hsh & -> & ->)];
      [by rewrite lookup_nil in Hk|].
    apply lookup_shards in Hk as [-> _]. simpl. split; intros Hs.
    + rewrite decide_True in Htgt by done. subst tgt. by apply shard_members.
    + rewrite decide_False in Htgt by (by rewrite Hs). subst tgt.
      by apply shard_members.
Qed.

Lemma endpoint_consistency_witness :
  ∃ results book,
    PartitionerBase._partition_graph (cycle6 "by_dst" 4) (Book cycle6_book) None
    = Ok (results, book) ∧
    ∀ g, results !! 1%nat = Some g →
      Forall (λ v, index_tensor cycle6_book v = Some 1) (edge_index g).2.
Proof.
  destruct (endpoint_consistency (cycle6 "by_dst" 4) (Book cycle6_book) None
              [0; 1; 2; 3; 4; 5] [1; 2; 3; 4; 5; 0] cycle6_book
              [1; 2; 3; 4; 5; 0])
    as (_ & Hret & Hprop).
  - reflexivity.
  - reflexivity.
  - reflexivity.
  - unfold cycle6_book, len. simpl. repeat constructor; lia.
  - unfold cycle6_book. simpl. repeat constructor; lia.
  - destruct Hret as [[results book] Hr]; [simpl; lia | done |].
    exists results, book. split; [done|]. intros g Hg.
    by apply (Hprop results book Hr 1%nat g Hg).
Defined.

(** C4. Input order: whenever [_partition_graph] returns (it does when the
    chunk size is positive and the edge list is not empty), it returns
    [num_parts] shards, and for every [k] in [0, num_parts) shard [k]'s
    eids array is the sequence 0..num_edges-1 filtered, in increasing
    order, by "the designated endpoint falls in shard k", and its rows and
    cols arrays list, position by position, the endpoints of those edges. *)
Theorem input_order_preserved {Feat} (self : PartitionerBase.t Feat)
    (node_pb : NodePartition) (etype : option EdgeType)
    (rows cols pb tgt : tensor) :
  PartitionerBase.get_edge_index self etype = Ok (rows, cols) →
  length rows = length cols →
  PartitionerBase.select_target self node_pb etype rows cols
    = Ok (Book pb, tgt) →
  Forall (λ v, 0 ≤ v < len pb) tgt →
  Forall (λ s, 0 ≤ s < PartitionerBase.num_parts self) pb →
  (0 < PartitionerBase.chunk_size self → rows ≠ [] →
   ∃ r, PartitionerBase._partition_graph self node_pb etype = Ok r) ∧
  ∀ results book,
    PartitionerBase._partition_graph self node_pb etype = Ok (results, book) →
    length results = Z.to_nat (PartitionerBase.num_parts self) ∧
    ∀ k : nat, Z.of_nat k < PartitionerBase.num_parts self →
      ∃ g, results !! k = Some g ∧
        eids g = filter (λ e, designated_shard pb tgt e = Some (Z.of_nat k))
                   (seqZ 0 (len rows)) ∧
        StronglySorted Z.lt (eids g) ∧
        Forall2 (λ e r, index_tensor rows e = Some r) (eids g)
          (edge_index g).1 ∧
        Forall2 (λ e c, index_tensor cols e = Some c) (eids g)
          (edge_index g).2.
Proof.
  intros Hget Hlen Hsel Hvalid Htotal.
  assert (length tgt = length rows) as Htgt.
  { rewrite (select_target_indices _ _ _ _ _ _ _ Hsel). by case_decide. }
  split; [intros; by eapply partition_graph_returns|].
  intros results book Hpg.
  destruct (partition_graph_Ok_inv _ _ _ _ _ _ _ _ _ Hget Hlen Hsel Hpg)
    as [(Hnp & -> & ->) | (pb' & sh & [= <-] & Hsh & -> & ->)].
  { split; [simpl; lia|]. intros k Hk. lia. }
  split.
  { rewrite length_fmap. unfold range. by rewrite length_seqZ. }
  intros k Hk. exists (shard_data rows cols sh (Z.of_nat k)).
  split; [by apply lookup_shards|]. simpl.
  assert (length sh = length rows) as Hlsh.
  { apply length_mapM in Hsh. lia. }
  split_and!.
  - apply select_mask_filter, Forall2_same_length_lookup. split.
    { unfold eq_scalar, len. rewrite length_seqZ, length_fmap. lia. }
    intros i e b [-> _]%lookup_seqZ Hb. rewrite Z.add_0_l.
    unfold eq_scalar in Hb. rewrite list_lookup_fmap in Hb.
    destruct (sh !! i) as [s|] eqn:Hs; simplify_eq/=.
    apply mapM_Some_1 in Hsh.
    destruct (Forall2_lookup_r _ _ _ _ _ Hsh Hs) as (v & Hv & Hvs).
    unfold designated_shard. rewrite index_tensor_nat, Hv. simpl.
    rewrite Hvs. split.
    + intros [= ->]. by apply bool_decide_eq_true_2.
    + intros ->%bool_decide_eq_true_1. done.
  - apply StronglySorted_select_mask. unfold len. apply StronglySorted_seqZ.
  - apply select_mask_Forall2, Forall2_index_seqZ.
  - replace (len rows) with (len cols) by (unfold len; lia).
    apply select_mask_Forall2, Forall2_index_seqZ.
Qed.

Lemma input_order_preserved_witness :
  ∃ results book,
    PartitionerBase._partition_graph (cycle6 "by_src" 4) (Book cycle6_book) None
    = Ok (results, book) ∧
    length results = 2%nat ∧
    ∃ g, results !! 1%nat = Some g ∧ StronglySorted Z.lt (eids g).
Proof.
  destruct (input_order_preserved (cycle6 "by_src" 4) (Book cycle6_book) None
              [0; 1; 2; 3; 4; 5] [1; 2; 3; 4; 5; 0] cycle6_book
              [0; 1; 2; 3; 4; 5])
    as [Hret Hprop].
  - reflexivity.
  - reflexivity.
  - reflexivity.
  - unfold cycle6_book, len. simpl. repeat constructor; lia.
  - unfold cycle6_book. simpl. repeat constructor; lia.
  - destruct Hret as [[results book] Hr]; [simpl; lia | done |].
    exists results, book. split; [exact Hr|].
    destruct (Hprop results book Hr) as [Hres Hshard].
    split; [exact Hres|].
    destruct (Hshard 1%nat ltac:(simpl; lia)) as (g & Hg & _ & Hsorted & _).
    exists g. split; [exact Hg|exact Hsorted].
Defined.

(** * The cache merger *)

(** ** Steps of a stateful computation *)

Section Steps.

Context {Row : Type}.
Implicit Types h : store Row.

Lemma bind_lift_Ok {A B} (a : A) (k : A → ST (store Row) B) h :
  (lift (Ok a) ≫= k) h = k a h.
Proof. done. Qed.

Lemma bind_lift_Raise {A B} e (k : A → ST (store Row) B) h :
  (lift (Raise e) ≫= k) h = (Raise e, h).
Proof. done. Qed.

Lemma bind_read_int {B} l v (k : tensor → ST (store Row) B) h :
  int_tensors h !! l = Some v → (read_int l ≫= k) h = k v h.
Proof. intros Hl. unfold mbind, ST_bind, read_int. by rewrite Hl. Qed.

Lemma bind_read_feat {B} l v (k : list Row → ST (store Row) B) h :
  feat_tensors h !! l = Some v → (read_feat l ≫= k) h = k v h.
Proof. intros Hl. unfold mbind, ST_bind, read_feat. by rewrite Hl. Qed.

Lemma bind_size0 {B} l v (k : Z → ST (store Row) B) h :
  int_tensors h !! l = Some v → (size0 l ≫= k) h = k (len v) h.
Proof.
  intros Hl. unfold size0, mbind, ST_bind, read_int. by rewrite Hl.
Qed.

Lemma bind_new_int {B} v (k : loc → ST (store Row) B) h :
  (new_int v ≫= k) h
  = k (fresh (dom (int_tensors h)))
      {| int_tensors := <[fresh (dom (int_tensors h)):=v]> (int_tensors h);
         feat_tensors := feat_tensors h |}.
Proof. done. Qed.

Lemma bind_new_feat {B} v (k : loc → ST (store Row) B) h :
  (new_feat v ≫= k) h
  = k (fresh (dom (feat_tensors h)))
      {| int_tensors := int_tensors h;
         feat_tensors := <[fresh (dom (feat_tensors h)):=v]> (feat_tensors h) |}.
Proof. done. Qed.

Lemma bind_setitem_at {B} l idx vals v i (k : unit → ST (store Row) B) h :
  int_tensors h !! l = Some v →
  int_tensors h !! idx = Some i →
  (setitem_at l idx vals ≫= k) h
  = match setitem v i vals with
    | Ok v' => k tt {| int_tensors := <[l:=v']> (int_tensors h);
                       feat_tensors := feat_tensors h |}
    | Raise e => (Raise e, h)
    end.
Proof.
  intros Hl Hi. unfold setitem_at, mbind, ST_bind, read_int, lift, write_int.
  rewrite Hl, Hi. by destruct (setitem v i vals).
Qed.

Lemma bind_setitem_scalar_at {B} l idx x v i (k : unit → ST (store Row) B) h :
  int_tensors h !! l = Some v →
  int_tensors h !! idx = Some i →
  (setitem_scalar_at l idx x ≫= k) h
  = match setitem_scalar v i x with
    | Ok v' => k tt {| int_tensors := <[l:=v']> (int_tensors h);
                       feat_tensors := feat_tensors h |}
    | Raise e => (Raise e, h)
    end.
Proof.
  intros Hl Hi.
  unfold setitem_scalar_at, mbind, ST_bind, read_int, lift, write_int.
  rewrite Hl, Hi. by destruct (setitem_scalar v i x).
Qed.

End Steps.

(** ** [cat_feature_cache] computes [merge_values] on fresh objects *)

(** Closing an exit of the run: either the values were computed (the exit
    is not taken) or the store reached differs from the initial one in
    fresh objects only. *)
Ltac exit_tac :=
  first
    [ by simplify_eq
    | simplify_eq; eexists; split; [reflexivity|];
      match goal with
      | H : ∀ h', _ → _ → unchanged _ h' |- _ =>
          apply H; simpl; intros;
          rewrite ?lookup_insert_ne by done; done
      end ].

Lemma cat_feature_cache_cached {Row} (id2idx : tensor → result tensor)
    (partition_idx : Z) (feat_pdata : FeaturePartitionData) (feat_pb : loc)
    (h : store Row) (cf f : list Row) (cv iv pb : tensor) :
  holds h feat_pdata feat_pb cf f cv iv pb →
  ∃ l1 l2 l3,
    (l1 ∉ dom (feat_tensors h)) ∧ (l2 ∉ dom (int_tensors h)) ∧
    (l3 ∉ dom (int_tensors h)) ∧ l2 ≠ l3 ∧
    match merge_values partition_idx cf f cv iv pb with
    | Ok (ratio, nf, n2i, npb) =>
        cat_feature_cache id2idx partition_idx feat_pdata feat_pb h
        = (Ok (ratio, l1, l2, l3),
           {| int_tensors := <[l3:=npb]> (<[l2:=n2i]> (int_tensors h));
              feat_tensors := <[l1:=nf]> (feat_tensors h) |})
    | Raise e =>
        ∃ h', cat_feature_cache id2idx partition_idx feat_pdata feat_pb h
              = (Raise e, h') ∧ unchanged h h'
    end.
Proof.
  intros [Hf Hi (lcf & Hlcf & Hcf) (lci & Hlci & Hci) Hpb].
  set (l1 := fresh (dom (feat_tensors h))).
  set (l2 := fresh (dom (int_tensors h))).
  set (l3 := fresh ({[l2]} ∪ dom (int_tensors h))).
  assert (l1 ∉ dom (feat_tensors h)) as Hl1 by apply is_fresh.
  assert (l2 ∉ dom (int_tensors h)) as Hl2 by apply is_fresh.
  assert (l3 ∉ {[l2]} ∪ dom (int_tensors h)) as Hl3 by apply is_fresh.
  exists l1, l2, l3. split_and!; [done|done|set_solver|set_solver|].
  assert (∀ l v, int_tensors h !! l = Some v → l ≠ l2) as Hne2.
  { intros l v Hl ->. apply Hl2, elem_of_dom. eauto. }
  assert (∀ l v, int_tensors h !! l = Some v → l ≠ l3) as Hne3.
  { intros l v Hl ->. apply Hl3, elem_of_union_r, elem_of_dom. eauto. }
  assert (∀ l v, feat_tensors h !! l = Some v → l ≠ l1) as Hne1.
  { intros l v Hl ->. apply Hl1, elem_of_dom. eauto. }
  assert (∀ h' : store Row,
    (∀ l v, int_tensors h !! l = Some v → l ≠ l2 → l ≠ l3 →
            int_tensors h' !! l = Some v) →
    (∀ l v, feat_tensors h !! l = Some v → l ≠ l1 →
            feat_tensors h' !! l = Some v) →
    unchanged h h') as Hframe.
  { intros h' H1 H2. split; intros l v Hl; eauto. }
  destruct (merge_values partition_idx cf f cv iv pb)
    as [[[[ratio0 nf] n2i] npb]|e] eqn:Hm.
  all: unfold merge_values in Hm.
  all: unfold cat_feature_cache; rewrite Hlcf, Hlci.
  all: rewrite (bind_size0 _ _ _ _ Hci); cbv beta.
  all: rewrite (bind_size0 _ _ _ _ Hi); cbv beta.
  all: destruct (truediv _ _) as [ratio|e1] eqn:E1; simpl in Hm;
    [rewrite bind_lift_Ok; cbv beta
    |rewrite bind_lift_Raise; exit_tac].
  all: rewrite (bind_read_feat _ _ _ _ Hcf); cbv beta.
  all: rewrite (bind_read_feat _ _ _ _ Hf); cbv beta.
  all: rewrite bind_new_feat; cbv beta; fold l1.
  all: rewrite (bind_read_int lci cv) by done; cbv beta.
  all: destruct (torch_max cv) as [m1|e1] eqn:E2; simpl in Hm;
    [rewrite bind_lift_Ok; cbv beta
    |rewrite bind_lift_Raise; exit_tac].
  all: rewrite (bind_read_int (ids feat_pdata) iv) by done; cbv beta.
  all: destruct (torch_max iv) as [m2|e1] eqn:E3; simpl in Hm;
    [rewrite bind_lift_Ok; cbv beta
    |rewrite bind_lift_Raise; exit_tac].
  all: destruct (zeros _) as [z|e1] eqn:E4; simpl in Hm;
    [rewrite bind_lift_Ok; cbv beta
    |rewrite bind_lift_Raise; exit_tac].
  all: rewrite bind_new_int; cbv beta; simpl int_tensors; fold l2.
  all: destruct (arange (len iv)) as [a|e1] eqn:E5; simpl in Hm;
    [rewrite bind_lift_Ok; cbv beta
    |rewrite bind_lift_Raise; exit_tac].
  all: rewrite (bind_setitem_at l2 (ids feat_pdata) _ z iv);
    [|by simpl; rewrite lookup_insert_eq
     |by simpl; rewrite lookup_insert_ne by (symmetry; eauto)].
  all: destruct (setitem z iv _) as [z1|e1] eqn:E6; simpl in Hm;
    [|exit_tac].
  all: cbv beta; simpl int_tensors; simpl feat_tensors; rewrite insert_insert_eq.
  all: destruct (arange (len cv)) as [a'|e1] eqn:E7; simpl in Hm;
    [rewrite bind_lift_Ok; cbv beta
    |rewrite bind_lift_Raise; exit_tac].
  all: rewrite (bind_setitem_at l2 lci _ z1 cv);
    [|by simpl; rewrite lookup_insert_eq
     |by simpl; rewrite lookup_insert_ne by (symmetry; eauto)].
  all: destruct (setitem z1 cv _) as [z2|e1] eqn:E8; simpl in Hm;
    [|exit_tac].
  all: cbv beta; simpl int_tensors; simpl feat_tensors; rewrite insert_insert_eq.
  all: rewrite (bind_read_int feat_pb pb)
    by (by simpl; rewrite lookup_insert_ne by (symmetry; eauto)).
  all: cbv beta; rewrite bind_new_int; cbv beta.
  all: simpl int_tensors; simpl feat_tensors.
  all: rewrite dom_insert_L; fold l3.
  all: rewrite (bind_setitem_scalar_at l3 lci _ pb cv);
    [|by simpl; rewrite lookup_insert_eq
     |by simpl; rewrite !lookup_insert_ne by (symmetry; eauto)].
  all: destruct (setitem_scalar pb cv _) as [pb'|e1] eqn:E9; simpl in Hm;
    [|exit_tac].
  all: simplify_eq.
  simpl. by rewrite insert_insert_eq.
Qed.

(** ** Maxima and scatter writes of values *)

Lemma foldl_max_spec (t : tensor) : ∀ x,
  (foldl Z.max x t = x ∨ foldl Z.max x t ∈ t) ∧
  x ≤ foldl Z.max x t ∧ Forall (λ y, y ≤ foldl Z.max x t) t.
Proof.
  induction t as [|y t IH]; intros x; simpl.
  - split_and!; [by left|lia|constructor].
  - destruct (IH (x `max` y)) as ([Hm|Hm] & Hle & Hall).
    + split_and!.
      * rewrite Hm. destruct (Z.max_spec x y) as [[_ ->]|[_ ->]];
          [right; left|by left].
      * lia.
      * constructor; [lia|done].
    + split_and!; [right; by right|lia|constructor; [lia|done]].
Qed.

Lemma torch_max_spec (t : tensor) m :
  torch_max t = Ok m → m ∈ t ∧ Forall (λ y, y ≤ m) t.
Proof.
  destruct t as [|x t]; simpl; [done|]. intros [= <-].
  destruct (foldl_max_spec t x) as ([Hm|Hm] & Hle & Hall).
  - split; [rewrite Hm; by left|by constructor].
  - split; [by right|by constructor].
Qed.

Lemma torch_max_nonempty (t : tensor) : t ≠ [] → ∃ m, torch_max t = Ok m.
Proof. destruct t; [done|]. simpl. eauto. Qed.

Lemma foldl_insert_pairs_length {A} (t : list A) (pvs : list (nat * A)) :
  length (foldl (λ acc pv, <[pv.1:=pv.2]> acc) t pvs) = length t.
Proof.
  revert t. induction pvs as [|pv pvs IH]; intros t; simpl; [done|].
  by rewrite IH, length_insert.
Qed.

Lemma foldl_insert_pairs_notin {A} (t : list A) (pvs : list (nat * A)) p :
  p ∉ pvs.*1 →
  foldl (λ acc pv, <[pv.1:=pv.2]> acc) t pvs !! p = t !! p.
Proof.
  revert t. induction pvs as [|[q w] pvs IH]; intros t Hp; simpl; [done|].
  rewrite fmap_cons in Hp. apply not_elem_of_cons in Hp as [Hq Hp].
  rewrite IH by done. by apply list_lookup_insert_ne.
Qed.

Lemma foldl_insert_pairs_in {A} (t : list A) (pvs : list (nat * A)) p v :
  NoDup pvs.*1 → (p, v) ∈ pvs → (p < length t)%nat →
  foldl (λ acc pv, <[pv.1:=pv.2]> acc) t pvs !! p = Some v.
Proof.
  revert t. induction pvs as [|[q w] pvs IH]; intros t Hnd Hin Hp;
    [by apply elem_of_nil in Hin|].
  rewrite fmap_cons in Hnd. apply NoDup_cons in Hnd as [Hq Hnd]. simpl.
  apply elem_of_cons in Hin as [[= -> ->]|Hin].
  - rewrite foldl_insert_pairs_notin by done.
    by apply list_lookup_insert_eq.
  - apply IH; [done..|]. by rewrite length_insert.
Qed.

Lemma NoDup_to_nat (t : tensor) :
  Forall (λ x, 0 ≤ x) t → NoDup t → NoDup (Z.to_nat <$> t).
Proof.
  intros Hpos Hnd. apply NoDup_fmap_2_strong; [|done].
  intros x y Hx Hy Hxy. rewrite Forall_forall in Hpos.
  pose proof (Hpos x Hx). pose proof (Hpos y Hy). lia.
Qed.

Lemma fst_zip_same_length {A B} (l : list A) (k : list B) :
  length l = length k → (zip l k).*1 = l.
Proof. intros Hl. apply fst_zip. lia. Qed.

(** ** The values of the merge *)

Lemma merge_values_nonempty {Row} pidx (cf f : list Row) cv iv pb r :
  merge_values pidx cf f cv iv pb = Ok r → cv ≠ [] ∧ iv ≠ [].
Proof.
  unfold merge_values. destruct (truediv _ _); simpl; [|done].
  destruct cv; simpl; [done|]. destruct iv; simpl; [done|]. done.
Qed.

Lemma merge_values_nonneg {Row} pidx (cf f : list Row) cv iv pb :
  Forall (λ x, 0 ≤ x) cv → Forall (λ x, 0 ≤ x) iv →
  cv ≠ [] → iv ≠ [] →
  ∃ max_id,
    max_id ∈ cv ++ iv ∧ Forall (λ x, x ≤ max_id) (cv ++ iv) ∧
    merge_values pidx cf f cv iv pb
    = match mapM (resolve (length pb)) cv with
      | Some ps =>
          Ok ((Qc_of_Z (len cv) / Qc_of_Z (len cv + len iv))%Qc, cf ++ f,
              index_map cv iv max_id,
              foldl (λ acc p, <[p:=pidx]> acc) pb ps)
      | None => Raise IndexError
      end.
Proof.
  intros Hcv Hiv Hcne Hine.
  destruct (torch_max_nonempty cv Hcne) as [m1 Hm1].
  destruct (torch_max_nonempty iv Hine) as [m2 Hm2].
  destruct (torch_max_spec _ _ Hm1) as [Hin1 Hle1].
  destruct (torch_max_spec _ _ Hm2) as [Hin2 Hle2].
  exists (m1 `max` m2). split_and!.
  - apply elem_of_app. destruct (Z.max_spec m1 m2) as [[_ ->]|[_ ->]]; auto.
  - apply Forall_app. split; (eapply Forall_impl; [done|]); simpl; lia.
  - assert (0 ≤ m1) as Hm1pos.
    { rewrite Forall_forall in Hcv. by apply Hcv. }
    assert (Forall (λ x, 0 ≤ x < Z.of_nat (Z.to_nat (m1 `max` m2 + 1))) cv)
      as Hcr.
    { apply Forall_forall. intros x Hx. rewrite Forall_forall in Hcv, Hle1.
      pose proof (Hcv x Hx). pose proof (Hle1 x Hx). simpl in *. lia. }
    assert (Forall (λ x, 0 ≤ x < Z.of_nat (Z.to_nat (m1 `max` m2 + 1))) iv)
      as Hir.
    { apply Forall_forall. intros x Hx. rewrite Forall_forall in Hiv, Hle2.
      pose proof (Hiv x Hx). pose proof (Hle2 x Hx). simpl in *. lia. }
    unfold merge_values, truediv.
    rewrite decide_False; last first.
    { unfold len. destruct cv; [done|]. simpl. lia. }
    cbn [mbind result_bind]. rewrite Hm1, Hm2. cbn [mbind result_bind].
    unfold zeros, arange, len. rewrite !decide_False by lia.
    cbn [mbind result_bind]. unfold setitem.
    rewrite decide_True by (by rewrite length_fmap, length_seqZ, Nat2Z.id).
    rewrite length_replicate, (mapM_resolve_range _ iv Hir).
    cbn [mbind result_bind].
    rewrite decide_True by (by rewrite length_seqZ, Nat2Z.id).
    rewrite foldl_insert_pairs_length, length_replicate.
    rewrite (mapM_resolve_range _ cv Hcr). cbn [mbind result_bind].
    unfold setitem_scalar. by destruct (mapM _ cv).
Qed.

Lemma index_map_length cv iv max_id :
  length (index_map cv iv max_id) = Z.to_nat (max_id + 1).
Proof.
  unfold index_map. by rewrite !foldl_insert_pairs_length, length_replicate.
Qed.

Lemma index_tensor_nonneg {A} (t : list A) (x : Z) :
  0 ≤ x → index_tensor t x = t !! Z.to_nat x.
Proof.
  intros Hx. rewrite <-(Z2Nat.id x) at 1 by done. apply index_tensor_nat.
Qed.

Lemma elem_of_to_nat (t : tensor) (x : Z) :
  Forall (λ y, 0 ≤ y) t → 0 ≤ x → Z.to_nat x ∈ Z.to_nat <$> t → x ∈ t.
Proof.
  intros Ht Hx (y & Hxy & Hy)%list_elem_of_fmap.
  rewrite Forall_forall in Ht. pose proof (Ht y Hy).
  by replace x with y by lia.
Qed.

Lemma index_map_cache cv iv max_id (i : nat) c :
  Forall (λ x, 0 ≤ x) cv → NoDup cv → Forall (λ x, x ≤ max_id) cv →
  cv !! i = Some c →
  index_tensor (index_map cv iv max_id) c = Some (Z.of_nat i).
Proof.
  intros Hpos Hnd Hle Hi.
  pose proof (Forall_lookup_1 _ _ _ _ Hpos Hi) as Hc.
  pose proof (Forall_lookup_1 _ _ _ _ Hle Hi) as Hc'. simpl in *.
  rewrite index_tensor_nonneg by done. unfold index_map.
  assert (length (Z.to_nat <$> cv) = length (seqZ 0 (len cv))) as Hlen.
  { unfold len. by rewrite length_fmap, length_seqZ, Nat2Z.id. }
  apply foldl_insert_pairs_in.
  - rewrite fst_zip_same_length by done. by apply NoDup_to_nat.
  - apply (list_elem_of_lookup_2 _ i). rewrite lookup_zip_with.
    rewrite list_lookup_fmap, Hi. simpl.
    rewrite lookup_seqZ_lt; [by rewrite Z.add_0_l|].
    apply lookup_lt_Some in Hi. unfold len. lia.
  - rewrite foldl_insert_pairs_length, length_replicate. lia.
Qed.

Lemma index_map_owned cv iv max_id (j : nat) o :
  Forall (λ x, 0 ≤ x) cv → Forall (λ x, 0 ≤ x) iv →
  NoDup iv → (∀ x, x ∈ cv → x ∉ iv) →
  Forall (λ x, x ≤ max_id) iv →
  iv !! j = Some o →
  index_tensor (index_map cv iv max_id) o = Some (len cv + Z.of_nat j).
Proof.
  intros Hcpos Hpos Hnd Hdisj Hle Hj.
  pose proof (Forall_lookup_1 _ _ _ _ Hpos Hj) as Ho.
  pose proof (Forall_lookup_1 _ _ _ _ Hle Hj) as Ho'. simpl in *.
  rewrite index_tensor_nonneg by done. unfold index_map.
  assert (length (Z.to_nat <$> cv) = length (seqZ 0 (len cv))) as Hlenc.
  { unfold len. by rewrite length_fmap, length_seqZ, Nat2Z.id. }
  assert (length (Z.to_nat <$> iv)
          = length ((λ x, x + len cv) <$> seqZ 0 (len iv))) as Hleni.
  { unfold len. by rewrite !length_fmap, length_seqZ, Nat2Z.id. }
  rewrite foldl_insert_pairs_notin; last first.
  { rewrite fst_zip_same_length by done. intros Hin.
    apply elem_of_to_nat in Hin; [|done..].
    eapply Hdisj; [done|]. by eapply list_elem_of_lookup_2. }
  apply foldl_insert_pairs_in.
  - rewrite fst_zip_same_length by done. by apply NoDup_to_nat.
  - apply (list_elem_of_lookup_2 _ j). rewrite lookup_zip_with.
    rewrite !list_lookup_fmap, Hj. simpl.
    rewrite lookup_seqZ_lt; [simpl; do 2 f_equal; lia|].
    apply lookup_lt_Some in Hj. unfold len. lia.
  - rewrite length_replicate. lia.
Qed.

Lemma index_map_other cv iv max_id x :
  Forall (λ x, 0 ≤ x) cv → Forall (λ x, 0 ≤ x) iv →
  0 ≤ x ≤ max_id → x ∉ cv → x ∉ iv →
  index_tensor (index_map cv iv max_id) x = Some 0.
Proof.
  intros Hcpos Hipos Hx Hc Hi.
  rewrite index_tensor_nonneg by lia. unfold index_map.
  assert (length (Z.to_nat <$> cv) = length (seqZ 0 (len cv))) as Hlenc.
  { unfold len. by rewrite length_fmap, length_seqZ, Nat2Z.id. }
  assert (length (Z.to_nat <$> iv)
          = length ((λ x, x + len cv) <$> seqZ 0 (len iv))) as Hleni.
  { unfold len. by rewrite !length_fmap, length_seqZ, Nat2Z.id. }
  rewrite !foldl_insert_pairs_notin.
  - apply lookup_replicate_2. lia.
  - rewrite fst_zip_same_length by done. intros Hin.
    apply elem_of_to_nat in Hin; [done..|lia].
  - rewrite fst_zip_same_length by done. intros Hin.
    apply elem_of_to_nat in Hin; [done..|lia].
Qed.

(** ** The patched book *)

Lemma setitem_scalar_patch (pb cv : tensor) (x : Z) (npb : tensor) :
  setitem_scalar pb cv x = Ok npb →
  length npb = length pb ∧
  (∀ c, c ∈ cv → index_tensor npb c = Some x) ∧
  (∀ j : nat, (∀ c, c ∈ cv → resolve (length pb) c ≠ Some j) →
     npb !! j = pb !! j).
Proof.
  unfold setitem_scalar.
  destruct (mapM _ cv) as [ps|] eqn:Hps; [|done]. intros [= <-].
  apply mapM_Some_1 in Hps. split_and!.
  - apply foldl_insert_length.
  - intros c (i & Hi)%list_elem_of_lookup_1.
    destruct (Forall2_lookup_l _ _ _ _ _ Hps Hi) as (p & Hp & Hcp).
    unfold index_tensor. rewrite foldl_insert_length, Hcp. simpl.
    apply foldl_insert_lookup_in; [by eapply list_elem_of_lookup_2|].
    by eapply resolve_lt.
  - intros j Hj. apply foldl_insert_lookup_notin.
    intros (i & Hi)%list_elem_of_lookup_1.
    destruct (Forall2_lookup_r _ _ _ _ _ Hps Hi) as (c & Hc & Hcp).
    eapply Hj; [|done]. by eapply list_elem_of_lookup_2.
Qed.

Lemma merge_values_book {Row} pidx (cf f : list Row) cv iv pb ratio nf n2i npb :
  merge_values pidx cf f cv iv pb = Ok (ratio, nf, n2i, npb) →
  setitem_scalar pb cv pidx = Ok npb.
Proof.
  unfold merge_values. intros H.
  repeat match type of H with
         | (?r ≫= _) = _ => destruct r; simpl in H; [|done]
         end.
  by simplify_eq.
Qed.

Lemma merge_values_returns {Row} pidx (cf f : list Row) cv iv pb :
  Forall (λ x, 0 ≤ x) cv → Forall (λ x, 0 ≤ x) iv →
  cv ≠ [] → iv ≠ [] → Forall (λ c, c < len pb) cv →
  ∃ r, merge_values pidx cf f cv iv pb = Ok r.
Proof.
  intros Hcv Hiv Hcne Hine Hpb.
  destruct (merge_values_nonneg pidx cf f cv iv pb Hcv Hiv Hcne Hine)
    as (max_id & _ & _ & ->).
  rewrite (mapM_resolve_range (length pb) cv); [eauto|].
  apply Forall_forall. intros x Hx. rewrite Forall_forall in Hcv, Hpb.
  pose proof (Hcv x Hx). pose proof (Hpb x Hx). unfold len in *. lia.
Qed.

Lemma cat_feature_cache_Ok_inv {Row} (id2idx : tensor → result tensor)
    (pidx : Z) (fp : FeaturePartitionData) (feat_pb : loc)
    (h : store Row) (cf f : list Row) (cv iv pb : tensor)
    ratio l1 l2 l3 h' :
  holds h fp feat_pb cf f cv iv pb →
  cat_feature_cache id2idx pidx fp feat_pb h = (Ok (ratio, l1, l2, l3), h') →
  ∃ nf n2i npb,
    merge_values pidx cf f cv iv pb = Ok (ratio, nf, n2i, npb) ∧
    feat_tensors h' !! l1 = Some nf ∧
    int_tensors h' !! l2 = Some n2i ∧
    int_tensors h' !! l3 = Some npb ∧
    int_tensors h' !! feat_pb = Some pb ∧
    l3 ≠ feat_pb.
Proof.
  intros Hh Hrun.
  destruct (cat_feature_cache_cached id2idx pidx fp feat_pb h cf f cv iv pb Hh)
    as (k1 & k2 & k3 & Hk1 & Hk2 & Hk3 & Hk23 & Hm).
  destruct (merge_values pidx cf f cv iv pb) as [[[[r nf] n2i] npb]|e].
  - rewrite Hm in Hrun. simplify_eq. exists nf, n2i, npb.
    assert (feat_pb ≠ l2 ∧ feat_pb ≠ l3) as [? ?].
    { destruct Hh as [_ _ _ _ Hpb].
      split; intros ->; [apply Hk2|apply Hk3]; apply elem_of_dom; eauto. }
    simpl. split_and!; [done| | | | |done].
    + by rewrite lookup_insert_eq.
    + by rewrite lookup_insert_ne, lookup_insert_eq.
    + by rewrite lookup_insert_eq.
    + rewrite !lookup_insert_ne by done. by destruct Hh.
  - destruct Hm as (h'' & Hm & _). rewrite Hm in Hrun. done.
Qed.

Lemma cat_feature_cache_returns {Row} (id2idx : tensor → result tensor)
    (pidx : Z) (fp : FeaturePartitionData) (feat_pb : loc)
    (h : store Row) (cf f : list Row) (cv iv pb : tensor) :
  holds h fp feat_pb cf f cv iv pb →
  Forall (λ x, 0 ≤ x) cv → Forall (λ x, 0 ≤ x) iv →
  cv ≠ [] → iv ≠ [] → Forall (λ c, c < len pb) cv →
  ∃ r h', cat_feature_cache id2idx pidx fp feat_pb h = (Ok r, h').
Proof.
  intros Hh Hcv Hiv Hcne Hine Hpb.
  destruct (cat_feature_cache_cached id2idx pidx fp feat_pb h cf f cv iv pb Hh)
    as (k1 & k2 & k3 & _ & _ & _ & _ & Hm).
  destruct (merge_values_returns pidx cf f cv iv pb Hcv Hiv Hcne Hine Hpb)
    as [[[[r nf] n2i] npb] Hr].
  rewrite Hr in Hm. eauto.
Qed.

(** * The claims about [cat_feature_cache] *)

(** A partition that owns no row is not merged with its cache:
    [torch.max] rejects the empty tensor of owned ids. *)
Lemma cat_feature_cache_no_owned_row {Row} (id2idx : tensor → result tensor)
    (pidx : Z) (fp : FeaturePartitionData) (feat_pb : loc)
    (h : store Row) (cf f : list Row) (cv pb : tensor) :
  holds h fp feat_pb cf f cv [] pb → cv ≠ [] →
  (cat_feature_cache id2idx pidx fp feat_pb h).1 = Raise RuntimeError.
Proof.
  intros Hh Hcv.
  destruct (cat_feature_cache_cached id2idx pidx fp feat_pb h cf f cv [] pb Hh)
    as (k1 & k2 & k3 & _ & _ & _ & _ & Hm).
  assert (merge_values pidx cf f cv [] pb = Raise RuntimeError) as Heq.
  { unfold merge_values, truediv, len. destruct cv as [|c cv]; [done|].
    rewrite decide_False by (simpl; lia). done. }
  rewrite Heq in Hm. destruct Hm as (h' & -> & _). done.
Qed.


(** C5. Cache merge ordering: for a feature partition with C >= 1 cache
    rows and O owned rows (rows and ids parallel, ids distinct
    non-negative global ids, cache ids and owned ids disjoint),
    [cat_feature_cache] returns when there is an owned row and the book
    covers the cache ids, and whenever it returns, the new feature tensor
    has C+O rows, its first C rows are the cache rows and the rest the
    owned rows, each in the given order; the id-to-index map sends the
    i-th cache id to i, which is below C, and the j-th owned id to C+j;
    and the cache ratio is C/(C+O). *)
Theorem cache_merge_ordering {Row} (id2idx : tensor → result tensor)
    (partition_idx : Z) (feat_pdata : FeaturePartitionData) (feat_pb : loc)
    (h : store Row) (cf f : list Row) (cv iv pb : tensor) :
  holds h feat_pdata feat_pb cf f cv iv pb →
  length cf = length cv → length f = length iv →
  (1 ≤ length cv)%nat →
  (∀ x, x ∈ cv → x ∉ iv) →
  NoDup cv → NoDup iv →
  Forall (λ x, 0 ≤ x) cv → Forall (λ x, 0 ≤ x) iv →
  (iv ≠ [] → Forall (λ c, c < len pb) cv →
   ∃ r h', cat_feature_cache id2idx partition_idx feat_pdata feat_pb h
           = (Ok r, h')) ∧
  ∀ ratio new_feats nid2idx new_feat_pb h',
    cat_feature_cache id2idx partition_idx feat_pdata feat_pb h
    = (Ok (ratio, new_feats, nid2idx, new_feat_pb), h') →
    ∃ nf n2i,
      feat_tensors h' !! new_feats = Some nf ∧
      int_tensors h' !! nid2idx = Some n2i ∧
      length nf = (length cv + length iv)%nat ∧
      take (length cv) nf = cf ∧ drop (length cv) nf = f ∧
      (∀ (i : nat) c, cv !! i = Some c →
         (i < length cv)%nat ∧ index_tensor n2i c = Some (Z.of_nat i)) ∧
      (∀ (j : nat) o, iv !! j = Some o →
         index_tensor n2i o = Some (len cv + Z.of_nat j)) ∧
      ratio = (Qc_of_Z (len cv) / Qc_of_Z (len cv + len iv))%Qc.
Proof.
  intros Hh Hlc Hlf HC Hdisj Hndc Hndi Hcv Hiv.
  assert (cv ≠ []) as Hcne by (destruct cv; simpl in *; [lia|done]).
  split; [intros; by eapply cat_feature_cache_returns|].
  intros ratio l1 l2 l3 h' Hrun.
  destruct (cat_feature_cache_Ok_inv _ _ _ _ _ _ _ _ _ _ _ _ _ _ _ Hh Hrun)
    as (nf & n2i & npb & Hm & Hl1 & Hl2 & _).
  destruct (merge_values_nonempty _ _ _ _ _ _ _ Hm) as [_ Hine].
  destruct (merge_values_nonneg partition_idx cf f cv iv pb Hcv Hiv Hcne Hine)
    as (max_id & _ & [Hlec Hlei]%Forall_app & Heq).
  rewrite Heq in Hm. destruct (mapM _ cv) as [ps|]; [|done]. simplify_eq.
  exists (cf ++ f), (index_map cv iv max_id).
  split_and!; [done|done| | | | | |done].
  - rewrite length_app. lia.
  - rewrite <-Hlc. by rewrite take_app_length.
  - rewrite <-Hlc. by rewrite drop_app_length.
  - intros i c Hi. split; [by eapply lookup_lt_Some|].
    by apply index_map_cache.
  - intros j o Hj. by apply index_map_owned.
Qed.

Lemma cache_merge_ordering_witness :
  ∃ new_feats nid2idx new_feat_pb h',
    cat_feature_cache scenario_id2idx 0 scenario_partition 3%positive
      scenario_store
    = (Ok (Qc_of_Z 1 / Qc_of_Z 3, new_feats, nid2idx, new_feat_pb)%Qc, h') ∧
    feat_tensors h' !! new_feats
    = Some [[5; 5; 5; 5]; [10; 10; 10; 10]; [11; 11; 11; 11]].
Proof.
  destruct (cache_merge_ordering scenario_id2idx 0 scenario_partition
              3%positive scenario_store
              [[5; 5; 5; 5]] [[10; 10; 10; 10]; [11; 11; 11; 11]]
              [5] [10; 11] [1; 1; 1; 1; 1; 1; 1; 1; 1; 1; 0; 0])
    as [Hret Hprop].
  - split; simpl; [reflexivity | reflexivity | | | reflexivity].
    + exists 2%positive. split; reflexivity.
    + exists 2%positive. split; reflexivity.
  - reflexivity.
  - reflexivity.
  - simpl. lia.
  - intros x ->%list_elem_of_singleton. compute_done.
  - compute_done.
  - compute_done.
  - repeat constructor; lia.
  - repeat constructor; lia.
  - destruct Hret as ([[[ratio l1] l2] l3] & h' & Hrun).
    { done. }
    { unfold len. simpl. repeat constructor; lia. }
    destruct (Hprop ratio l1 l2 l3 h' Hrun)
      as (nf & n2i & Hnf & _ & _ & Htake & Hdrop & _ & _ & ->).
    exists l1, l2, l3, h'. split; [done|].
    rewrite Hnf, <-(take_drop 1 nf). simpl in Htake, Hdrop.
    by rewrite Htake, Hdrop.
Defined.

(** The scenario of the spec: the merged map sends id 5 to row 0, id 10 to
    row 1 and id 11 to row 2, the cache ratio is 1/3, and the new feature
    book gives id 5 to shard 0 while the input book still gives it to
    shard 1. *)
Example scenario_merge :
  let run := cat_feature_cache scenario_id2idx 0 scenario_partition 3%positive
               scenario_store in
  run.1 = Ok ((Qc_of_Z 1 / Qc_of_Z 3)%Qc, 3%positive, 4%positive, 5%positive) ∧
  feat_tensors run.2 !! 3%positive
  = Some [[5; 5; 5; 5]; [10; 10; 10; 10]; [11; 11; 11; 11]] ∧
  int_tensors run.2 !! 4%positive = Some [0; 0; 0; 0; 0; 0; 0; 0; 0; 0; 1; 2] ∧
  int_tensors run.2 !! 5%positive = Some [1; 1; 1; 1; 1; 0; 1; 1; 1; 1; 0; 0] ∧
  int_tensors run.2 !! 3%positive = Some [1; 1; 1; 1; 1; 1; 1; 1; 1; 1; 0; 0].
Proof. vm_compute. split_and!; reflexivity. Qed.

(** C6. Feature-book patch isolation: for a feature partition with a
    cache, whatever [cat_feature_cache] does (return or raise), the input
    partition book object holds afterwards what it held before, so a query
    at a cache id still gives the original owner. The call returns when
    the ids are non-negative, there are cache ids and owned ids, and the
    book covers the cache ids; whenever it returns, the returned feature
    book is another object, of the same length, that holds
    [partition_idx] at every cache id and the input book's entry at every
    position that no cache id denotes. *)
Theorem feature_book_patch_isolation {Row} (id2idx : tensor → result tensor)
    (partition_idx : Z) (feat_pdata : FeaturePartitionData) (feat_pb : loc)
    (h : store Row) (cf f : list Row) (cv iv pb : tensor) :
  holds h feat_pdata feat_pb cf f cv iv pb →
  int_tensors
    (cat_feature_cache id2idx partition_idx feat_pdata feat_pb h).2
    !! feat_pb = Some pb ∧
  (Forall (λ x, 0 ≤ x) cv → Forall (λ x, 0 ≤ x) iv →
   cv ≠ [] → iv ≠ [] → Forall (λ c, c < len pb) cv →
   ∃ r h', cat_feature_cache id2idx partition_idx feat_pdata feat_pb h
           = (Ok r, h')) ∧
  ∀ ratio new_feats nid2idx new_feat_pb h',
    cat_feature_cache id2idx partition_idx feat_pdata feat_pb h
    = (Ok (ratio, new_feats, nid2idx, new_feat_pb), h') →
    new_feat_pb ≠ feat_pb ∧
    ∃ npb,
      int_tensors h' !! new_feat_pb = Some npb ∧
      length npb = length pb ∧
      (∀ c, c ∈ cv → index_tensor npb c = Some partition_idx) ∧
      (∀ j : nat, (∀ c, c ∈ cv → resolve (length pb) c ≠ Some j) →
         npb !! j = pb !! j).
Proof.
  intros Hh. split_and!.
  - destruct (cat_feature_cache id2idx partition_idx feat_pdata feat_pb h)
      as [[[[[r l1] l2] l3]|e] h'] eqn:Hrun; simpl.
    + by destruct (cat_feature_cache_Ok_inv _ _ _ _ _ _ _ _ _ _ _ _ _ _ _
                     Hh Hrun) as (_ & _ & _ & _ & _ & _ & _ & ? & _).
    + destruct (cat_feature_cache_cached id2idx partition_idx feat_pdata
                  feat_pb h cf f cv iv pb Hh)
        as (k1 & k2 & k3 & _ & _ & _ & _ & Hm).
      destruct (merge_values _ _ _ _ _ _) as [[[[? ?] ?] ?]|e'].
      * rewrite Hm in Hrun. done.
      * destruct Hm as (h'' & Hm & [Hint _]). rewrite Hm in Hrun.
        simplify_eq. apply Hint. by destruct Hh.
  - intros. by eapply cat_feature_cache_returns.
  - intros ratio l1 l2 l3 h' Hrun.
    destruct (cat_feature_cache_Ok_inv _ _ _ _ _ _ _ _ _ _ _ _ _ _ _ Hh Hrun)
      as (nf & n2i & npb & Hm & _ & _ & Hl3 & _ & Hne).
    split; [done|]. exists npb. split; [done|].
    by apply setitem_scalar_patch, (merge_values_book _ _ _ _ _ _ _ _ _ _ Hm).
Qed.

Lemma feature_book_patch_isolation_witness :
  ∃ ratio new_feats nid2idx new_feat_pb h',
    cat_feature_cache scenario_id2idx 0 scenario_partition 3%positive
      scenario_store
    = (Ok (ratio, new_feats, nid2idx, new_feat_pb), h') ∧
    (int_tensors h' !! 3%positive ≫= λ pb, index_tensor pb 5) = Some 1 ∧
    (int_tensors h' !! new_feat_pb ≫= λ pb, index_tensor pb 5) = Some 0.
Proof.
  destruct (feature_book_patch_isolation scenario_id2idx 0 scenario_partition
              3%positive scenario_store
              [[5; 5; 5; 5]] [[10; 10; 10; 10]; [11; 11; 11; 11]]
              [5] [10; 11] [1; 1; 1; 1; 1; 1; 1; 1; 1; 1; 0; 0])
    as (Hsame & Hret & Hprop).
  - split; simpl; [reflexivity | reflexivity | | | reflexivity].
    + exists 2%positive. split; reflexivity.
    + exists 2%positive. split; reflexivity.
  - destruct Hret as ([[[ratio l1] l2] l3] & h' & Hrun).
    { repeat constructor; lia. }
    { repeat constructor; lia. }
    { done. }
    { done. }
    { unfold len. simpl. repeat constructor; lia. }
    destruct (Hprop ratio l1 l2 l3 h' Hrun) as (_ & npb & Hnpb & _ & Hc & _).
    exists ratio, l1, l2, l3, h'. rewrite Hrun in Hsame. simpl in Hsame.
    rewrite Hsame, Hnpb. simpl. split_and!; [done|done|].
    apply Hc. by left.
Defined.

(** C7. No cache: when the cache rows or the cache ids are [None],
    [cat_feature_cache] returns cache ratio 0, the owned feature tensor
    object, a new object holding [id2idx(ids)], and the input partition
    book object itself; no object of the store changes. When [id2idx]
    raises, so does the call. *)
Theorem no_cache_degenerates {Row} (id2idx : tensor → result tensor)
    (partition_idx : Z) (feat_pdata : FeaturePartitionData) (feat_pb : loc)
    (h : store Row) (iv : tensor) :
  cache_feats feat_pdata = None ∨ cache_ids feat_pdata = None →
  int_tensors h !! ids feat_pdata = Some iv →
  match id2idx iv with
  | Ok m =>
      ∃ nid2idx,
        (nid2idx ∉ dom (int_tensors h)) ∧
        cat_feature_cache id2idx partition_idx feat_pdata feat_pb h
        = (Ok (0%Qc, feats feat_pdata, nid2idx, feat_pb),
           {| int_tensors := <[nid2idx:=m]> (int_tensors h);
              feat_tensors := feat_tensors h |})
  | Raise e =>
      cat_feature_cache id2idx partition_idx feat_pdata feat_pb h
      = (Raise e, h)
  end.
Proof.
  intros Hnone Hi.
  assert (cat_feature_cache id2idx partition_idx feat_pdata feat_pb h
          = (iv ← read_int (ids feat_pdata);
             m ← lift (id2idx iv);
             nid2idx ← new_int m;
             mret (0%Qc, feats feat_pdata, nid2idx, feat_pb)) h) as ->.
  { unfold cat_feature_cache.
    destruct Hnone as [-> | ->]; [done|]. by destruct (cache_feats _). }
  rewrite (bind_read_int _ _ _ _ Hi).
  destruct (id2idx iv) as [m|e]; [|done].
  rewrite bind_lift_Ok, bind_new_int.
  exists (fresh (dom (int_tensors h))). split; [apply is_fresh|done].
Qed.

Lemma no_cache_degenerates_witness :
  ∃ nid2idx h',
    cat_feature_cache scenario_id2idx 0 scenario_partition_no_cache
      3%positive scenario_store
    = (Ok (0%Qc, 1%positive, nid2idx, 3%positive), h') ∧
    int_tensors h' !! 3%positive = int_tensors scenario_store !! 3%positive.
Proof.
  pose proof (no_cache_degenerates scenario_id2idx 0
                scenario_partition_no_cache 3%positive scenario_store
                [10; 11]) as H.
  destruct H as (l & Hl & Hrun); [by left | reflexivity |].
  eexists l, _. split; [exact Hrun|]. simpl.
  apply lookup_insert_ne. intros ->. apply Hl. compute_done.
Defined.

(** C10. The id-to-index map of a merge is a total array: for a feature
    partition with a cache whose ids are non-negative,
    [cat_feature_cache] returns when there are cache ids and owned ids and
    the book covers the cache ids, and whenever it returns, the map has
    length [max_id + 1] for the largest id [max_id] among the cache ids
    and the owned ids, and reading it at an id of [0, max_id] that is
    neither a cache id nor an owned id succeeds with 0, the index of the
    first cache row. *)
Theorem index_map_total {Row} (id2idx : tensor → result tensor)
    (partition_idx : Z) (feat_pdata : FeaturePartitionData) (feat_pb : loc)
    (h : store Row) (cf f : list Row) (cv iv pb : tensor) :
  holds h feat_pdata feat_pb cf f cv iv pb →
  Forall (λ x, 0 ≤ x) cv → Forall (λ x, 0 ≤ x) iv →
  (cv ≠ [] → iv ≠ [] → Forall (λ c, c < len pb) cv →
   ∃ r h', cat_feature_cache id2idx partition_idx feat_pdata feat_pb h
           = (Ok r, h')) ∧
  ∀ ratio new_feats nid2idx new_feat_pb h',
    cat_feature_cache id2idx partition_idx feat_pdata feat_pb h
    = (Ok (ratio, new_feats, nid2idx, new_feat_pb), h') →
    ∃ n2i max_id,
      int_tensors h' !! nid2idx = Some n2i ∧
      max_id ∈ cv ++ iv ∧ Forall (λ x, x ≤ max_id) (cv ++ iv) ∧
      len n2i = max_id + 1 ∧
      ∀ x, 0 ≤ x ≤ max_id → x ∉ cv → x ∉ iv → index_tensor n2i x = Some 0.
Proof.
  intros Hh Hcv Hiv.
  split; [intros; by eapply cat_feature_cache_returns|].
  intros ratio l1 l2 l3 h' Hrun.
  destruct (cat_feature_cache_Ok_inv _ _ _ _ _ _ _ _ _ _ _ _ _ _ _ Hh Hrun)
    as (nf & n2i & npb & Hm & _ & Hl2 & _).
  destruct (merge_values_nonempty _ _ _ _ _ _ _ Hm) as [Hcne Hine].
  destruct (merge_values_nonneg partition_idx cf f cv iv pb Hcv Hiv Hcne Hine)
    as (max_id & Hin & Hle & Heq).
  rewrite Heq in Hm. destruct (mapM _ cv) as [ps|]; [|done]. simplify_eq.
  exists (index_map cv iv max_id), max_id. split_and!; [done..| |].
  - unfold len. rewrite index_map_length.
    assert (0 ≤ max_id); [|lia].
    apply elem_of_app in Hin as [Hin|Hin];
      [rewrite Forall_forall in Hcv; by apply Hcv
      |rewrite Forall_forall in Hiv; by apply Hiv].
  - intros x Hx Hxc Hxi. by apply index_map_other.
Qed.

Lemma index_map_total_witness :
  ∃ ratio new_feats nid2idx new_feat_pb h',
    cat_feature_cache scenario_id2idx 0 scenario_partition 3%positive
      scenario_store
    = (Ok (ratio, new_feats, nid2idx, new_feat_pb), h') ∧
    (int_tensors h' !! nid2idx ≫= λ m, index_tensor m 7) = Some 0.
Proof.
  destruct (index_map_total scenario_id2idx 0 scenario_partition
              3%positive scenario_store
              [[5; 5; 5; 5]] [[10; 10; 10; 10]; [11; 11; 11; 11]]
              [5] [10; 11] [1; 1; 1; 1; 1; 1; 1; 1; 1; 1; 0; 0])
    as (Hret & Hprop).
  - split; simpl; [reflexivity | reflexivity | | | reflexivity].
    + exists 2%positive. split; reflexivity.
    + exists 2%positive. split; reflexivity.
  - repeat constructor; lia.
  - repeat constructor; lia.
  - destruct Hret as ([[[ratio l1] l2] l3] & h' & Hrun).
    { done. }
    { done. }
    { unfold len. simpl. repeat constructor; lia. }
    destruct (Hprop ratio l1 l2 l3 h' Hrun)
      as (n2i & max_id & Hn2i & Hin & Hle & _ & Hzero).
    exists ratio, l1, l2, l3, h'. split; [done|]. rewrite Hn2i. simpl.
    apply Hzero; [|compute_done..].
    split; [lia|]. rewrite Forall_forall in Hle.
    assert (11 ≤ max_id); [|lia]. apply Hle. compute_done.
Defined.

(** * The claim about [PartitionerBase.__init__] *)

(** C8, as amended. For every construction with [num_parts <= 1], whatever
    the other arguments are, [__init__] raises [AssertionError] and builds
    no partitioner; the one step that runs before the rejection is
    [ensure_dir] on the output directory, so the file system afterwards is
    the initial one with that directory in it, and nothing else has
    changed. *)
Theorem init_rejects_small_num_parts {Feat} (output_dir : string)
    (num_parts : Z) (num_nodes : PartitionerBase.NumNodes)
    (edge_index : PartitionerBase.EdgeIndex)
    (node_feat : option (PartitionerBase.Features Feat NodeType))
    (edge_feat : option (PartitionerBase.Features Feat EdgeType))
    (edge_assign_strategy : string) (chunk_size : Z) (fs : filesystem) :
  num_parts ≤ 1 →
  PartitionerBase.__init__ output_dir num_parts num_nodes edge_index
    node_feat edge_feat edge_assign_strategy chunk_size fs
  = (Raise AssertionError, {[output_dir]} ∪ fs).
Proof.
  intros Hn. unfold PartitionerBase.__init__, mbind, ST_bind, ensure_dir, lift.
  by rewrite bool_decide_eq_false_2 by lia.
Qed.

Lemma init_rejects_small_num_parts_witness :
  1 ≤ 1 ∧
  PartitionerBase.__init__ (Feat:=unit) "out" 1 (PartitionerBase.Count 6)
    (PartitionerBase.Edges ([0; 1; 2; 3; 4; 5], [1; 2; 3; 4; 5; 0]))
    None None "by_src" 10000 (∅ : filesystem)
  = (Raise AssertionError, {["out"]} ∪ ∅).
Proof.
  split; [lia|].
  apply (init_rejects_small_num_parts (Feat:=unit) "out" 1). lia.
Defined.

(** C8, as stated, fails. Construction with [num_parts = 1] on a file
    system without the output directory is rejected, and the directory
    exists afterwards: [ensure_dir] runs before the assertion on
    [num_parts], so the rejection is not free of side effects. *)
Lemma init_creates_dir_before_rejecting :
  let run :=
    PartitionerBase.__init__ (Feat:=unit) "out" 1 (PartitionerBase.Count 6)
      (PartitionerBase.Edges ([0; 1; 2; 3; 4; 5], [1; 2; 3; 4; 5; 0]))
      None None "by_src" 10000 (∅ : filesystem) in
  run.1 = Raise AssertionError ∧
  ("out" ∉ (∅ : filesystem)) ∧
  "out" ∈ run.2 ∧
  run.2 ≠ (∅ : filesystem).
Proof.
  simpl. split_and!; [done|set_solver|set_solver|].
  intros H. assert ("out" ∈ (∅ : filesystem)) as Hin; [|set_solver].
  rewrite <-H. set_solver.
Qed.

(** * The claim about [DistDataset] *)

(** C9. For every dataset that [DistDataset.__init__] builds: without a
    feature-specific node (edge) partition book, the [node_feat_pb]
    ([edge_feat_pb]) property returns the very [node_pb] ([edge_pb]) that
    was handed in; with one, it returns that feature-specific book. *)
Theorem feat_pb_falls_back_to_topology_pb {Graph Feature Labels : Type}
    (num_partitions partition_idx : Z) (graph : option Graph)
    (node_features edge_features : option Feature)
    (labels : option Labels)
    (node_pb : option (DistDataset.Books NodeType))
    (edge_pb : option (DistDataset.Books EdgeType))
    (node_feat_pb : option (DistDataset.Books NodeType))
    (edge_feat_pb : option (DistDataset.Books EdgeType))
    (ds : DistDataset.t Graph Feature Labels) :
  DistDataset.__init__ num_partitions partition_idx graph node_features
    edge_features labels node_pb edge_pb node_feat_pb edge_feat_pb = Ok ds →
  DistDataset.node_pb ds = node_pb ∧
  DistDataset.edge_pb ds = edge_pb ∧
  (node_feat_pb = None → DistDataset.node_feat_pb ds = node_pb) ∧
  (edge_feat_pb = None → DistDataset.edge_feat_pb ds = edge_pb) ∧
  (∀ b, node_feat_pb = Some b → DistDataset.node_feat_pb ds = Some b) ∧
  (∀ b, edge_feat_pb = Some b → DistDataset.edge_feat_pb ds = Some b).
Proof.
  unfold DistDataset.__init__. intros H.
  repeat match type of H with
         | (?r ≫= _) = _ => destruct r; simpl in H; [|done]
         end.
  simplify_eq. unfold DistDataset.node_feat_pb, DistDataset.edge_feat_pb.
  simpl. split_and!; try done; by intros; subst.
Qed.

Lemma feat_pb_falls_back_to_topology_pb_witness :
  ∃ ds : DistDataset.t unit unit unit,
    DistDataset.__init__ 2 0 (Some tt) (Some tt) None None
      (Some (DistDataset.OneBook 3%positive)) None None None = Ok ds ∧
    DistDataset.node_feat_pb ds = Some (DistDataset.OneBook 3%positive).
Proof.
  eexists. split; [reflexivity|].
  destruct (feat_pb_falls_back_to_topology_pb (Graph:=unit) (Feature:=unit)
              (Labels:=unit) 2 0 (Some tt) (Some tt) None None
              (Some (DistDataset.OneBook 3%positive)) None None None _
              eq_refl) as (_ & _ & Hnode & _).
  exact (Hnode eq_refl).
Defined.

(** * Further properties of the constructor *)

(** [__init__] as one pure check of its arguments after [ensure_dir]. *)
Lemma init_run {Feat} (output_dir : string)
    (num_parts : Z) (num_nodes : PartitionerBase.NumNodes)
    (edge_index : PartitionerBase.EdgeIndex)
    (node_feat : option (PartitionerBase.Features Feat NodeType))
    (edge_feat : option (PartitionerBase.Features Feat EdgeType))
    (strategy : string) (chunk_size : Z) (fs : filesystem) :
  PartitionerBase.__init__ output_dir num_parts num_nodes edge_index
    node_feat edge_feat strategy chunk_size fs
  = (if bool_decide (num_parts > 1) then
       match num_nodes, edge_index with
       | PartitionerBase.CountDict _, PartitionerBase.EdgesDict d =>
           if PartitionerBase.is_dict_or_None node_feat then
             if PartitionerBase.is_dict_or_None edge_feat then
               if bool_decide (lower strategy ∈ ["by_src"; "by_dst"]) then
                 Ok {| PartitionerBase.output_dir := output_dir;
                       PartitionerBase.num_parts := num_parts;
                       PartitionerBase.num_nodes := num_nodes;
                       PartitionerBase.graph := PartitionerBase.Hetero d;
                       PartitionerBase.node_feat := node_feat;
                       PartitionerBase.edge_feat := edge_feat;
                       PartitionerBase.edge_assign_strategy := lower strategy;
                       PartitionerBase.chunk_size := chunk_size |}
               else Raise AssertionError
             else Raise AssertionError
           else Raise AssertionError
       | PartitionerBase.CountDict _, PartitionerBase.Edges _ =>
           Raise AssertionError
       | PartitionerBase.Count _, PartitionerBase.Edges rc =>
           if bool_decide (lower strategy ∈ ["by_src"; "by_dst"]) then
             Ok {| PartitionerBase.output_dir := output_dir;
                   PartitionerBase.num_parts := num_parts;
                   PartitionerBase.num_nodes := num_nodes;
                   PartitionerBase.graph := PartitionerBase.Homo rc;
                   PartitionerBase.node_feat := node_feat;
                   PartitionerBase.edge_feat := edge_feat;
                   PartitionerBase.edge_assign_strategy := lower strategy;
                   PartitionerBase.chunk_size := chunk_size |}
           else Raise AssertionError
       | PartitionerBase.Count _, PartitionerBase.EdgesDict _ => Raise KeyError
       end
     else Raise AssertionError, {[output_dir]} ∪ fs).
Proof.
  unfold PartitionerBase.__init__, ensure_dir, lift, py_assert, mbind, ST_bind,
    mret, ST_ret.
  destruct (bool_decide (num_parts > 1)); [|done].
  destruct num_nodes, edge_index; simpl; try done.
  - by destruct (bool_decide (_ ∈ _)).
  - destruct (PartitionerBase.is_dict_or_None node_feat); simpl; [|done].
    destruct (PartitionerBase.is_dict_or_None edge_feat); simpl; [|done].
    by destruct (bool_decide (_ ∈ _)).
Qed.

Lemma strategy_in_list (s : string) :
  s ∈ ["by_src"; "by_dst"] ↔ s = "by_src" ∨ s = "by_dst".
Proof. rewrite !elem_of_cons, elem_of_nil. tauto. Qed.

(** X1. Every partitioner that [PartitionerBase.__init__] builds has more
    than one part, an edge assignment strategy that is the lower-cased
    argument and one of ["by_src"] and ["by_dst"], and a graph of the same
    kind as [num_nodes]: heterogeneous (with dictionaries, or [None], for
    the features) exactly when [num_nodes] is a dictionary. The other
    arguments are stored as given and the output directory exists
    afterwards. *)
Theorem init_establishes_invariants {Feat} (output_dir : string)
    (num_parts : Z) (num_nodes : PartitionerBase.NumNodes)
    (edge_index : PartitionerBase.EdgeIndex)
    (node_feat : option (PartitionerBase.Features Feat NodeType))
    (edge_feat : option (PartitionerBase.Features Feat EdgeType))
    (strategy : string) (chunk_size : Z) (fs fs' : filesystem)
    (self : PartitionerBase.t Feat) :
  PartitionerBase.__init__ output_dir num_parts num_nodes edge_index
    node_feat edge_feat strategy chunk_size fs = (Ok self, fs') →
  fs' = {[output_dir]} ∪ fs ∧
  PartitionerBase.num_parts self = num_parts ∧ 1 < num_parts ∧
  PartitionerBase.edge_assign_strategy self = lower strategy ∧
  (PartitionerBase.edge_assign_strategy self = "by_src" ∨
   PartitionerBase.edge_assign_strategy self = "by_dst") ∧
  match num_nodes with
  | PartitionerBase.CountDict _ =>
      PartitionerBase.data_cls self = "hetero" ∧
      (∃ d, edge_index = PartitionerBase.EdgesDict d ∧
            PartitionerBase.graph self = PartitionerBase.Hetero d) ∧
      PartitionerBase.is_dict_or_None node_feat = true ∧
      PartitionerBase.is_dict_or_None edge_feat = true
  | PartitionerBase.Count _ =>
      PartitionerBase.data_cls self = "homo" ∧
      ∃ rc, edge_index = PartitionerBase.Edges rc ∧
            PartitionerBase.graph self = PartitionerBase.Homo rc
  end ∧
  PartitionerBase.output_dir self = output_dir ∧
  PartitionerBase.num_nodes self = num_nodes ∧
  PartitionerBase.node_feat self = node_feat ∧
  PartitionerBase.edge_feat self = edge_feat ∧
  PartitionerBase.chunk_size self = chunk_size.
Proof.
  rewrite init_run. case_bool_decide as Hnp; [|done].
  destruct num_nodes as [n|ns], edge_index as [rc|d]; try done.
  - case_bool_decide as Hs; [|done]. apply strategy_in_list in Hs.
    intros [= <- <-]. simpl. split_and!; try done; [lia|by eauto].
  - destruct (PartitionerBase.is_dict_or_None node_feat) eqn:Hn; [|done].
    destruct (PartitionerBase.is_dict_or_None edge_feat) eqn:He; [|done].
    case_bool_decide as Hs; [|done]. apply strategy_in_list in Hs.
    intros [= <- <-]. simpl. split_and!; try done; [lia|by eauto].
Qed.

Lemma init_establishes_invariants_witness :
  ∃ self : PartitionerBase.t unit,
    PartitionerBase.__init__ "out" 2 (PartitionerBase.Count 6)
      (PartitionerBase.Edges ([0; 1; 2; 3; 4; 5], [1; 2; 3; 4; 5; 0]))
      None None "By_Src" 4 (∅ : filesystem) = (Ok self, {["out"]} ∪ ∅) ∧
    PartitionerBase.edge_assign_strategy self = "by_src" ∧
    PartitionerBase.data_cls self = "homo".
Proof.
  eexists. split; [reflexivity|].
  destruct (init_establishes_invariants (Feat:=unit) "out" 2
              (PartitionerBase.Count 6)
              (PartitionerBase.Edges ([0; 1; 2; 3; 4; 5], [1; 2; 3; 4; 5; 0]))
              None None "By_Src" 4 ∅ _ _ eq_refl)
    as (_ & _ & _ & Hs & _ & (Hc & _) & _).
  split; [exact Hs|exact Hc].
Defined.

(** X2. Which constructions [PartitionerBase.__init__] accepts: it returns
    a partitioner exactly when [num_parts > 1], [num_nodes] and
    [edge_index] are both dictionaries (and then each feature argument is a
    dictionary or [None]) or both plain, and the lower-cased strategy is
    ["by_src"] or ["by_dst"]. With [num_parts > 1], a dictionary
    [num_nodes] with a plain [edge_index] or a plain feature tensor is
    rejected with [AssertionError], and a plain [num_nodes] with a
    dictionary [edge_index] with [KeyError] (from [self.edge_index[0]]).
    Accepted or rejected, the output directory exists afterwards. *)
Theorem init_accepts_iff {Feat} (output_dir : string)
    (num_parts : Z) (num_nodes : PartitionerBase.NumNodes)
    (edge_index : PartitionerBase.EdgeIndex)
    (node_feat : option (PartitionerBase.Features Feat NodeType))
    (edge_feat : option (PartitionerBase.Features Feat EdgeType))
    (strategy : string) (chunk_size : Z) (fs : filesystem) :
  let run := PartitionerBase.__init__ output_dir num_parts num_nodes
               edge_index node_feat edge_feat strategy chunk_size fs in
  run.2 = {[output_dir]} ∪ fs ∧
  ((∃ self, run.1 = Ok self) ↔
   1 < num_parts ∧
   match num_nodes, edge_index with
   | PartitionerBase.CountDict _, PartitionerBase.EdgesDict _ =>
       PartitionerBase.is_dict_or_None node_feat = true ∧
       PartitionerBase.is_dict_or_None edge_feat = true
   | PartitionerBase.Count _, PartitionerBase.Edges _ => True
   | _, _ => False
   end ∧
   (lower strategy = "by_src" ∨ lower strategy = "by_dst")) ∧
  (1 < num_parts →
   match num_nodes, edge_index with
   | PartitionerBase.CountDict _, PartitionerBase.Edges _ =>
       run.1 = Raise AssertionError
   | PartitionerBase.Count _, PartitionerBase.EdgesDict _ =>
       run.1 = Raise KeyError
   | PartitionerBase.CountDict _, PartitionerBase.EdgesDict _ =>
       PartitionerBase.is_dict_or_None node_feat = false ∨
       PartitionerBase.is_dict_or_None edge_feat = false →
       run.1 = Raise AssertionError
   | PartitionerBase.Count _, PartitionerBase.Edges _ => True
   end).
Proof.
  intros run. subst run. rewrite init_run. simpl.
  split; [done|].
  case_bool_decide as Hnp.
  - destruct num_nodes as [n|ns], edge_index as [rc|d].
    + case_bool_decide as Hs; rewrite strategy_in_list in Hs.
      * split; [|done]. split; [intros _; split_and!; [lia|done..]|eauto].
      * split; [|done]. split; [by intros [? ?]|tauto].
    + split; [|done]. split; [by intros [? ?]|tauto].
    + split; [|done]. split; [by intros [? ?]|tauto].
    + destruct (PartitionerBase.is_dict_or_None node_feat) eqn:Hn;
        [destruct (PartitionerBase.is_dict_or_None edge_feat) eqn:He|].
      * case_bool_decide as Hs; rewrite strategy_in_list in Hs.
        -- split; [|by intros _ [?|?]].
           split; [intros _; split_and!; [lia|done..]|eauto].
        -- split; [|by intros _ [?|?]]. split; [by intros [? ?]|tauto].
      * split; [|done].
        split; [by intros [? ?]|intros (_ & [_ ?] & _); done].
      * split; [|done].
        split; [by intros [? ?]|intros (_ & [? _] & _); done].
  - split; [|intros ?; lia]. split; [by intros [? ?]|intros [? _]; lia].
Qed.

(** * Further properties of [_partition_graph] *)

Lemma index_tensor_is_Some {A} (t : list A) (i : Z) :
  is_Some (index_tensor t i) ↔ - len t ≤ i < len t.
Proof.
  unfold index_tensor, resolve, len.
  repeat case_decide; simpl.
  - rewrite lookup_lt_is_Some. lia.
  - rewrite lookup_lt_is_Some. lia.
  - split; [by intros [? ?]|lia].
Qed.

Lemma designated_shard_nat (pb tgt : tensor) (e : nat) :
  designated_shard pb tgt (Z.of_nat e) = tgt !! e ≫= index_tensor pb.
Proof. unfold designated_shard. by rewrite index_tensor_nat. Qed.

(** X3. When [_partition_graph] returns: for a non-empty edge list (parallel
    arrays) and a positive chunk size, the call returns exactly when every
    designated endpoint [v] is an index that the node partition book
    accepts, [-len(pb) <= v < len(pb)] (PyTorch counts a negative index
    from the end); when one endpoint is outside this range the call raises
    [IndexError]. *)
Theorem partition_graph_returns_iff {Feat} (self : PartitionerBase.t Feat)
    (node_pb : NodePartition) (etype : option EdgeType)
    (rows cols pb tgt : tensor) :
  PartitionerBase.get_edge_index self etype = Ok (rows, cols) →
  length rows = length cols →
  PartitionerBase.select_target self node_pb etype rows cols
    = Ok (Book pb, tgt) →
  0 < PartitionerBase.chunk_size self → rows ≠ [] →
  (Forall (λ v, - len pb ≤ v < len pb) tgt →
   ∃ r, PartitionerBase._partition_graph self node_pb etype = Ok r) ∧
  (¬ Forall (λ v, - len pb ≤ v < len pb) tgt →
   PartitionerBase._partition_graph self node_pb etype = Raise IndexError).
Proof.
  intros Hget Hlen Hsel Hc Hrows.
  rewrite (partition_graph_outcome self node_pb etype rows cols (Book pb) tgt)
    by done.
  unfold partition_outcome. rewrite decide_False by done. simpl.
  unfold getitem. split.
  - intros Hall.
    destruct (mapM_is_Some_2 (index_tensor pb) tgt) as [sh ->]; [|simpl; eauto].
    eapply Forall_impl; [done|]. intros v Hv. by apply index_tensor_is_Some.
  - intros Hnot. destruct (mapM (index_tensor pb) tgt) as [sh|] eqn:Hsh; [|done].
    destruct Hnot. assert (is_Some (mapM (index_tensor pb) tgt)) as Hs by eauto.
    apply mapM_is_Some_1 in Hs. eapply Forall_impl; [done|].
    intros v Hv. by apply index_tensor_is_Some.
Qed.

Lemma partition_graph_returns_iff_witness :
  (∃ r, PartitionerBase._partition_graph (cycle6 "by_src" 4)
          (Book cycle6_book) None = Ok r) ∧
  PartitionerBase._partition_graph (cycle6 "by_src" 4) (Book [0; 0; 0; 1; 1])
    None = Raise IndexError.
Proof.
  split.
  - apply (partition_graph_returns_iff (cycle6 "by_src" 4) (Book cycle6_book)
             None [0; 1; 2; 3; 4; 5] [1; 2; 3; 4; 5; 0] cycle6_book
             [0; 1; 2; 3; 4; 5]); try done.
    unfold len. simpl. repeat constructor; lia.
  - apply (partition_graph_returns_iff (cycle6 "by_src" 4)
             (Book [0; 0; 0; 1; 1]) None [0; 1; 2; 3; 4; 5]
             [1; 2; 3; 4; 5; 0] [0; 0; 0; 1; 1] [0; 1; 2; 3; 4; 5]); try done.
    rewrite Forall_forall. intros H. specialize (H 5). unfold len in H.
    simpl in H. assert (5 ∈ [0; 1; 2; 3; 4; 5]) as H5
      by (by apply (list_elem_of_lookup_2 _ 5%nat)).
    specialize (H H5). lia.
Defined.

(** X4. Edges of an uncovered shard are dropped: whenever
    [_partition_graph] returns for [num_parts > 0], it returns [num_parts]
    shards and a book with one entry per edge, and every edge [e], whose
    designated endpoint the node book sends to some shard [s], is stored
    in shard [k] exactly when [s = k]. So an edge whose [s] lies outside
    [0, num_parts) is stored in no shard at all, while the edge book
    holds 0 for it. *)
Theorem uncovered_shard_edges_are_dropped {Feat} (self : PartitionerBase.t Feat)
    (node_pb : NodePartition) (etype : option EdgeType)
    (rows cols pb tgt : tensor) (results : list GraphPartitionData)
    (book : tensor) :
  PartitionerBase.get_edge_index self etype = Ok (rows, cols) →
  length rows = length cols →
  PartitionerBase.select_target self node_pb etype rows cols
    = Ok (Book pb, tgt) →
  0 < PartitionerBase.num_parts self →
  PartitionerBase._partition_graph self node_pb etype = Ok (results, book) →
  length results = Z.to_nat (PartitionerBase.num_parts self) ∧
  length book = length rows ∧
  ∀ e : nat, (e < length rows)%nat →
    ∃ s, designated_shard pb tgt (Z.of_nat e) = Some s ∧
      (∀ (k : nat) g, results !! k = Some g →
         (Z.of_nat e ∈ eids g ↔ s = Z.of_nat k)) ∧
      (0 ≤ s < PartitionerBase.num_parts self → book !! e = Some s) ∧
      (¬ (0 ≤ s < PartitionerBase.num_parts self) →
       book !! e = Some 0 ∧
       ∀ (k : nat) g, results !! k = Some g → Z.of_nat e ∉ eids g).
Proof.
  intros Hget Hlen Hsel Hnp Hpg.
  assert (length tgt = length rows) as Htgt.
  { rewrite (select_target_indices _ _ _ _ _ _ _ Hsel). by case_decide. }
  destruct (partition_graph_Ok_inv self node_pb etype rows cols (Book pb) tgt
              results book Hget Hlen Hsel Hpg)
    as [(Hle & _)|(pb' & sh & [= <-] & Hsh & -> & ->)]; [lia|].
  pose proof (length_mapM _ _ _ Hsh) as Hshl.
  assert (length sh = length rows) as Hshr by lia.
  split_and!.
  - unfold range. by rewrite length_fmap, length_seqZ.
  - by rewrite length_fmap.
  - intros e He.
    destruct (lookup_lt_is_Some_2 sh e) as [s Hs]; [lia|].
    exists s.
    assert (∀ (k : nat) g,
      (shard_data rows cols sh <$> range (PartitionerBase.num_parts self)) !! k
        = Some g →
      (Z.of_nat e ∈ eids g ↔ s = Z.of_nat k) ∧
      Z.of_nat k < PartitionerBase.num_parts self) as Hmem.
    { intros k g [-> Hk]%lookup_shards. split; [|done].
      rewrite elem_of_shard_eids by done. rewrite Hs. split; congruence. }
    split_and!.
    + rewrite designated_shard_nat.
      apply mapM_Some_1 in Hsh.
      destruct (Forall2_lookup_r _ _ _ _ _ Hsh Hs) as (v & Hv & Hvs).
      by rewrite Hv.
    + intros k g Hg. by apply Hmem.
    + intros Hin. rewrite list_lookup_fmap, Hs. simpl.
      unfold book_entry. by rewrite decide_True.
    + intros Hout. split.
      * rewrite list_lookup_fmap, Hs. simpl.
        unfold book_entry. by rewrite decide_False.
      * intros k g Hg. destruct (Hmem k g Hg) as [Hiff Hk].
        rewrite Hiff. intros ->. lia.
Qed.

Lemma uncovered_shard_edges_are_dropped_witness :
  ∃ results book,
    PartitionerBase._partition_graph (cycle6 "by_src" 4)
      (Book [0; 0; 0; 1; 1; 2]) None = Ok (results, book) ∧
    book !! 5%nat = Some 0 ∧
    ∀ (k : nat) g, results !! k = Some g → 5 ∉ eids g.
Proof.
  eexists _, _. split; [reflexivity|].
  destruct (uncovered_shard_edges_are_dropped (cycle6 "by_src" 4)
              (Book [0; 0; 0; 1; 1; 2]) None [0; 1; 2; 3; 4; 5]
              [1; 2; 3; 4; 5; 0] [0; 0; 0; 1; 1; 2] [0; 1; 2; 3; 4; 5] _ _
              eq_refl eq_refl eq_refl ltac:(simpl; lia) eq_refl)
    as (_ & _ & He).
  destruct (He 5%nat ltac:(simpl; lia)) as (s & Hs & _ & _ & Hout).
  vm_compute in Hs. injection Hs as <-.
  apply Hout. simpl. lia.
Defined.

(** X5. A chunk size that is not positive never partitions: with
    [num_parts > 0], [chunk_size = 0] raises [ZeroDivisionError] (the
    number of chunks is a division by the chunk size) and a negative
    [chunk_size] raises [RuntimeError] (a chunk of negative length, or,
    when no chunk is run, [torch.cat] of no tensors). *)
Theorem nonpositive_chunk_size_raises {Feat} (self : PartitionerBase.t Feat)
    (node_pb : NodePartition) (etype : option EdgeType)
    (rows cols : tensor) (tpb : NodePartition) (tgt : tensor) :
  PartitionerBase.get_edge_index self etype = Ok (rows, cols) →
  PartitionerBase.select_target self node_pb etype rows cols = Ok (tpb, tgt) →
  0 < PartitionerBase.num_parts self →
  (PartitionerBase.chunk_size self = 0 →
   PartitionerBase._partition_graph self node_pb etype
   = Raise ZeroDivisionError) ∧
  (PartitionerBase.chunk_size self < 0 →
   PartitionerBase._partition_graph self node_pb etype = Raise RuntimeError).
Proof.
  intros Hget Hsel Hnp.
  unfold PartitionerBase._partition_graph. rewrite Hget.
  cbn [mbind result_bind]. unfold arange, floordiv, zeros, len.
  rewrite !(decide_False (P:=(Z.of_nat (length rows) < 0))) by lia.
  cbn [mbind result_bind]. rewrite Hsel. cbn [mbind result_bind].
  split; intros Hc.
  - by rewrite decide_True.
  - rewrite decide_False by lia. cbn [mbind result_bind].
    set (q := _ `div` _). unfold range.
    destruct (decide (q ≤ 0)) as [Hq|Hq].
    + rewrite (seqZ_nil 0 q) by done. cbn [for_each mbind result_bind].
      rewrite (seqZ_cons 0 (PartitionerBase.num_parts self)) by lia.
      rewrite for_each_cons. unfold PartitionerBase.collect_body.
      unfold index_tensor, resolve. rewrite length_replicate.
      rewrite decide_True by lia. simpl.
      rewrite lookup_replicate_2 by lia. done.
    + rewrite (seqZ_cons 0 q) by lia. rewrite for_each_cons.
      unfold PartitionerBase.chunk_body, arange.
      rewrite decide_True by lia. done.
Qed.

Lemma nonpositive_chunk_size_raises_witness :
  PartitionerBase._partition_graph (cycle6 "by_src" 0) (Book cycle6_book) None
  = Raise ZeroDivisionError ∧
  PartitionerBase._partition_graph (cycle6 "by_src" (-2)) (Book cycle6_book) None
  = Raise RuntimeError.
Proof.
  split.
  - by apply (nonpositive_chunk_size_raises (cycle6 "by_src" 0)
               (Book cycle6_book) None [0; 1; 2; 3; 4; 5] [1; 2; 3; 4; 5; 0]
               (Book cycle6_book) [0; 1; 2; 3; 4; 5]).
  - by apply (nonpositive_chunk_size_raises (cycle6 "by_src" (-2))
               (Book cycle6_book) None [0; 1; 2; 3; 4; 5] [1; 2; 3; 4; 5; 0]
               (Book cycle6_book) [0; 1; 2; 3; 4; 5]).
Defined.

(** X6. What [_partition_graph] rejects on a heterogeneous graph, in the
    order of the checks: no edge type raises [AssertionError]; an edge type
    that the graph does not hold raises [KeyError]; a node partition book
    that is not a dictionary raises [AssertionError]; and a dictionary
    without a book for the node type of the designated endpoint (the source
    type under ["by_src"], the destination type otherwise) raises
    [KeyError]. *)
Theorem hetero_partition_graph_rejections {Feat} (self : PartitionerBase.t Feat)
    (d : gmap EdgeType (tensor * tensor)) :
  PartitionerBase.graph self = PartitionerBase.Hetero d →
  (∀ node_pb,
     PartitionerBase._partition_graph self node_pb None
     = Raise AssertionError) ∧
  (∀ node_pb ty, d !! ty = None →
     PartitionerBase._partition_graph self node_pb (Some ty) = Raise KeyError) ∧
  (∀ pb ty, is_Some (d !! ty) →
     PartitionerBase._partition_graph self (Book pb) (Some ty)
     = Raise AssertionError) ∧
  (∀ pbs src rel dst, is_Some (d !! (src, rel, dst)) →
     pbs !! (if decide ("by_src" = PartitionerBase.edge_assign_strategy self)
             then src else dst) = None →
     PartitionerBase._partition_graph self (BookDict pbs)
       (Some (src, rel, dst)) = Raise KeyError).
Proof.
  intros Hg.
  assert (PartitionerBase.data_cls self = "hetero") as Hcls.
  { unfold PartitionerBase.data_cls. by rewrite Hg. }
  unfold PartitionerBase._partition_graph, PartitionerBase.get_edge_index.
  rewrite Hg. split_and!.
  - done.
  - intros node_pb ty Hty. simpl. by rewrite Hty.
  - intros pb ty [[rows cols] Hty]. simpl. rewrite Hty.
    cbn [mbind result_bind]. unfold arange, len.
    rewrite decide_False by lia. cbn [mbind result_bind].
    unfold PartitionerBase.select_target. rewrite Hcls.
    rewrite decide_True by done. simpl. by destruct ty as [[? ?] ?].
  - intros pbs src rel dst [[rows cols] Hty] Hpb. simpl. rewrite Hty.
    cbn [mbind result_bind]. unfold arange, len.
    rewrite decide_False by lia. cbn [mbind result_bind].
    unfold PartitionerBase.select_target. rewrite Hcls.
    rewrite decide_True by done. simpl.
    case_decide; by rewrite Hpb.
Qed.

Lemma hetero_partition_graph_rejections_witness :
  PartitionerBase._partition_graph (two_types "by_dst" 3) two_types_books None
  = Raise AssertionError ∧
  PartitionerBase._partition_graph (two_types "by_dst" 3)
    (BookDict {[ "a" := [0; 0; 1] ]}) (Some ("a", "to", "b")) = Raise KeyError.
Proof.
  destruct (hetero_partition_graph_rejections (two_types "by_dst" 3) _ eq_refl)
    as (H1 & _ & _ & H4).
  split; [apply H1|].
  apply H4; [by eexists|done].
Defined.

(** X7. An edge list without edges is not partitioned: on a homogeneous
    graph with no edge, with a positive chunk size and [num_parts > 0],
    [_partition_graph] raises [RuntimeError] whatever the node partition
    book is, since no chunk is run and [torch.cat] is handed an empty list
    for the first shard. *)
Theorem empty_graph_is_rejected {Feat} (self : PartitionerBase.t Feat)
    (node_pb : NodePartition) (etype : option EdgeType) :
  PartitionerBase.graph self = PartitionerBase.Homo ([], []) →
  0 < PartitionerBase.chunk_size self →
  0 < PartitionerBase.num_parts self →
  PartitionerBase._partition_graph self node_pb etype = Raise RuntimeError.
Proof.
  intros Hg Hc Hnp.
  eapply partition_graph_empty_edge_list; [| |done..].
  - unfold PartitionerBase.get_edge_index. by rewrite Hg.
  - unfold PartitionerBase.select_target, PartitionerBase.data_cls.
    rewrite Hg. rewrite decide_False by done. done.
Qed.

Lemma empty_graph_is_rejected_witness :
  PartitionerBase._partition_graph
    {| PartitionerBase.output_dir := "out"; PartitionerBase.num_parts := 2;
       PartitionerBase.num_nodes := PartitionerBase.Count 6;
       PartitionerBase.graph := PartitionerBase.Homo ([], []);
       PartitionerBase.node_feat := (None : option (PartitionerBase.Features unit NodeType));
       PartitionerBase.edge_feat := None;
       PartitionerBase.edge_assign_strategy := "by_src";
       PartitionerBase.chunk_size := 4 |} (Book cycle6_book) None
  = Raise RuntimeError.
Proof. by apply empty_graph_is_rejected. Defined.

(** * Further properties of [cat_feature_cache] *)

Lemma index_map_owned_only cv iv max_id (j : nat) o :
  Forall (λ x, 0 ≤ x) cv → Forall (λ x, 0 ≤ x) iv →
  NoDup iv → o ∉ cv →
  Forall (λ x, x ≤ max_id) iv →
  iv !! j = Some o →
  index_tensor (index_map cv iv max_id) o = Some (len cv + Z.of_nat j).
Proof.
  intros Hcpos Hpos Hnd Hdisj Hle Hj.
  pose proof (Forall_lookup_1 _ _ _ _ Hpos Hj) as Ho.
  pose proof (Forall_lookup_1 _ _ _ _ Hle Hj) as Ho'. simpl in *.
  rewrite index_tensor_nonneg by done. unfold index_map.
  assert (length (Z.to_nat <$> cv) = length (seqZ 0 (len cv))) as Hlenc.
  { unfold len. by rewrite length_fmap, length_seqZ, Nat2Z.id. }
  assert (length (Z.to_nat <$> iv)
          = length ((λ x, x + len cv) <$> seqZ 0 (len iv))) as Hleni.
  { unfold len. by rewrite !length_fmap, length_seqZ, Nat2Z.id. }
  rewrite foldl_insert_pairs_notin; last first.
  { rewrite fst_zip_same_length by done. intros Hin.
    apply elem_of_to_nat in Hin; done. }
  apply foldl_insert_pairs_in.
  - rewrite fst_zip_same_length by done. by apply NoDup_to_nat.
  - apply (list_elem_of_lookup_2 _ j). rewrite lookup_zip_with.
    rewrite !list_lookup_fmap, Hj. simpl.
    rewrite lookup_seqZ_lt; [simpl; do 2 f_equal; lia|].
    apply lookup_lt_Some in Hj. unfold len. lia.
  - rewrite length_replicate. lia.
Qed.

(** X8. An id that is both cached and owned is not deduplicated: for
    non-negative ids without repetition among the cache ids and among the
    owned ids, if the id [x] is the [i]-th cache id and the [j]-th owned
    id, then whenever [cat_feature_cache] returns, the new feature tensor
    still has all [C+O] rows (cache rows first), the id-to-index map sends
    [x] to the cache copy, row [i], and no entry of the map is [C+j]: the
    owned copy of the row is unreachable. *)
Theorem cached_copy_shadows_owned_row {Row} (id2idx : tensor → result tensor)
    (partition_idx : Z) (feat_pdata : FeaturePartitionData) (feat_pb : loc)
    (h : store Row) (cf f : list Row) (cv iv pb : tensor)
    (i j : nat) (x : Z) :
  holds h feat_pdata feat_pb cf f cv iv pb →
  Forall (λ x, 0 ≤ x) cv → Forall (λ x, 0 ≤ x) iv →
  NoDup cv → NoDup iv →
  cv !! i = Some x → iv !! j = Some x →
  ∀ ratio new_feats nid2idx new_feat_pb h',
    cat_feature_cache id2idx partition_idx feat_pdata feat_pb h
    = (Ok (ratio, new_feats, nid2idx, new_feat_pb), h') →
    ∃ n2i,
      feat_tensors h' !! new_feats = Some (cf ++ f) ∧
      int_tensors h' !! nid2idx = Some n2i ∧
      index_tensor n2i x = Some (Z.of_nat i) ∧
      (i < length cv)%nat ∧
      (len cv + Z.of_nat j) ∉ n2i.
Proof.
  intros Hh Hcv Hiv Hndc Hndi Hi Hj ratio l1 l2 l3 h' Hrun.
  destruct (cat_feature_cache_Ok_inv id2idx partition_idx feat_pdata feat_pb h
              cf f cv iv pb ratio l1 l2 l3 h' Hh Hrun)
    as (nf & n2i & npb & Hm & Hnf & Hn2i & _).
  destruct (merge_values_nonempty _ _ _ _ _ _ _ Hm) as [Hcne Hine].
  destruct (merge_values_nonneg partition_idx cf f cv iv pb Hcv Hiv Hcne Hine)
    as (max_id & Hin & Hmax & Heq).
  rewrite Heq in Hm. destruct (mapM _ cv) as [ps|]; [|done].
  injection Hm as _ <- <- _.
  apply Forall_app in Hmax as [Hmaxc Hmaxi].
  exists (index_map cv iv max_id). split_and!; [done|done| | |].
  - by apply index_map_cache.
  - by eapply lookup_lt_Some.
  - intros (p & Hp)%list_elem_of_lookup_1.
    pose proof (lookup_lt_Some _ _ _ Hp) as Hplt.
    rewrite index_map_length in Hplt.
    assert (0 < len cv) as Hcpos.
    { unfold len. destruct cv; [done|]. simpl. lia. }
    destruct (decide (Z.of_nat p ∈ cv)) as [Hpc|Hpc].
    + apply list_elem_of_lookup_1 in Hpc as [i' Hi'].
      pose proof (index_map_cache cv iv max_id i' _ Hcv Hndc Hmaxc Hi') as Hc.
      rewrite index_tensor_nat, Hp in Hc.
      apply lookup_lt_Some in Hi'. unfold len in *. simplify_eq. lia.
    + destruct (decide (Z.of_nat p ∈ iv)) as [Hpi|Hpi].
      * apply list_elem_of_lookup_1 in Hpi as [j' Hj'].
        pose proof (index_map_owned_only cv iv max_id j' _ Hcv Hiv Hndi Hpc
                      Hmaxi Hj') as Ho.
        rewrite index_tensor_nat, Hp in Ho.
        assert (j' = j) as -> by (simplify_eq; lia).
        apply Hpc. rewrite Hj in Hj'. injection Hj' as <-.
        by eapply list_elem_of_lookup_2.
      * pose proof (index_map_other cv iv max_id (Z.of_nat p) Hcv Hiv
                      ltac:(lia) Hpc Hpi) as Hz.
        rewrite index_tensor_nat, Hp in Hz. simplify_eq. lia.
Qed.

(** A store in which shard 0 owns the rows of ids 10 and 5 and also caches
    the row of id 5. *)
Lemma cached_copy_shadows_owned_row_witness :
  let h : store (list Z) :=
    {| int_tensors :=
         {[ 1%positive := [10; 5]; 2%positive := [5];
            3%positive := [1; 1; 1; 1; 1; 1; 1; 1; 1; 1; 0; 0] ]};
       feat_tensors :=
         {[ 1%positive := [[10; 10]; [5; 5]]; 2%positive := [[5; 5]] ]} |} in
  ∃ ratio new_feats nid2idx new_feat_pb h' n2i,
    cat_feature_cache scenario_id2idx 0 scenario_partition 3%positive h
    = (Ok (ratio, new_feats, nid2idx, new_feat_pb), h') ∧
    feat_tensors h' !! new_feats = Some [[5; 5]; [10; 10]; [5; 5]] ∧
    int_tensors h' !! nid2idx = Some n2i ∧
    index_tensor n2i 5 = Some 0 ∧ 2 ∉ n2i.
Proof.
  intros h.
  assert (holds h scenario_partition 3%positive [[5; 5]] [[10; 10]; [5; 5]]
            [5] [10; 5] [1; 1; 1; 1; 1; 1; 1; 1; 1; 1; 0; 0]) as Hh.
  { split; simpl; try done; eexists; split; done. }
  destruct (cat_feature_cache scenario_id2idx 0 scenario_partition 3%positive h)
    as [[[[[ratio l1] l2] l3]|e] h'] eqn:Hrun; [|by vm_compute in Hrun].
  destruct (cached_copy_shadows_owned_row scenario_id2idx 0 scenario_partition
              3%positive h _ _ [5] [10; 5] _ 0%nat 1%nat 5 Hh
              ltac:(repeat constructor; lia) ltac:(repeat constructor; lia)
              ltac:(compute_done) ltac:(compute_done) eq_refl eq_refl
              ratio l1 l2 l3 h' Hrun)
    as (n2i & H1 & H2 & H3 & _ & H5).
  exists ratio, l1, l2, l3, h', n2i. done.
Defined.

(** X9. A cache that is present but empty is not treated as absent: when
    the cache fields are tensors, [cat_feature_cache] returns only if
    there is at least one cache id and at least one owned id. With neither
    it raises [ZeroDivisionError] (the cache ratio), and with exactly one
    of the two tensors empty it raises [RuntimeError] ([torch.max] of an
    empty tensor). *)
Theorem empty_id_tensors_are_rejected {Row} (id2idx : tensor → result tensor)
    (partition_idx : Z) (feat_pdata : FeaturePartitionData) (feat_pb : loc)
    (h : store Row) (cf f : list Row) (cv iv pb : tensor) :
  holds h feat_pdata feat_pb cf f cv iv pb →
  let run := cat_feature_cache id2idx partition_idx feat_pdata feat_pb h in
  (cv = [] → iv = [] → run.1 = Raise ZeroDivisionError) ∧
  (cv = [] → iv ≠ [] → run.1 = Raise RuntimeError) ∧
  (cv ≠ [] → iv = [] → run.1 = Raise RuntimeError) ∧
  (∀ r, run.1 = Ok r → cv ≠ [] ∧ iv ≠ []).
Proof.
  intros Hh run. subst run.
  destruct (cat_feature_cache_cached id2idx partition_idx feat_pdata feat_pb h
              cf f cv iv pb Hh) as (k1 & k2 & k3 & _ & _ & _ & _ & Hm).
  assert (∀ e, merge_values partition_idx cf f cv iv pb = Raise e →
    (cat_feature_cache id2idx partition_idx feat_pdata feat_pb h).1 = Raise e)
    as Hraise.
  { intros e He. rewrite He in Hm. by destruct Hm as (h' & -> & _). }
  split_and!.
  - intros -> ->. by apply Hraise.
  - intros -> Hiv. apply Hraise. unfold merge_values, truediv, len.
    destruct iv as [|y iv]; [done|]. rewrite decide_False by (simpl; lia). done.
  - intros Hcv ->. apply Hraise. unfold merge_values, truediv, len.
    destruct cv as [|c cv]; [done|]. rewrite decide_False by (simpl; lia). done.
  - intros r Hr.
    destruct (merge_values partition_idx cf f cv iv pb)
      as [[[[ratio nf] n2i] npb]|e] eqn:Hmv.
    + by eapply merge_values_nonempty.
    + rewrite (Hraise e eq_refl) in Hr. done.
Qed.

Lemma empty_id_tensors_are_rejected_witness :
  let h : store (list Z) :=
    {| int_tensors := {[ 1%positive := []; 2%positive := [];
                         3%positive := [1; 0] ]};
       feat_tensors := {[ 1%positive := []; 2%positive := [] ]} |} in
  (cat_feature_cache scenario_id2idx 0 scenario_partition 3%positive h).1
  = Raise ZeroDivisionError.
Proof.
  intros h.
  assert (holds h scenario_partition 3%positive [] [] [] [] [1; 0]) as Hh.
  { split; simpl; try done; eexists; split; done. }
  destruct (empty_id_tensors_are_rejected scenario_id2idx 0 scenario_partition
              3%positive h _ _ _ _ _ Hh) as (H1 & _).
  by apply H1.
Defined.

(** X10. A cache id that the partition book does not cover: for
    non-negative ids, with at least one cache id and one owned id, when
    some cache id is [len(feat_pb)] or more, [cat_feature_cache] raises
    [IndexError] (the write of [partition_idx] into the copy of the book),
    and every tensor object that existed before the call still holds what
    it held. *)
Theorem uncovered_cache_id_raises {Row} (id2idx : tensor → result tensor)
    (partition_idx : Z) (feat_pdata : FeaturePartitionData) (feat_pb : loc)
    (h : store Row) (cf f : list Row) (cv iv pb : tensor) :
  holds h feat_pdata feat_pb cf f cv iv pb →
  Forall (λ x, 0 ≤ x) cv → Forall (λ x, 0 ≤ x) iv →
  cv ≠ [] → iv ≠ [] →
  ¬ Forall (λ c, c < len pb) cv →
  let run := cat_feature_cache id2idx partition_idx feat_pdata feat_pb h in
  run.1 = Raise IndexError ∧ unchanged h run.2.
Proof.
  intros Hh Hcv Hiv Hcne Hine Hnot run. subst run.
  destruct (cat_feature_cache_cached id2idx partition_idx feat_pdata feat_pb h
              cf f cv iv pb Hh) as (k1 & k2 & k3 & _ & _ & _ & _ & Hm).
  destruct (merge_values_nonneg partition_idx cf f cv iv pb Hcv Hiv Hcne Hine)
    as (max_id & _ & _ & Heq).
  rewrite Heq in Hm.
  destruct (mapM (resolve (length pb)) cv) as [ps|] eqn:Hps.
  - destruct Hnot. apply mapM_Some_1 in Hps.
    apply Forall_forall. intros c Hc.
    apply list_elem_of_lookup_1 in Hc as [n Hn].
    destruct (Forall2_lookup_l _ _ _ _ _ Hps Hn) as (p & _ & Hp).
    apply resolve_lt in Hp as Hlt.
    pose proof (Forall_lookup_1 _ _ _ _ Hcv Hn) as Hc0. simpl in Hc0.
    apply resolve_nonneg in Hp; [|done]. unfold len. lia.
  - destruct Hm as (h' & -> & Hun). done.
Qed.

Lemma uncovered_cache_id_raises_witness :
  let h : store (list Z) :=
    {| int_tensors := {[ 1%positive := [0; 1]; 2%positive := [5];
                         3%positive := [0; 0; 1; 1] ]};
       feat_tensors := {[ 1%positive := [[0]; [1]]; 2%positive := [[5]] ]} |} in
  (cat_feature_cache scenario_id2idx 0 scenario_partition 3%positive h).1
  = Raise IndexError.
Proof.
  intros h.
  assert (holds h scenario_partition 3%positive [[5]] [[0]; [1]] [5] [0; 1]
            [0; 0; 1; 1]) as Hh.
  { split; simpl; try done; eexists; split; done. }
  apply (uncovered_cache_id_raises scenario_id2idx 0 scenario_partition
           3%positive h _ _ _ _ _ Hh); try done.
  - repeat constructor; lia.
  - repeat constructor; lia.
  - intros H. apply Forall_cons in H as [H _]. unfold len in H. simpl in H. lia.
Defined.

(** X11. The merge allocates and never overwrites: whenever
    [cat_feature_cache] returns for a partition with a cache, the three
    tensor objects it returns are new (none existed before the call), the
    id-to-index map and the feature book are two different objects, and
    every object that existed before the call, the inputs included, still
    holds what it held; the store has grown by exactly these three
    objects. *)
Theorem merge_allocates_fresh_objects {Row} (id2idx : tensor → result tensor)
    (partition_idx : Z) (feat_pdata : FeaturePartitionData) (feat_pb : loc)
    (h : store Row) (cf f : list Row) (cv iv pb : tensor) :
  holds h feat_pdata feat_pb cf f cv iv pb →
  ∀ ratio new_feats nid2idx new_feat_pb h',
    cat_feature_cache id2idx partition_idx feat_pdata feat_pb h
    = (Ok (ratio, new_feats, nid2idx, new_feat_pb), h') →
    (new_feats ∉ dom (feat_tensors h)) ∧
    (nid2idx ∉ dom (int_tensors h)) ∧
    (new_feat_pb ∉ dom (int_tensors h)) ∧
    nid2idx ≠ new_feat_pb ∧
    unchanged h h' ∧
    dom (feat_tensors h') = {[new_feats]} ∪ dom (feat_tensors h) ∧
    dom (int_tensors h') = {[nid2idx; new_feat_pb]} ∪ dom (int_tensors h).
Proof.
  intros Hh ratio l1 l2 l3 h' Hrun.
  destruct (cat_feature_cache_cached id2idx partition_idx feat_pdata feat_pb h
              cf f cv iv pb Hh) as (k1 & k2 & k3 & Hk1 & Hk2 & Hk3 & Hk23 & Hm).
  destruct (merge_values partition_idx cf f cv iv pb)
    as [[[[r nf] n2i] npb]|e].
  - rewrite Hm in Hrun. injection Hrun as <- <- <- <- <-.
    split_and!; try done.
    + split; simpl; intros l v Hl.
      * rewrite !lookup_insert_ne; [done|..];
          intros ->; [apply Hk2|apply Hk3]; apply elem_of_dom; eauto.
      * rewrite lookup_insert_ne; [done|].
        intros ->; apply Hk1; apply elem_of_dom; eauto.
    + simpl. by rewrite dom_insert_L.
    + simpl. rewrite !dom_insert_L. apply set_eq. intros x.
      rewrite !elem_of_union, !elem_of_singleton. tauto.
  - destruct Hm as (h'' & Hm & _). rewrite Hm in Hrun. done.
Qed.

Lemma merge_allocates_fresh_objects_witness :
  ∃ ratio new_feats nid2idx new_feat_pb h',
    cat_feature_cache scenario_id2idx 0 scenario_partition 3%positive
      scenario_store
    = (Ok (ratio, new_feats, nid2idx, new_feat_pb), h') ∧
    unchanged scenario_store h' ∧ nid2idx ≠ new_feat_pb.
Proof.
  assert (holds scenario_store scenario_partition 3%positive
            [[5; 5; 5; 5]] [[10; 10; 10; 10]; [11; 11; 11; 11]] [5] [10; 11]
            [1; 1; 1; 1; 1; 1; 1; 1; 1; 1; 0; 0]) as Hh.
  { split; simpl; try done; eexists; split; done. }
  destruct (cat_feature_cache scenario_id2idx 0 scenario_partition 3%positive
              scenario_store)
    as [[[[[ratio l1] l2] l3]|e] h'] eqn:Hrun; [|by vm_compute in Hrun].
  destruct (merge_allocates_fresh_objects scenario_id2idx 0 scenario_partition
              3%positive scenario_store _ _ _ _ _ Hh ratio l1 l2 l3 h' Hrun)
    as (_ & _ & _ & Hne & Hun & _).
  by exists ratio, l1, l2, l3, h'.
Defined.

(** * Further properties of [DistDataset.__init__] *)

Lemma dataset_init_run {Graph Feature Labels : Type}
    (num_partitions partition_idx : Z) (graph : option Graph)
    (node_features edge_features : option Feature)
    (labels : option Labels)
    (node_pb : option (DistDataset.Books NodeType))
    (edge_pb : option (DistDataset.Books EdgeType))
    (node_feat_pb : option (DistDataset.Books NodeType))
    (edge_feat_pb : option (DistDataset.Books EdgeType)) :
  DistDataset.__init__ num_partitions partition_idx graph node_features
    edge_features labels node_pb edge_pb node_feat_pb edge_feat_pb
  = if bool_decide ((is_Some graph → is_Some node_pb) ∧
                    (is_Some node_features →
                     is_Some node_pb ∨ is_Some node_feat_pb) ∧
                    (is_Some edge_features →
                     is_Some edge_pb ∨ is_Some edge_feat_pb))
    then Ok {| DistDataset.num_partitions := num_partitions;
               DistDataset.partition_idx := partition_idx;
               DistDataset.graph := graph;
               DistDataset.node_features := node_features;
               DistDataset.edge_features := edge_features;
               DistDataset.node_labels := labels;
               DistDataset.node_pb := node_pb;
               DistDataset.edge_pb := edge_pb;
               DistDataset._node_feat_pb := node_feat_pb;
               DistDataset._edge_feat_pb := edge_feat_pb |}
    else (Raise AssertionError
          : result (DistDataset.t Graph Feature Labels)).
Proof.
  unfold DistDataset.__init__.
  by destruct graph, node_features, edge_features, node_pb, edge_pb,
    node_feat_pb, edge_feat_pb.
Qed.

(** X12. Which datasets [DistDataset.__init__] builds: it returns exactly
    when a graph comes with a node partition book, node features come with
    a node partition book or a node feature book, and edge features come
    with an edge partition book or an edge feature book; otherwise it
    raises [AssertionError]. So in a dataset that was built, the
    [node_feat_pb] ([edge_feat_pb]) property of a dataset with node (edge)
    features is never [None]. *)
Theorem dataset_with_features_has_a_feature_book {Graph Feature Labels : Type}
    (num_partitions partition_idx : Z) (graph : option Graph)
    (node_features edge_features : option Feature)
    (labels : option Labels)
    (node_pb : option (DistDataset.Books NodeType))
    (edge_pb : option (DistDataset.Books EdgeType))
    (node_feat_pb : option (DistDataset.Books NodeType))
    (edge_feat_pb : option (DistDataset.Books EdgeType)) :
  let run : result (DistDataset.t Graph Feature Labels) :=
    DistDataset.__init__ num_partitions partition_idx graph node_features
      edge_features labels node_pb edge_pb node_feat_pb edge_feat_pb in
  ((∃ ds, run = Ok ds) ↔
   (is_Some graph → is_Some node_pb) ∧
   (is_Some node_features → is_Some node_pb ∨ is_Some node_feat_pb) ∧
   (is_Some edge_features → is_Some edge_pb ∨ is_Some edge_feat_pb)) ∧
  ((∀ ds, run ≠ Ok ds) → run = Raise AssertionError) ∧
  (∀ ds, run = Ok ds →
     (is_Some (DistDataset.node_features ds) →
      is_Some (DistDataset.node_feat_pb ds)) ∧
     (is_Some (DistDataset.edge_features ds) →
      is_Some (DistDataset.edge_feat_pb ds))).
Proof.
  intros run. subst run. rewrite dataset_init_run.
  case_bool_decide as Hc.
  - split_and!; [split; eauto|by intros H; destruct (H _ eq_refl)|].
    intros ds [= <-]. destruct Hc as (_ & Hn & He).
    unfold DistDataset.node_feat_pb, DistDataset.edge_feat_pb. simpl.
    split.
    + intros H. destruct node_feat_pb; [by eauto|].
      by destruct (Hn H) as [?|[? ?]].
    + intros H. destruct edge_feat_pb; [by eauto|].
      by destruct (He H) as [?|[? ?]].
  - split_and!; [split; [by intros [? ?]|done]|done|done].
Qed.

(** * Paths *)

Lemma chars_app (a b : string) : chars (a +:+ b) = chars a ++ chars b.
Proof.
  induction a as [|c a IH]; [done|].
  change (c :: chars (a +:+ b) = c :: (chars a ++ chars b)). by rewrite IH.
Qed.

Lemma chars_inj (a b : string) : chars a = chars b → a = b.
Proof.
  intros H. rewrite <-(string_of_list_ascii_of_string a),
    <-(string_of_list_ascii_of_string b). by rewrite H.
Qed.

Lemma chars_nil (s : string) : chars s = [] ↔ s = "".
Proof. destruct s; simpl; split; intros; by simplify_eq. Qed.

Lemma string_app_nil_r (s : string) : s +:+ "" = s.
Proof. apply chars_inj. by rewrite chars_app, app_nil_r. Qed.

Lemma string_app_assoc (a b c : string) : (a +:+ b) +:+ c = a +:+ (b +:+ c).
Proof. apply chars_inj. by rewrite !chars_app, app_assoc. Qed.

Lemma string_app_nil (a b : string) : a +:+ b = "" → a = "" ∧ b = "".
Proof.
  intros H. apply (f_equal chars) in H. rewrite chars_app in H.
  apply app_eq_nil in H as [?%chars_nil ?%chars_nil]. done.
Qed.

Lemma starts_with_sep_no_sep (s : string) : no_sep s → starts_with_sep s = false.
Proof.
  unfold no_sep. destruct s as [|c s]; simpl; [done|]. intros H.
  apply bool_decide_eq_false_2. intros ->. apply H. left.
Qed.

Lemma ends_with_sep_no_sep (s : string) : no_sep s → ends_with_sep s = false.
Proof.
  unfold no_sep, ends_with_sep. intros H.
  destruct (reverse (chars s)) as [|c r] eqn:Hr; [done|].
  apply bool_decide_eq_false_2. intros ->. apply H.
  apply elem_of_reverse. rewrite Hr. left.
Qed.

Lemma ends_with_sep_app (a b : string) :
  b ≠ "" → ends_with_sep (a +:+ b) = ends_with_sep b.
Proof.
  intros Hb. unfold ends_with_sep. rewrite chars_app, reverse_app.
  destruct (reverse (chars b)) as [|c r] eqn:Hr; [|done].
  destruct Hb. apply chars_nil.
  by rewrite <-(reverse_involutive (chars b)), Hr.
Qed.

Lemma no_sep_app (a b : string) : no_sep a → no_sep b → no_sep (a +:+ b).
Proof.
  unfold no_sep. rewrite chars_app, elem_of_app. tauto.
Qed.

(** The characters of a formatted integer: digits, after a minus sign for
    a negative one. *)
Lemma pretty_N_char_digit (x : N) : pretty_N_char x ∈ chars "0123456789".
Proof.
  unfold pretty_N_char.
  repeat case_match; simpl; repeat first [ by left | right ].
Qed.

Lemma pretty_N_go_chars (x : N) : ∀ (s : string) (c : ascii),
  c ∈ chars (pretty_N_go x s) → c ∈ chars s ∨ c ∈ chars "0123456789".
Proof.
  induction (N.lt_wf_0 x) as [x _ IH]. intros s c Hc.
  destruct (decide (x = 0)%N) as [->|Hx].
  - rewrite pretty_N_go_0 in Hc. by left.
  - rewrite pretty_N_go_step in Hc by lia.
    apply IH in Hc; [|apply N.div_lt; lia].
    destruct Hc as [Hc|Hc]; [|by right].
    change (c ∈ pretty_N_char (x `mod` 10) :: chars s) in Hc.
    apply elem_of_cons in Hc as [->|Hc]; [right|by left].
    apply pretty_N_char_digit.
Qed.

Lemma str_of_int_no_sep (n : Z) : no_sep (str_of_int n).
Proof.
  assert (∀ x : N, "/"%char ∉ chars (pretty x)) as HN.
  { intros x. unfold pretty, pretty_N. case_decide.
    - simpl. by intros [=]%list_elem_of_singleton.
    - intros [Hc|Hc]%pretty_N_go_chars.
      + simpl in Hc. by apply elem_of_nil in Hc.
      + simpl in Hc. repeat (apply elem_of_cons in Hc as [[=]|Hc]).
        by apply elem_of_nil in Hc. }
  unfold no_sep, str_of_int, pretty, pretty_Z. destruct n as [|p|p].
  - simpl. by intros [=]%list_elem_of_singleton.
  - apply HN.
  - rewrite chars_app. simpl. intros [[=]|Hc]%elem_of_cons. by apply HN in Hc.
Qed.

Lemma str_of_int_inj (m n : Z) : str_of_int m = str_of_int n → m = n.
Proof. apply pretty_Z_inj. Qed.

(** Two paths that start with separator-free names agree on the names. *)
Lemma no_sep_app_inj (a b : list ascii) (x y : list ascii) :
  "/"%char ∉ a → "/"%char ∉ b →
  a ++ "/"%char :: x = b ++ "/"%char :: y → a = b ∧ x = y.
Proof.
  revert b. induction a as [|c a IH]; intros [|c' b] Ha Hb H; simplify_eq/=.
  - done.
  - destruct Hb. left.
  - destruct Ha. left.
  - apply not_elem_of_cons in Ha as [_ Ha]. apply not_elem_of_cons in Hb as [_ Hb].
    destruct (IH b Ha Hb) as [-> ->]; done.
Qed.

(** ** [os.path.join] *)

Lemma path_join_rel (a b : string) :
  starts_with_sep b = false → path_join a b = path_join a "" +:+ b.
Proof.
  intros Hb. unfold path_join. rewrite Hb. simpl.
  destruct (bool_decide (a = "") || ends_with_sep a).
  - by rewrite string_app_nil_r.
  - by rewrite string_app_assoc.
Qed.

Lemma path_join_sub (a b : string) :
  a ≠ "" → ends_with_sep a = false → starts_with_sep b = false →
  path_join a b = a +:+ "/" +:+ b.
Proof.
  intros Ha He Hb. unfold path_join. rewrite Hb, He.
  by rewrite bool_decide_eq_false_2.
Qed.

Lemma path_join_nonempty (a b : string) : a ≠ "" ∨ b ≠ "" → path_join a b ≠ "".
Proof.
  unfold path_join. intros Hab.
  destruct (starts_with_sep b) eqn:Hs.
  - by destruct b.
  - destruct (bool_decide (a = "") || ends_with_sep a);
      intros H; apply string_app_nil in H as [Ha Hb]; [|done].
    by destruct Hab.
Qed.

(** The spelling of a directory path as a prefix of the paths below it. *)
Lemma path_join_empty (a : string) :
  path_join a "" = if bool_decide (a = "") || ends_with_sep a then a
                   else a +:+ "/".
Proof.
  unfold path_join. simpl.
  destruct (bool_decide (a = "") || ends_with_sep a).
  - apply string_app_nil_r.
  - done.
Qed.

Lemma path_join_empty_idem (a : string) :
  path_join (path_join a "") "" = path_join a "".
Proof.
  rewrite (path_join_empty a).
  destruct (bool_decide (a = "") || ends_with_sep a) eqn:Ha.
  - by rewrite path_join_empty, Ha.
  - rewrite path_join_empty, ends_with_sep_app by done.
    change (ends_with_sep "/") with true. by rewrite orb_true_r.
Qed.

Lemma below_iff (p q : string) :
  below p q ↔ ∃ rest, q = path_join p "" +:+ rest.
Proof.
  unfold below. split.
  - intros [r Hr]. exists (string_of_list_ascii r). apply chars_inj.
    by rewrite chars_app, list_ascii_of_string_of_list_ascii.
  - intros [rest ->]. rewrite chars_app. by eexists.
Qed.

(** ** [os.path.exists] and [os.path.dirname] *)

Section Disk.

Context {Row : Type}.
Implicit Types d : Partition.disk Row.

Lemma path_exists_spec d (p : string) :
  Partition.path_exists d p = true ↔
  p ≠ "" ∧ ∃ q, q ∈ Partition.entries d ∧ (q = p ∨ below p q).
Proof.
  unfold Partition.path_exists. rewrite andb_true_iff, !bool_decide_eq_true.
  unfold set_Exists. done.
Qed.

Lemma path_exists_false d (p : string) :
  (∀ q, q ∈ Partition.entries d → q ≠ p ∧ ¬ below p q) →
  Partition.path_exists d p = false.
Proof.
  intros H. apply not_true_is_false. rewrite path_exists_spec.
  intros (_ & q & Hq & Hqp). destruct (H q Hq). tauto.
Qed.

Lemma path_exists_entry d (p : string) :
  p ≠ "" → p ∈ Partition.entries d → Partition.path_exists d p = true.
Proof. intros Hp Hin. apply path_exists_spec. eauto. Qed.

Lemma path_exists_above d (p rest : string) :
  p ≠ "" → path_join p "" +:+ rest ∈ Partition.entries d →
  Partition.path_exists d p = true.
Proof.
  intros Hp Hin. apply path_exists_spec. split; [done|].
  eexists. split; [done|]. right. apply below_iff. eauto.
Qed.

Lemma path_exists_mono d d' (p : string) :
  Partition.entries d ⊆ Partition.entries d' →
  Partition.path_exists d p = true → Partition.path_exists d' p = true.
Proof.
  rewrite !path_exists_spec. intros Hsub (Hp & q & Hq & Hqp).
  split; [done|]. exists q. split; [by apply Hsub|done].
Qed.

End Disk.

Lemma strip_name_app (r x : list ascii) :
  "/"%char ∉ r → strip_name (r ++ x) = strip_name x.
Proof.
  induction r as [|c r IH]; intros Hr; [done|]. simpl.
  apply not_elem_of_cons in Hr as [Hc Hr].
  rewrite decide_False by done. by apply IH.
Qed.

Lemma strip_seps_spec (r : list ascii) :
  ∃ n, r = replicate n "/"%char ++ strip_seps r ∧
       match strip_seps r with c :: _ => c ≠ "/"%char | [] => True end.
Proof.
  induction r as [|c r (n & Hn & Hc)]; simpl.
  - by exists 0%nat.
  - case_decide as Hsep.
    + subst c. exists (S n). split; [|done]. simpl. by rewrite <-Hn.
    + by exists 0%nat.
Qed.

(** The directory of a file created in [dir] under a separator-free name:
    nothing when [dir] is empty, and otherwise [dir] itself or a spelling
    of [dir] without the separators at its end. *)
Lemma dirname_join (dir name : string) :
  no_sep name →
  let dn := dirname (path_join dir name) in
  (dir = "" ∧ dn = "") ∨
  (dir ≠ "" ∧ dn = dir) ∨
  (dn ≠ "" ∧ ends_with_sep dn = false ∧ ends_with_sep dir = true ∧
   ∃ rest, dir = (dn +:+ "/") +:+ rest).
Proof.
  intros Hname dn. subst dn.
  assert ("/"%char ∉ reverse (chars name)) as Hrev.
  { by rewrite elem_of_reverse. }
  unfold dirname, path_join.
  rewrite (starts_with_sep_no_sep name Hname).
  destruct (decide (dir = "")) as [->|Hdir].
  { left. split; [done|]. simpl.
    change ("" +:+ name) with name.
    rewrite <-(app_nil_r (reverse (chars name))).
    rewrite strip_name_app by done. done. }
  right. rewrite bool_decide_eq_false_2 by done. simpl.
  unfold ends_with_sep.
  destruct (reverse (chars dir)) as [|c r] eqn:Hr.
  { destruct Hdir. apply chars_nil.
    by rewrite <-(reverse_involutive (chars dir)), Hr. }
  assert (chars dir = reverse (c :: r)) as Hchars.
  { by rewrite <-Hr, reverse_involutive. }
  case_bool_decide as Hc.
  - subst c. rewrite chars_app, reverse_app, Hr.
    rewrite strip_name_app by done. simpl strip_name.
    destruct (strip_seps_spec ("/"%char :: r)) as (n & Hn & Hs).
    destruct (strip_seps ("/"%char :: r)) as [|c s] eqn:Hstrip.
    + left. split; [done|]. rewrite <-Hchars. apply string_of_list_ascii_of_string.
    + right.
      assert (string_of_list_ascii (reverse (c :: s)) ≠ "") as Hne.
      { intros H. apply (f_equal chars) in H.
        rewrite list_ascii_of_string_of_list_ascii in H. simpl in H.
        rewrite reverse_cons in H. by destruct (reverse s). }
      split; [done|].
      assert (ends_with_sep (string_of_list_ascii (reverse (c :: s))) = false)
        as He.
      { unfold ends_with_sep.
        rewrite list_ascii_of_string_of_list_ascii, reverse_involutive.
        by apply bool_decide_eq_false_2. }
      split; [done|]. split; [done|].
      destruct n as [|n]; [simpl in Hn; by simplify_eq|].
      exists (string_of_list_ascii (replicate n "/"%char)).
      apply chars_inj. rewrite !chars_app, !list_ascii_of_string_of_list_ascii.
      rewrite Hchars, Hn. rewrite reverse_app.
      rewrite reverse_replicate. simpl.
      rewrite <-app_assoc. by f_equal.
  - left. split; [done|].
    rewrite !chars_app, !reverse_app, Hr. simpl chars.
    rewrite <-app_assoc. rewrite strip_name_app by done.
    simpl. rewrite decide_False by done.
    rewrite <-Hchars. apply string_of_list_ascii_of_string.
Qed.

(** * Writers and readers *)

Ltac solve_no_sep := unfold no_sep; simpl; compute_done.

Lemma path_join_inj_r (a b c : string) :
  starts_with_sep b = false → starts_with_sep c = false →
  path_join a b = path_join a c → b = c.
Proof.
  intros Hb Hc. rewrite (path_join_rel a b), (path_join_rel a c) by done.
  apply String.app_inj.
Qed.

Lemma path_join_lit (dir name : string) :
  no_sep name → path_join dir name = path_join dir "" +:+ name.
Proof. intros H. apply path_join_rel. by apply starts_with_sep_no_sep. Qed.

Lemma path_join_lit_sep (dir name : string) :
  no_sep name → name ≠ "" →
  path_join (path_join dir name) "" = path_join dir "" +:+ name +:+ "/".
Proof.
  intros Hn Hne. rewrite (path_join_lit dir name) by done.
  rewrite path_join_empty, ends_with_sep_app by done.
  rewrite (ends_with_sep_no_sep name), orb_false_r by done.
  rewrite bool_decide_eq_false_2; [by rewrite string_app_assoc|].
  by intros [_ ?]%string_app_nil.
Qed.

Lemma path_join_lit_nonempty (dir name : string) :
  name ≠ "" → path_join dir name ≠ "".
Proof. intros. apply path_join_nonempty. by right. Qed.

Lemma dir_not_inside (dir x : string) : dir = path_join dir "" +:+ x → x = "".
Proof.
  rewrite path_join_empty.
  destruct (bool_decide (dir = "") || ends_with_sep dir); intros H.
  - rewrite <-(string_app_nil_r dir) in H at 1. by apply String.app_inj in H.
  - rewrite <-(string_app_nil_r dir) in H at 1.
    rewrite string_app_assoc in H. by apply String.app_inj in H.
Qed.

Lemma no_sep_without_sep (a b c : string) : no_sep a → a ≠ b +:+ "/" +:+ c.
Proof.
  unfold no_sep. intros Ha ->. apply Ha. rewrite !chars_app.
  apply elem_of_app. right. left.
Qed.

(** A file of a directory is not the directory, and neither the directory
    nor another file of it lies below the file. *)
Lemma file_not_dir (dir name : string) :
  no_sep name → name ≠ "" → path_join dir name ≠ dir.
Proof.
  intros Hn Hne H. rewrite path_join_lit in H by done.
  symmetry in H. by apply dir_not_inside in H.
Qed.

Lemma dir_not_below_file (dir name : string) :
  no_sep name → name ≠ "" → ¬ below (path_join dir name) dir.
Proof.
  intros Hn Hne [rest H]%below_iff. rewrite path_join_lit_sep in H by done.
  rewrite !string_app_assoc in H. apply dir_not_inside in H.
  by apply string_app_nil in H as [? _].
Qed.

Lemma file_not_below_file (dir name name' : string) :
  no_sep name → name ≠ "" → no_sep name' →
  ¬ below (path_join dir name) (path_join dir name').
Proof.
  intros Hn Hne Hn' [rest H]%below_iff.
  rewrite path_join_lit_sep, (path_join_lit dir name') in H by done.
  rewrite !string_app_assoc in H. apply String.app_inj in H.
  by eapply no_sep_without_sep.
Qed.

Lemma file_neq_file (dir name name' : string) :
  no_sep name → no_sep name' → name ≠ name' →
  path_join dir name ≠ path_join dir name'.
Proof.
  intros Hn Hn' Hne H. apply Hne. eapply path_join_inj_r; [| |done];
    by apply starts_with_sep_no_sep.
Qed.

Section Files.

Context {Row : Type}.
Implicit Types d : Partition.disk Row.

Lemma io_bind_Done {A B} (m : Partition.IO Row A) (k : A → Partition.IO Row B)
    d a d' :
  m d = (Done a, d') → (m ≫= k) d = k a d'.
Proof. unfold mbind, Partition.IO_bind. by intros ->. Qed.

Lemma io_bind_Failed {A B} (m : Partition.IO Row A)
    (k : A → Partition.IO Row B) d e d' :
  m d = (Failed e, d') → (m ≫= k) d = (Failed e, d').
Proof. unfold mbind, Partition.IO_bind. by intros ->. Qed.

Lemma io_bind_assoc {A B C} (m : Partition.IO Row A)
    (f : A → Partition.IO Row B) (k : B → Partition.IO Row C) d :
  ((m ≫= f) ≫= k) d = (m ≫= λ a, f a ≫= k) d.
Proof. unfold mbind, Partition.IO_bind. by destruct (m d) as [[a|e] d']. Qed.

Lemma io_bind_lift_Ok {A B} (a : A) (k : A → Partition.IO Row B) d :
  (Partition.io_lift (Ok a) ≫= k) d = k a d.
Proof. done. Qed.

Lemma io_bind_ret {A B} (a : A) (k : A → Partition.IO Row B) d :
  (mret a ≫= k) d = k a d.
Proof. done. Qed.

Lemma io_bind_ensure_dir {B} (p : string) (k : unit → Partition.IO Row B) d :
  Partition.blocked d p = false →
  (Partition.io_ensure_dir p ≫= k) d
  = k tt {| Partition.dirs := {[p]} ∪ Partition.dirs d;
            Partition.files := Partition.files d |}.
Proof.
  intros H. unfold mbind, Partition.IO_bind, Partition.io_ensure_dir.
  by rewrite H.
Qed.

Lemma io_bind_ensure_dir_fails {B} (p : string)
    (k : unit → Partition.IO Row B) d :
  Partition.blocked d p = true →
  (Partition.io_ensure_dir p ≫= k) d = (Failed OSError, d).
Proof.
  intros H. unfold mbind, Partition.IO_bind, Partition.io_ensure_dir.
  by rewrite H.
Qed.

Lemma io_bind_exists {B} (p : string) (k : bool → Partition.IO Row B) d :
  (Partition.os_path_exists p ≫= k) d = k (Partition.path_exists d p) d.
Proof. done. Qed.

(** ** Directories, regular files and what can be written *)

Lemma elem_of_entries d (q : string) :
  q ∈ Partition.entries d ↔
  q ∈ Partition.dirs d ∨ is_Some (Partition.files d !! q).
Proof.
  unfold Partition.entries. by rewrite elem_of_union, elem_of_dom.
Qed.

Lemma below_trans (a b c : string) : below a b → below b c → below a c.
Proof.
  intros [r1 ->]%below_iff [r2 ->]%below_iff. apply below_iff.
  rewrite (path_join_empty (_ +:+ r1)).
  destruct (bool_decide _ || ends_with_sep _).
  - exists (r1 +:+ r2). by rewrite !string_app_assoc.
  - exists (r1 +:+ "/" +:+ r2). by rewrite !string_app_assoc.
Qed.

Lemma below_join (dir name : string) :
  no_sep name → below dir (path_join dir name).
Proof. intros Hn. apply below_iff. exists name. by apply path_join_lit. Qed.

Lemma is_root_spec (p : string) :
  Partition.is_root p = true ↔ p ≠ "" ∧ Forall (λ c, c = "/"%char) (chars p).
Proof.
  unfold Partition.is_root.
  rewrite andb_true_iff, negb_true_iff, bool_decide_eq_false.
  assert (forallb (λ c, bool_decide (c = "/"%char)) (chars p) = true ↔
          Forall (λ c, c = "/"%char) (chars p)) as ->; [|done].
  induction (chars p) as [|c l IH]; simpl.
  - split; [by constructor|done].
  - by rewrite andb_true_iff, bool_decide_eq_true, Forall_cons, IH.
Qed.

Lemma is_root_ends_with_sep (p : string) :
  Partition.is_root p = true → ends_with_sep p = true.
Proof.
  intros [Hne Hall]%is_root_spec. unfold ends_with_sep.
  destruct (reverse (chars p)) as [|c r] eqn:Hr.
  - destruct Hne. apply chars_nil.
    by rewrite <-(reverse_involutive (chars p)), Hr.
  - apply bool_decide_eq_true_2.
    eapply (proj1 (Forall_forall _ _) Hall).
    rewrite <-(reverse_involutive (chars p)), Hr, reverse_cons.
    apply elem_of_app. right. by apply list_elem_of_singleton.
Qed.

Lemma is_root_named (p : string) :
  ends_with_sep p = false → Partition.is_root p = false.
Proof.
  intros He. apply not_true_is_false. intros H%is_root_ends_with_sep.
  congruence.
Qed.

(** What the root lies below is the root. *)
Lemma is_root_above (p q : string) :
  p ≠ "" → below p q → Partition.is_root q = true → Partition.is_root p = true.
Proof.
  intros Hne [rest ->]%below_iff [_ Hall]%is_root_spec.
  apply is_root_spec. split; [done|].
  rewrite chars_app, Forall_app in Hall. destruct Hall as [Hall _].
  rewrite path_join_empty in Hall.
  destruct (bool_decide (p = "") || ends_with_sep p); [done|].
  rewrite chars_app, Forall_app in Hall. by destruct Hall.
Qed.

Lemma is_dir_spec d (p : string) :
  Partition.is_dir d p = true ↔
  Partition.is_root p = true ∨ p ∈ Partition.dirs d ∨
  ∃ q, q ∈ Partition.entries d ∧ below p q.
Proof.
  unfold Partition.is_dir.
  rewrite !orb_true_iff, !bool_decide_eq_true. unfold set_Exists. tauto.
Qed.

Lemma is_dir_false d (p : string) :
  Partition.is_root p = false → p ∉ Partition.dirs d →
  (∀ q, q ∈ Partition.entries d → ¬ below p q) →
  Partition.is_dir d p = false.
Proof.
  intros Hr Hp Hq. apply not_true_is_false. rewrite is_dir_spec.
  intros [?|[?|(q & Hin & Hb)]]; [congruence|done|]. by apply (Hq q).
Qed.

Lemma is_dir_mono d d' (p : string) :
  Partition.dirs d ⊆ Partition.dirs d' →
  Partition.entries d ⊆ Partition.entries d' →
  Partition.is_dir d p = true → Partition.is_dir d' p = true.
Proof.
  rewrite !is_dir_spec. intros Hd He [Hr|[Hp|(q & Hq & Hb)]].
  - by left.
  - right. left. by apply Hd.
  - right. right. exists q. split; [by apply He|done].
Qed.

(** What a directory lies below is a directory. *)
Lemma is_dir_above d (p q : string) :
  p ≠ "" → below p q → Partition.is_dir d q = true →
  Partition.is_dir d p = true.
Proof.
  intros Hne Hb. rewrite !is_dir_spec. intros [Hr|[Hq|(q' & Hq' & Hb')]].
  - left. by eapply is_root_above.
  - right. right. exists q. split; [|done]. apply elem_of_entries. by left.
  - right. right. exists q'. split; [done|]. by eapply below_trans.
Qed.

Lemma is_file_spec d (f : string) :
  Partition.is_file d f = true ↔
  f ∈ dom (Partition.files d) ∧ Partition.is_dir d f = false.
Proof.
  unfold Partition.is_file.
  by rewrite andb_true_iff, bool_decide_eq_true, negb_true_iff.
Qed.

Lemma under_file_spec d (p : string) :
  Partition.under_file d p = true ↔
  ∃ f, Partition.is_file d f = true ∧ below f p.
Proof.
  unfold Partition.under_file. rewrite bool_decide_eq_true.
  unfold set_Exists. split.
  - intros (f & _ & Hf & Hb). eauto.
  - intros (f & Hf & Hb). exists f. split; [|done].
    by apply is_file_spec in Hf as [? _].
Qed.

Lemma under_file_false d (p : string) :
  (∀ f, Partition.is_file d f = true → ¬ below f p) →
  Partition.under_file d p = false.
Proof.
  intros H. apply not_true_is_false. rewrite under_file_spec.
  intros (f & Hf & Hb). by apply (H f).
Qed.

(** A path spelled as a directory, with a separator at its end or empty,
    lies below itself; no regular file is spelled so. *)
Lemma is_file_spelling d (f : string) :
  Partition.is_file d f = true → path_join f "" = f +:+ "/".
Proof.
  intros [Hin Hf]%is_file_spec. rewrite path_join_empty.
  destruct (bool_decide (f = "") || ends_with_sep f) eqn:Hfe; [|done].
  apply not_true_iff_false in Hf. destruct Hf. apply is_dir_spec.
  right. right.
  exists f. split; [apply elem_of_entries; right; by apply elem_of_dom|].
  apply below_iff. exists "".
  by rewrite path_join_empty, Hfe, string_app_nil_r.
Qed.

(** A directory is not blocked. *)
Lemma is_dir_not_blocked d (p : string) :
  Partition.is_dir d p = true → Partition.blocked d p = false.
Proof.
  intros Hp. unfold Partition.blocked. apply orb_false_iff. split.
  - apply not_true_is_false. rewrite is_file_spec. intros [_ ?]. congruence.
  - apply under_file_false. intros f Hf Hb.
    pose proof (is_file_spelling _ _ Hf) as Hsp.
    apply is_file_spec in Hf as [_ Hf].
    apply not_true_iff_false in Hf. apply Hf.
    eapply is_dir_above; [|done..].
    intros ->. by rewrite path_join_empty in Hsp.
Qed.

(** The working directory is not blocked. *)
Lemma blocked_empty d : Partition.blocked d "" = false.
Proof.
  unfold Partition.blocked. apply orb_false_iff. split.
  - apply not_true_is_false. by intros ?%is_file_spelling.
  - apply under_file_false. intros f Hf%is_file_spelling [rest Hb]%below_iff.
    rewrite Hf in Hb. symmetry in Hb.
    apply string_app_nil in Hb as [Hb _].
    by apply string_app_nil in Hb as [_ ?].
Qed.

Lemma prefix_before_sep (F P N : list ascii) :
  "/"%char ∉ N → F ++ ["/"%char] `prefix_of` P ++ N →
  F ++ ["/"%char] `prefix_of` P.
Proof.
  intros HN Hb.
  destruct (prefix_weak_total (F ++ ["/"%char]) P (P ++ N) Hb)
    as [?|[r Hr]]; [by apply prefix_app_r|done|].
  destruct (decide (r = [])) as [->|Hne].
  { rewrite app_nil_r in Hr. by rewrite Hr. }
  destruct Hb as [k Hk]. rewrite Hr, <-app_assoc in Hk.
  apply app_inv_head in Hk.
  destruct (exists_last Hne) as (r' & x & ->).
  rewrite app_assoc in Hr. apply app_inj_tail in Hr as [_ <-].
  destruct HN. rewrite Hk, !elem_of_app, list_elem_of_singleton. tauto.
Qed.

Lemma prefix_snoc_cases (F D : list ascii) (c : ascii) :
  F `prefix_of` D ++ [c] → F `prefix_of` D ∨ F = D ++ [c].
Proof.
  intros [k Hk]. destruct (decide (k = [])) as [->|Hne].
  { right. by rewrite app_nil_r in Hk. }
  left. destruct (exists_last Hne) as (k' & x & ->).
  rewrite app_assoc in Hk. apply app_inj_tail in Hk as [-> _]. by exists k'.
Qed.

(** The regular files on the way to a file of a directory are those at
    the directory and on the way to it. *)
Lemma under_file_join d (dir name : string) :
  no_sep name →
  Partition.under_file d (path_join dir name) = Partition.blocked d dir.
Proof.
  intros Hname. apply eq_true_iff_eq. unfold Partition.blocked.
  rewrite orb_true_iff, !under_file_spec. split.
  - intros (f & Hf & Hb).
    destruct (decide (f = dir)) as [->|Hfd]; [by left|]. right.
    exists f. split; [done|].
    pose proof (is_file_spelling _ _ Hf) as Hsp.
    unfold below in *. rewrite Hsp in *.
    rewrite path_join_lit, !chars_app in Hb by done.
    apply prefix_before_sep in Hb; [|done].
    rewrite path_join_empty in Hb.
    destruct (bool_decide (dir = "") || ends_with_sep dir); [by rewrite chars_app|].
    rewrite chars_app in Hb. apply prefix_snoc_cases in Hb as [Hb|Hb].
    + by rewrite chars_app.
    + apply app_inj_tail in Hb as [Hb _]. by apply chars_inj in Hb.
  - intros [Hf|(f & Hf & Hb)].
    + exists dir. split; [done|]. by apply below_join.
    + exists f. split; [done|]. eapply below_trans; [done|].
      by apply below_join.
Qed.

Lemma parent_is_dir_join d (dir name : string) :
  dir = "" ∨ Partition.is_dir d dir = true →
  no_sep name →
  Partition.parent_is_dir d (path_join dir name) = true.
Proof.
  intros Hdir Hname. unfold Partition.parent_is_dir.
  pose proof (dirname_join dir name Hname) as H. simpl in H.
  revert H. generalize (dirname (path_join dir name)). intros dn H.
  destruct H as [[_ ->] | [[Hne ->] | (Hne & He & _ & rest & Hrest)]].
  - done.
  - destruct Hdir as [? | ->]; [done|]. apply orb_true_r.
  - apply orb_true_iff. right.
    destruct Hdir as [->|Hex].
    { symmetry in Hrest. apply string_app_nil in Hrest as [H _].
      by apply string_app_nil in H as [_ ?]. }
    assert (below dn dir) as Hbelow.
    { apply below_iff. exists rest.
      by rewrite path_join_empty, He, bool_decide_eq_false_2. }
    by eapply is_dir_above.
Qed.

(** A file can be written into a directory under a name unless a
    directory lies at its path. *)
Lemma can_write_in_dir d (dir name : string) :
  dir = "" ∨ Partition.is_dir d dir = true →
  no_sep name → name ≠ "" →
  Partition.can_write d (path_join dir name)
  = negb (Partition.is_dir d (path_join dir name)).
Proof.
  intros Hdir Hname Hne. unfold Partition.can_write.
  rewrite (bool_decide_eq_false_2 (path_join dir name = ""))
    by (by apply path_join_lit_nonempty).
  assert (ends_with_sep (path_join dir name) = false) as ->.
  { rewrite path_join_lit, ends_with_sep_app by done.
    by apply ends_with_sep_no_sep. }
  rewrite under_file_join, parent_is_dir_join by done.
  destruct Hdir as [->|Hdir].
  - rewrite blocked_empty. simpl. by rewrite !andb_true_r.
  - rewrite is_dir_not_blocked by done. simpl. by rewrite !andb_true_r.
Qed.

Lemma write_file_run (obj : Partition.file Row) (path : string) d :
  Partition.can_write d path = true →
  Partition.write_file obj path d
  = (Done tt, {| Partition.dirs := Partition.dirs d;
                 Partition.files := <[path:=obj]> (Partition.files d) |}).
Proof. unfold Partition.write_file. by intros ->. Qed.

Lemma write_file_fails (obj : Partition.file Row) (path : string) d :
  Partition.can_write d path = false →
  Partition.write_file obj path d = (Failed OSError, d).
Proof. unfold Partition.write_file. by intros ->. Qed.

Lemma io_bind_write {B} (obj : Partition.file Row) (path : string)
    (k : unit → Partition.IO Row B) d :
  Partition.can_write d path = true →
  (Partition.write_file obj path ≫= k) d
  = k tt {| Partition.dirs := Partition.dirs d;
            Partition.files := <[path:=obj]> (Partition.files d) |}.
Proof. intros H. by rewrite (io_bind_Done _ _ _ _ _ (write_file_run _ _ _ H)). Qed.

Lemma io_bind_write_fails {B} (obj : Partition.file Row) (path : string)
    (k : unit → Partition.IO Row B) d :
  Partition.can_write d path = false →
  (Partition.write_file obj path ≫= k) d = (Failed OSError, d).
Proof.
  intros H. by rewrite (io_bind_Failed _ _ _ _ _ (write_file_fails _ _ _ H)).
Qed.

Lemma io_bind_read {B} (path : string) (obj : Partition.file Row)
    (k : Partition.file Row → Partition.IO Row B) d :
  Partition.files d !! path = Some obj →
  (Partition.read_file path ≫= k) d = k obj d.
Proof.
  intros H. unfold mbind, Partition.IO_bind, Partition.read_file. by rewrite H.
Qed.

Lemma io_bind_read_int {B} (path : string) (t : tensor)
    (k : tensor → Partition.IO Row B) d :
  Partition.files d !! path = Some (Partition.IntFile t) →
  ((Partition.read_file path ≫= Partition.as_int) ≫= k) d = k t d.
Proof.
  intros H. unfold mbind, Partition.IO_bind, Partition.read_file. by rewrite H.
Qed.

Lemma io_bind_read_feat {B} (path : string) (f : list Row)
    (k : list Row → Partition.IO Row B) d :
  Partition.files d !! path = Some (Partition.FeatFile f) →
  ((Partition.read_file path ≫= Partition.as_feat) ≫= k) d = k f d.
Proof.
  intros H. unfold mbind, Partition.IO_bind, Partition.read_file. by rewrite H.
Qed.

Lemma io_bind_read_meta {B} (path : string) (m : Meta)
    (k : Meta → Partition.IO Row B) d :
  Partition.files d !! path = Some (Partition.MetaFile m) →
  ((Partition.read_file path ≫= Partition.as_meta) ≫= k) d = k m d.
Proof.
  intros H. unfold mbind, Partition.IO_bind, Partition.read_file. by rewrite H.
Qed.

Lemma io_bind_read_missing {A B} (path : string)
    (f : Partition.file Row → Partition.IO Row A)
    (k : A → Partition.IO Row B) d :
  Partition.files d !! path = None →
  ((Partition.read_file path ≫= f) ≫= k) d = (Failed OSError, d).
Proof.
  intros H. unfold mbind, Partition.IO_bind, Partition.read_file. by rewrite H.
Qed.

(** ** [save_graph_partition] and [_load_graph_partition_data] *)

Lemma graph_files_lookup (dir : string) (g : GraphPartitionData) :
  graph_files (Row:=Row) dir g !! path_join dir "rows.pt"
    = Some (Partition.IntFile (edge_index g).1) ∧
  graph_files (Row:=Row) dir g !! path_join dir "cols.pt"
    = Some (Partition.IntFile (edge_index g).2) ∧
  graph_files (Row:=Row) dir g !! path_join dir "eids.pt"
    = Some (Partition.IntFile (eids g)).
Proof.
  unfold graph_files. split_and!.
  - rewrite !lookup_insert_ne by (apply file_neq_file; solve_no_sep || done).
    by rewrite lookup_insert_eq.
  - rewrite lookup_insert_ne by (apply file_neq_file; solve_no_sep || done).
    by rewrite lookup_insert_eq.
  - by rewrite lookup_insert_eq.
Qed.

Lemma graph_files_dom (dir : string) (g : GraphPartitionData) (p : string) :
  is_Some (graph_files (Row:=Row) dir g !! p) ↔
  p ∈ [path_join dir "rows.pt"; path_join dir "cols.pt";
       path_join dir "eids.pt"].
Proof.
  unfold graph_files. rewrite !lookup_insert_is_Some', lookup_empty.
  rewrite !elem_of_cons, elem_of_nil, <-not_eq_None_Some.
  intuition congruence.
Qed.

Lemma load_graph_partition_run (dir : string) (g : GraphPartitionData) d :
  Partition.path_exists d dir = true →
  Partition.files d !! path_join dir "rows.pt"
    = Some (Partition.IntFile (edge_index g).1) →
  Partition.files d !! path_join dir "cols.pt"
    = Some (Partition.IntFile (edge_index g).2) →
  Partition.files d !! path_join dir "eids.pt"
    = Some (Partition.IntFile (eids g)) →
  Partition._load_graph_partition_data dir d = (Done (Some g), d).
Proof.
  intros He Hr Hc Hi. unfold Partition._load_graph_partition_data.
  rewrite io_bind_exists, He. cbn [negb].
  rewrite (io_bind_read_int _ _ _ _ Hr). cbv beta.
  rewrite (io_bind_read_int _ _ _ _ Hc). cbv beta.
  rewrite (io_bind_read_int _ _ _ _ Hi). cbv beta.
  by destruct g as [[rows cols] eids].
Qed.

Lemma load_graph_partition_absent (dir : string) d :
  Partition.path_exists d dir = false →
  Partition._load_graph_partition_data dir d = (Done None, d).
Proof.
  intros He. unfold Partition._load_graph_partition_data.
  by rewrite io_bind_exists, He.
Qed.

Implicit Types p : Val.FeaturePartitionData Row.

Lemma feature_files_lookup (dir : string) p :
  feature_files dir p !! path_join dir "feats.pt"
    = Some (Partition.FeatFile (Val.feats p)) ∧
  feature_files dir p !! path_join dir "ids.pt"
    = Some (Partition.IntFile (Val.ids p)) ∧
  feature_files dir p !! path_join dir "cache_feats.pt"
    = Partition.FeatFile <$> Val.cache_feats p ∧
  feature_files dir p !! path_join dir "cache_ids.pt"
    = match Val.cache_feats p with
      | Some _ => Some (Partition.optional_int_file (Val.cache_ids p))
      | None => None
      end.
Proof.
  unfold feature_files.
  destruct (Val.cache_feats p) as [cf|]; simpl; split_and!;
    rewrite ?lookup_insert_eq; try done;
    rewrite ?lookup_insert_ne by (apply file_neq_file; solve_no_sep || done);
    rewrite ?lookup_insert_eq; try done.
Qed.

Lemma feature_files_dom (dir : string) p (q : string) :
  is_Some (feature_files dir p !! q) ↔
  q = path_join dir "feats.pt" ∨ q = path_join dir "ids.pt" ∨
  (is_Some (Val.cache_feats p) ∧
   (q = path_join dir "cache_feats.pt" ∨ q = path_join dir "cache_ids.pt")).
Proof.
  unfold feature_files. destruct (Val.cache_feats p) as [cf|];
    rewrite !lookup_insert_is_Some', lookup_empty, <-not_eq_None_Some.
  - assert (is_Some (Some cf)) by eauto. intuition congruence.
  - assert (¬ is_Some (@None (list Row))) by (by intros [? ?]).
    intuition congruence.
Qed.

Lemma io_bind_read_optional_feat {B} (path : string) (f : option (list Row))
    (k : option (list Row) → Partition.IO Row B) d :
  Partition.files d !! path = Partition.FeatFile <$> f → is_Some f →
  ((Partition.read_file path ≫= Partition.as_optional_feat) ≫= k) d = k f d.
Proof.
  intros H [x ->]. unfold mbind, Partition.IO_bind, Partition.read_file.
  by rewrite H.
Qed.

Lemma io_bind_read_optional_int {B} (path : string) (t : option tensor)
    (k : option tensor → Partition.IO Row B) d :
  Partition.files d !! path = Some (Partition.optional_int_file t) →
  ((Partition.read_file path ≫= Partition.as_optional_int) ≫= k) d = k t d.
Proof.
  intros H. unfold mbind, Partition.IO_bind, Partition.read_file.
  rewrite H. by destruct t.
Qed.

Lemma load_feature_partition_absent (dir : string) d :
  Partition.path_exists d dir = false →
  Partition._load_feature_partition_data dir d = (Done None, d).
Proof.
  intros He. unfold Partition._load_feature_partition_data.
  by rewrite io_bind_exists, He.
Qed.

Lemma load_feature_partition_cached (dir : string)
    (f : list Row) (i : tensor) (cf : list Row) (ci : option tensor) d :
  Partition.path_exists d dir = true →
  Partition.files d !! path_join dir "feats.pt" = Some (Partition.FeatFile f) →
  Partition.files d !! path_join dir "ids.pt" = Some (Partition.IntFile i) →
  Partition.files d !! path_join dir "cache_feats.pt"
    = Some (Partition.FeatFile cf) →
  Partition.files d !! path_join dir "cache_ids.pt"
    = Some (Partition.optional_int_file ci) →
  Partition._load_feature_partition_data dir d
  = (Done (Some {| Val.feats := f; Val.ids := i;
                   Val.cache_feats := Some cf; Val.cache_ids := ci |}), d).
Proof.
  intros He Hf Hi Hcf Hci. unfold Partition._load_feature_partition_data.
  rewrite io_bind_exists, He. cbn [negb].
  rewrite (io_bind_read_feat _ _ _ _ Hf). cbv beta.
  rewrite (io_bind_read_int _ _ _ _ Hi). cbv beta.
  rewrite !io_bind_exists.
  rewrite !path_exists_entry;
    [|by apply path_join_lit_nonempty|apply elem_of_entries; eauto
     |by apply path_join_lit_nonempty|apply elem_of_entries; eauto].
  cbn [andb].
  unfold mbind at 1. unfold Partition.IO_bind at 1.
  rewrite (io_bind_read_optional_feat _ (Some cf)) by (simpl; eauto).
  rewrite (io_bind_read_optional_int _ ci) by done.
  done.
Qed.

Lemma load_feature_partition_plain (dir : string)
    (f : list Row) (i : tensor) d :
  Partition.path_exists d dir = true →
  Partition.files d !! path_join dir "feats.pt" = Some (Partition.FeatFile f) →
  Partition.files d !! path_join dir "ids.pt" = Some (Partition.IntFile i) →
  Partition.path_exists d (path_join dir "cache_feats.pt") = false ∨
  Partition.path_exists d (path_join dir "cache_ids.pt") = false →
  Partition._load_feature_partition_data dir d
  = (Done (Some {| Val.feats := f; Val.ids := i;
                   Val.cache_feats := None; Val.cache_ids := None |}), d).
Proof.
  intros He Hf Hi Hc. unfold Partition._load_feature_partition_data.
  rewrite io_bind_exists, He. cbn [negb].
  rewrite (io_bind_read_feat _ _ _ _ Hf). cbv beta.
  rewrite (io_bind_read_int _ _ _ _ Hi). cbv beta.
  rewrite !io_bind_exists.
  destruct Hc as [-> | ->]; [done|]. by rewrite andb_false_r.
Qed.

(** Creating directory [dir] with files under separator-free names does
    not make a path of [dir] exist that names none of the files. *)
Lemma path_exists_after_save (dir name : string)
    (W : gmap string (Partition.file Row)) d :
  no_sep name → name ≠ "" →
  (∀ q, is_Some (W !! q) →
     ∃ name', q = path_join dir name' ∧ no_sep name' ∧ name' ≠ name) →
  Partition.path_exists d (path_join dir name) = false →
  Partition.path_exists
    {| Partition.dirs := {[dir]} ∪ Partition.dirs d;
       Partition.files := W ∪ Partition.files d |} (path_join dir name)
  = false.
Proof.
  intros Hn Hne HW Hex. apply path_exists_false. intros q Hq.
  apply elem_of_entries in Hq. simpl in Hq.
  rewrite elem_of_union, elem_of_singleton, lookup_union_is_Some in Hq.
  assert (q ∈ Partition.entries d → q ≠ path_join dir name ∧
          ¬ below (path_join dir name) q) as Hold.
  { intros Hin. split.
    - intros ->. rewrite path_exists_entry in Hex; [done| |done].
      by apply path_join_lit_nonempty.
    - intros Hb. apply not_true_iff_false in Hex. apply Hex.
      apply path_exists_spec. split; [by apply path_join_lit_nonempty|].
      eauto. }
  destruct Hq as [[-> | Hq] | [Hq | Hq]].
  - split; [apply not_eq_sym; by apply file_not_dir|].
    by apply dir_not_below_file.
  - apply Hold. apply elem_of_entries. by left.
  - destruct (HW q Hq) as (name' & -> & Hn' & Hne').
    split; [by apply file_neq_file|]. by apply file_not_below_file.
  - apply Hold. apply elem_of_entries. by right.
Qed.

(** Creating a directory, or writing a file into it, puts no directory
    at the path of a file of that directory. *)
Lemma is_dir_add_dir (D : filesystem) (F : gmap string (Partition.file Row))
    (dir name : string) :
  no_sep name → name ≠ "" →
  Partition.is_dir {| Partition.dirs := {[dir]} ∪ D; Partition.files := F |}
    (path_join dir name)
  = Partition.is_dir {| Partition.dirs := D; Partition.files := F |}
      (path_join dir name).
Proof.
  intros Hn Hne. apply eq_true_iff_eq. rewrite !is_dir_spec. simpl.
  setoid_rewrite elem_of_entries. simpl.
  rewrite elem_of_union, elem_of_singleton. split.
  - intros [?|[[H|H]|(q & [[->%elem_of_singleton|Hq]%elem_of_union|Hq] & Hb)]].
    + by left.
    + by apply file_not_dir in H.
    + right. by left.
    + by apply dir_not_below_file in Hb.
    + right. right. exists q. split; [by left|done].
    + right. right. exists q. split; [by right|done].
  - intros [?|[H|(q & [Hq|Hq] & Hb)]].
    + by left.
    + right. left. by right.
    + right. right. exists q. split; [left; by apply elem_of_union_r|done].
    + right. right. exists q. split; [by right|done].
Qed.

Lemma is_dir_add_file (D : filesystem) (F : gmap string (Partition.file Row))
    (obj : Partition.file Row) (dir name name' : string) :
  no_sep name → name ≠ "" → no_sep name' →
  Partition.is_dir
    {| Partition.dirs := D;
       Partition.files := <[path_join dir name' := obj]> F |}
    (path_join dir name)
  = Partition.is_dir {| Partition.dirs := D; Partition.files := F |}
      (path_join dir name).
Proof.
  intros Hn Hne Hn'. apply eq_true_iff_eq. rewrite !is_dir_spec. simpl.
  setoid_rewrite elem_of_entries. simpl. split.
  - intros [?|[H|(q & [Hq|Hq] & Hb)]].
    + by left.
    + right. by left.
    + right. right. exists q. split; [by left|done].
    + apply lookup_insert_is_Some in Hq as [<-|[_ Hq]].
      * by apply file_not_below_file in Hb.
      * right. right. exists q. split; [by right|done].
  - intros [?|[H|(q & [Hq|Hq] & Hb)]].
    + by left.
    + right. by left.
    + right. right. exists q. split; [by left|done].
    + right. right. exists q. split; [|done]. right.
      apply lookup_insert_is_Some'. by right.
Qed.

Lemma is_dir_created (D : filesystem) (F : gmap string (Partition.file Row))
    (dir : string) :
  Partition.is_dir {| Partition.dirs := {[dir]} ∪ D; Partition.files := F |}
    dir = true.
Proof.
  apply is_dir_spec. right. left. simpl. apply elem_of_union_l.
  by apply elem_of_singleton.
Qed.

Lemma is_dir_in d (dir : string) :
  dir ∈ Partition.dirs d → Partition.is_dir d dir = true.
Proof. intros H. apply is_dir_spec. right. by left. Qed.

Lemma disk_eta d :
  {| Partition.dirs := Partition.dirs d; Partition.files := Partition.files d |}
  = d.
Proof. by destruct d. Qed.

(** A write into a directory of the disk. *)
Lemma io_bind_write_in {B} (obj : Partition.file Row) (dir name : string)
    (k : unit → Partition.IO Row B) d :
  Partition.is_dir d dir = true → no_sep name → name ≠ "" →
  Partition.is_dir d (path_join dir name) = false →
  (Partition.write_file obj (path_join dir name) ≫= k) d
  = k tt {| Partition.dirs := Partition.dirs d;
            Partition.files :=
              <[path_join dir name := obj]> (Partition.files d) |}.
Proof.
  intros Hd Hn Hne Hf. apply io_bind_write.
  rewrite can_write_in_dir by (done || by right). by rewrite Hf.
Qed.

Lemma io_bind_write_dir {B} (obj : Partition.file Row) (dir name : string)
    (k : unit → Partition.IO Row B) d :
  Partition.is_dir d dir = true → no_sep name → name ≠ "" →
  Partition.is_dir d (path_join dir name) = true →
  (Partition.write_file obj (path_join dir name) ≫= k) d = (Failed OSError, d).
Proof.
  intros Hd Hn Hne Hf. apply io_bind_write_fails.
  rewrite can_write_in_dir by (done || by right). by rewrite Hf.
Qed.

Lemma write_file_in (obj : Partition.file Row) (dir name : string) d :
  Partition.is_dir d dir = true → no_sep name → name ≠ "" →
  Partition.is_dir d (path_join dir name) = false →
  Partition.write_file obj (path_join dir name) d
  = (Done tt, {| Partition.dirs := Partition.dirs d;
                 Partition.files :=
                   <[path_join dir name := obj]> (Partition.files d) |}).
Proof.
  intros Hd Hn Hne Hf. apply write_file_run.
  rewrite can_write_in_dir by (done || by right). by rewrite Hf.
Qed.

Lemma write_file_dir (obj : Partition.file Row) (dir name : string) d :
  Partition.is_dir d dir = true → no_sep name → name ≠ "" →
  Partition.is_dir d (path_join dir name) = true →
  Partition.write_file obj (path_join dir name) d = (Failed OSError, d).
Proof.
  intros Hd Hn Hne Hf. apply write_file_fails.
  rewrite can_write_in_dir by (done || by right). by rewrite Hf.
Qed.

End Files.
Ltac not_dir :=
  rewrite ?is_dir_add_file, ?is_dir_add_dir, ?disk_eta
    by first [assumption|solve_no_sep|done];
  assumption.

Ltac in_dir :=
  lazymatch goal with
  | |- Partition.is_dir _ _ = _ => first [apply is_dir_created|not_dir]
  | |- no_sep _ => first [assumption|solve_no_sep]
  | |- _ ≠ _ => first [assumption|done]
  end.

Section Writers.

Context {Row : Type}.
Context (as_str : NodeType + EdgeType → string).
Implicit Types d : Partition.disk Row.
Implicit Types p : Val.FeaturePartitionData Row.

Lemma group_dir_nonempty (output_dir : string) (k : Z) (group : string)
    (graph_type : option (NodeType + EdgeType)) :
  group_dir as_str output_dir k group graph_type ≠ "".
Proof.
  assert (part_dir output_dir k ≠ "") as Hp.
  { by apply path_join_lit_nonempty. }
  unfold group_dir.
  destruct graph_type; simpl; [apply path_join_nonempty; left|];
    apply path_join_nonempty; left; exact Hp.
Qed.

Lemma graph_dir_nonempty (output_dir : string) (k : Z)
    (etype : option EdgeType) :
  graph_dir as_str output_dir k etype ≠ "".
Proof.
  assert (part_dir output_dir k ≠ "") as Hp.
  { by apply path_join_lit_nonempty. }
  unfold graph_dir, group_dir.
  destruct etype; simpl; [apply path_join_nonempty; left|];
    apply path_join_nonempty; left; exact Hp.
Qed.

Lemma save_graph_partition_unfold (output_dir : string) (k : Z)
    (g : GraphPartitionData) (etype : option EdgeType) :
  let subdir := graph_dir as_str output_dir k etype in
  Partition.save_graph_partition (Row:=Row) as_str output_dir k g etype
  = (_ ← Partition.io_ensure_dir subdir;
     _ ← Partition.write_file (Partition.IntFile (edge_index g).1)
           (path_join subdir "rows.pt");
     _ ← Partition.write_file (Partition.IntFile (edge_index g).2)
           (path_join subdir "cols.pt");
     Partition.write_file (Partition.IntFile (eids g))
       (path_join subdir "eids.pt")).
Proof. by destruct etype. Qed.

Lemma can_save_true d (subdir : string) (names : list string) :
  Partition.can_save d subdir names = true ↔
  Partition.blocked d subdir = false ∧
  Forall (λ name, Partition.is_dir d (path_join subdir name) = false) names.
Proof.
  unfold Partition.can_save. rewrite andb_true_iff, negb_true_iff.
  assert (forallb (λ name, negb (Partition.is_dir d (path_join subdir name)))
            names = true ↔
          Forall (λ name, Partition.is_dir d (path_join subdir name) = false)
            names) as ->; [|done].
  induction names as [|name names IH]; simpl.
  - split; [by constructor|done].
  - by rewrite andb_true_iff, negb_true_iff, Forall_cons, IH.
Qed.

Lemma save_graph_partition_run (output_dir : string) (k : Z)
    (g : GraphPartitionData) (etype : option EdgeType) d :
  let subdir := graph_dir as_str output_dir k etype in
  Partition.can_save d subdir ["rows.pt"; "cols.pt"; "eids.pt"] = true →
  Partition.save_graph_partition as_str output_dir k g etype d
  = (Done tt,
     {| Partition.dirs := {[subdir]} ∪ Partition.dirs d;
        Partition.files := graph_files subdir g ∪ Partition.files d |}).
Proof.
  intros subdir [Hb Hn]%can_save_true.
  revert Hn. rewrite !Forall_cons. intros (H1 & H2 & H3 & _).
  rewrite save_graph_partition_unfold. fold subdir.
  rewrite io_bind_ensure_dir by done.
  rewrite io_bind_write_in by in_dir. simpl.
  rewrite io_bind_write_in by in_dir. simpl.
  rewrite write_file_in by in_dir.
  simpl. unfold graph_files.
  by rewrite <-!insert_union_l, (left_id_L ∅ (∪)).
Qed.

Lemma save_graph_partition_fails (output_dir : string) (k : Z)
    (g : GraphPartitionData) (etype : option EdgeType) d :
  let subdir := graph_dir as_str output_dir k etype in
  Partition.can_save d subdir ["rows.pt"; "cols.pt"; "eids.pt"] = false →
  (Partition.save_graph_partition as_str output_dir k g etype d).1
  = Failed OSError.
Proof.
  intros subdir Hs. rewrite save_graph_partition_unfold. fold subdir.
  unfold Partition.can_save in Hs. simpl in Hs.
  destruct (Partition.blocked d subdir) eqn:Hb.
  { by rewrite io_bind_ensure_dir_fails. }
  rewrite io_bind_ensure_dir by done.
  destruct (Partition.is_dir d (path_join subdir "rows.pt")) eqn:H1.
  { by rewrite io_bind_write_dir by in_dir. }
  rewrite io_bind_write_in by in_dir. simpl.
  destruct (Partition.is_dir d (path_join subdir "cols.pt")) eqn:H2.
  { by rewrite io_bind_write_dir by in_dir. }
  rewrite io_bind_write_in by in_dir. simpl.
  destruct (Partition.is_dir d (path_join subdir "eids.pt")) eqn:H3.
  { by rewrite write_file_dir by in_dir. }
  done.
Qed.

Lemma save_feature_partition_unfold (output_dir : string) (k : Z) p
    (group : string) (graph_type : option (NodeType + EdgeType)) :
  let subdir := group_dir as_str output_dir k group graph_type in
  Partition.save_feature_partition as_str output_dir k p group graph_type
  = (_ ← Partition.io_ensure_dir subdir;
     _ ← Partition.write_file (Partition.FeatFile (Val.feats p))
           (path_join subdir "feats.pt");
     _ ← Partition.write_file (Partition.IntFile (Val.ids p))
           (path_join subdir "ids.pt");
     match Val.cache_feats p with
     | Some cache_feats =>
         _ ← Partition.write_file (Partition.FeatFile cache_feats)
               (path_join subdir "cache_feats.pt");
         Partition.write_file (Partition.optional_int_file (Val.cache_ids p))
           (path_join subdir "cache_ids.pt")
     | None => mret tt
     end).
Proof. by destruct graph_type. Qed.

(** The names of the files of a feature partition in its directory. *)
Lemma feature_file_names_cases p :
  feature_file_names p
  = match Val.cache_feats p with
    | Some _ => ["feats.pt"; "ids.pt"; "cache_feats.pt"; "cache_ids.pt"]
    | None => ["feats.pt"; "ids.pt"]
    end.
Proof. unfold feature_file_names. by destruct (Val.cache_feats p). Qed.

Lemma save_feature_partition_run (output_dir : string) (k : Z) p
    (group : string) (graph_type : option (NodeType + EdgeType)) d :
  let subdir := group_dir as_str output_dir k group graph_type in
  Partition.can_save d subdir (feature_file_names p) = true →
  Partition.save_feature_partition as_str output_dir k p group graph_type d
  = (Done tt,
     {| Partition.dirs := {[subdir]} ∪ Partition.dirs d;
        Partition.files := feature_files subdir p ∪ Partition.files d |}).
Proof.
  intros subdir [Hb Hn]%can_save_true.
  rewrite save_feature_partition_unfold. fold subdir.
  rewrite feature_file_names_cases in Hn. unfold feature_files.
  rewrite io_bind_ensure_dir by done.
  destruct (Val.cache_feats p) as [cf|]; revert Hn; rewrite !Forall_cons.
  - intros (H1 & H2 & H3 & H4 & _).
    rewrite io_bind_write_in by in_dir. simpl.
    rewrite io_bind_write_in by in_dir. simpl.
    rewrite io_bind_write_in by in_dir. simpl.
    rewrite write_file_in by in_dir. simpl.
    by rewrite <-!insert_union_l, (left_id_L ∅ (∪)).
  - intros (H1 & H2 & _).
    rewrite io_bind_write_in by in_dir. simpl.
    rewrite io_bind_write_in by in_dir. simpl.
    by rewrite <-!insert_union_l, (left_id_L ∅ (∪)).
Qed.

Lemma save_feature_partition_fails (output_dir : string) (k : Z) p
    (group : string) (graph_type : option (NodeType + EdgeType)) d :
  let subdir := group_dir as_str output_dir k group graph_type in
  Partition.can_save d subdir (feature_file_names p) = false →
  (Partition.save_feature_partition as_str output_dir k p group graph_type
     d).1 = Failed OSError.
Proof.
  intros subdir Hs. rewrite save_feature_partition_unfold. fold subdir.
  rewrite feature_file_names_cases in Hs.
  unfold Partition.can_save in Hs.
  destruct (Partition.blocked d subdir) eqn:Hb.
  { by rewrite io_bind_ensure_dir_fails. }
  rewrite io_bind_ensure_dir by done.
  destruct (Partition.is_dir d (path_join subdir "feats.pt")) eqn:H1.
  { by rewrite io_bind_write_dir by in_dir. }
  rewrite io_bind_write_in by in_dir. simpl.
  destruct (Partition.is_dir d (path_join subdir "ids.pt")) eqn:H2.
  { by rewrite io_bind_write_dir by in_dir. }
  rewrite io_bind_write_in by in_dir. simpl.
  destruct (Val.cache_feats p) as [cf|]; simpl in Hs;
    rewrite ?H1, ?H2 in Hs; simpl in Hs; [|done].
  destruct (Partition.is_dir d (path_join subdir "cache_feats.pt")) eqn:H3.
  { by rewrite io_bind_write_dir by in_dir. }
  rewrite io_bind_write_in by in_dir. simpl.
  destruct (Partition.is_dir d (path_join subdir "cache_ids.pt")) eqn:H4.
  { by rewrite write_file_dir by in_dir. }
  done.
Qed.

End Writers.

(** X13. A graph partition that is saved is the one that is loaded,
    whenever the save returns. For every disk, output directory, partition
    index, graph partition and edge type, [save_graph_partition] returns
    when no regular file lies at the directory it writes to or on the way
    to it and no directory lies at the path of [rows.pt], [cols.pt] or
    [eids.pt] in it, and raises [OSError] otherwise. When it returns,
    [_load_graph_partition_data] on that directory returns the rows, cols
    and eids that were saved; the writer has created that directory and
    has changed no file but those three. *)
Theorem graph_partition_round_trip {Row} (as_str : NodeType + EdgeType → string)
    (output_dir : string) (k : Z) (g : GraphPartitionData)
    (etype : option EdgeType) (d : Partition.disk Row) :
  let subdir := graph_dir as_str output_dir k etype in
  let run := Partition.save_graph_partition as_str output_dir k g etype d in
  let free :=
    Partition.can_save d subdir ["rows.pt"; "cols.pt"; "eids.pt"] in
  run.1 = (if free then Done tt else Failed OSError) ∧
  (free = true →
   Partition._load_graph_partition_data subdir run.2
     = (Done (Some g), run.2) ∧
   Partition.dirs run.2 = {[subdir]} ∪ Partition.dirs d ∧
   ∀ p, p ∉ [path_join subdir "rows.pt"; path_join subdir "cols.pt";
             path_join subdir "eids.pt"] →
        Partition.files run.2 !! p = Partition.files d !! p).
Proof.
  intros subdir run free. subst run free.
  destruct (Partition.can_save d subdir _) eqn:Hfree.
  2: { split; [|done]. by apply save_graph_partition_fails. }
  rewrite save_graph_partition_run by done. fold subdir.
  simpl. destruct (graph_files_lookup (Row:=Row) subdir g) as (Hr & Hc & Hi).
  split; [done|]. intros _. split_and!; [|done|].
  - apply load_graph_partition_run; simpl.
    + apply path_exists_entry; [apply graph_dir_nonempty|].
      apply elem_of_entries. left. simpl. apply elem_of_union_l.
      by apply elem_of_singleton.
    + by apply lookup_union_Some_l.
    + by apply lookup_union_Some_l.
    + by apply lookup_union_Some_l.
  - intros p Hp. apply lookup_union_r.
    apply eq_None_not_Some. by rewrite graph_files_dom.
Qed.

Lemma graph_partition_round_trip_witness :
  let as_str (ty : NodeType + EdgeType) : string :=
    match ty with inl n => n | inr (s, r, t) => s +:+ "__" +:+ r +:+ "__" +:+ t end in
  let g := {| edge_index := ([0; 1], [1; 2]); eids := [0; 1] |} in
  let d : Partition.disk (list Z) :=
    {| Partition.dirs := {["out"]}; Partition.files := ∅ |} in
  let run := Partition.save_graph_partition as_str "out" 0 g None d in
  run.1 = Done tt ∧
  Partition._load_graph_partition_data "out/part0/graph" run.2
  = (Done (Some g), run.2).
Proof.
  intros as_str g d run.
  destruct (graph_partition_round_trip as_str "out" 0 g None d) as [H1 H2].
  assert (Partition.can_save d (graph_dir as_str "out" 0 None)
            ["rows.pt"; "cols.pt"; "eids.pt"] = true) as Hfree.
  { vm_compute. reflexivity. }
  rewrite Hfree in H1. destruct (H2 Hfree) as [Hload _].
  split; [exact H1|exact Hload].
Defined.

(** X14. A feature partition that is saved is the one that is loaded,
    whenever the save returns, with two provisos. For every disk,
    [save_feature_partition] returns when no regular file lies at the
    directory it writes to or on the way to it and no directory lies at
    the path of one of the files it writes ([feats.pt], [ids.pt] and, for
    a partition with cache rows, [cache_feats.pt] and [cache_ids.pt]),
    and raises [OSError] otherwise. When it returns and the partition has
    cache rows, [_load_feature_partition_data] on the directory written
    returns the partition as it was saved. When it returns and the
    partition has none, the cache ids are not saved either, so what is
    loaded has neither, and this only if the directory did not already
    hold both a [cache_feats.pt] and a [cache_ids.pt]. *)
Theorem feature_partition_round_trip {Row}
    (as_str : NodeType + EdgeType → string)
    (output_dir : string) (k : Z) (p : Val.FeaturePartitionData Row)
    (group : string) (graph_type : option (NodeType + EdgeType))
    (d : Partition.disk Row) :
  let subdir := group_dir as_str output_dir k group graph_type in
  let run :=
    Partition.save_feature_partition as_str output_dir k p group graph_type d in
  let free := Partition.can_save d subdir (feature_file_names p) in
  run.1 = (if free then Done tt else Failed OSError) ∧
  (free = true → is_Some (Val.cache_feats p) →
   Partition._load_feature_partition_data subdir run.2
   = (Done (Some p), run.2)) ∧
  (free = true → Val.cache_feats p = None →
   Partition.path_exists d (path_join subdir "cache_feats.pt") = false ∨
   Partition.path_exists d (path_join subdir "cache_ids.pt") = false →
   Partition._load_feature_partition_data subdir run.2
   = (Done (Some {| Val.feats := Val.feats p; Val.ids := Val.ids p;
                    Val.cache_feats := None; Val.cache_ids := None |}),
      run.2)).
Proof.
  intros subdir run free. subst run free.
  destruct (Partition.can_save d subdir _) eqn:Hfree.
  2: { split_and!; [|done..]. by apply save_feature_partition_fails. }
  rewrite save_feature_partition_run by done.
  fold subdir. simpl.
  destruct (feature_files_lookup subdir p) as (Hf & Hi & Hcf & Hci).
  assert (Partition.path_exists
            {| Partition.dirs := {[subdir]} ∪ Partition.dirs d;
               Partition.files := feature_files subdir p ∪ Partition.files d |}
            subdir = true) as Hdir.
  { apply path_exists_entry; [apply group_dir_nonempty|].
    apply elem_of_entries. left. simpl. apply elem_of_union_l.
    by apply elem_of_singleton. }
  split_and!; [done| |].
  - intros _ [cf Hcache]. rewrite Hcache in Hcf, Hci. simpl in Hcf.
    destruct p as [f i cf' ci]. simpl in *. subst cf'.
    apply load_feature_partition_cached; simpl;
      [done|by apply lookup_union_Some_l..].
  - intros _ Hcache Hstale.
    assert (∀ q, is_Some (feature_files subdir p !! q) →
      ∃ name', q = path_join subdir name' ∧ no_sep name' ∧
               name' ≠ "cache_feats.pt" ∧ name' ≠ "cache_ids.pt") as HW.
    { intros q [-> | [-> | [[? Hc] _]]]%feature_files_dom.
      - exists "feats.pt". split_and!; [done|solve_no_sep|done|done].
      - exists "ids.pt". split_and!; [done|solve_no_sep|done|done].
      - by rewrite Hcache in Hc. }
    apply load_feature_partition_plain; simpl;
      [done|by apply lookup_union_Some_l..|].
    destruct Hstale as [Hs | Hs]; [left | right];
      (apply path_exists_after_save; [solve_no_sep|done| |done]);
      intros q Hq; destruct (HW q Hq) as (n' & ? & ? & ? & ?); eauto.
Qed.

Lemma feature_partition_round_trip_witness :
  let as_str (ty : NodeType + EdgeType) : string :=
    match ty with inl n => n | inr (s, r, t) => s +:+ "__" +:+ r +:+ "__" +:+ t end in
  let p : Val.FeaturePartitionData (list Z) :=
    {| Val.feats := [[0]; [10]]; Val.ids := [0; 1];
       Val.cache_feats := Some [[30]]; Val.cache_ids := Some [3] |} in
  let d : Partition.disk (list Z) :=
    {| Partition.dirs := {["out"]}; Partition.files := ∅ |} in
  let run := Partition.save_feature_partition as_str "out" 0 p "node_feat"
               None d in
  run.1 = Done tt ∧
  Partition._load_feature_partition_data "out/part0/node_feat" run.2
  = (Done (Some p), run.2).
Proof.
  intros as_str p d run.
  destruct (feature_partition_round_trip as_str "out" 0 p "node_feat" None d)
    as (H1 & H2 & _).
  assert (Partition.can_save d (group_dir as_str "out" 0 "node_feat" None)
            (feature_file_names p) = true) as Hfree.
  { vm_compute. reflexivity. }
  rewrite Hfree in H1.
  split; [exact H1|]. apply (H2 Hfree). exists [[30]]. reflexivity.
Defined.

(** X15. [save_feature_partition] never removes cache files: when a
    partition with cache rows was saved to a directory, the save having
    returned, and a partition without cache rows is saved to the same
    directory afterwards, the second save returns as well, and loading
    returns the rows and ids of the second partition together with the
    cache rows and cache ids of the first. *)
Theorem stale_cache_is_loaded {Row} (as_str : NodeType + EdgeType → string)
    (output_dir : string) (k : Z) (p1 p2 : Val.FeaturePartitionData Row)
    (group : string) (graph_type : option (NodeType + EdgeType))
    (d : Partition.disk Row) (cf : list Row) :
  Val.cache_feats p1 = Some cf →
  Val.cache_feats p2 = None →
  let subdir := group_dir as_str output_dir k group graph_type in
  let run1 :=
    Partition.save_feature_partition as_str output_dir k p1 group graph_type
      d in
  let run :=
    Partition.save_feature_partition as_str output_dir k p2 group graph_type
      run1.2 in
  run1.1 = Done tt →
  run.1 = Done tt ∧
  Partition._load_feature_partition_data subdir run.2
  = (Done (Some {| Val.feats := Val.feats p2; Val.ids := Val.ids p2;
                   Val.cache_feats := Some cf;
                   Val.cache_ids := Val.cache_ids p1 |}), run.2).
Proof.
  intros Hc1 Hc2 subdir run1 run Hret. subst run run1.
  destruct (Partition.can_save d subdir (feature_file_names p1)) eqn:Hfree.
  2: { by rewrite save_feature_partition_fails in Hret. }
  clear Hret. rewrite (save_feature_partition_run _ _ _ p1) by done.
  fold subdir. simpl.
  apply can_save_true in Hfree as [_ Hfree].
  rewrite feature_file_names_cases, Hc1 in Hfree.
  revert Hfree. rewrite !Forall_cons. intros (H1 & H2 & H3 & H4 & _).
  rewrite (save_feature_partition_run _ _ _ p2).
  2: { fold subdir. apply can_save_true. split.
       - apply is_dir_not_blocked, is_dir_created.
       - rewrite feature_file_names_cases, Hc2. unfold feature_files.
         rewrite Hc1, <-!insert_union_l, (left_id_L ∅ (∪)).
         repeat apply Forall_cons_2; [not_dir..|apply Forall_nil_2]. }
  fold subdir. simpl. split; [done|].
  destruct (feature_files_lookup subdir p1) as (_ & _ & Hcf1 & Hci1).
  destruct (feature_files_lookup subdir p2) as (Hf2 & Hi2 & Hcf2 & Hci2).
  rewrite Hc1 in Hcf1, Hci1. rewrite Hc2 in Hcf2, Hci2. simpl in *.
  apply load_feature_partition_cached; simpl.
  - apply path_exists_entry; [apply group_dir_nonempty|].
    apply elem_of_entries. left. simpl. apply elem_of_union_l.
    by apply elem_of_singleton.
  - by apply lookup_union_Some_l.
  - by apply lookup_union_Some_l.
  - rewrite lookup_union_r by done. by apply lookup_union_Some_l.
  - rewrite lookup_union_r by done. by apply lookup_union_Some_l.
Qed.

Lemma stale_cache_is_loaded_witness :
  let as_str (ty : NodeType + EdgeType) : string :=
    match ty with inl n => n | inr (s, r, t) => s +:+ "__" +:+ r +:+ "__" +:+ t end in
  let p1 : Val.FeaturePartitionData (list Z) :=
    {| Val.feats := [[0]; [10]]; Val.ids := [0; 1];
       Val.cache_feats := Some [[30]]; Val.cache_ids := Some [3] |} in
  let p2 : Val.FeaturePartitionData (list Z) :=
    {| Val.feats := [[0]; [20]]; Val.ids := [0; 2];
       Val.cache_feats := None; Val.cache_ids := None |} in
  let d : Partition.disk (list Z) :=
    {| Partition.dirs := {["out"]}; Partition.files := ∅ |} in
  let run1 :=
    Partition.save_feature_partition as_str "out" 0 p1 "node_feat" None d in
  let d2 :=
    (Partition.save_feature_partition as_str "out" 0 p2 "node_feat" None
       run1.2).2 in
  run1.1 = Done tt ∧
  (Partition._load_feature_partition_data "out/part0/node_feat" d2).1
  = Done (Some {| Val.feats := [[0]; [20]]; Val.ids := [0; 2];
                  Val.cache_feats := Some [[30]];
                  Val.cache_ids := Some [3] |}).
Proof.
  intros as_str p1 p2 d run1 d2.
  assert (run1.1 = Done tt) as Hret.
  { vm_compute. reflexivity. }
  split; [exact Hret|].
  destruct (stale_cache_is_loaded as_str "out" 0 p1 p2 "node_feat" None d
              [[30]] eq_refl eq_refl Hret) as [_ H].
  change (group_dir as_str "out" 0 "node_feat" None)
    with "out/part0/node_feat" in H.
  subst d2 run1. rewrite H. reflexivity.
Defined.

(** * Readers *)

Section ReadOnly.

Context {Row : Type}.

Lemma read_only_ret {A} (a : A) : read_only (Row:=Row) (mret a).
Proof. by intros d. Qed.

Lemma read_only_bind {A B} (m : Partition.IO Row A)
    (k : A → Partition.IO Row B) :
  read_only m → (∀ a, read_only (k a)) → read_only (m ≫= k).
Proof.
  intros Hm Hk d. unfold mbind, Partition.IO_bind.
  specialize (Hm d). destruct (m d) as [[a|e] d']; simpl in *; subst d'.
  - apply Hk.
  - done.
Qed.

Lemma read_only_lift {A} (r : result A) :
  read_only (Row:=Row) (Partition.io_lift r).
Proof. by intros d. Qed.

Lemma read_only_raise {A} (e : io_exn) :
  read_only (Row:=Row) (Partition.io_raise (A:=A) e).
Proof. by intros d. Qed.

Lemma read_only_exists (p : string) :
  read_only (Row:=Row) (Partition.os_path_exists p).
Proof. by intros d. Qed.

Lemma read_only_read (p : string) : read_only (Row:=Row) (Partition.read_file p).
Proof. by intros d. Qed.

Lemma read_only_iterable {A} (xs : option (list A)) :
  read_only (Row:=Row) (Partition.iterable xs).
Proof. by destruct xs. Qed.

Lemma read_only_for_each {A S} (body : S → A → Partition.IO Row S) (l : list A) :
  (∀ s x, read_only (body s x)) →
  ∀ s, read_only (Partition.io_for_each body s l).
Proof.
  intros Hbody. induction l as [|x l IH]; intros s; simpl.
  - apply read_only_ret.
  - apply read_only_bind; [apply Hbody|apply IH].
Qed.

End ReadOnly.

Ltac read_only_tac :=
  repeat first
    [ apply read_only_ret
    | apply read_only_lift
    | apply read_only_raise
    | apply read_only_exists
    | apply read_only_read
    | apply read_only_iterable
    | apply read_only_for_each; intros
    | apply read_only_bind; [|intros]
    | match goal with
      | |- read_only (Partition.as_int ?x) => destruct x
      | |- read_only (Partition.as_feat ?x) => destruct x
      | |- read_only (Partition.as_optional_int ?x) => destruct x
      | |- read_only (Partition.as_optional_feat ?x) => destruct x
      | |- read_only (Partition.as_meta ?x) => destruct x
      | |- read_only (if ?b then _ else _) => destruct b
      | |- read_only (let '(_, _) := ?x in _) => destruct x
      end ].

Lemma read_only_load_graph {Row} (dir : string) :
  read_only (Row:=Row) (Partition._load_graph_partition_data dir).
Proof. unfold Partition._load_graph_partition_data. read_only_tac. Qed.

Lemma read_only_load_feature {Row} (dir : string) :
  read_only (Row:=Row) (Partition._load_feature_partition_data dir).
Proof. unfold Partition._load_feature_partition_data. read_only_tac. Qed.

(** X16. Loading never writes: on every disk, for every root directory
    and partition index and on graphs of either kind, [load_partition]
    leaves every directory and every file as it found them, whether it
    returns or raises; so do [_load_graph_partition_data] and
    [_load_feature_partition_data]. *)
Theorem loading_never_writes {Row} (as_str : NodeType + EdgeType → string)
    (root_dir : string) (partition_idx : Z) (d : Partition.disk Row) :
  (Partition.load_partition as_str root_dir partition_idx d).2 = d ∧
  (Partition._load_graph_partition_data root_dir d).2 = d ∧
  (Partition._load_feature_partition_data root_dir d).2 = d.
Proof.
  split_and!; [|apply read_only_load_graph|apply read_only_load_feature].
  revert d. change (read_only (Partition.load_partition (Row:=Row) as_str
                                 root_dir partition_idx)).
  unfold Partition.load_partition.
  repeat first
    [ apply read_only_load_graph
    | apply read_only_load_feature
    | progress read_only_tac ].
Qed.

(** X17. What [load_partition] rejects: without a [META] file in the root
    directory it raises [OSError] ([FileNotFoundError]); with one, a
    negative partition index, an index that is not below the recorded
    number of partitions, and an index whose partition directory does not
    exist each raise [AssertionError]. Nothing is read beyond [META] in
    these cases. *)
Theorem load_partition_rejections {Row} (as_str : NodeType + EdgeType → string)
    (root_dir : string) (partition_idx : Z) (d : Partition.disk Row) :
  let run := Partition.load_partition as_str root_dir partition_idx d in
  (Partition.files d !! path_join root_dir "META" = None →
   run = (Failed OSError, d)) ∧
  (∀ m, Partition.files d !! path_join root_dir "META"
        = Some (Partition.MetaFile m) →
     (partition_idx < 0 ∨ meta_num_parts m ≤ partition_idx ∨
      Partition.path_exists d (part_dir root_dir partition_idx) = false →
      run = (Failed (Exn AssertionError), d))).
Proof.
  intros run. subst run. unfold Partition.load_partition. split.
  - intros Hmeta. by rewrite io_bind_read_missing.
  - intros m Hmeta Hbad. rewrite (io_bind_read_meta _ _ _ _ Hmeta). cbv beta.
    unfold py_assert.
    destruct (bool_decide (partition_idx >= 0)) eqn:H0; [|done].
    apply bool_decide_eq_true_1 in H0. rewrite io_bind_lift_Ok.
    destruct (bool_decide (partition_idx < meta_num_parts m)) eqn:H1; [|done].
    apply bool_decide_eq_true_1 in H1. rewrite io_bind_lift_Ok.
    rewrite io_bind_exists. fold (part_dir root_dir partition_idx).
    destruct Hbad as [? | [? | ->]]; [lia..|done].
Qed.

(** * Books and meta *)

Lemma can_write_plain_dir {Row} (d : Partition.disk Row)
    (dir name : string) :
  dir ≠ "" → ends_with_sep dir = false → no_sep name → name ≠ "" →
  Partition.can_write d (path_join dir name)
  = Partition.is_dir d dir && negb (Partition.is_dir d (path_join dir name)).
Proof.
  intros Hdir Hend Hname Hne.
  destruct (Partition.is_dir d dir) eqn:Hd.
  { by rewrite can_write_in_dir by (done || by right). }
  unfold Partition.can_write, Partition.parent_is_dir.
  pose proof (dirname_join dir name Hname) as H. simpl in H.
  destruct H as [[? _] | [[_ ->] | (_ & _ & He & _)]]; [done| |congruence].
  rewrite (bool_decide_eq_false_2 (dir = "")) by done. rewrite Hd. simpl.
  apply andb_false_r.
Qed.

(** X20. The books and the meta file of a homogeneous graph need the
    output directory. For an output directory spelled without a separator
    at its end, [save_meta], [save_node_pb] and [save_edge_pb] without a
    type write [META], [node_pb.pt] and [edge_pb.pt] there when a
    directory lies at the output directory and none lies at the path of
    the file; otherwise (the output directory is missing
    ([FileNotFoundError]) or is a regular file ([NotADirectoryError]), or
    a directory lies at the path of the file ([IsADirectoryError])) they
    raise [OSError] and leave the disk as it was. A book saved with a
    type whose name has no separator does not need the output directory:
    the writer creates [node_pb/] ([edge_pb/]) below the output directory
    itself, and raises [OSError] only when a regular file lies at that
    path or on the way to it, the disk staying as it was, or when a
    directory lies at the path of the file, after the directory was
    created. *)
Theorem books_and_meta_need_the_output_directory {Row}
    (as_str : NodeType + EdgeType → string)
    (output_dir : string) (num_parts : Z) (data_cls : string)
    (node_types : option (list NodeType)) (edge_types : option (list EdgeType))
    (pb : tensor) (d : Partition.disk Row) :
  output_dir ≠ "" → ends_with_sep output_dir = false →
  let meta := {| meta_num_parts := num_parts; meta_data_cls := data_cls;
                 meta_node_types := node_types;
                 meta_edge_types := edge_types |} in
  let written (path : string) (obj : Partition.file Row)
      : io_result unit * Partition.disk Row :=
    if Partition.is_dir d output_dir && negb (Partition.is_dir d path)
    then (Done tt, {| Partition.dirs := Partition.dirs d;
                      Partition.files := <[path:=obj]> (Partition.files d) |})
    else (Failed OSError, d) in
  let written_in (subdir name : string)
      : io_result unit * Partition.disk Row :=
    let created := {| Partition.dirs := {[subdir]} ∪ Partition.dirs d;
                      Partition.files := Partition.files d |} in
    if Partition.blocked d subdir then (Failed OSError, d)
    else if Partition.is_dir d (path_join subdir name)
    then (Failed OSError, created)
    else (Done tt,
          {| Partition.dirs := {[subdir]} ∪ Partition.dirs d;
             Partition.files :=
               <[path_join subdir name := Partition.IntFile pb]>
                 (Partition.files d) |}) in
  Partition.save_meta output_dir num_parts data_cls node_types edge_types d
  = written (path_join output_dir "META") (Partition.MetaFile meta) ∧
  Partition.save_node_pb as_str output_dir pb None d
  = written (path_join output_dir "node_pb.pt") (Partition.IntFile pb) ∧
  Partition.save_edge_pb as_str output_dir pb None d
  = written (path_join output_dir "edge_pb.pt") (Partition.IntFile pb) ∧
  (∀ ntype, no_sep (as_str (inl ntype)) →
     Partition.save_node_pb as_str output_dir pb (Some ntype) d
     = written_in (path_join output_dir "node_pb")
         (as_str (inl ntype) +:+ ".pt")) ∧
  (∀ etype, no_sep (as_str (inr etype)) →
     Partition.save_edge_pb as_str output_dir pb (Some etype) d
     = written_in (path_join output_dir "edge_pb")
         (as_str (inr etype) +:+ ".pt")).
Proof.
  intros Hout Hend meta written written_in.
  assert (∀ name obj, no_sep name → name ≠ "" →
    Partition.write_file obj (path_join output_dir name) d
    = written (path_join output_dir name) obj) as Hwrite.
  { intros name obj Hname Hne. unfold Partition.write_file, written.
    by rewrite can_write_plain_dir by done. }
  assert (∀ subdir ty, no_sep ty →
    (_ ← Partition.io_ensure_dir subdir;
     Partition.write_file (Partition.IntFile pb)
       (path_join subdir (ty +:+ ".pt"))) d
    = written_in subdir (ty +:+ ".pt")) as Hin.
  { intros subdir ty Hty. unfold written_in.
    assert (no_sep (ty +:+ ".pt")) by (apply no_sep_app; [done|solve_no_sep]).
    assert (ty +:+ ".pt" ≠ "") by (by intros [_ ?]%string_app_nil).
    destruct (Partition.blocked d subdir) eqn:Hb.
    { by rewrite io_bind_ensure_dir_fails. }
    rewrite io_bind_ensure_dir by done.
    destruct (Partition.is_dir d (path_join subdir (ty +:+ ".pt"))) eqn:Hf.
    - by rewrite write_file_dir by in_dir.
    - by rewrite write_file_in by in_dir. }
  split_and!.
  - unfold Partition.save_meta. by rewrite Hwrite by (solve_no_sep || done).
  - unfold Partition.save_node_pb.
    by rewrite io_bind_ret, Hwrite by (solve_no_sep || done).
  - unfold Partition.save_edge_pb.
    by rewrite io_bind_ret, Hwrite by (solve_no_sep || done).
  - intros ntype Hty. unfold Partition.save_node_pb.
    rewrite io_bind_assoc. rewrite <-(Hin _ _ Hty). done.
  - intros etype Hty. unfold Partition.save_edge_pb.
    rewrite io_bind_assoc. rewrite <-(Hin _ _ Hty). done.
Qed.

Lemma books_and_meta_need_the_output_directory_witness :
  let d : Partition.disk (list Z) :=
    {| Partition.dirs := ∅; Partition.files := ∅ |} in
  Partition.save_meta "out" 2 "homo" None None d = (Failed OSError, d) ∧
  (Partition.save_node_pb (λ _, "paper") "out" [0; 1] (Some "paper") d).1
  = Done tt.
Proof.
  intros d.
  destruct (books_and_meta_need_the_output_directory (λ _, "paper") "out" 2
              "homo" None None [0; 1] d ltac:(discriminate) eq_refl)
    as (H1 & _ & _ & H2 & _).
  split; [exact H1|].
  rewrite (H2 "paper"); [reflexivity|]. unfold no_sep. simpl. compute_done.
Defined.

(** The writers on disks where a directory or a regular file is in the
    way: a directory at the path of [rows.pt], a regular file at the
    output directory, and a directory at the path of [META]. *)
Lemma writers_on_conflicting_disks :
  let g := {| edge_index := ([0; 1], [1; 2]); eids := [0; 1] |} in
  let dir_at_rows : Partition.disk (list Z) :=
    {| Partition.dirs := {["out/part0/graph/rows.pt"]};
       Partition.files := ∅ |} in
  let file_at_out : Partition.disk (list Z) :=
    {| Partition.dirs := ∅;
       Partition.files := {["out" := Partition.NoneFile]} |} in
  let dir_at_meta : Partition.disk (list Z) :=
    {| Partition.dirs := {["out/META"]}; Partition.files := ∅ |} in
  (Partition.save_graph_partition (λ _, "paper") "out" 0 g None
     dir_at_rows).1 = Failed OSError ∧
  (Partition.save_graph_partition (λ _, "paper") "out" 0 g None
     file_at_out).1 = Failed OSError ∧
  Partition.save_meta "out" 2 "homo" None None file_at_out
  = (Failed OSError, file_at_out) ∧
  Partition.save_meta "out" 2 "homo" None None dir_at_meta
  = (Failed OSError, dir_at_meta).
Proof. intros g d1 d2 d3. vm_compute. by split_and!. Qed.

(** * Feature partitioning *)

(** A loop that appends one result per round. *)
Lemma for_each_collect {A B} (f : A → result B) (g : A → B) (l : list A) :
  (∀ x, x ∈ l → f x = Ok (g x)) →
  ∀ acc, for_each (λ res x, y ← f x; Ok (res ++ [y])) acc l
         = Ok (acc ++ (g <$> l)).
Proof.
  induction l as [|x l IH]; intros Hf acc; simpl.
  - by rewrite app_nil_r.
  - rewrite Hf by left. simpl. rewrite IH.
    + by rewrite <-app_assoc.
    + intros y Hy. apply Hf. by right.
Qed.

Lemma for_each_collect_inv {A B} (f : A → result B) (l : list A) :
  ∀ acc res, for_each (λ res x, y ← f x; Ok (res ++ [y])) acc l = Ok res →
    ∃ ys, res = acc ++ ys ∧ Forall2 (λ x y, f x = Ok y) l ys.
Proof.
  induction l as [|x l IH]; intros acc res; simpl.
  - intros [= <-]. exists []. by rewrite app_nil_r.
  - destruct (f x) as [y|e] eqn:Hfx; simpl; [|done].
    intros (ys & -> & Hys)%IH. exists (y :: ys).
    rewrite <-app_assoc. split; [done|]. by constructor.
Qed.

Lemma for_each_collect_returns {A B} (f : A → result B) (l : list A) :
  (∀ x, x ∈ l → ∃ y, f x = Ok y) →
  ∀ acc, ∃ res, for_each (λ res x, y ← f x; Ok (res ++ [y])) acc l = Ok res.
Proof.
  induction l as [|x l IH]; intros Hf acc; simpl; [eauto|].
  destruct (Hf x) as [y ->]; [left|]. simpl. apply IH.
  intros z Hz. apply Hf. by right.
Qed.

Lemma list_getitem_nat {A} (l : list A) (k : nat) (x : A) :
  l !! k = Some x → Partition.list_getitem l (Z.of_nat k) = Ok x.
Proof.
  intros H. unfold Partition.list_getitem. by rewrite index_tensor_nat, H.
Qed.

Lemma Forall2_range_lookup {A} (P : Z → A → Prop) (n : Z) (ys : list A) :
  Forall2 P (range n) ys →
  length ys = Z.to_nat n ∧
  ∀ (k : nat) y, ys !! k = Some y → P (Z.of_nat k) y.
Proof.
  intros H. pose proof (Forall2_length _ _ _ H) as Hl.
  unfold range in *. rewrite length_seqZ in Hl. split; [done|].
  intros k y Hy.
  destruct (Forall2_lookup_r _ _ _ _ _ H Hy) as (x & Hx & HP).
  apply lookup_seqZ in Hx as [-> _]. by rewrite Z.add_0_l in HP.
Qed.

Lemma getitem_Forall2 {A} (t : list A) (idx : tensor) (r : list A) :
  getitem t idx = Ok r → Forall2 (λ i x, index_tensor t i = Some x) idx r.
Proof.
  unfold getitem. destruct (mapM _ idx) as [r'|] eqn:Hm; [|done].
  intros [= <-]. by apply mapM_Some_1.
Qed.

Lemma getitem_in_range {A} (t : list A) (idx : tensor) :
  Forall (λ i, - len t ≤ i < len t) idx → ∃ r, getitem t idx = Ok r.
Proof.
  intros H. unfold getitem.
  destruct (mapM_is_Some_2 (index_tensor t) idx) as [r ->]; [|eauto].
  eapply Forall_impl; [done|]. intros i Hi. by apply index_tensor_is_Some.
Qed.

(** X18. Edge features follow their edges: when [_partition_graph] has
    returned the shards of an edge list (parallel arrays, [num_parts > 0])
    and the edge feature tensor has one row per edge,
    [_partition_edge_feat] returns one feature partition per shard; the
    ids of shard [k]'s features are shard [k]'s edge ids, its rows are the
    rows of the edge feature tensor at these ids, position by position,
    and there is never a cache. *)
Theorem edge_features_follow_their_edges {Row}
    (self : PartitionerBase.t (list Row))
    (node_pb : NodePartition) (etype : option EdgeType)
    (rows cols pb tgt : tensor) (results : list GraphPartitionData)
    (book : tensor) (edge_feat : list Row) :
  PartitionerBase.get_edge_index self etype = Ok (rows, cols) →
  length rows = length cols →
  PartitionerBase.select_target self node_pb etype rows cols
    = Ok (Book pb, tgt) →
  0 < PartitionerBase.num_parts self →
  PartitionerBase._partition_graph self node_pb etype = Ok (results, book) →
  Partition.get_edge_feat self etype
    = Ok (Some (PartitionerBase.FeatTensor edge_feat)) →
  length edge_feat = length rows →
  ∃ feat_list,
    Partition._partition_edge_feat self results etype = Ok feat_list ∧
    length feat_list = length results ∧
    ∀ (k : nat) g, results !! k = Some g →
      ∃ p, feat_list !! k = Some (Some p) ∧
        Val.ids p = eids g ∧
        Forall2 (λ e row, index_tensor edge_feat e = Some row)
          (eids g) (Val.feats p) ∧
        Val.cache_feats p = None ∧ Val.cache_ids p = None.
Proof.
  intros Hget Hlen Hsel Hnp Hpg Hfeat Hrows.
  destruct (partition_graph_Ok_inv self node_pb etype rows cols (Book pb) tgt
              results book Hget Hlen Hsel Hpg)
    as [(Hle & _)|(pb' & sh & [= <-] & Hsh & -> & ->)]; [lia|].
  unfold Partition._partition_edge_feat. rewrite Hfeat. simpl.
  set (mk := λ k : Z,
    Some {| Val.feats := select_mask edge_feat (eq_scalar sh k);
            Val.ids := eids (shard_data rows cols sh k);
            Val.cache_feats := None; Val.cache_ids := None |}).
  exists (mk <$> range (PartitionerBase.num_parts self)).
  assert (len edge_feat = len rows) as Hlen' by (unfold len; lia).
  split_and!.
  - rewrite <-(app_nil_l (mk <$> _)).
    rewrite <-(for_each_collect (λ pidx,
      g ← Partition.list_getitem
             (shard_data rows cols sh <$> range (PartitionerBase.num_parts self))
             pidx;
      feats ← getitem edge_feat (eids g);
      Ok (Some {| Val.feats := feats; Val.ids := eids g;
                  Val.cache_feats := None; Val.cache_ids := None |})) mk).
    + apply for_each_ext. intros res pidx _.
      destruct (Partition.list_getitem _ pidx) as [g|]; simpl; [|done].
      by destruct (getitem _ _).
    + intros pidx Hp. unfold range in Hp. rewrite elem_of_seqZ in Hp.
      rewrite <-(Z2Nat.id pidx) at 1 by lia.
      rewrite (list_getitem_nat _ _ (shard_data rows cols sh pidx)).
      * simpl. rewrite <-Hlen', getitem_select_mask. simpl.
        unfold mk. simpl. by rewrite Hlen'.
      * apply lookup_shards. rewrite Z2Nat.id by lia. split; [done|lia].
  - by rewrite !length_fmap.
  - intros k g [-> Hk]%lookup_shards. eexists. split.
    { apply lookup_shards. split; [done|lia]. }
    simpl. split_and!; try done.
    rewrite <-Hlen'. apply select_mask_Forall2. apply Forall2_index_seqZ.
Qed.

Lemma edge_features_follow_their_edges_witness :
  let self : PartitionerBase.t (list (list Z)) :=
    {| PartitionerBase.output_dir := "out";
       PartitionerBase.num_parts := 2;
       PartitionerBase.num_nodes := PartitionerBase.Count 6;
       PartitionerBase.graph :=
         PartitionerBase.Homo ([0; 1; 2; 3; 4; 5], [1; 2; 3; 4; 5; 0]);
       PartitionerBase.node_feat := None;
       PartitionerBase.edge_feat :=
         Some (PartitionerBase.FeatTensor [[0]; [10]; [20]; [30]; [40]; [50]]);
       PartitionerBase.edge_assign_strategy := "by_dst";
       PartitionerBase.chunk_size := 4 |} in
  ∃ results book feat_list p,
    PartitionerBase._partition_graph self (Book cycle6_book) None
      = Ok (results, book) ∧
    Partition._partition_edge_feat self results None = Ok feat_list ∧
    feat_list !! 0%nat = Some (Some p) ∧
    Val.ids p = [0; 1; 5] ∧ Val.feats p = [[0]; [10]; [50]].
Proof.
  intros self.
  destruct (PartitionerBase._partition_graph self (Book cycle6_book) None)
    as [[results book]|e] eqn:Hpg; [|by vm_compute in Hpg].
  destruct (edge_features_follow_their_edges self (Book cycle6_book) None
              [0; 1; 2; 3; 4; 5] [1; 2; 3; 4; 5; 0] cycle6_book
              [1; 2; 3; 4; 5; 0] results book
              [[0]; [10]; [20]; [30]; [40]; [50]]
              eq_refl eq_refl eq_refl ltac:(simpl; lia) Hpg eq_refl eq_refl)
    as (feat_list & Hfl & _ & _).
  vm_compute in Hpg. injection Hpg as <- <-.
  vm_compute in Hfl. injection Hfl as <-.
  by eexists _, _, _, _.
Defined.

Lemma list_getitem_Ok_nat {A} (l : list A) (k : nat) (x : A) :
  Partition.list_getitem l (Z.of_nat k) = Ok x ↔ l !! k = Some x.
Proof.
  unfold Partition.list_getitem. rewrite index_tensor_nat.
  destruct (l !! k); split; intros; by simplify_eq.
Qed.

(** X19. Node features follow their nodes: when the node features of the
    node type are a tensor and [_cache_node] returns the ids to cache,
    [_partition_node_feat] returns when both lists have an entry for each
    of the [num_parts] partitions and every id listed is an index of the
    feature tensor; whenever it returns, it returns [num_parts] feature
    partitions, and partition [k] holds the [k]-th list of node ids with
    the rows of the feature tensor at these ids, position by position,
    and the [k]-th entry of the cache list, with the rows at those ids
    when the entry is a tensor and with no cache rows when it is [None]. *)
Theorem node_features_follow_their_nodes {Row}
    (_cache_node : PartitionerBase.t (list Row) → option NodeType →
                   result (list (option tensor)))
    (self : PartitionerBase.t (list Row))
    (node_ids_list : list tensor) (ntype : option NodeType)
    (node_feat : list Row) (cache_list : list (option tensor)) :
  Partition.get_node_feat self ntype
    = Ok (Some (PartitionerBase.FeatTensor node_feat)) →
  _cache_node self ntype = Ok cache_list →
  let in_range := Forall (λ i, - len node_feat ≤ i < len node_feat) in
  ((Z.to_nat (PartitionerBase.num_parts self) ≤ length node_ids_list)%nat →
   (Z.to_nat (PartitionerBase.num_parts self) ≤ length cache_list)%nat →
   Forall in_range node_ids_list →
   Forall (λ c, from_option in_range True c) cache_list →
   ∃ res, Partition._partition_node_feat _cache_node self node_ids_list ntype
          = Ok res) ∧
  ∀ res,
    Partition._partition_node_feat _cache_node self node_ids_list ntype
    = Ok res →
    length res = Z.to_nat (PartitionerBase.num_parts self) ∧
    ∀ (k : nat) x, res !! k = Some x →
      ∃ p, x = Some p ∧
        node_ids_list !! k = Some (Val.ids p) ∧
        Forall2 (λ i row, index_tensor node_feat i = Some row)
          (Val.ids p) (Val.feats p) ∧
        cache_list !! k = Some (Val.cache_ids p) ∧
        match Val.cache_ids p, Val.cache_feats p with
        | Some ci, Some cf =>
            Forall2 (λ i row, index_tensor node_feat i = Some row) ci cf
        | None, None => True
        | _, _ => False
        end.
Proof.
  intros Hfeat Hcache in_range.
  set (f := λ pidx : Z,
    n_ids ← Partition.list_getitem node_ids_list pidx;
    cache_n_ids ← Partition.list_getitem cache_list pidx;
    feats ← getitem node_feat n_ids;
    cache_feats ←
      match cache_n_ids with
      | Some cache_n_ids =>
          cache_feats ← getitem node_feat cache_n_ids; Ok (Some cache_feats)
      | None => Ok None
      end;
    Ok (Some {| Val.feats := feats; Val.ids := n_ids;
                Val.cache_feats := cache_feats;
                Val.cache_ids := cache_n_ids |})).
  assert (Partition._partition_node_feat _cache_node self node_ids_list ntype
          = for_each (λ res x, y ← f x; Ok (res ++ [y])) []
              (range (PartitionerBase.num_parts self))) as ->.
  { unfold Partition._partition_node_feat. rewrite Hfeat. simpl.
    rewrite Hcache. simpl. apply for_each_ext. intros res pidx _. unfold f.
    destruct (Partition.list_getitem node_ids_list pidx) as [n|]; simpl;
      [|done].
    destruct (Partition.list_getitem cache_list pidx) as [[c|]|]; simpl;
      [| |done].
    - destruct (getitem node_feat n); simpl; [|done].
      by destruct (getitem node_feat c).
    - by destruct (getitem node_feat n). }
  split.
  - intros Hn Hc Hids Hcids.
    assert (∀ pidx, pidx ∈ range (PartitionerBase.num_parts self) →
      ∃ y, f pidx = Ok y) as Hf.
    { intros pidx Hp. unfold range in Hp. rewrite elem_of_seqZ in Hp.
      destruct (lookup_lt_is_Some_2 node_ids_list (Z.to_nat pidx))
        as [n Hnk]; [lia|].
      destruct (lookup_lt_is_Some_2 cache_list (Z.to_nat pidx))
        as [c Hck]; [lia|].
      unfold f. rewrite <-(Z2Nat.id pidx) by lia.
      rewrite (list_getitem_nat _ _ _ Hnk), (list_getitem_nat _ _ _ Hck).
      simpl.
      destruct (getitem_in_range node_feat n) as [r ->].
      { eapply (Forall_lookup_1 _ _ _ _ Hids Hnk). }
      simpl. destruct c as [c|]; simpl; [|eauto].
      destruct (getitem_in_range node_feat c) as [r' ->]; [|simpl; eauto].
      apply (Forall_lookup_1 _ _ _ _ Hcids Hck). }
    by apply for_each_collect_returns.
  - intros res (ys & -> & Hys)%for_each_collect_inv. simpl.
    apply Forall2_range_lookup in Hys as [Hlen Hys]. split; [done|].
    intros k x Hx. specialize (Hys k x Hx). unfold f in Hys.
    destruct (Partition.list_getitem node_ids_list (Z.of_nat k)) as [n|] eqn:Hn;
      simpl in Hys; [|done].
    destruct (Partition.list_getitem cache_list (Z.of_nat k)) as [c|] eqn:Hc;
      simpl in Hys; [|done].
    apply list_getitem_Ok_nat in Hn, Hc.
    destruct (getitem node_feat n) as [r|] eqn:Hr; simpl in Hys; [|done].
    apply getitem_Forall2 in Hr.
    destruct c as [c|]; simpl in Hys.
    + destruct (getitem node_feat c) as [r'|] eqn:Hr'; simpl in Hys; [|done].
      apply getitem_Forall2 in Hr'. injection Hys as <-.
      eexists. split; [done|]. simpl. done.
    + injection Hys as <-. eexists. split; [done|]. simpl. done.
Qed.

Lemma node_features_follow_their_nodes_witness :
  let self : PartitionerBase.t (list (list Z)) :=
    {| PartitionerBase.output_dir := "out";
       PartitionerBase.num_parts := 2;
       PartitionerBase.num_nodes := PartitionerBase.Count 6;
       PartitionerBase.graph :=
         PartitionerBase.Homo ([0; 1; 2; 3; 4; 5], [1; 2; 3; 4; 5; 0]);
       PartitionerBase.node_feat :=
         Some (PartitionerBase.FeatTensor [[0]; [10]; [20]; [30]; [40]; [50]]);
       PartitionerBase.edge_feat := None;
       PartitionerBase.edge_assign_strategy := "by_src";
       PartitionerBase.chunk_size := 4 |} in
  let _cache_node (_ : PartitionerBase.t (list (list Z)))
        (_ : option NodeType) : result (list (option tensor)) :=
    Ok [Some [3]; None] in
  ∃ res,
    Partition._partition_node_feat _cache_node self [[0; 1; 2]; [3; 4; 5]] None
    = Ok res ∧ length res = 2%nat.
Proof.
  intros self _cache_node.
  destruct (node_features_follow_their_nodes _cache_node self
              [[0; 1; 2]; [3; 4; 5]] None
              [[0]; [10]; [20]; [30]; [40]; [50]] [Some [3]; None]
              eq_refl eq_refl) as [_ H].
  eexists. split; [reflexivity|]. by apply H.
Defined.

(** * Paths below the output directory *)

Lemma rel_path_cons (c : string) (cs : list string) :
  cs ≠ [] → rel_path (c :: cs) = c +:+ "/" +:+ rel_path cs.
Proof. by destruct cs. Qed.

Lemma rel_path_snoc (cs : list string) (name : string) :
  cs ≠ [] → rel_path (cs ++ [name]) = rel_path cs +:+ "/" +:+ name.
Proof.
  induction cs as [|c cs IH]; [done|]. intros _.
  destruct cs as [|c' cs]; [done|].
  change ((c :: c' :: cs) ++ [name]) with (c :: ((c' :: cs) ++ [name])).
  rewrite (rel_path_cons c (c' :: cs)) by done.
  rewrite rel_path_cons by done.
  rewrite IH by done. by rewrite !string_app_assoc.
Qed.

Lemma rel_path_is_name (cs : list string) :
  cs ≠ [] → Forall is_name cs →
  rel_path cs ≠ "" ∧ ends_with_sep (rel_path cs) = false.
Proof.
  induction cs as [|c cs IH]; [done|]. intros _ Hcs.
  apply Forall_cons in Hcs as [[Hc Hne] Hcs].
  destruct cs as [|c' cs].
  - split; [done|]. by apply ends_with_sep_no_sep.
  - rewrite rel_path_cons by done. destruct (IH ltac:(done) Hcs) as [Hr He].
    split.
    + by intros [? _]%string_app_nil.
    + rewrite ends_with_sep_app by (by intros [? _]%string_app_nil).
      rewrite ends_with_sep_app; [exact He|exact Hr].
Qed.

Lemma rel_path_inj (cs1 cs2 : list string) :
  Forall no_sep cs1 → Forall no_sep cs2 → cs1 ≠ [] → cs2 ≠ [] →
  rel_path cs1 = rel_path cs2 → cs1 = cs2.
Proof.
  revert cs2. induction cs1 as [|c1 cs1 IH]; [done|].
  intros [|c2 cs2] H1 H2 _ Hne2; [done|]. clear Hne2.
  apply Forall_cons in H1 as [Hc1 H1]. apply Forall_cons in H2 as [Hc2 H2].
  destruct cs1 as [|c1' cs1], cs2 as [|c2' cs2].
  - simpl. by intros ->.
  - rewrite (rel_path_cons c2) by done. intros H.
    by apply no_sep_without_sep in H.
  - rewrite (rel_path_cons c1) by done. intros H. symmetry in H.
    by apply no_sep_without_sep in H.
  - rewrite (rel_path_cons c1), (rel_path_cons c2) by done. intros H.
    apply (f_equal chars) in H. rewrite !chars_app in H.
    apply no_sep_app_inj in H as [Hc Hr]; [|done..].
    apply chars_inj in Hc as ->. apply chars_inj in Hr.
    f_equal. by apply IH.
Qed.

Lemma rel_path_below (cs1 cs2 : list string) (rest : string) :
  Forall no_sep cs1 → Forall no_sep cs2 → cs1 ≠ [] → cs2 ≠ [] →
  rel_path cs2 = rel_path cs1 +:+ "/" +:+ rest →
  ∃ c cr, cs2 = cs1 ++ c :: cr.
Proof.
  revert cs2. induction cs1 as [|c1 cs1 IH]; [done|].
  intros [|c2 cs2] H1 H2 _ Hne2; [done|]. clear Hne2.
  apply Forall_cons in H1 as [Hc1 H1]. apply Forall_cons in H2 as [Hc2 H2].
  destruct cs2 as [|c2' cs2].
  { simpl rel_path at 1. intros H. by apply no_sep_without_sep in H. }
  rewrite (rel_path_cons c2) by done.
  destruct cs1 as [|c1' cs1].
  - simpl. intros H. apply (f_equal chars) in H. rewrite !chars_app in H.
    apply no_sep_app_inj in H as [Hc Hr]; [|done..].
    apply chars_inj in Hc as ->. by exists c2', cs2.
  - rewrite (rel_path_cons c1) by done. rewrite !string_app_assoc.
    intros H. apply (f_equal chars) in H. rewrite !chars_app in H.
    apply no_sep_app_inj in H as [Hc Hr]; [|done..].
    apply chars_inj in Hc as ->.
    rewrite <-!chars_app in Hr. apply chars_inj in Hr.
    destruct (IH (c2' :: cs2) H1 H2 ltac:(done) ltac:(done) Hr) as (c & cr & ->).
    by exists c, cr.
Qed.

Lemma is_name_no_sep (cs : list string) : Forall is_name cs → Forall no_sep cs.
Proof. intros H. eapply Forall_impl; [exact H|]. by intros c [? _]. Qed.

Lemma out_path_nonempty (out : string) (cs : list string) :
  cs ≠ [] → Forall is_name cs →
  out_path out cs ≠ "" ∧ ends_with_sep (out_path out cs) = false.
Proof.
  intros Hne Hcs. destruct (rel_path_is_name cs Hne Hcs) as [Hr He].
  unfold out_path. split.
  - by intros [_ ?]%string_app_nil.
  - by rewrite ends_with_sep_app.
Qed.

Lemma out_path_root (out name : string) :
  no_sep name → path_join out name = out_path out [name].
Proof. apply path_join_lit. Qed.

Lemma out_path_join (out : string) (cs : list string) (name : string) :
  cs ≠ [] → Forall is_name cs → no_sep name →
  path_join (out_path out cs) name = out_path out (cs ++ [name]).
Proof.
  intros Hne Hcs Hn. destruct (out_path_nonempty out cs Hne Hcs) as [Hp He].
  rewrite path_join_sub by (done || by apply starts_with_sep_no_sep).
  unfold out_path. by rewrite rel_path_snoc, !string_app_assoc.
Qed.

Lemma out_path_sep (out : string) (cs : list string) :
  cs ≠ [] → Forall is_name cs →
  path_join (out_path out cs) "" = out_path out cs +:+ "/".
Proof.
  intros Hne Hcs. destruct (out_path_nonempty out cs Hne Hcs) as [Hp He].
  by rewrite path_join_empty, He, bool_decide_eq_false_2.
Qed.

Lemma out_path_inj (out : string) (cs1 cs2 : list string) :
  cs1 ≠ [] → cs2 ≠ [] → Forall is_name cs1 → Forall is_name cs2 →
  out_path out cs1 = out_path out cs2 → cs1 = cs2.
Proof.
  intros Hne1 Hne2 H1%is_name_no_sep H2%is_name_no_sep H.
  apply String.app_inj in H. by apply rel_path_inj.
Qed.

Lemma out_path_below (out : string) (cs1 cs2 : list string) :
  cs1 ≠ [] → cs2 ≠ [] → Forall is_name cs1 → Forall is_name cs2 →
  below (out_path out cs1) (out_path out cs2) →
  ∃ c cr, cs2 = cs1 ++ c :: cr.
Proof.
  intros Hne1 Hne2 H1 H2 [rest H]%below_iff.
  rewrite out_path_sep in H by done. unfold out_path in H.
  rewrite !string_app_assoc in H. apply String.app_inj in H.
  apply is_name_no_sep in H1, H2. by eapply rel_path_below.
Qed.

(** What was on the disk before is none of the paths below the output
    directory, and does not lie below one. *)
Lemma out_path_fresh {Row} (d : Partition.disk Row) (out : string)
    (cs : list string) (q : string) :
  nothing_below d out → q ∈ Partition.entries d →
  cs ≠ [] → Forall is_name cs →
  q ≠ out_path out cs ∧ ¬ below (out_path out cs) q.
Proof.
  intros Hfresh Hq Hne Hcs. destruct (rel_path_is_name cs Hne Hcs) as [Hr _].
  split.
  - intros ->. by specialize (Hfresh _ (rel_path cs) Hq eq_refl).
  - intros [rest ->]%below_iff. rewrite out_path_sep in Hq by done.
    unfold out_path in Hq. rewrite !string_app_assoc in Hq.
    specialize (Hfresh _ _ Hq eq_refl).
    by apply string_app_nil in Hfresh as [? _].
Qed.

(** ** The directories of the partitions *)

Lemma part_name_is_name (k : Z) : is_name (part_name k).
Proof.
  split.
  - apply no_sep_app; [solve_no_sep|apply str_of_int_no_sep].
  - done.
Qed.

Lemma part_name_inj (k k' : Z) : part_name k = part_name k' → k = k'.
Proof. intros H. apply String.app_inj in H. by apply str_of_int_inj. Qed.

Lemma part_name_head (k : Z) :
  part_name k = String "p" (String "a" (String "r" (String "t" (str_of_int k)))).
Proof. done. Qed.

Ltac names :=
  repeat first
    [ apply Forall_nil_2
    | apply Forall_cons_2
    | apply part_name_is_name
    | (split; [solve_no_sep|done]) ].

Lemma part_dir_out_path (out : string) (k : Z) :
  part_dir out k = out_path out [part_name k].
Proof. apply out_path_root, part_name_is_name. Qed.

Lemma group_dir_out_path (as_str : NodeType + EdgeType → string)
    (out : string) (k : Z) (group : string) :
  no_sep group →
  group_dir as_str out k group None = out_path out [part_name k; group].
Proof.
  intros Hg. unfold group_dir. rewrite part_dir_out_path.
  by rewrite out_path_join by (done || names).
Qed.

Lemma names_cons_inj (c c' : string) (cs cs' : list string) :
  c :: cs = c' :: cs' → c = c' ∧ cs = cs'.
Proof. by intros [= -> ->]. Qed.

(** Two lists of names that differ, or of which the first is no proper
    prefix of the second. *)
Ltac name_clash :=
  repeat match goal with
  | H : ∃ _, _ |- _ => destruct H as [? H]
  | H : _ ∧ _ |- _ => destruct H
  | H : _ ++ _ :: _ = _ |- _ => symmetry in H
  | H : _ :: _ = _ :: _ |- _ => apply names_cons_inj in H
  | H : _ :: _ = _ ++ _ |- _ => simpl in H
  | H : [] = [] |- _ => clear H
  | H : [] = _ :: _ |- _ => discriminate H
  | H : _ :: _ = [] |- _ => discriminate H
  | H : [] = _ ++ _ :: _ |- _ => by apply app_cons_not_nil in H
  | H : part_name _ = part_name _ |- _ => apply part_name_inj in H
  | H : part_name _ = String _ _ |- _ => rewrite part_name_head in H; discriminate H
  | H : String _ _ = part_name _ |- _ => rewrite part_name_head in H; discriminate H
  | H : String _ _ = String _ _ |- _ => first [discriminate H|clear H]
  end; subst; try done; try lia; try congruence.

(** * [partition] of a homogeneous graph *)

(** ** The lists that the partitioning steps return *)

Lemma for_each_append_shape {A B} (body : list B → A → result (list B))
    (P : B → Prop) (l : list A) :
  (∀ res x res', body res x = Ok res' → ∃ y, res' = res ++ [y] ∧ P y) →
  ∀ acc res, for_each body acc l = Ok res →
    ∃ ys, res = acc ++ ys ∧ length ys = length l ∧ Forall P ys.
Proof.
  intros Hbody. induction l as [|x l IH]; intros acc res; simpl.
  - intros [= <-]. exists []. by rewrite app_nil_r.
  - destruct (body acc x) as [res'|e] eqn:Hb; simpl; [|done].
    destruct (Hbody _ _ _ Hb) as (y & -> & Hy).
    intros (ys & -> & Hlen & Hys)%IH. exists (y :: ys).
    rewrite <-app_assoc. simpl. by rewrite Hlen, Forall_cons.
Qed.

Lemma result_bind_Ok {A B} (m : result A) (f : A → result B) (y : B) :
  m ≫= f = Ok y → ∃ x, m = Ok x ∧ f x = Ok y.
Proof. destruct m as [x|e]; simpl; [eauto|done]. Qed.

Lemma collect_loop_length (res : list (list GraphPartitionData)) (l : list Z) :
  ∀ pb acc pb' rs,
    for_each (collect_body res) (pb, acc) l = Ok (pb', rs) →
    length rs = (length acc + length l)%nat.
Proof.
  induction l as [|x l IH]; intros pb acc pb' rs.
  - intros [= _ <-]. simpl. lia.
  - rewrite for_each_cons. intros ([pb1 acc1] & Hbody & Hrest)%result_bind_Ok.
    apply IH in Hrest as ->. unfold collect_body in Hbody.
    destruct (index_tensor res x) as [r|]; [|done].
    apply result_bind_Ok in Hbody as (p_rows & _ & Hbody).
    apply result_bind_Ok in Hbody as (p_cols & _ & Hbody).
    apply result_bind_Ok in Hbody as (p_eids & _ & Hbody).
    apply result_bind_Ok in Hbody as (book & _ & Hbody).
    injection Hbody as _ <-. rewrite length_app. simpl. lia.
Qed.

Lemma partition_graph_length {Feat} (self : PartitionerBase.t Feat)
    (node_pb : NodePartition) (etype : option EdgeType)
    (graph_list : list GraphPartitionData) (edge_pb : tensor) :
  _partition_graph self node_pb etype = Ok (graph_list, edge_pb) →
  length graph_list = Z.to_nat (num_parts self).
Proof.
  unfold _partition_graph.
  intros ([rows cols] & _ & H)%result_bind_Ok.
  apply result_bind_Ok in H as (eids & _ & H).
  apply result_bind_Ok in H as ([tpb tgt] & _ & H).
  apply result_bind_Ok in H as (chunk_num & _ & H).
  apply result_bind_Ok in H as ([pos res] & _ & H).
  apply result_bind_Ok in H as (book & _ & H).
  apply result_bind_Ok in H as ([pb rs] & Hloop & H).
  injection H as <- _. apply collect_loop_length in Hloop.
  unfold range in Hloop. rewrite length_seqZ in Hloop. done.
Qed.

Section Shapes.

Context {Row : Type}.
Context (_cache_node :
  PartitionerBase.t (list Row) → option NodeType →
  result (list (option tensor))).
Implicit Types p : Val.FeaturePartitionData Row.

(** A feature partition whose cache ids come with cache rows. *)
Lemma partition_node_feat_shape (self : PartitionerBase.t (list Row))
    (node_ids_list : list tensor) (ntype : option NodeType)
    (node_feat_list : list (option (Val.FeaturePartitionData Row))) :
  Partition._partition_node_feat _cache_node self node_ids_list ntype
    = Ok node_feat_list →
  length node_feat_list = Z.to_nat (num_parts self) ∧
  Forall (λ x, ∀ p, x = Some p →
            Val.cache_feats p = None → Val.cache_ids p = None)
    node_feat_list.
Proof.
  unfold Partition._partition_node_feat.
  destruct (Partition.get_node_feat self ntype) as [[nf|]|]; simpl; [| |done].
  - destruct (_cache_node self ntype) as [cl|]; simpl; [|done].
    intros Hloop.
    apply (for_each_append_shape _ (λ x, ∀ p, x = Some p →
             Val.cache_feats p = None → Val.cache_ids p = None))
      in Hloop as (ys & -> & Hlen & Hys).
    + unfold range in Hlen. rewrite length_seqZ in Hlen. done.
    + intros res x res' (n_ids & _ & H)%result_bind_Ok.
      apply result_bind_Ok in H as (cache_n_ids & _ & H).
      apply result_bind_Ok in H as (feats & _ & H).
      apply result_bind_Ok in H as (cache_feats & Hc & H).
      injection H as <-. eexists. split; [done|]. intros p [= <-]. simpl.
      intros ->. destruct cache_n_ids as [c|]; [|done].
      by apply result_bind_Ok in Hc as (? & _ & ?).
  - intros [= <-]. rewrite length_fmap. unfold range. rewrite length_seqZ.
    split; [done|]. apply Forall_fmap, Forall_forall. by intros.
Qed.

Lemma partition_edge_feat_shape (self : PartitionerBase.t (list Row))
    (graph_list : list GraphPartitionData) (etype : option EdgeType)
    (edge_feat_list : list (option (Val.FeaturePartitionData Row))) :
  Partition._partition_edge_feat self graph_list etype = Ok edge_feat_list →
  length edge_feat_list = Z.to_nat (num_parts self) ∧
  Forall (λ x, ∀ p, x = Some p →
            Val.cache_feats p = None → Val.cache_ids p = None)
    edge_feat_list.
Proof.
  unfold Partition._partition_edge_feat.
  destruct (Partition.get_edge_feat self etype) as [[ef|]|]; simpl; [| |done].
  - intros Hloop.
    apply (for_each_append_shape _ (λ x, ∀ p, x = Some p →
             Val.cache_feats p = None → Val.cache_ids p = None))
      in Hloop as (ys & -> & Hlen & Hys).
    + unfold range in Hlen. rewrite length_seqZ in Hlen. done.
    + intros res x res' (g & _ & H)%result_bind_Ok.
      apply result_bind_Ok in H as (feats & _ & H).
      injection H as <-. eexists. split; [done|]. by intros p [= <-].
  - intros [= <-]. rewrite length_fmap. unfold range. rewrite length_seqZ.
    split; [done|]. apply Forall_fmap, Forall_forall. by intros.
Qed.

End Shapes.

(** ** Loops over the partitions *)

Section Loops.

Context {Row : Type}.
Implicit Types d : Partition.disk Row.
Implicit Types W : Z → gmap string (Partition.file Row).
Implicit Types D : Z → gset string.

(** A loop whose step for [k] creates [D k] and writes [W k] on every
    disk that satisfies [I], and keeps [I]. *)
Lemma io_for_each_effect (I : Partition.disk Row → Prop)
    (body : unit → Z → Partition.IO Row unit) D W (l : list Z) :
  (∀ k d, k ∈ l → I d →
     body tt k d
     = (Done tt, {| Partition.dirs := D k ∪ Partition.dirs d;
                    Partition.files := W k ∪ Partition.files d |}) ∧
     I {| Partition.dirs := D k ∪ Partition.dirs d;
          Partition.files := W k ∪ Partition.files d |}) →
  ∀ d, I d →
    Partition.io_for_each body tt l d
    = (Done tt,
       {| Partition.dirs := created_dirs D l ∪ Partition.dirs d;
          Partition.files := created_files W l ∪ Partition.files d |}) ∧
    I {| Partition.dirs := created_dirs D l ∪ Partition.dirs d;
         Partition.files := created_files W l ∪ Partition.files d |}.
Proof.
  intros Hbody d HI. unfold created_dirs, created_files.
  assert (∀ accD accW,
    I {| Partition.dirs := accD ∪ Partition.dirs d;
         Partition.files := accW ∪ Partition.files d |} →
    Partition.io_for_each body tt l
      {| Partition.dirs := accD ∪ Partition.dirs d;
         Partition.files := accW ∪ Partition.files d |}
    = (Done tt,
       {| Partition.dirs := foldl (λ acc k, D k ∪ acc) accD l ∪ Partition.dirs d;
          Partition.files :=
            foldl (λ acc k, W k ∪ acc) accW l ∪ Partition.files d |}) ∧
    I {| Partition.dirs := foldl (λ acc k, D k ∪ acc) accD l ∪ Partition.dirs d;
         Partition.files :=
           foldl (λ acc k, W k ∪ acc) accW l ∪ Partition.files d |}) as H.
  { clear HI. induction l as [|k l IH]; intros accD accW HI; [done|].
    simpl. unfold mbind, Partition.IO_bind.
    destruct (Hbody k _ ltac:(left) HI) as [-> HI']. simpl in HI' |- *.
    rewrite !(assoc_L (∪)) in HI' |- *. apply IH; [|done].
    intros. apply Hbody; [by right|done]. }
  specialize (H ∅ ∅). rewrite !(left_id_L ∅ (∪)) in H.
  destruct d as [ds fs]. simpl in H |- *. by apply H.
Qed.

Lemma io_bind_for_each {B} (I : Partition.disk Row → Prop)
    (body : unit → Z → Partition.IO Row unit) D W
    (l : list Z) (k : unit → Partition.IO Row B) d :
  (∀ k d, k ∈ l → I d →
     body tt k d
     = (Done tt, {| Partition.dirs := D k ∪ Partition.dirs d;
                    Partition.files := W k ∪ Partition.files d |}) ∧
     I {| Partition.dirs := D k ∪ Partition.dirs d;
          Partition.files := W k ∪ Partition.files d |}) →
  I d →
  (Partition.io_for_each body tt l ≫= k) d
  = k tt {| Partition.dirs := created_dirs D l ∪ Partition.dirs d;
            Partition.files := created_files W l ∪ Partition.files d |}.
Proof.
  intros H HI. destruct (io_for_each_effect I _ _ _ _ H d HI) as [Hrun _].
  by rewrite (io_bind_Done _ _ _ _ _ Hrun).
Qed.

Lemma foldl_dirs_elem D (l : list Z) (acc : gset string) (q : string) :
  q ∈ foldl (λ acc k, D k ∪ acc) acc l ↔ q ∈ acc ∨ ∃ k, k ∈ l ∧ q ∈ D k.
Proof.
  revert acc. induction l as [|k l IH]; intros acc; simpl.
  - split; [by left|]. intros [?|(k & Hk & _)]; [done|].
    by apply elem_of_nil in Hk.
  - rewrite IH, elem_of_union. split.
    + intros [[?|?]|(k' & ? & ?)]; [right; exists k; split; [left|done]
        |by left|right; exists k'; split; [by right|done]].
    + intros [?|(k' & [->|?]%elem_of_cons & ?)]; [left; by right
        |left; by left|right; by exists k'].
Qed.

Lemma created_dirs_elem D (l : list Z) (q : string) :
  q ∈ created_dirs D l ↔ ∃ k, k ∈ l ∧ q ∈ D k.
Proof.
  unfold created_dirs. rewrite foldl_dirs_elem, elem_of_empty.
  split; [by intros [[]|?]|by right].
Qed.

Lemma foldl_files_is_Some W (l : list Z)
    (acc : gmap string (Partition.file Row)) (q : string) :
  is_Some (foldl (λ acc k, W k ∪ acc) acc l !! q) ↔
  is_Some (acc !! q) ∨ ∃ k, k ∈ l ∧ is_Some (W k !! q).
Proof.
  revert acc. induction l as [|k l IH]; intros acc; simpl.
  - split; [by left|]. intros [?|(k & Hk & _)]; [done|].
    by apply elem_of_nil in Hk.
  - rewrite IH, lookup_union_is_Some. split.
    + intros [[?|?]|(k' & ? & ?)]; [right; exists k; split; [left|done]
        |by left|right; exists k'; split; [by right|done]].
    + intros [?|(k' & [->|?]%elem_of_cons & ?)]; [left; by right
        |left; by left|right; by exists k'].
Qed.

Lemma created_files_is_Some W (l : list Z) (q : string) :
  is_Some (created_files W l !! q) ↔ ∃ k, k ∈ l ∧ is_Some (W k !! q).
Proof.
  unfold created_files. rewrite foldl_files_is_Some, lookup_empty.
  split; [by intros [[? ?]|?]|by right].
Qed.

Lemma foldl_files_skip W (l : list Z)
    (acc : gmap string (Partition.file Row)) (q : string) :
  (∀ k, k ∈ l → W k !! q = None) →
  foldl (λ acc k, W k ∪ acc) acc l !! q = acc !! q.
Proof.
  revert acc. induction l as [|k l IH]; intros acc Hl; simpl; [done|].
  rewrite IH by (intros; apply Hl; by right).
  apply lookup_union_r, Hl. left.
Qed.

Lemma foldl_files_lookup W (l : list Z)
    (acc : gmap string (Partition.file Row)) (k : Z) (q : string)
    (v : Partition.file Row) :
  k ∈ l → W k !! q = Some v →
  (∀ k', k' ∈ l → k' ≠ k → W k' !! q = None) →
  foldl (λ acc k, W k ∪ acc) acc l !! q = Some v.
Proof.
  revert acc. induction l as [|k0 l IH]; intros acc Hk Hv Hl; simpl.
  { by apply elem_of_nil in Hk. }
  destruct (decide (k ∈ l)) as [Hin|Hin].
  - apply IH; [done..|]. intros. apply Hl; [by right|done].
  - apply elem_of_cons in Hk as [->|?]; [|done].
    rewrite foldl_files_skip.
    + by apply lookup_union_Some_l.
    + intros k' Hk'. apply Hl; [by right|]. by intros ->.
Qed.

Lemma created_files_lookup W (l : list Z) (k : Z) (q : string)
    (v : Partition.file Row) :
  k ∈ l → W k !! q = Some v →
  (∀ k', k' ∈ l → k' ≠ k → W k' !! q = None) →
  created_files W l !! q = Some v.
Proof. apply foldl_files_lookup. Qed.

End Loops.

Lemma list_getitem_Z {A} (l : list A) (k : Z) (x : A) :
  0 ≤ k → l !! Z.to_nat k = Some x → Partition.list_getitem l k = Ok x.
Proof.
  intros Hk Hx. rewrite <-(Z2Nat.id k) by done. by apply list_getitem_nat.
Qed.

Ltac split_names :=
  repeat match goal with
  | H : _ ∈ graph_names _ |- _ => unfold graph_names in H
  | H : _ ∈ feature_names _ _ _ |- _ => unfold feature_names in H
  | H : _ ∈ _ ++ _ |- _ => apply elem_of_app in H as [H|H]
  | H : _ ∈ match Val.cache_feats ?p with _ => _ end |- _ =>
      destruct (Val.cache_feats p) eqn:?
  | H : _ ∈ _ :: _ |- _ => apply elem_of_cons in H as [H|H]
  | H : _ ∈ [] |- _ => by apply elem_of_nil in H
  | H : _ ∨ _ |- _ => destruct H as [H|H]
  | H : ∃ _, _ |- _ => destruct H as [? H]
  | H : _ ∧ _ |- _ => destruct H as [? H]
  end; subst.

(** ** Disks that are laid out as the writers do *)

Section LaidOut.

Context {Row : Type}.
Context (as_str : NodeType + EdgeType → string).
Implicit Types d : Partition.disk Row.
Implicit Types p : Val.FeaturePartitionData Row.

Lemma dir_names_ok (cs : list string) :
  dir_names cs → cs ≠ [] ∧ Forall is_name cs.
Proof. intros (k & grp & Hg & ->). split; [done|]. names; done. Qed.

Lemma file_names_ok (cs : list string) :
  file_names cs → cs ≠ [] ∧ Forall is_name cs.
Proof.
  intros [H|(k & grp & name & Hg & Hn & ->)].
  - split_names; (split; [done|names]).
  - split; [done|]. names; done.
Qed.

Lemma laid_out_start d (out : string) :
  out ∈ Partition.dirs d → nothing_below d out → laid_out d out.
Proof.
  intros Hout Hfresh. split; [done|].
  split; intros q rest Hq ->; left; eapply Hfresh; [|done| |done];
    apply elem_of_entries; [by left|right; by apply elem_of_dom].
Qed.

Lemma laid_out_is_dir d (out : string) :
  laid_out d out → Partition.is_dir d out = true.
Proof. intros [Hout _]. by apply is_dir_in. Qed.

(** No directory lies at the path of a file that the writers create. *)
Lemma laid_out_file_free d (out : string) (cs : list string) :
  laid_out d out → file_names cs →
  Partition.is_dir d (out_path out cs) = false.
Proof.
  intros (Hout & Hd & Hf) Hcs.
  destruct (file_names_ok cs Hcs) as [Hne Hnames].
  destruct (rel_path_is_name cs Hne Hnames) as [Hr _].
  assert (∀ cs', dir_names cs' ∨ file_names cs' → ∀ c cr,
            cs' = cs ++ c :: cr → False) as Hclash.
  { intros cs' Hcs' c cr ->.
    destruct Hcs as [Hcs|(k & grp & name & _ & _ & ->)];
      destruct Hcs' as [(k' & grp' & _ & H)|[H|(k' & grp' & name' & _ & _ & H)]];
      split_names; name_clash. }
  apply is_dir_false.
  - apply is_root_named. by apply out_path_nonempty.
  - intros Hin. destruct (Hd _ (rel_path cs) Hin eq_refl) as [?|(cs' & Hcs' & Heq)];
      [done|].
    destruct (dir_names_ok cs' Hcs') as [Hne' Hnames'].
    apply rel_path_inj in Heq; [|by apply is_name_no_sep..|done|done].
    subst cs'. destruct Hcs' as (k' & grp' & _ & H).
    destruct Hcs as [Hcs|(k & grp & name & _ & _ & ->)];
      split_names; name_clash.
  - intros q Hq [rest Hrest]%below_iff.
    rewrite out_path_sep in Hrest by done. unfold out_path in Hrest.
    rewrite !string_app_assoc in Hrest.
    apply elem_of_entries in Hq as [Hq|Hq%elem_of_dom].
    + destruct (Hd _ _ Hq Hrest) as [He|(cs' & Hcs' & Heq)].
      { by apply string_app_nil in He as [? _]. }
      destruct (dir_names_ok cs' Hcs') as [Hne' Hnames'].
      symmetry in Heq.
      apply rel_path_below in Heq as (c & cr & Heq);
        [|by apply is_name_no_sep..|done|done].
      eapply Hclash; [|exact Heq]. by left.
    + destruct (Hf _ _ Hq Hrest) as [He|(cs' & Hcs' & Heq)].
      { by apply string_app_nil in He as [? _]. }
      destruct (file_names_ok cs' Hcs') as [Hne' Hnames'].
      symmetry in Heq.
      apply rel_path_below in Heq as (c & cr & Heq);
        [|by apply is_name_no_sep..|done|done].
      eapply Hclash; [|exact Heq]. by right.
Qed.

(** No regular file lies at the directory of a partition or of one of its
    groups. *)
Lemma laid_out_no_file d (out : string) (k : Z) (cr : list string) :
  laid_out d out → Forall is_name cr → (length cr ≤ 1)%nat →
  Partition.is_file d (out_path out (part_name k :: cr)) = false.
Proof.
  intros (Hout & Hd & Hf) Hcr Hlen. apply not_true_is_false.
  intros [Hin _]%is_file_spec.
  assert (Forall is_name (part_name k :: cr)) as Hnames.
  { apply Forall_cons_2; [apply part_name_is_name|done]. }
  destruct (rel_path_is_name (part_name k :: cr) ltac:(done) Hnames) as [Hr _].
  destruct (Hf _ (rel_path (part_name k :: cr)) Hin eq_refl)
    as [?|(cs' & Hcs' & Heq)]; [done|].
  destruct (file_names_ok cs' Hcs') as [Hne' Hnames'].
  apply rel_path_inj in Heq; [|by apply is_name_no_sep..|done|done].
  subst cs'. destruct Hcs' as [H|(k' & grp' & name' & _ & _ & H)].
  - split_names; name_clash.
  - apply names_cons_inj in H as [_ ->]. simpl in Hlen. lia.
Qed.

Lemma laid_out_not_blocked d (out : string) (k : Z) (grp : string) :
  laid_out d out → is_name grp →
  Partition.blocked d (out_path out [part_name k; grp]) = false.
Proof.
  intros HI Hg. unfold Partition.blocked.
  rewrite (laid_out_no_file d out k [grp])
    by (done || (by apply Forall_cons_2) || (simpl; lia)).
  change [part_name k; grp] with ([part_name k] ++ [grp]).
  rewrite <-out_path_join; [|done|by names|apply Hg].
  rewrite under_file_join by apply Hg.
  unfold Partition.blocked.
  rewrite (laid_out_no_file d out k []) by (done || simpl; lia).
  rewrite <-out_path_root by apply part_name_is_name.
  rewrite under_file_join by apply part_name_is_name.
  by apply is_dir_not_blocked, laid_out_is_dir.
Qed.

Lemma laid_out_ext d (out : string) (D : gset string)
    (W : gmap string (Partition.file Row)) :
  laid_out d out →
  (∀ q, q ∈ D → ∃ cs, dir_names cs ∧ q = out_path out cs) →
  (∀ q, is_Some (W !! q) → ∃ cs, file_names cs ∧ q = out_path out cs) →
  laid_out {| Partition.dirs := D ∪ Partition.dirs d;
              Partition.files := W ∪ Partition.files d |} out.
Proof.
  intros (Hout & Hd & Hf) HD HW. split_and!; simpl.
  - by apply elem_of_union_r.
  - intros q rest [Hq|Hq]%elem_of_union Heq; [|by eapply Hd].
    destruct (HD q Hq) as (cs & Hcs & ->). right. exists cs. split; [done|].
    unfold out_path in Heq. by apply String.app_inj in Heq.
  - intros q rest [Hq|Hq]%elem_of_dom%lookup_union_is_Some Heq.
    + destruct (HW q Hq) as (cs & Hcs & ->). right. exists cs.
      split; [done|]. unfold out_path in Heq.
      by apply String.app_inj in Heq.
    + eapply Hf; [|done]. by apply elem_of_dom.
Qed.

Lemma laid_out_insert d (out : string) (cs : list string)
    (obj : Partition.file Row) :
  laid_out d out → file_names cs →
  laid_out {| Partition.dirs := Partition.dirs d;
              Partition.files :=
                <[out_path out cs := obj]> (Partition.files d) |} out.
Proof.
  intros (Hout & Hd & Hf) Hcs. split_and!; simpl; [done|done|].
  intros q rest [<-|[_ Hq]]%elem_of_dom%lookup_insert_is_Some Heq.
  - right. exists cs. split; [done|]. unfold out_path in Heq.
    by apply String.app_inj in Heq.
  - eapply Hf; [|done]. by apply elem_of_dom.
Qed.

Lemma laid_out_skip d (out : string) :
  laid_out d out →
  laid_out {| Partition.dirs := ∅ ∪ Partition.dirs d;
              Partition.files := ∅ ∪ Partition.files d |} out.
Proof. intros H. rewrite !(left_id_L ∅ (∪)). by destruct d. Qed.

(** The files of a group of a partition are free on a disk that is laid
    out. *)
Lemma laid_out_can_save d (out : string) (k : Z) (grp : string)
    (names : list string) :
  laid_out d out → is_name grp → Forall is_name names →
  Partition.can_save d (out_path out [part_name k; grp]) names = true.
Proof.
  intros HI Hg Hn. apply can_save_true. split.
  - by apply laid_out_not_blocked.
  - eapply Forall_impl; [exact Hn|]. intros name [Hname Hne]. simpl.
    rewrite out_path_join; [|done|by names|done]. simpl.
    apply laid_out_file_free; [done|]. right. by exists k, grp, name.
Qed.

Lemma feature_file_names_ok p : Forall is_name (feature_file_names p).
Proof.
  rewrite feature_file_names_cases. destruct (Val.cache_feats p); names.
Qed.

Lemma save_feature_partition_laid_out (out : string) (k : Z) p
    (group : string) d :
  laid_out d out → is_name group →
  let subdir := group_dir as_str out k group None in
  let d' := {| Partition.dirs := {[subdir]} ∪ Partition.dirs d;
               Partition.files := feature_files subdir p ∪ Partition.files d |} in
  Partition.save_feature_partition as_str out k p group None d = (Done tt, d') ∧
  laid_out d' out.
Proof.
  intros HI Hg subdir d'. subst d'.
  assert (subdir = out_path out [part_name k; group]) as Hsub.
  { apply group_dir_out_path, Hg. }
  split.
  - apply save_feature_partition_run. fold subdir. rewrite Hsub.
    apply laid_out_can_save; [done..|apply feature_file_names_ok].
  - apply laid_out_ext; [done| |].
    + intros q ->%elem_of_singleton. exists [part_name k; group].
      split; [by exists k, group|done].
    + rewrite Hsub. intros q Hq%feature_files_dom.
      assert (∀ name, is_name name →
        ∃ cs, file_names cs ∧
          path_join (out_path out [part_name k; group]) name = out_path out cs)
        as Hfile.
      { intros name Hn. exists [part_name k; group; name]. split.
        - right. by exists k, group, name.
        - destruct Hn. by rewrite out_path_join; [|done|by names|done]. }
      destruct Hq as [->|[->|[_ [->| ->]]]]; apply Hfile;
        (split; [solve_no_sep|done]).
Qed.

Lemma save_graph_partition_laid_out (out : string) (k : Z)
    (g : GraphPartitionData) d :
  laid_out d out →
  let subdir := graph_dir as_str out k None in
  let d' := {| Partition.dirs := {[subdir]} ∪ Partition.dirs d;
               Partition.files := graph_files subdir g ∪ Partition.files d |} in
  Partition.save_graph_partition as_str out k g None d = (Done tt, d') ∧
  laid_out d' out.
Proof.
  intros HI subdir d'. subst d'.
  assert (is_name "graph") as Hg by (split; [solve_no_sep|done]).
  assert (subdir = out_path out [part_name k; "graph"]) as Hsub.
  { apply group_dir_out_path, Hg. }
  split.
  - apply save_graph_partition_run. fold subdir. rewrite Hsub.
    apply laid_out_can_save; [done..|names].
  - apply laid_out_ext; [done| |].
    + intros q ->%elem_of_singleton. exists [part_name k; "graph"].
      split; [by exists k, "graph"|done].
    + rewrite Hsub. intros q Hq%graph_files_dom.
      assert (∀ name, is_name name →
        ∃ cs, file_names cs ∧
          path_join (out_path out [part_name k; "graph"]) name
          = out_path out cs) as Hfile.
      { intros name Hn. exists [part_name k; "graph"; name]. split.
        - right. by exists k, "graph", name.
        - destruct Hn. by rewrite out_path_join; [|done|by names|done]. }
      revert Hq. rewrite !elem_of_cons.
      intros [->|[->|[->|[]%elem_of_nil]]]; apply Hfile;
        (split; [solve_no_sep|done]).
Qed.

End LaidOut.

(** ** The disk after [partition] *)

Section HomoRun.

Context {Row : Type}.
Context (as_str : NodeType + EdgeType → string).
Context (_partition_node :
  PartitionerBase.t (list Row) → option NodeType →
  result (list tensor * tensor)).
Context (_cache_node :
  PartitionerBase.t (list Row) → option NodeType →
  result (list (option tensor))).
Implicit Types d : Partition.disk Row.
Implicit Types fl : list (option (Val.FeaturePartitionData Row)).

Lemma save_feature_unless_None_run (out : string) fl (group : string)
    (k : Z) d :
  0 ≤ k → (Z.to_nat k < length fl)%nat →
  laid_out d out → is_name group →
  let d' :=
    {| Partition.dirs := feature_list_dirs as_str out group fl k
                         ∪ Partition.dirs d;
       Partition.files := feature_list_files as_str out group fl k
                          ∪ Partition.files d |} in
  Partition.save_feature_unless_None as_str out fl group None k d
  = (Done tt, d') ∧ laid_out d' out.
Proof.
  intros Hk Hlen HI Hg. destruct (lookup_lt_is_Some_2 fl _ Hlen) as [x Hx].
  unfold Partition.save_feature_unless_None, feature_list_dirs,
    feature_list_files.
  rewrite (list_getitem_Z _ _ _ Hk Hx), io_bind_lift_Ok, Hx.
  destruct x as [p|].
  - by apply save_feature_partition_laid_out.
  - split; [|by apply laid_out_skip].
    rewrite !(left_id_L ∅ (∪)). by destruct d.
Qed.

Lemma save_graph_and_feature_run (out : string)
    (graph_list : list GraphPartitionData) fl (k : Z) d :
  0 ≤ k → (Z.to_nat k < length graph_list)%nat →
  (Z.to_nat k < length fl)%nat →
  laid_out d out →
  let d' :=
    {| Partition.dirs :=
         (feature_list_dirs as_str out "edge_feat" fl k
          ∪ {[graph_dir as_str out k None]}) ∪ Partition.dirs d;
       Partition.files :=
         (feature_list_files as_str out "edge_feat" fl k
          ∪ graph_list_files as_str out graph_list k)
         ∪ Partition.files d |} in
  (g ← Partition.io_lift (Partition.list_getitem graph_list k);
   _ ← Partition.save_graph_partition as_str out k g None;
   Partition.save_feature_unless_None as_str out fl "edge_feat" None k) d
  = (Done tt, d') ∧ laid_out d' out.
Proof.
  intros Hk Hlen_g Hlen HI.
  destruct (lookup_lt_is_Some_2 _ _ Hlen_g) as [g Hg].
  rewrite (list_getitem_Z _ _ _ Hk Hg), io_bind_lift_Ok.
  destruct (save_graph_partition_laid_out as_str out k g d HI) as [Hrun HI1].
  rewrite (io_bind_Done _ _ _ _ _ Hrun).
  assert (is_name "edge_feat") as Hgrp by (split; [solve_no_sep|done]).
  destruct (save_feature_unless_None_run out fl "edge_feat" k _ Hk Hlen HI1
              Hgrp) as [Hrun2 HI2].
  rewrite Hrun2. simpl in HI2 |- *.
  unfold graph_list_files. rewrite Hg, !(assoc_L (∪)).
  rewrite !(assoc_L (∪)) in HI2. done.
Qed.

(** A loop followed by the rest of the computation, on a disk that is
    laid out. *)
Lemma io_for_each_then {B} (out : string)
    (body : unit → Z → Partition.IO Row unit)
    (D : Z → gset string) (W : Z → gmap string (Partition.file Row))
    (l : list Z) (k : unit → Partition.IO Row B) d
    (r : io_result B * Partition.disk Row) :
  (∀ x d, x ∈ l → laid_out d out →
     body tt x d
     = (Done tt, {| Partition.dirs := D x ∪ Partition.dirs d;
                    Partition.files := W x ∪ Partition.files d |}) ∧
     laid_out {| Partition.dirs := D x ∪ Partition.dirs d;
                 Partition.files := W x ∪ Partition.files d |} out) →
  laid_out d out →
  (laid_out {| Partition.dirs := created_dirs D l ∪ Partition.dirs d;
               Partition.files := created_files W l ∪ Partition.files d |}
     out →
   k tt {| Partition.dirs := created_dirs D l ∪ Partition.dirs d;
           Partition.files := created_files W l ∪ Partition.files d |} = r) →
  (Partition.io_for_each body tt l ≫= k) d = r.
Proof.
  intros Hbody HI Hk.
  destruct (io_for_each_effect (λ d, laid_out d out) _ _ _ _ Hbody d HI)
    as [Hrun HI'].
  rewrite (io_bind_Done _ _ _ _ _ Hrun). by apply Hk.
Qed.

(** A file written into the output directory, followed by the rest of the
    computation. *)
Lemma write_root_then {B} (out name : string) (obj : Partition.file Row)
    (k : unit → Partition.IO Row B) d (r : io_result B * Partition.disk Row) :
  laid_out d out → name ∈ ["META"; "node_pb.pt"; "edge_pb.pt"] →
  (laid_out {| Partition.dirs := Partition.dirs d;
               Partition.files :=
                 <[path_join out name := obj]> (Partition.files d) |} out →
   k tt {| Partition.dirs := Partition.dirs d;
           Partition.files :=
             <[path_join out name := obj]> (Partition.files d) |} = r) →
  (Partition.write_file obj (path_join out name) ≫= k) d = r.
Proof.
  intros HI Hname Hk.
  assert (is_name name ∧ file_names [name]) as [[Hn Hne] Hf].
  { split.
    - split_names; (split; [solve_no_sep|done]).
    - left. split_names; rewrite !elem_of_cons; tauto. }
  rewrite io_bind_write_in; [| by apply laid_out_is_dir | done | done |].
  - apply Hk. rewrite out_path_root by done. by apply laid_out_insert.
  - rewrite out_path_root by done. by apply laid_out_file_free.
Qed.

Lemma partition_homo_run (self : PartitionerBase.t (list Row))
    (rc : tensor * tensor) (node_ids_list : list tensor) (node_pb : tensor)
    fl_node (graph_list : list GraphPartitionData) (edge_pb : tensor)
    fl_edge d :
  graph self = Homo rc →
  _partition_node self None = Ok (node_ids_list, node_pb) →
  Partition._partition_node_feat _cache_node self node_ids_list None
    = Ok fl_node →
  _partition_graph self (Book node_pb) None = Ok (graph_list, edge_pb) →
  Partition._partition_edge_feat self graph_list None = Ok fl_edge →
  output_dir self ∈ Partition.dirs d →
  nothing_below d (output_dir self) →
  Partition.partition as_str _partition_node _cache_node self None None d
  = (Done tt,
     homo_partitioned as_str (output_dir self) (num_parts self)
       fl_node node_pb graph_list fl_edge edge_pb d).
Proof.
  intros Hhomo Hnode Hnf Hgraph Hef Hout Hfresh.
  pose proof (laid_out_start d _ Hout Hfresh) as HI.
  destruct (partition_node_feat_shape _ _ _ _ _ Hnf) as [Hlen_n _].
  destruct (partition_edge_feat_shape _ _ _ _ Hef) as [Hlen_e _].
  pose proof (partition_graph_length _ _ _ _ _ Hgraph) as Hlen_g.
  unfold Partition.partition.
  assert (data_cls self = "homo") as Hcls by (unfold data_cls; by rewrite Hhomo).
  rewrite Hcls. rewrite decide_False by done.
  assert (∀ k, k ∈ range (num_parts self) →
          0 ≤ k ∧ (Z.to_nat k < Z.to_nat (num_parts self))%nat) as Hrange.
  { intros k Hk. unfold range in Hk. apply elem_of_seqZ in Hk. lia. }
  rewrite Hnode.
  rewrite !io_bind_assoc, io_bind_lift_Ok. cbv beta iota.
  rewrite Hnf.
  rewrite !io_bind_assoc, io_bind_lift_Ok, !io_bind_assoc.
  apply (io_for_each_then (output_dir self) _
       (feature_list_dirs as_str (output_dir self) "node_feat" fl_node)
       (feature_list_files as_str (output_dir self) "node_feat" fl_node));
    [|exact HI|clear HI; intros HI].
  { intros k d0 [? ?]%Hrange HI0.
    apply save_feature_unless_None_run;
      [done|by rewrite Hlen_n|done|split; [solve_no_sep|done]]. }
  unfold Partition.save_node_pb.
  rewrite !io_bind_assoc, io_bind_ret.
  apply write_root_then; [exact HI|rewrite !elem_of_cons; tauto|].
  clear HI; intros HI.
  rewrite !io_bind_assoc, Hgraph, io_bind_lift_Ok. cbv beta iota.
  rewrite !io_bind_assoc, Hef, io_bind_lift_Ok, !io_bind_assoc.
  apply (io_for_each_then (output_dir self) _
       (λ k, feature_list_dirs as_str (output_dir self) "edge_feat" fl_edge k
             ∪ {[graph_dir as_str (output_dir self) k None]})
       (λ k, feature_list_files as_str (output_dir self) "edge_feat" fl_edge k
             ∪ graph_list_files as_str (output_dir self) graph_list k));
    [|exact HI|clear HI; intros HI].
  { intros k d0 [? ?]%Hrange HI0.
    apply save_graph_and_feature_run;
      [done|by rewrite Hlen_g|by rewrite Hlen_e|done]. }
  unfold Partition.save_edge_pb.
  rewrite !io_bind_assoc, io_bind_ret.
  apply write_root_then; [exact HI|rewrite !elem_of_cons; tauto|].
  clear HI; intros HI.
  unfold Partition.save_meta.
  rewrite write_file_in;
    [done|by apply laid_out_is_dir|solve_no_sep|done|].
  rewrite (out_path_root (output_dir self) "META") by solve_no_sep.
  apply laid_out_file_free; [done|]. left. rewrite !elem_of_cons. tauto.
Qed.

End HomoRun.

(** ** What [partition] creates, by name *)

Section Names.

Context {Row : Type}.
Context (as_str : NodeType + EdgeType → string).
Implicit Types fl : list (option (Val.FeaturePartitionData Row)).
Implicit Types p : Val.FeaturePartitionData Row.

Lemma graph_dir_out_path (out : string) (k : Z) :
  graph_dir as_str out k None = out_path out [part_name k; "graph"].
Proof. apply group_dir_out_path. solve_no_sep. Qed.

Lemma graph_names_ok (k : Z) (cs : list string) :
  cs ∈ graph_names k → cs ≠ [] ∧ Forall is_name cs.
Proof. intros H. split_names; (split; [done|names]). Qed.

Lemma feature_names_ok (group : string) (k : Z) p (cs : list string) :
  is_name group → cs ∈ feature_names group k p →
  cs ≠ [] ∧ Forall is_name cs.
Proof.
  intros Hg H. split_names; (split; [done|]);
    repeat (apply Forall_cons_2 || apply Forall_nil_2); try done;
    try apply part_name_is_name; (split; [solve_no_sep|done]).
Qed.

Lemma homo_names_ok (np : Z) fl fl' (cs : list string) :
  homo_names np fl fl' cs → cs ≠ [] ∧ Forall is_name cs.
Proof.
  intros [H|(k & _ & [H|[(p & _ & H)|(p & _ & H)]])].
  - split_names; (split; [done|names]).
  - by eapply graph_names_ok.
  - eapply feature_names_ok; [|done]. split; [solve_no_sep|done].
  - eapply feature_names_ok; [|done]. split; [solve_no_sep|done].
Qed.

Lemma graph_list_files_names (out : string)
    (graph_list : list GraphPartitionData) (k : Z) (q : string) :
  is_Some (graph_list_files (Row:=Row) as_str out graph_list k !! q) →
  ∃ cs, q = out_path out cs ∧ cs ∈ graph_names k.
Proof.
  unfold graph_list_files. destruct (graph_list !! Z.to_nat k) as [g|].
  - rewrite graph_files_dom, graph_dir_out_path.
    rewrite !out_path_join by (done || names || solve_no_sep). simpl.
    unfold graph_names. rewrite !elem_of_cons.
    intros [->|[->|[->|[]%elem_of_nil]]]; eexists; (split; [done|]);
      rewrite !elem_of_cons; tauto.
  - rewrite lookup_empty. by intros [? ?].
Qed.

Lemma feature_list_files_names (out group : string) fl (k : Z) (q : string) :
  is_name group →
  is_Some (feature_list_files as_str out group fl k !! q) →
  ∃ p cs, fl !! Z.to_nat k = Some (Some p) ∧
    q = out_path out cs ∧ cs ∈ feature_names group k p.
Proof.
  intros [Hg Hne]. unfold feature_list_files.
  destruct (fl !! Z.to_nat k) as [[p|]|];
    [|rewrite lookup_empty; by intros [? ?]..].
  rewrite feature_files_dom, group_dir_out_path by done.
  assert (Forall is_name [part_name k; group]).
  { repeat apply Forall_cons_2; [apply part_name_is_name|done|done]. }
  rewrite !out_path_join by (done || solve_no_sep). simpl.
  unfold feature_names.
  intros [->|[->|[[cf Hcf] [->| ->]]]]; exists p; eexists;
    (split; [done|]); (split; [done|]); rewrite ?Hcf;
    rewrite ?elem_of_app, !elem_of_cons; tauto.
Qed.

Lemma feature_list_dirs_names (out group : string) fl (k : Z) (q : string) :
  is_name group →
  q ∈ feature_list_dirs as_str out group fl k →
  ∃ p cs, fl !! Z.to_nat k = Some (Some p) ∧
    q = out_path out cs ∧ cs ∈ feature_names group k p.
Proof.
  intros [Hg Hne]. unfold feature_list_dirs.
  destruct (fl !! Z.to_nat k) as [[p|]|]; [|by intros ?%elem_of_empty..].
  rewrite group_dir_out_path by done.
  intros ->%elem_of_singleton. exists p. eexists. split; [done|].
  split; [done|]. unfold feature_names. apply elem_of_app. left. left.
Qed.

End Names.

(** ** What is on the disk after [partition] *)

Section Layout.

Context {Row : Type}.
Context (as_str : NodeType + EdgeType → string).
Context (out : string) (np : Z).
Context (fl_node fl_edge : list (option (Val.FeaturePartitionData Row))).
Context (node_pb edge_pb : tensor) (graph_list : list GraphPartitionData).
Context (d : Partition.disk Row).

Local Abbreviation d' :=
  (homo_partitioned as_str out np fl_node node_pb graph_list fl_edge edge_pb d).

Lemma elem_of_range (k : Z) : k ∈ range np ↔ 0 ≤ k < np.
Proof. unfold range. rewrite elem_of_seqZ. lia. Qed.

Lemma node_step_names (k : Z) (q : string) :
  k ∈ range np →
  is_Some (feature_list_files as_str out "node_feat" fl_node k !! q) →
  ∃ cs, q = out_path out cs ∧ homo_names np fl_node fl_edge cs.
Proof.
  intros Hk%elem_of_range (p & cs & Hp & -> & Hcs)%feature_list_files_names;
    [|split; [solve_no_sep|done]].
  exists cs. split; [done|]. right. exists k. split; [done|]. right. left.
  by exists p.
Qed.

Lemma edge_step_names (k : Z) (q : string) :
  k ∈ range np →
  is_Some ((feature_list_files as_str out "edge_feat" fl_edge k
            ∪ graph_list_files as_str out graph_list k) !! q) →
  ∃ cs, q = out_path out cs ∧ homo_names np fl_node fl_edge cs.
Proof.
  intros Hk%elem_of_range
    [(p & cs & Hp & -> & Hcs)%feature_list_files_names
    |(cs & -> & Hcs)%graph_list_files_names]%lookup_union_is_Some;
    [| split; [solve_no_sep|done] |].
  - exists cs. split; [done|]. right. exists k. split; [done|]. right. right.
    by exists p.
  - exists cs. split; [done|]. right. exists k. split; [done|]. by left.
Qed.

Lemma homo_partitioned_entries (q : string) :
  q ∈ Partition.entries d' →
  q ∈ Partition.entries d ∨
  ∃ cs, q = out_path out cs ∧ homo_names np fl_node fl_edge cs.
Proof.
  rewrite !elem_of_entries. unfold homo_partitioned. simpl.
  rewrite !elem_of_union, !created_dirs_elem.
  rewrite !lookup_insert_is_Some', !lookup_union_is_Some.
  rewrite !lookup_insert_is_Some', !lookup_union_is_Some.
  rewrite !created_files_is_Some.
  intros [[(k & Hk & Hq)|[(k & Hk & Hq)|Hq]]
         |[<-|[<-|[(k & Hk & Hq)|[<-|[(k & Hk & Hq)|Hq]]]]]].
  - right. apply elem_of_union in Hq as [Hq|Hq].
    + apply feature_list_dirs_names in Hq
        as (p & cs & Hp & -> & Hcs); [|split; [solve_no_sep|done]].
      exists cs. split; [done|]. right. exists k.
      split; [by apply elem_of_range|]. right. right. by exists p.
    + apply elem_of_singleton in Hq as ->. rewrite graph_dir_out_path.
      eexists. split; [done|]. right. exists k.
      split; [by apply elem_of_range|]. left. left.
  - right. apply feature_list_dirs_names in Hq
      as (p & cs & Hp & -> & Hcs); [|split; [solve_no_sep|done]].
    exists cs. split; [done|]. right. exists k.
    split; [by apply elem_of_range|]. right. left. by exists p.
  - left. by left.
  - right. exists ["META"]. split; [apply out_path_root; solve_no_sep|].
    left. left.
  - right. exists ["edge_pb.pt"].
    split; [apply out_path_root; solve_no_sep|]. left. right. right. left.
  - right. by eapply edge_step_names.
  - right. exists ["node_pb.pt"].
    split; [apply out_path_root; solve_no_sep|]. left. right. left.
  - right. by eapply node_step_names.
  - left. by right.
Qed.

Lemma homo_partitioned_absent (cs0 : list string) :
  nothing_below d out → cs0 ≠ [] → Forall is_name cs0 →
  (∀ cs, homo_names np fl_node fl_edge cs →
     cs ≠ cs0 ∧ ¬ ∃ c cr, cs = cs0 ++ c :: cr) →
  Partition.path_exists d' (out_path out cs0) = false.
Proof.
  intros Hfresh Hne Hcs0 Hclash. apply path_exists_false.
  intros q [Hq|(cs & -> & Hcs)]%homo_partitioned_entries.
  - by apply (out_path_fresh d).
  - destruct (homo_names_ok _ _ _ _ Hcs) as [Hne' Hcs'].
    destruct (Hclash cs Hcs) as [Hneq Hpre]. split.
    + by intros ?%out_path_inj.
    + by intros ?%out_path_below.
Qed.

Lemma edge_step_names_of (k : Z) (q : string) :
  is_Some ((feature_list_files as_str out "edge_feat" fl_edge k
            ∪ graph_list_files as_str out graph_list k) !! q) →
  ∃ cs, q = out_path out cs ∧ Forall is_name cs ∧
    (cs ∈ graph_names k ∨
     ∃ p, fl_edge !! Z.to_nat k = Some (Some p) ∧
          cs ∈ feature_names "edge_feat" k p).
Proof.
  intros [(p & cs & Hp & -> & Hcs)%feature_list_files_names
         |(cs & -> & Hcs)%graph_list_files_names]%lookup_union_is_Some;
    [| split; [solve_no_sep|done] |].
  - exists cs. split; [done|]. split; [|right; by exists p].
    eapply feature_names_ok; [|done]. split; [solve_no_sep|done].
  - exists cs. split; [done|]. split; [|by left]. by eapply graph_names_ok.
Qed.

Lemma node_step_names_of (k : Z) (q : string) :
  is_Some (feature_list_files as_str out "node_feat" fl_node k !! q) →
  ∃ cs, q = out_path out cs ∧ Forall is_name cs ∧
    ∃ p, fl_node !! Z.to_nat k = Some (Some p) ∧
         cs ∈ feature_names "node_feat" k p.
Proof.
  intros (p & cs & Hp & -> & Hcs)%feature_list_files_names;
    [|split; [solve_no_sep|done]].
  exists cs. split; [done|]. split; [|by exists p].
  eapply feature_names_ok; [|done]. split; [solve_no_sep|done].
Qed.

(** A file of partition [k] that the loop over the graphs wrote is on
    the disk as the step for partition [k] wrote it. *)
Lemma edge_loop_lookup (k : Z) (cs : list string) :
  k ∈ range np → cs ≠ [] → Forall is_name cs →
  is_Some ((feature_list_files as_str out "edge_feat" fl_edge k
            ∪ graph_list_files as_str out graph_list k)
           !! out_path out (part_name k :: cs)) →
  Partition.files d' !! out_path out (part_name k :: cs)
  = (feature_list_files as_str out "edge_feat" fl_edge k
     ∪ graph_list_files as_str out graph_list k)
    !! out_path out (part_name k :: cs).
Proof.
  intros Hk Hne Hcs [v Hv]. unfold homo_partitioned. simpl.
  assert (Forall is_name (part_name k :: cs)) as Hq.
  { apply Forall_cons_2; [apply part_name_is_name|done]. }
  rewrite !(out_path_root out) by solve_no_sep.
  rewrite !lookup_insert_ne
    by (intros H%out_path_inj; [name_clash|done|done|names|done]).
  rewrite Hv. apply lookup_union_Some_l.
  apply created_files_lookup with k; [done..|].
  intros k' _ Hk'. apply eq_None_not_Some.
  intros (cs' & Hq' & Hcs' & H)%edge_step_names_of.
  apply Hk'.
  split_names; (apply out_path_inj in Hq'; [|done..]); name_clash.
Qed.

Lemma node_loop_lookup (k : Z) (cs : list string) :
  k ∈ range np → cs ≠ [] → Forall is_name cs →
  is_Some (feature_list_files as_str out "node_feat" fl_node k
           !! out_path out (part_name k :: "node_feat" :: cs)) →
  Partition.files d' !! out_path out (part_name k :: "node_feat" :: cs)
  = feature_list_files as_str out "node_feat" fl_node k
    !! out_path out (part_name k :: "node_feat" :: cs).
Proof.
  intros Hk Hne Hcs [v Hv]. unfold homo_partitioned. simpl.
  assert (Forall is_name (part_name k :: "node_feat" :: cs)) as Hq.
  { repeat apply Forall_cons_2;
      [apply part_name_is_name|split; [solve_no_sep|done]|done]. }
  rewrite !(out_path_root out) by solve_no_sep.
  rewrite !lookup_insert_ne
    by (intros H%out_path_inj; [name_clash|done|done|names|done]).
  rewrite lookup_union_r.
  - rewrite lookup_insert_ne
      by (intros H%out_path_inj; [name_clash|done|done|names|done]).
    rewrite Hv. apply lookup_union_Some_l.
    apply created_files_lookup with k; [done..|].
    intros k' _ Hk'. apply eq_None_not_Some.
    intros (cs' & Hq' & Hcs' & H)%node_step_names_of.
    apply Hk'.
    split_names; (apply out_path_inj in Hq'; [|done..]); name_clash.
  - apply eq_None_not_Some.
    intros (k' & _ & (cs' & Hq' & Hcs' & H)%edge_step_names_of)
      %created_files_is_Some.
    split_names; (apply out_path_inj in Hq'; [|done..]); name_clash.
Qed.

Lemma homo_partitioned_meta :
  Partition.files d' !! path_join out "META"
  = Some (Partition.MetaFile
            {| meta_num_parts := np; meta_data_cls := "homo";
               meta_node_types := None; meta_edge_types := None |}).
Proof. unfold homo_partitioned. simpl. by rewrite lookup_insert_eq. Qed.

Lemma homo_partitioned_edge_pb :
  Partition.files d' !! path_join out "edge_pb.pt"
  = Some (Partition.IntFile edge_pb).
Proof.
  unfold homo_partitioned. simpl.
  rewrite lookup_insert_ne
    by (apply file_neq_file; solve_no_sep || done).
  by rewrite lookup_insert_eq.
Qed.

Lemma homo_partitioned_node_pb :
  Partition.files d' !! path_join out "node_pb.pt"
  = Some (Partition.IntFile node_pb).
Proof.
  unfold homo_partitioned. simpl.
  rewrite !lookup_insert_ne
    by (apply file_neq_file; solve_no_sep || done).
  rewrite lookup_union_r; [by rewrite lookup_insert_eq|].
  apply eq_None_not_Some.
  intros (k' & _ & (cs' & Hq' & Hcs' & H)%edge_step_names_of)
    %created_files_is_Some.
  rewrite out_path_root in Hq' by solve_no_sep.
  split_names; (apply out_path_inj in Hq'; [|done|done|names|done]);
    name_clash.
Qed.

Lemma graph_dir_created (k : Z) :
  k ∈ range np → graph_dir as_str out k None ∈ Partition.dirs d'.
Proof.
  intros Hk. unfold homo_partitioned. simpl. apply elem_of_union_l.
  apply created_dirs_elem. exists k. split; [done|].
  apply elem_of_union_r. by apply elem_of_singleton.
Qed.

Lemma node_feat_dir_created (k : Z) p :
  k ∈ range np → fl_node !! Z.to_nat k = Some (Some p) →
  group_dir as_str out k "node_feat" None ∈ Partition.dirs d'.
Proof.
  intros Hk Hp. unfold homo_partitioned. simpl.
  apply elem_of_union_r, elem_of_union_l.
  apply created_dirs_elem. exists k. split; [done|].
  unfold feature_list_dirs. rewrite Hp. by apply elem_of_singleton.
Qed.

Lemma edge_feat_dir_created (k : Z) p :
  k ∈ range np → fl_edge !! Z.to_nat k = Some (Some p) →
  group_dir as_str out k "edge_feat" None ∈ Partition.dirs d'.
Proof.
  intros Hk Hp. unfold homo_partitioned. simpl. apply elem_of_union_l.
  apply created_dirs_elem. exists k. split; [done|].
  apply elem_of_union_l.
  unfold feature_list_dirs. rewrite Hp. by apply elem_of_singleton.
Qed.

(** Everything that [partition] creates lies below the output directory,
    and what is not below it stays as it was. *)
Lemma out_path_below_out (cs : list string) : below out (out_path out cs).
Proof. apply below_iff. by exists (rel_path cs). Qed.

Lemma homo_partitioned_outside (q : string) :
  ¬ below out q → Partition.files d' !! q = Partition.files d !! q.
Proof.
  intros Hq. unfold homo_partitioned. simpl.
  assert (∀ cs, q ≠ out_path out cs) as Hne.
  { intros cs ->. apply Hq, out_path_below_out. }
  rewrite !(out_path_root out) by solve_no_sep.
  rewrite !lookup_insert_ne by (apply not_eq_sym, Hne).
  rewrite lookup_union_r.
  - rewrite lookup_insert_ne by (apply not_eq_sym, Hne).
    apply lookup_union_r, eq_None_not_Some.
    intros (k & _ & (cs & Hcs & _)%node_step_names_of)%created_files_is_Some.
    by apply (Hne cs).
  - apply eq_None_not_Some.
    intros (k & _ & (cs & Hcs & _)%edge_step_names_of)%created_files_is_Some.
    by apply (Hne cs).
Qed.

(** ** Reading the partitions back *)

Lemma load_graph_after (k : Z) (g : GraphPartitionData) :
  k ∈ range np → graph_list !! Z.to_nat k = Some g →
  Partition._load_graph_partition_data (graph_dir as_str out k None) d'
  = (Done (Some g), d').
Proof.
  intros Hk Hg. set (dir := graph_dir as_str out k None).
  assert (dir = out_path out [part_name k; "graph"]) as Hdir
    by apply graph_dir_out_path.
  assert (∀ f v, is_name f →
    graph_files (Row:=Row) dir g !! path_join dir f = Some v →
    Partition.files d' !! path_join dir f = Some v) as Hfile.
  { intros f v Hf Hv. rewrite Hdir, out_path_join by (done || names || apply Hf).
    cbn [app].
    assert (feature_list_files as_str out "edge_feat" fl_edge k
            !! out_path out [part_name k; "graph"; f] = None) as Hnone.
    { apply eq_None_not_Some.
      intros (p & cs & _ & Hq & H)%feature_list_files_names;
        [|split; [solve_no_sep|done]].
      split_names; (apply out_path_inj in Hq; [|done|done|names; apply Hf..]);
        name_clash. }
    assert ((feature_list_files as_str out "edge_feat" fl_edge k
             ∪ graph_list_files as_str out graph_list k)
            !! out_path out [part_name k; "graph"; f] = Some v) as Hstep.
    { rewrite lookup_union_r by done. unfold graph_list_files.
      rewrite Hg. fold dir. rewrite <-Hv, Hdir.
      by rewrite out_path_join by (done || names || apply Hf). }
    rewrite (edge_loop_lookup k ["graph"; f]); [done|done|done| |by eexists].
    repeat apply Forall_cons_2; [split; [solve_no_sep|done]|done|done]. }
  destruct (graph_files_lookup (Row:=Row) dir g) as (Hr & Hc & Hi).
  apply load_graph_partition_run.
  - apply path_exists_entry; [apply graph_dir_nonempty|].
    apply elem_of_entries. left. by apply graph_dir_created.
  - apply Hfile; [split; [solve_no_sep|done]|done].
  - apply Hfile; [split; [solve_no_sep|done]|done].
  - apply Hfile; [split; [solve_no_sep|done]|done].
Qed.

Lemma load_node_feat_after (k : Z)
    (x : option (Val.FeaturePartitionData Row)) :
  nothing_below d out → k ∈ range np →
  fl_node !! Z.to_nat k = Some x →
  (∀ p, x = Some p → Val.cache_feats p = None → Val.cache_ids p = None) →
  Partition._load_feature_partition_data
    (group_dir as_str out k "node_feat" None) d'
  = (Done x, d').
Proof.
  intros Hfresh Hk Hx Hwf.
  set (dir := group_dir as_str out k "node_feat" None).
  assert (dir = out_path out [part_name k; "node_feat"]) as Hdir
    by (apply group_dir_out_path; solve_no_sep).
  assert (∀ f, is_name f →
    path_join dir f = out_path out [part_name k; "node_feat"; f]) as Hjoin.
  { intros f Hf. by rewrite Hdir, out_path_join by (done || names || apply Hf). }
  destruct x as [p|].
  - assert (∀ f v, is_name f →
      feature_files dir p !! path_join dir f = Some v →
      Partition.files d' !! path_join dir f = Some v) as Hfile.
    { intros f v Hf Hv.
      assert (feature_list_files as_str out "node_feat" fl_node k
              !! out_path out [part_name k; "node_feat"; f] = Some v) as Hstep.
      { unfold feature_list_files. rewrite Hx. fold dir.
        by rewrite <-Hjoin. }
      rewrite Hjoin by done.
      rewrite (node_loop_lookup k [f]); [done|done|done| |by eexists].
      by apply Forall_cons_2. }
    destruct (feature_files_lookup dir p) as (Hf & Hi & Hcf & Hci).
    assert (Partition.path_exists d' dir = true) as Hex.
    { apply path_exists_entry; [apply group_dir_nonempty|].
      apply elem_of_entries. left. by eapply node_feat_dir_created. }
    specialize (Hwf _ eq_refl).
    destruct p as [f i [cf|] ci]; simpl in *.
    + apply load_feature_partition_cached; [done|..];
        (apply Hfile; [split; [solve_no_sep|done]|done]).
    + rewrite (Hwf eq_refl).
      apply load_feature_partition_plain; [done|..].
      * apply Hfile; [split; [solve_no_sep|done]|done].
      * apply Hfile; [split; [solve_no_sep|done]|done].
      * left. rewrite Hjoin by (split; [solve_no_sep|done]).
        apply homo_partitioned_absent; [done|done|names|].
        intros cs Hcs. unfold homo_names in Hcs.
        split; [intros ?|intros (c & cr & ?)];
          split_names; name_clash; simplify_eq/=.
  - rewrite Hdir. apply load_feature_partition_absent.
    apply homo_partitioned_absent; [done|done|names|].
    intros cs Hcs. unfold homo_names in Hcs.
    split; [intros ?|intros (c & cr & ?)]; split_names; name_clash.
Qed.

Lemma load_edge_feat_after (k : Z)
    (x : option (Val.FeaturePartitionData Row)) :
  nothing_below d out → k ∈ range np →
  fl_edge !! Z.to_nat k = Some x →
  (∀ p, x = Some p → Val.cache_feats p = None → Val.cache_ids p = None) →
  Partition._load_feature_partition_data
    (group_dir as_str out k "edge_feat" None) d'
  = (Done x, d').
Proof.
  intros Hfresh Hk Hx Hwf.
  set (dir := group_dir as_str out k "edge_feat" None).
  assert (dir = out_path out [part_name k; "edge_feat"]) as Hdir
    by (apply group_dir_out_path; solve_no_sep).
  assert (∀ f, is_name f →
    path_join dir f = out_path out [part_name k; "edge_feat"; f]) as Hjoin.
  { intros f Hf. by rewrite Hdir, out_path_join by (done || names || apply Hf). }
  destruct x as [p|].
  - assert (∀ f v, is_name f →
      feature_files dir p !! path_join dir f = Some v →
      Partition.files d' !! path_join dir f = Some v) as Hfile.
    { intros f v Hf Hv.
      assert ((feature_list_files as_str out "edge_feat" fl_edge k
               ∪ graph_list_files as_str out graph_list k)
              !! out_path out [part_name k; "edge_feat"; f] = Some v)
        as Hstep.
      { apply lookup_union_Some_l. unfold feature_list_files.
        rewrite Hx. fold dir. by rewrite <-Hjoin. }
      rewrite Hjoin by done.
      rewrite (edge_loop_lookup k ["edge_feat"; f]);
        [done|done|done| |by eexists].
      repeat apply Forall_cons_2; [split; [solve_no_sep|done]|done|done]. }
    destruct (feature_files_lookup dir p) as (Hf & Hi & Hcf & Hci).
    assert (Partition.path_exists d' dir = true) as Hex.
    { apply path_exists_entry; [apply group_dir_nonempty|].
      apply elem_of_entries. left. by eapply edge_feat_dir_created. }
    specialize (Hwf _ eq_refl).
    destruct p as [f i [cf|] ci]; simpl in *.
    + apply load_feature_partition_cached; [done|..];
        (apply Hfile; [split; [solve_no_sep|done]|done]).
    + rewrite (Hwf eq_refl).
      apply load_feature_partition_plain; [done|..].
      * apply Hfile; [split; [solve_no_sep|done]|done].
      * apply Hfile; [split; [solve_no_sep|done]|done].
      * left. rewrite Hjoin by (split; [solve_no_sep|done]).
        apply homo_partitioned_absent; [done|done|names|].
        intros cs Hcs. unfold homo_names in Hcs.
        split; [intros ?|intros (c & cr & ?)];
          split_names; name_clash; simplify_eq/=.
  - rewrite Hdir. apply load_feature_partition_absent.
    apply homo_partitioned_absent; [done|done|names|].
    intros cs Hcs. unfold homo_names in Hcs.
    split; [intros ?|intros (c & cr & ?)]; split_names; name_clash.
Qed.

(** The directory of a partition exists after [partition]. *)
Lemma part_dir_created (k : Z) :
  k ∈ range np → Partition.path_exists d' (part_dir out k) = true.
Proof.
  intros Hk. apply (path_exists_above _ _ "graph").
  { by apply path_join_lit_nonempty. }
  apply elem_of_entries. left.
  replace (path_join (part_dir out k) "" +:+ "graph")
    with (graph_dir as_str out k None); [by apply graph_dir_created|].
  unfold graph_dir, group_dir. simpl. apply path_join_lit. solve_no_sep.
Qed.

Lemma load_partition_after (k : Z) (g : GraphPartitionData)
    (nf ef : option (Val.FeaturePartitionData Row)) :
  nothing_below d out → 0 ≤ k < np →
  graph_list !! Z.to_nat k = Some g →
  fl_node !! Z.to_nat k = Some nf →
  fl_edge !! Z.to_nat k = Some ef →
  (∀ p, nf = Some p → Val.cache_feats p = None → Val.cache_ids p = None) →
  (∀ p, ef = Some p → Val.cache_feats p = None → Val.cache_ids p = None) →
  Partition.load_partition as_str out k d'
  = (Done (Partition.LoadedHomo np k (Some g) nf ef node_pb edge_pb), d').
Proof.
  intros Hfresh Hk%elem_of_range Hg Hnf Hef Hwn Hwe.
  unfold Partition.load_partition.
  rewrite (io_bind_read_meta _ _ _ _ homo_partitioned_meta). cbv beta.
  apply elem_of_range in Hk as Hk'. cbn [meta_num_parts meta_data_cls].
  rewrite !bool_decide_eq_true_2 by lia. unfold py_assert.
  rewrite !io_bind_lift_Ok, io_bind_exists.
  pose proof (part_dir_created k Hk) as Hpd. unfold part_dir in Hpd.
  rewrite Hpd, io_bind_lift_Ok. rewrite decide_True by done.
  change (path_join (path_join out ("part" +:+ str_of_int k)) "graph")
    with (graph_dir as_str out k None).
  change (path_join (path_join out ("part" +:+ str_of_int k)) "node_feat")
    with (group_dir as_str out k "node_feat" None).
  change (path_join (path_join out ("part" +:+ str_of_int k)) "edge_feat")
    with (group_dir as_str out k "edge_feat" None).
  rewrite (io_bind_Done _ _ _ _ _ (load_graph_after k g Hk Hg)).
  rewrite (io_bind_Done _ _ _ _ _ (load_node_feat_after k nf Hfresh Hk Hnf Hwn)).
  rewrite (io_bind_Done _ _ _ _ _ (load_edge_feat_after k ef Hfresh Hk Hef Hwe)).
  rewrite (io_bind_read_int _ _ _ _ homo_partitioned_node_pb). cbv beta.
  rewrite (io_bind_read_int _ _ _ _ homo_partitioned_edge_pb). cbv beta.
  done.
Qed.

Lemma load_partition_out_of_range (k : Z) :
  ¬ (0 ≤ k < np) →
  Partition.load_partition as_str out k d' = (Failed (Exn AssertionError), d').
Proof.
  intros Hk. unfold Partition.load_partition.
  rewrite (io_bind_read_meta _ _ _ _ homo_partitioned_meta). cbv beta.
  cbn [meta_num_parts]. unfold py_assert.
  destruct (decide (k >= 0)).
  - rewrite (bool_decide_eq_true_2 (k >= 0)) by lia. rewrite io_bind_lift_Ok.
    by rewrite (bool_decide_eq_false_2 (k < np)) by lia.
  - by rewrite (bool_decide_eq_false_2 (k >= 0)) by lia.
Qed.

End Layout.

(** X21. What [partition] writes is what [load_partition] reads. On a
    homogeneous graph, when the four partitioning steps return
    ([_partition_node], [_partition_node_feat], [_partition_graph] and
    [_partition_edge_feat]), the output directory is on the disk, and
    nothing lies below it yet, [partition] returns, and on the disk it
    leaves, for every partition index [k] from [0] up to [num_parts],
    [load_partition] returns [num_parts], [k], the [k]-th graph
    partition, the [k]-th entries of the two lists of feature partitions
    ([None] where the entry is [None]), and the node and edge partition
    books, and leaves the disk as it is. *)
Theorem partition_then_load_partition {Row}
    (as_str : NodeType + EdgeType → string)
    (_partition_node : PartitionerBase.t (list Row) → option NodeType →
                       result (list tensor * tensor))
    (_cache_node : PartitionerBase.t (list Row) → option NodeType →
                   result (list (option tensor)))
    (self : PartitionerBase.t (list Row)) (rc : tensor * tensor)
    (node_ids_list : list tensor) (node_pb : tensor)
    (node_feat_list : list (option (Val.FeaturePartitionData Row)))
    (graph_list : list GraphPartitionData) (edge_pb : tensor)
    (edge_feat_list : list (option (Val.FeaturePartitionData Row)))
    (d : Partition.disk Row) :
  graph self = Homo rc →
  _partition_node self None = Ok (node_ids_list, node_pb) →
  Partition._partition_node_feat _cache_node self node_ids_list None
    = Ok node_feat_list →
  _partition_graph self (Book node_pb) None = Ok (graph_list, edge_pb) →
  Partition._partition_edge_feat self graph_list None = Ok edge_feat_list →
  output_dir self ∈ Partition.dirs d →
  nothing_below d (output_dir self) →
  ∃ d',
    Partition.partition as_str _partition_node _cache_node self None None d
    = (Done tt, d') ∧
    ∀ k, 0 ≤ k < num_parts self →
      ∃ g nf ef,
        graph_list !! Z.to_nat k = Some g ∧
        node_feat_list !! Z.to_nat k = Some nf ∧
        edge_feat_list !! Z.to_nat k = Some ef ∧
        Partition.load_partition as_str (output_dir self) k d'
        = (Done (Partition.LoadedHomo (num_parts self) k (Some g) nf ef
                   node_pb edge_pb), d').
Proof.
  intros Hhomo Hnode Hnf Hgraph Hef Hout Hfresh.
  destruct (partition_node_feat_shape _ _ _ _ _ Hnf) as [Hlen_n Hwf_n].
  destruct (partition_edge_feat_shape _ _ _ _ Hef) as [Hlen_e Hwf_e].
  pose proof (partition_graph_length _ _ _ _ _ Hgraph) as Hlen_g.
  eexists. split.
  { by eapply partition_homo_run. }
  intros k Hk.
  destruct (lookup_lt_is_Some_2 graph_list (Z.to_nat k)) as [g Hg]; [lia|].
  destruct (lookup_lt_is_Some_2 node_feat_list (Z.to_nat k)) as [nf Hn];
    [lia|].
  destruct (lookup_lt_is_Some_2 edge_feat_list (Z.to_nat k)) as [ef He];
    [lia|].
  exists g, nf, ef. split_and!; [done..|].
  apply load_partition_after; [done..| |].
  - intros p ->. by apply (Forall_lookup_1 _ _ _ _ Hwf_n Hn).
  - intros p ->. by apply (Forall_lookup_1 _ _ _ _ Hwf_e He).
Qed.

Lemma partition_then_load_partition_witness :
  let self : PartitionerBase.t (list (list Z)) :=
    {| PartitionerBase.output_dir := "out";
       PartitionerBase.num_parts := 2;
       PartitionerBase.num_nodes := PartitionerBase.Count 6;
       PartitionerBase.graph :=
         PartitionerBase.Homo ([0; 1; 2; 3; 4; 5], [1; 2; 3; 4; 5; 0]);
       PartitionerBase.node_feat :=
         Some (PartitionerBase.FeatTensor [[0]; [1]; [2]; [3]; [4]; [5]]);
       PartitionerBase.edge_feat := None;
       PartitionerBase.edge_assign_strategy := "by_dst";
       PartitionerBase.chunk_size := 4 |} in
  let partition_node := λ _ _, Ok ([[0; 1; 2]; [3; 4; 5]], cycle6_book) in
  let cache_node := λ _ _, Ok [Some [3]; None] in
  let d : Partition.disk (list Z) :=
    {| Partition.dirs := {["out"]}; Partition.files := ∅ |} in
  ∃ d' g book,
    Partition.partition (λ _, "paper") partition_node cache_node self
      None None d = (Done tt, d') ∧
    Partition.load_partition (λ _, "paper") "out" 0 d'
    = (Done (Partition.LoadedHomo 2 0 (Some g)
               (Some {| Val.feats := [[0]; [1]; [2]]; Val.ids := [0; 1; 2];
                        Val.cache_feats := Some [[3]];
                        Val.cache_ids := Some [3] |})
               None cycle6_book book), d').
Proof.
  intros self partition_node cache_node d.
  destruct (PartitionerBase._partition_graph self (Book cycle6_book) None)
    as [[results book]|e] eqn:Hpg; [|by vm_compute in Hpg].
  destruct (partition_then_load_partition (λ _, "paper") partition_node
              cache_node self _ _ _ _ _ _ _ d
              eq_refl eq_refl eq_refl Hpg eq_refl)
    as (d' & Hrun & Hload).
  - by apply elem_of_singleton.
  - intros q rest [Hq|Hq]%elem_of_entries.
    + simpl in Hq. apply elem_of_singleton in Hq as ->. by destruct rest.
    + simpl in Hq. rewrite lookup_empty in Hq. by destruct Hq.
  - assert (0 ≤ 0 < PartitionerBase.num_parts self) as H0 by (simpl; lia).
    destruct (Hload 0 H0) as (g & nf & ef & Hg & Hn & He & Hl).
    vm_compute in Hn. injection Hn as <-.
    vm_compute in He. injection He as <-.
    exists d', g, book. split; [exact Hrun|exact Hl].
Defined.

(** X22. [partition] stays below the output directory. On a homogeneous
    graph, when the four partitioning steps return, the output directory
    is on the disk and nothing lies below it yet, [partition] returns;
    every directory and file on the disk it leaves was there before or
    lies below the output directory; no directory is removed; and every
    file that does not lie below the output directory holds what it
    held. *)
Theorem partition_stays_below_output_dir {Row}
    (as_str : NodeType + EdgeType → string)
    (_partition_node : PartitionerBase.t (list Row) → option NodeType →
                       result (list tensor * tensor))
    (_cache_node : PartitionerBase.t (list Row) → option NodeType →
                   result (list (option tensor)))
    (self : PartitionerBase.t (list Row)) (rc : tensor * tensor)
    (node_ids_list : list tensor) (node_pb : tensor)
    (node_feat_list : list (option (Val.FeaturePartitionData Row)))
    (graph_list : list GraphPartitionData) (edge_pb : tensor)
    (edge_feat_list : list (option (Val.FeaturePartitionData Row)))
    (d : Partition.disk Row) :
  graph self = Homo rc →
  _partition_node self None = Ok (node_ids_list, node_pb) →
  Partition._partition_node_feat _cache_node self node_ids_list None
    = Ok node_feat_list →
  _partition_graph self (Book node_pb) None = Ok (graph_list, edge_pb) →
  Partition._partition_edge_feat self graph_list None = Ok edge_feat_list →
  output_dir self ∈ Partition.dirs d →
  nothing_below d (output_dir self) →
  ∃ d',
    Partition.partition as_str _partition_node _cache_node self None None d
    = (Done tt, d') ∧
    (∀ q, q ∈ Partition.entries d' →
       q ∈ Partition.entries d ∨ below (output_dir self) q) ∧
    Partition.dirs d ⊆ Partition.dirs d' ∧
    (∀ q, ¬ below (output_dir self) q →
       Partition.files d' !! q = Partition.files d !! q).
Proof.
  intros Hhomo Hnode Hnf Hgraph Hef Hout Hfresh.
  eexists. split; [by eapply partition_homo_run|]. split_and!.
  - intros q [Hq|(cs & -> & _)]%homo_partitioned_entries; [by left|right].
    apply out_path_below_out.
  - intros q Hq. unfold homo_partitioned. simpl.
    by do 2 apply elem_of_union_r.
  - apply homo_partitioned_outside.
Qed.

Lemma partition_stays_below_output_dir_witness :
  let self : PartitionerBase.t (list (list Z)) :=
    {| PartitionerBase.output_dir := "out";
       PartitionerBase.num_parts := 2;
       PartitionerBase.num_nodes := PartitionerBase.Count 6;
       PartitionerBase.graph :=
         PartitionerBase.Homo ([0; 1; 2; 3; 4; 5], [1; 2; 3; 4; 5; 0]);
       PartitionerBase.node_feat := None;
       PartitionerBase.edge_feat := None;
       PartitionerBase.edge_assign_strategy := "by_src";
       PartitionerBase.chunk_size := 4 |} in
  let partition_node := λ _ _, Ok ([[0; 1; 2]; [3; 4; 5]], cycle6_book) in
  let cache_node := λ _ _, Ok [None; None] in
  let d : Partition.disk (list Z) :=
    {| Partition.dirs := {["out"]};
       Partition.files :=
         {["outside/META" :=
             Partition.MetaFile
               {| meta_num_parts := 3; meta_data_cls := "hetero";
                  meta_node_types := None; meta_edge_types := None |}]} |} in
  ∃ d',
    Partition.partition (λ _, "paper") partition_node cache_node self
      None None d = (Done tt, d') ∧
    Partition.files d' !! "outside/META" = Partition.files d !! "outside/META".
Proof.
  intros self partition_node cache_node d.
  destruct (PartitionerBase._partition_graph self (Book cycle6_book) None)
    as [[results book]|e] eqn:Hpg; [|by vm_compute in Hpg].
  destruct (partition_stays_below_output_dir (λ _, "paper") partition_node
              cache_node self _ _ _ _ _ _ _ d
              eq_refl eq_refl eq_refl Hpg eq_refl)
    as (d' & Hrun & _ & _ & Hfiles).
  - by apply elem_of_singleton.
  - intros q rest [Hq|Hq]%elem_of_entries.
    + simpl in Hq. apply elem_of_singleton in Hq as ->. by destruct rest.
    + simpl in Hq. apply lookup_singleton_is_Some in Hq as <-.
      intros Heq. vm_compute in Heq. discriminate Heq.
  - exists d'. split; [exact Hrun|]. apply Hfiles. compute_done.
Defined.
